(** * Redwood storage engine: DWAL pager, FIFO queues, versioned B-tree, KV facade

    A shallow embedding of [fdbserver/VersionedBTree.actor.cpp].  The Flow
    actors of the source are single-threaded coroutines; they are embedded as
    functions in a state-and-error monad over the object they mutate.  An
    actor that the source merely schedules (a queued [write_impl], the
    background [undoRemaps]) is kept as pending work in the state and run
    where the source awaits it. *)

From Stdlib Require Import ZArith Lia String Ascii OrderedTypeEx.
From stdpp Require Import base option list sorting gmap strings.

Local Open Scope Z_scope.

(** ** Basic types *)

Abbreviation LogicalPageID := Z (only parsing).
Abbreviation PhysicalPageID := Z (only parsing).
Abbreviation Version := Z (only parsing).
Abbreviation Key := string (only parsing).
(** A value is a byte string; in the record of an internal B-tree page it is
    an array of [LogicalPageID]s, one list element per identifier. *)
Abbreviation ValueRef := (list Z) (only parsing).

(** Modelled from the spec: the constant [invalidLogicalPageID] is declared in
    IPager.h, which is not among the sources; the spec reserves the value 0. *)
Definition invalidLogicalPageID : Z := 0.

Definition smallestPhysicalBlock : Z := 4096.

(** ** Errors and the state monad of an actor *)

Inductive Error : Type :=
  | io_error
  | io_error_injected
  | checksum_failed
  | internal_error
  | version_invalid
  | transaction_too_old
  | assertion_failed
  | fuel_exhausted.

Inductive Result (A : Type) : Type :=
  | Ok (a : A)
  | Err (e : Error).
Arguments Ok {A} a.
Arguments Err {A} e.

Definition M (S A : Type) : Type := S -> Result A * S.

Definition ret {S A} (a : A) : M S A := fun s => (Ok a, s).

Definition bind {S A B} (m : M S A) (k : A -> M S B) : M S B :=
  fun s => match m s with
           | (Ok a, s') => k a s'
           | (Err e, s') => (Err e, s')
           end.

Definition throw {S A} (e : Error) : M S A := fun s => (Err e, s).
Definition gets {S A} (f : S -> A) : M S A := fun s => (Ok (f s), s).
Definition modify {S} (f : S -> S) : M S unit := fun s => (Ok tt, f s).


(** [ASSERT(b)] of the source *)
Definition ASSERT {S} (b : bool) : M S unit :=
  if b then ret tt else throw assertion_failed.

Declare Scope actor_scope.
Delimit Scope actor_scope with actor.
Notation "x <~ m ;; k" := (bind m (fun x => k))
  (at level 100, m at next level, right associativity) : actor_scope.
Notation "m ;;; k" := (bind m (fun _ => k))
  (at level 100, right associativity) : actor_scope.
Local Open Scope actor_scope.

(** Run an actor written against a component [P] inside a larger object [S]. *)
Definition lift {S P A} (get : S -> P) (set : P -> S -> S) (m : M P A) : M S A :=
  fun s => let '(r, p) := m (get s) in (r, set p s).

(** A field of an object, read and updated in place. *)
Record Lens (S T : Type) : Type := mkLens {
  view : S -> T;
  over : (T -> T) -> S -> S }.
Arguments mkLens {S T} _ _.
Arguments view {S T} _ _.
Arguments over {S T} _ _ _.

Definition lens_id {S} : Lens S S := mkLens (fun s => s) (fun f s => f s).
Definition lens_comp {S T U} (a : Lens S T) (b : Lens T U) : Lens S U :=
  mkLens (fun s => view b (view a s)) (fun f => over a (over b f)).

Definition liftL {S P A} (l : Lens S P) (m : M P A) : M S A :=
  fun s => let '(r, p) := m (view l s) in (r, over l (fun _ => p) s).

(** An actor respects the relation [R] when every run of it, successful or
    not, takes a state to one related to it. *)
Definition preserves {S : Type} (R : S -> S -> Prop) {A} (m : M S A) : Prop :=
  forall s r s', m s = (r, s') -> R s s'.

(** a relation on objects, taken to objects paired with something else *)
Definition onFirst {S C} (R : S -> S -> Prop) (a b : S * C) : Prop := R (fst a) (fst b).

(** the part [f] of the state is the same in two states *)
Definition unchanged {S A} (f : S -> A) (s s' : S) : Prop := f s' = f s.

(** ** Pages *)

(** Queue state as stored in the header ([FIFOQueue::QueueState]). *)
Module QueueState.
Record t : Type := mk {
    headPageID : LogicalPageID;
    tailPageID : LogicalPageID;
    headOffset : Z;
    numPages : Z;
    numEntries : Z }.
#[global] Instance eq_dec : EqDecision t.
Proof. solve_decision. Defined.
End QueueState.

(** A queue page ([FIFOQueue::Cursor::RawPage]).  The payload that follows
    the page header is kept as a map from the byte offset of an item to the
    item's serialized fields. *)
Module RawPage.
Record t : Type := mk {
    nextPageID : LogicalPageID;
    nextOffset : Z;
    endOffset : Z;
    data : gmap Z (list Z) }.
#[global] Instance eq_dec : EqDecision t.
Proof. solve_decision. Defined.

  (** a page buffer initialised as a new tail page: [setNext(0, 0)],
      [endOffset = 0] *)
Definition empty : t := mk 0 0 0 ∅.
Definition setNext (pageID : LogicalPageID) (offset : Z) (p : t) : t :=
    mk pageID offset (endOffset p) (data p).
  (** [Codec::writeToBytes(p->begin() + offset, item)] followed by
      [p->endOffset = newEnd] *)
Definition writeAt (offset : Z) (bytes : list Z) (newEnd : Z) (p : t) : t :=
    mk (nextPageID p) (nextOffset p) newEnd (<[offset := bytes]> (data p)).
End RawPage.

(** The B-tree's header, stored in the pager's meta key
    ([VersionedBTree::MetaKey]). *)
Module MetaKey.
Record t : Type := mk {
    formatVersion : Z;
    height : Z;
    lazyDeleteQueue : QueueState.t;
    root : list LogicalPageID }.
#[global] Instance eq_dec : EqDecision t.
Proof. solve_decision. Defined.
Definition FORMAT_VERSION : Z := 7.
End MetaKey.

(** The pager header of page 0 ([DWALPager::Header]); an empty meta key is
    [None]. *)
Module Header.
Record t : Type := mk {
    formatVersion : Z;
    pageSize : Z;
    pageCount : Z;
    freeList : QueueState.t;
    delayedFreeList : QueueState.t;
    remapQueue : QueueState.t;
    committedVersion : Version;
    oldestVersion : Version;
    metaKey : option MetaKey.t }.
#[global] Instance eq_dec : EqDecision t.
Proof. solve_decision. Defined.
Definition FORMAT_VERSION : Z := 2.

Definition set_pageSize (x : Z) (h : t) : t :=
    mk (formatVersion h) x (pageCount h) (freeList h) (delayedFreeList h)
       (remapQueue h) (committedVersion h) (oldestVersion h) (metaKey h).
Definition set_pageCount (x : Z) (h : t) : t :=
    mk (formatVersion h) (pageSize h) x (freeList h) (delayedFreeList h)
       (remapQueue h) (committedVersion h) (oldestVersion h) (metaKey h).
Definition set_queues (f d r : QueueState.t) (h : t) : t :=
    mk (formatVersion h) (pageSize h) (pageCount h) f d r
       (committedVersion h) (oldestVersion h) (metaKey h).
Definition set_committedVersion (x : Version) (h : t) : t :=
    mk (formatVersion h) (pageSize h) (pageCount h) (freeList h)
       (delayedFreeList h) (remapQueue h) x (oldestVersion h) (metaKey h).
Definition set_oldestVersion (x : Version) (h : t) : t :=
    mk (formatVersion h) (pageSize h) (pageCount h) (freeList h)
       (delayedFreeList h) (remapQueue h) (committedVersion h) x (metaKey h).
Definition set_metaKey (x : option MetaKey.t) (h : t) : t :=
    mk (formatVersion h) (pageSize h) (pageCount h) (freeList h)
       (delayedFreeList h) (remapQueue h) (committedVersion h)
       (oldestVersion h) x.
End Header.

Module RedwoodRecordRef.
Record t : Type := mk {
    key : Key;
    version : Version;
    value : option ValueRef }.
#[global] Instance eq_dec : EqDecision t.
Proof. solve_decision. Defined.
End RedwoodRecordRef.

(** Modelled from the spec: [DeltaTree] (DeltaTree.h) is not among the
    sources.  The spec describes it as an in-page sorted container whose
    in-order traversal returns the sequence it was built from; a page keeps
    that sequence in [tree]. *)
Module BTreePage.
Record t : Type := mk {
    height : Z;
    kvBytes : Z;
    tree : list RedwoodRecordRef.t }.
#[global] Instance eq_dec : EqDecision t.
Proof. solve_decision. Defined.
Definition isLeaf (p : t) : bool := height p =? 1.
End BTreePage.

(** The content of a page buffer ([IPage]) without its checksum.  A B-tree
    page that spans several pager pages is cut into blocks; block [n] of a
    page keeps the page and its index. *)
Inductive IPage : Type :=
  | PageBlank
  | PageHeader (h : Header.t)
  | PageQueue (p : RawPage.t)
  | PageBTree (p : BTreePage.t) (block : nat).

#[global] Instance IPage_eq_dec : EqDecision IPage.
Proof. solve_decision. Defined.

(** [raw()]: the buffer of a queue cursor seen as a [RawPage]; a buffer that
    holds something else has no items. *)
Definition asRawPage (p : IPage) : RawPage.t :=
  match p with
  | PageQueue r => r
  | _ => RawPage.empty
  end.

(** ** FIFO queue *)

(** Requirements of [FIFOQueue] on its item type: the codec
    ([FIFOQueueCodec<T>]) and [operator<]. *)
Class FIFOQueueCodec (T : Type) : Type := {
  readFromBytes : list Z -> T;
  bytesNeeded : T -> Z;
  writeToBytes : T -> list Z;
  item_lt : T -> T -> bool }.

(** The free list holds page identifiers ([LogicalPageQueueT]). *)
#[global] Instance LogicalPageID_codec : FIFOQueueCodec Z := {
  readFromBytes b := match b with [x] => x | _ => 0 end;
  bytesNeeded _ := 8;
  writeToBytes x := [x];
  item_lt := Z.ltb }.

Module DelayedFreePage.
Record t : Type := mk {
  version : Version;
  pageID : LogicalPageID }.
#[global] Instance eq_dec : EqDecision t.
Proof. solve_decision. Defined.
(** [operator<] compares versions only *)
#[global] Instance codec : FIFOQueueCodec t := {
  readFromBytes b := match b with [v; p] => mk v p | _ => mk 0 0 end;
  bytesNeeded _ := 16;
  writeToBytes x := [version x; pageID x];
  item_lt a b := version a <? version b }.
End DelayedFreePage.

Module RemappedPage.
Record t : Type := mk {
  version : Version;
  originalPageID : LogicalPageID;
  newPageID : LogicalPageID }.
#[global] Instance eq_dec : EqDecision t.
Proof. solve_decision. Defined.
#[global] Instance codec : FIFOQueueCodec t := {
  readFromBytes b := match b with [v; o; n] => mk v o n | _ => mk 0 0 0 end;
  bytesNeeded _ := 24;
  writeToBytes x := [version x; originalPageID x; newPageID x];
  item_lt a b := version a <? version b }.
End RemappedPage.

(** [VersionedBTree::LazyDeleteQueueEntry]: a version, a one-byte count and
    the page identifiers. *)
Module LazyDeleteQueueEntry.
Record t : Type := mk {
  version : Version;
  pageID : list LogicalPageID }.
#[global] Instance eq_dec : EqDecision t.
Proof. solve_decision. Defined.
#[global] Instance codec : FIFOQueueCodec t := {
  readFromBytes b :=
    match b with
    | v :: count :: ids => mk v (take (Z.to_nat count) ids)
    | _ => mk 0 []
    end;
  bytesNeeded x := 8 + 1 + Z.of_nat (length (pageID x)) * 8;
  writeToBytes x := version x :: Z.of_nat (length (pageID x)) :: pageID x;
  item_lt a b := version a <? version b }.
End LazyDeleteQueueEntry.

Inductive Mode : Type := NONE | POP | READONLY | WRITE.
#[global] Instance Mode_eq_dec : EqDecision Mode.
Proof. solve_decision. Defined.

(** [FIFOQueue::Cursor].  [operation] is the chain of [write_impl] actors that
    [write] has started on the cursor and that have not run yet, oldest
    first; each is kept as the size and the serialized fields of its item. *)
Module Cursor.
Record t : Type := mk {
  mode : Mode;
  pageID : LogicalPageID;
  firstPageIDWritten : LogicalPageID;
  offset : Z;
  endPageID : LogicalPageID;
  page : option RawPage.t;
  operation : list (Z * list Z) }.

Definition set_pageID (x : LogicalPageID) (c : t) : t :=
  mk (mode c) x (firstPageIDWritten c) (offset c) (endPageID c) (page c) (operation c).
Definition set_firstPageIDWritten (x : LogicalPageID) (c : t) : t :=
  mk (mode c) (pageID c) x (offset c) (endPageID c) (page c) (operation c).
Definition set_offset (x : Z) (c : t) : t :=
  mk (mode c) (pageID c) (firstPageIDWritten c) x (endPageID c) (page c) (operation c).
Definition set_endPageID (x : LogicalPageID) (c : t) : t :=
  mk (mode c) (pageID c) (firstPageIDWritten c) (offset c) x (page c) (operation c).
Definition set_page (x : option RawPage.t) (c : t) : t :=
  mk (mode c) (pageID c) (firstPageIDWritten c) (offset c) (endPageID c) x (operation c).
Definition set_operation (x : list (Z * list Z)) (c : t) : t :=
  mk (mode c) (pageID c) (firstPageIDWritten c) (offset c) (endPageID c) (page c) x.

(** [init]: a POP or READONLY cursor starts at [initialPageID] (its page is
    loaded when first read); a WRITE cursor given a page starts a new empty
    buffer for it, which is what [addNewPage(initialPageID, 0, true)] does on
    a cursor without a buffer. *)
Definition init (m : Mode) (initialPageID : LogicalPageID) (readOffset : Z)
    (endPage : LogicalPageID) : t :=
  match m with
  | POP | READONLY =>
      mk m initialPageID invalidLogicalPageID readOffset endPage None []
  | WRITE =>
      if initialPageID =? invalidLogicalPageID
      then mk m invalidLogicalPageID invalidLogicalPageID readOffset endPage None []
      else mk m initialPageID invalidLogicalPageID 0 endPage (Some RawPage.empty) []
  | NONE =>
      mk m invalidLogicalPageID invalidLogicalPageID readOffset endPage None []
  end.

(** [initReadOnly]: a read cursor initialised from a pop cursor *)
Definition initReadOnly (c : t) : t :=
  init READONLY (pageID c) (offset c) (endPageID c).

(** [pendingWrites()]: any items have been written to the last page *)
Definition pendingWrites (c : t) : bool :=
  bool_decide (mode c = WRITE) && negb (offset c =? 0).

(** [write]: start a [write_impl] behind the cursor's previous operation *)
Definition write {T} `{FIFOQueueCodec T} (item : T) (c : t) : t :=
  set_operation (operation c ++ [(bytesNeeded item, writeToBytes item)]) c.
End Cursor.

Module FIFOQueue.
Record t : Type := mk {
  numPages : Z;
  numEntries : Z;
  dataBytesPerPage : Z;
  headReader : Cursor.t;
  tailWriter : Cursor.t;
  headWriter : Cursor.t;
  newTailPage : LogicalPageID }.

Definition set_numPages (x : Z) (q : t) : t :=
  mk x (numEntries q) (dataBytesPerPage q) (headReader q) (tailWriter q) (headWriter q) (newTailPage q).
Definition set_numEntries (x : Z) (q : t) : t :=
  mk (numPages q) x (dataBytesPerPage q) (headReader q) (tailWriter q) (headWriter q) (newTailPage q).
Definition set_headReader (x : Cursor.t) (q : t) : t :=
  mk (numPages q) (numEntries q) (dataBytesPerPage q) x (tailWriter q) (headWriter q) (newTailPage q).
Definition set_tailWriter (x : Cursor.t) (q : t) : t :=
  mk (numPages q) (numEntries q) (dataBytesPerPage q) (headReader q) x (headWriter q) (newTailPage q).
Definition set_headWriter (x : Cursor.t) (q : t) : t :=
  mk (numPages q) (numEntries q) (dataBytesPerPage q) (headReader q) (tailWriter q) x (newTailPage q).
Definition set_newTailPage (x : LogicalPageID) (q : t) : t :=
  mk (numPages q) (numEntries q) (dataBytesPerPage q) (headReader q) (tailWriter q) (headWriter q) x.

Definition headReaderL : Lens t Cursor.t :=
  mkLens headReader (fun f q => set_headReader (f (headReader q)) q).
Definition tailWriterL : Lens t Cursor.t :=
  mkLens tailWriter (fun f q => set_tailWriter (f (tailWriter q)) q).
Definition headWriterL : Lens t Cursor.t :=
  mkLens headWriter (fun f q => set_headWriter (f (headWriter q)) q).

(** [sizeof(RawPage)]: an identifier and two 16-bit offsets *)
Definition sizeofRawPage : Z := 12.

(** [create]: a new queue at [newPageID] *)
Definition create (usablePageSize : Z) (newPageID : LogicalPageID) : t :=
  mk 1 0 (usablePageSize - sizeofRawPage)
     (Cursor.init POP newPageID 0 newPageID)
     (Cursor.init WRITE newPageID 0 invalidLogicalPageID)
     (Cursor.init WRITE invalidLogicalPageID 0 invalidLogicalPageID)
     invalidLogicalPageID.

(** [recover]: load an existing queue from its queue state *)
Definition recover (usablePageSize : Z) (qs : QueueState.t) : t :=
  mk (QueueState.numPages qs) (QueueState.numEntries qs)
     (usablePageSize - sizeofRawPage)
     (Cursor.init POP (QueueState.headPageID qs) (QueueState.headOffset qs)
        (QueueState.tailPageID qs))
     (Cursor.init WRITE (QueueState.tailPageID qs) 0 invalidLogicalPageID)
     (Cursor.init WRITE invalidLogicalPageID 0 invalidLogicalPageID)
     invalidLogicalPageID.

Definition getState (q : t) : QueueState.t :=
  QueueState.mk (Cursor.pageID (headReader q)) (Cursor.pageID (tailWriter q))
    (Cursor.offset (headReader q)) (numPages q) (numEntries q).

Definition pushBack {T} `{FIFOQueueCodec T} (item : T) (q : t) : t :=
  set_tailWriter (Cursor.write item (tailWriter q)) q.

Definition pushFront {T} `{FIFOQueueCodec T} (item : T) (q : t) : t :=
  set_headWriter (Cursor.write item (headWriter q)) q.

(** [busy()]: an operation started on a cursor has not finished.  Reads are
    run where they are started, so only writes can be outstanding. *)
Definition busy (q : t) : bool :=
  negb (bool_decide (Cursor.operation (headWriter q) = []))
  || negb (bool_decide (Cursor.operation (tailWriter q) = [])).

(** where the head reader stands and how many entries the queue counts: what
    a pop changes *)
Definition position (q : t) : LogicalPageID * Z * Z :=
  (Cursor.pageID (headReader q), Cursor.offset (headReader q), numEntries q).

(** *** Reading: [readNext_impl], [pop], [peekAll] *)
Section Read.
Context {S T : Type} `{FIFOQueueCodec T}.
(** the queue the cursor belongs to, the cursor, and the pager operations a
    read cursor uses (the queue's [IPager2* pager]) *)
Variable qL : Lens S t.
Variable cL : Lens S Cursor.t.
Variable readPage : LogicalPageID -> bool -> M S IPage.
Variable freePage : LogicalPageID -> Version -> M S unit.

Definition loadPage : M S unit :=
  c <~ gets (view cL);;
  p <~ readPage (Cursor.pageID c) true;;
  modify (over cL (Cursor.set_page (Some (asRawPage p)))).

Definition exceeds (upperBound : option T) (result : T) : bool :=
  match upperBound with
  | Some ub => item_lt ub result
  | None => false
  end.

(** Read the next item at the cursor (if <= upperBound), moving to a new page
    first if the current page is exhausted. *)
Definition readNext_impl (upperBound : option T) : M S (option T) :=
  c <~ gets (view cL);;
  ASSERT (bool_decide (Cursor.mode c = POP) || bool_decide (Cursor.mode c = READONLY));;;
  if (Cursor.pageID c =? invalidLogicalPageID) || (Cursor.pageID c =? Cursor.endPageID c)
  then ret None
  else
    (match Cursor.page c with
     | None => loadPage
     | Some _ => ret tt
     end);;;
    c <~ gets (view cL);;
    let p := default RawPage.empty (Cursor.page c) in
    ASSERT (Cursor.offset c <? RawPage.endOffset p);;;
    let result : T := readFromBytes (default [] (RawPage.data p !! Cursor.offset c)) in
    let bytesRead := bytesNeeded result in
    if exceeds upperBound result then ret None
    else
      modify (over cL (Cursor.set_offset (Cursor.offset c + bytesRead)));;;
      (if bool_decide (Cursor.mode c = POP)
       then modify (over qL (fun q => set_numEntries (numEntries q - 1) q))
       else ret tt);;;
      ASSERT (Cursor.offset c + bytesRead <=? RawPage.endOffset p);;;
      (if Cursor.offset c + bytesRead =? RawPage.endOffset p
       then
         let oldPageID := Cursor.pageID c in
         modify (over cL (fun c =>
           Cursor.set_page None
             (Cursor.set_offset (RawPage.nextOffset p)
               (Cursor.set_pageID (RawPage.nextPageID p) c))));;;
         if bool_decide (Cursor.mode c = POP)
         then
           modify (over qL (fun q => set_numPages (numPages q - 1) q));;;
           (* Freeing the old page must happen after advancing the cursor and
              clearing the page reference *)
           freePage oldPageID 0
         else ret tt
       else ret tt);;;
      ret (Some result).

(** Read and move past the next item if it is <= upperBound or if upperBound
    is not present *)
Definition readNext (upperBound : option T) : M S (option T) :=
  c <~ gets (view cL);;
  if bool_decide (Cursor.mode c = NONE) then ret None
  else readNext_impl upperBound.
End Read.

Definition fstL {A B} : Lens (A * B) A :=
  mkLens fst (fun f x => (f (fst x), snd x)).
Definition sndL {A B} : Lens (A * B) B :=
  mkLens snd (fun f x => (fst x, f (snd x))).

(** [peekAll_impl]: read every flushed item through a read-only cursor [c]
    local to the actor; the state of the loop is the object together with
    that cursor. *)
Section PeekAll.
Context {S T : Type} `{FIFOQueueCodec T}.
Variable qL : Lens S t.
Variable readPage : LogicalPageID -> bool -> M S IPage.
Variable freePage : LogicalPageID -> Version -> M S unit.

Fixpoint peekAll_loop (fuel : nat) (results : list T) : M (S * Cursor.t) (list T) :=
  match fuel with
  | O => throw fuel_exhausted
  | Datatypes.S fuel' =>
      x <~ readNext (lens_comp fstL qL) sndL
             (fun id c => liftL fstL (readPage id c))
             (fun id v => liftL fstL (freePage id v)) None;;
      match x with
      | None => ret results
      | Some x => peekAll_loop fuel' (results ++ [x])
      end
  end.

Definition peekAll_impl (fuel : nat) : M S (list T) := fun s =>
  let c := Cursor.initReadOnly (headReader (view qL s)) in
  let '(r, (s', _)) := peekAll_loop fuel [] (s, c) in (r, s').
End PeekAll.

(** *** Writing: [write_impl], [preFlush], [finishFlush], [flush] *)
Section Write.
Context {S : Type}.
Variable qL : Lens S t.
Variable newPageID : M S LogicalPageID.
Variable updatePage : LogicalPageID -> IPage -> M S unit.

Section OnCursor.
Variable wL : Lens t Cursor.t.
Let cL : Lens S Cursor.t := lens_comp qL wL.

Definition writePage : M S unit :=
  c <~ gets (view cL);;
  ASSERT (bool_decide (Cursor.mode c = WRITE));;;
  updatePage (Cursor.pageID c) (PageQueue (default RawPage.empty (Cursor.page c)));;;
  if Cursor.firstPageIDWritten c =? invalidLogicalPageID
  then modify (over cL (Cursor.set_firstPageIDWritten (Cursor.pageID c)))
  else ret tt.

(** Link the current page to newPageID:newOffset and then write it to the
    pager.  If initializeNewPage is true a page buffer is allocated for the
    new page and initialized as a new tail page. *)
Definition addNewPage (newPage : LogicalPageID) (newOffset : Z) (initializeNewPage : bool) : M S unit :=
  c <~ gets (view cL);;
  ASSERT (bool_decide (Cursor.mode c = WRITE));;;
  ASSERT (negb (newPage =? invalidLogicalPageID));;;
  (* Update existing page and write, if it exists *)
  (match Cursor.page c with
   | Some p =>
       modify (over cL (Cursor.set_page (Some (RawPage.setNext newPage newOffset p))));;;
       writePage
   | None => ret tt
   end);;;
  modify (over cL (fun c => Cursor.set_offset newOffset (Cursor.set_pageID newPage c)));;;
  if initializeNewPage
  then modify (over cL (Cursor.set_page (Some RawPage.empty)));;;
       ASSERT (newOffset =? 0)
  else modify (over cL (Cursor.set_page None)).

(** Write item to the next position in the current page or, if it won't fit,
    add a new page and write it there. *)
Definition write_impl (item : Z * list Z) : M S unit :=
  c <~ gets (view cL);;
  ASSERT (bool_decide (Cursor.mode c = WRITE));;;
  q <~ gets (view qL);;
  let bytes := fst item in
  (if (Cursor.pageID c =? invalidLogicalPageID)
      || (dataBytesPerPage q <? Cursor.offset c + bytes)
   then
     newPage <~ newPageID;;
     addNewPage newPage 0 true;;;
     modify (over qL (fun q => set_numPages (numPages q + 1) q))
   else ret tt);;;
  c <~ gets (view cL);;
  let p := default RawPage.empty (Cursor.page c) in
  modify (over cL (fun c =>
    Cursor.set_offset (Cursor.offset c + bytes)
      (Cursor.set_page
         (Some (RawPage.writeAt (Cursor.offset c) (snd item) (Cursor.offset c + bytes) p)) c)));;;
  modify (over qL (fun q => set_numEntries (numEntries q + 1) q)).

Fixpoint runOperations (ops : list (Z * list Z)) : M S unit :=
  match ops with
  | [] => ret tt
  | item :: rest => write_impl item;;; runOperations rest
  end.

(** [wait(notBusy())] on a write cursor: the operations started on it so far
    run in order; what they start in turn stays behind *)
Definition notBusyCursor : M S unit :=
  c <~ gets (view cL);;
  modify (over cL (Cursor.set_operation []));;;
  runOperations (Cursor.operation c).
End OnCursor.

(** Wait until the most recently started operations on each cursor as of now
    are ready *)
Definition notBusy : M S unit :=
  notBusyCursor headWriterL;;;
  notBusyCursor tailWriterL.

(** preFlush() prepares this queue to be flushed to disk.  It returns whether
    or not any operations were pending or started during execution. *)
Definition preFlush_impl : M S bool :=
  notBusy;;;
  q <~ gets (view qL);;
  if busy q then ret true
  else
    if (newTailPage q =? invalidLogicalPageID) && Cursor.pendingWrites (tailWriter q)
    then
      newPage <~ newPageID;;
      modify (over qL (set_newTailPage newPage));;;
      ret true
    else ret false.

Definition finishFlush : M S unit :=
  q <~ gets (view qL);;
  ASSERT (negb (busy q));;;
  (* If a new tail page was allocated, link the last page of the tail writer
     to it. *)
  (if negb (newTailPage q =? invalidLogicalPageID)
   then
     addNewPage tailWriterL (newTailPage q) 0 false;;;
     modify (over qL (fun q => set_newTailPage invalidLogicalPageID
                                 (set_numPages (numPages q + 1) q)))
   else ret tt);;;
  (* If the headWriter wrote anything, link its tail page to the headReader
     position and point the headReader to the start of the headWriter *)
  q <~ gets (view qL);;
  (if Cursor.pendingWrites (headWriter q)
   then
     addNewPage headWriterL (Cursor.pageID (headReader q)) (Cursor.offset (headReader q)) false;;;
     modify (over qL (fun q =>
       set_headReader
         (Cursor.set_page None
            (Cursor.set_offset 0
               (Cursor.set_pageID (Cursor.firstPageIDWritten (headWriter q)) (headReader q)))) q))
   else ret tt);;;
  (* Update headReader's end page to the new tail page; reset the write
     cursors *)
  modify (over qL (fun q =>
    set_headWriter (Cursor.init WRITE invalidLogicalPageID 0 invalidLogicalPageID)
      (set_tailWriter (Cursor.init WRITE (Cursor.pageID (tailWriter q)) 0 invalidLogicalPageID)
         (set_headReader (Cursor.set_endPageID (Cursor.pageID (tailWriter q)) (headReader q)) q)))).

Fixpoint flush_impl (fuel : nat) : M S unit :=
  match fuel with
  | O => throw fuel_exhausted
  | Datatypes.S fuel' =>
      notDone <~ preFlush_impl;;
      if notDone then flush_impl fuel' else finishFlush
  end.
End Write.
End FIFOQueue.

(** *** What the pages of a queue hold *)

(** What the pages of a queue hold, for its cursors.  [layout p off l]: the
    page [p] has the items [l] one after the other from offset [off] to its
    end.  [chain A pg pid off endPage endOff gs]: from the page [pid] at
    offset [off] the pages [pg] have the items of [gs], a page for each
    group, every page linked to where the next group starts, up to the
    offset [endOff] of the page [endPage]; the pages are different pages,
    and [A] has their identifiers.  [holds A pg c endOff gs]: the read
    cursor [c] has the items of [gs] before it, and a page in its buffer is
    the page it stands on.  [writing A pg c start gs g]: the write cursor
    [c] has the items [g] in the buffer of its page, and the pages it has
    written from [start] on have the items of [gs]. *)
Module FIFOQueueContent.
Section Content.
Context {T : Type} `{FIFOQueueCodec T}.

Fixpoint layout (p : RawPage.t) (off : Z) (l : list T) : Prop :=
  match l with
  | [] => off = RawPage.endOffset p
  | x :: l' =>
      RawPage.data p !! off = Some (writeToBytes x) /\ layout p (off + bytesNeeded x) l'
  end.

Fixpoint chain (A : gset LogicalPageID) (pg : gmap LogicalPageID IPage)
    (pid : LogicalPageID) (off : Z) (endPage : LogicalPageID) (endOff : Z)
    (gs : list (list T)) : Prop :=
  match gs with
  | [] => pid = endPage /\ off = endOff
  | g :: gs' =>
      g <> [] /\ pid <> invalidLogicalPageID /\ pid <> endPage /\ (pid ∈ A) /\
      exists p,
        pg !! pid = Some (PageQueue p) /\ layout p off g /\
        chain (A ∖ {[pid]}) pg (RawPage.nextPageID p) (RawPage.nextOffset p)
          endPage endOff gs'
  end.

Definition holds (A : gset LogicalPageID) (pg : gmap LogicalPageID IPage) (c : Cursor.t)
    (endOff : Z) (gs : list (list T)) : Prop :=
  chain A pg (Cursor.pageID c) (Cursor.offset c) (Cursor.endPageID c) endOff gs /\
  (forall p, Cursor.page c = Some p ->
     gs <> [] /\ pg !! Cursor.pageID c = Some (PageQueue p)).

(** the bytes that the items take, and the operations that pushes of the
    items leave on a write cursor *)
Definition bytesOfItems (l : list T) : Z := foldr (fun x n => bytesNeeded x + n) 0 l.
Definition encoded (l : list T) : list (Z * list Z) :=
  map (fun x => (bytesNeeded x, writeToBytes x)) l.

Definition writing (A : gset LogicalPageID) (pg : gmap LogicalPageID IPage) (c : Cursor.t)
    (start : LogicalPageID) (gs : list (list T)) (g : list T) : Prop :=
  Cursor.mode c = WRITE /\
  Cursor.pageID c <> invalidLogicalPageID /\
  (Cursor.pageID c ∉ A) /\
  Cursor.offset c = bytesOfItems g /\
  Cursor.firstPageIDWritten c
    = match gs with [] => invalidLogicalPageID | _ :: _ => start end /\
  (exists p, Cursor.page c = Some p /\ layout p 0 g) /\
  chain A pg start 0 (Cursor.pageID c) 0 gs.

(** The queue as the comment at the head of [FIFOQueue] describes it: the
    items that have been flushed, and the items pushed to the front and to
    the back since the last flush.  A flush moves the items pushed to the
    front before the flushed items and the items pushed to the back behind
    them; a pop takes the first flushed item, unless it exceeds the upper
    bound. *)
Record Abstract : Type := mkAbstract {
  flushed : list T;
  fronts : list T;
  backs : list T }.

Inductive Op : Type :=
  | PushBack (x : T)
  | PushFront (x : T)
  | Flush
  | Pop (upperBound : option T).

Definition step (op : Op) (a : Abstract) : option T * Abstract :=
  match op with
  | PushBack x => (None, mkAbstract (flushed a) (fronts a) (backs a ++ [x]))
  | PushFront x => (None, mkAbstract (flushed a) (fronts a ++ [x]) (backs a))
  | Flush => (None, mkAbstract (fronts a ++ flushed a ++ backs a) [] [])
  | Pop upperBound =>
      match flushed a with
      | [] => (None, a)
      | x :: l =>
          if FIFOQueue.exceeds upperBound x then (None, a)
          else (Some x, mkAbstract l (fronts a) (backs a))
      end
  end.

Fixpoint steps (ops : list Op) (a : Abstract) : list (option T) * Abstract :=
  match ops with
  | [] => ([], a)
  | op :: ops' =>
      let '(r, a') := step op a in
      let '(rs, a'') := steps ops' a' in
      (r :: rs, a'')
  end.

(** the queue [q], over the pages [pg] of a pager that has allocated the
    pages [alloc], is the queue [a]; [dbpp] is the room of a page *)
Definition represents (alloc : gset LogicalPageID) (pg : gmap LogicalPageID IPage)
    (q : FIFOQueue.t) (dbpp : Z) (a : Abstract) : Prop :=
  exists (A : gset LogicalPageID) (tail : LogicalPageID) (gs : list (list T)),
    concat gs = flushed a /\
    holds A pg (FIFOQueue.headReader q) 0 gs /\
    Cursor.mode (FIFOQueue.headReader q) = POP /\
    Cursor.endPageID (FIFOQueue.headReader q) = tail /\
    FIFOQueue.tailWriter q
      = Cursor.mk WRITE tail invalidLogicalPageID 0 invalidLogicalPageID
          (Some RawPage.empty) (encoded (backs a)) /\
    FIFOQueue.headWriter q
      = Cursor.mk WRITE invalidLogicalPageID invalidLogicalPageID 0 invalidLogicalPageID
          None (encoded (fronts a)) /\
    FIFOQueue.newTailPage q = invalidLogicalPageID /\
    FIFOQueue.dataBytesPerPage q = dbpp /\
    tail <> invalidLogicalPageID /\ (tail ∈ alloc) /\ (tail ∉ A) /\ (A ⊆ alloc) /\
    Forall (fun x => bytesNeeded x <= dbpp) (fronts a ++ backs a).
End Content.

(** the operations of a queue, run one after the other; the loop of
    [flush_impl] goes round three times at most *)
Section Run.
Context {S T : Type} `{FIFOQueueCodec T}.
Variable qL : Lens S FIFOQueue.t.
Variable readPage : LogicalPageID -> bool -> M S IPage.
Variable freePage : LogicalPageID -> Version -> M S unit.
Variable newPageID : M S LogicalPageID.
Variable updatePage : LogicalPageID -> IPage -> M S unit.

Definition runOp (op : Op) : M S (option T) :=
  match op with
  | PushBack x => modify (over qL (FIFOQueue.pushBack x));;; ret None
  | PushFront x => modify (over qL (FIFOQueue.pushFront x));;; ret None
  | Flush => FIFOQueue.flush_impl qL newPageID updatePage 3;;; ret None
  | Pop upperBound =>
      FIFOQueue.readNext qL (lens_comp qL FIFOQueue.headReaderL) readPage freePage upperBound
  end.

Fixpoint runOps (ops : list Op) : M S (list (option T)) :=
  match ops with
  | [] => ret []
  | op :: ops' =>
      r <~ runOp op;;
      rs <~ runOps ops';;
      ret (r :: rs)
  end.
End Run.
End FIFOQueueContent.

(** ** The page file *)

(** What the pager does to its file, in the order it happens.  A write is
    asynchronous: [EvWrite] is the call of [pageFile->write], [EvWritesDone]
    the return of [operations.signalAndCollapse()] (every write issued so far
    has completed), [EvWriteDone] the completion of a single awaited write. *)
Inductive IOEvent : Type :=
  | EvRead (pageID : PhysicalPageID) (header : bool)
  | EvWrite (pageID : PhysicalPageID) (header : bool)
  | EvWriteDone (pageID : PhysicalPageID)
  | EvWritesDone
  | EvSync.
#[global] Instance IOEvent_eq_dec : EqDecision IOEvent.
Proof. solve_decision. Defined.

(** Modelled from the spec: [crc32c_append] comes from a library that is not
    among the sources.  The spec has the trailing four bytes hold a CRC32C
    over the payload seeded with the page identifier; the checksum is kept as
    the pair it was computed from, so distinct inputs never collide. *)
Definition crc32c_append (pageID : LogicalPageID) (buffer : IPage) : Z * IPage :=
  (pageID, buffer).

(** A page buffer with its checksum ([FastAllocatedPage]). *)
Module Page.
Record t : Type := mk {
  content : IPage;
  checksum : Z * IPage }.
#[global] Instance eq_dec : EqDecision t.
Proof. solve_decision. Defined.
Definition calculateChecksum (pageID : LogicalPageID) (p : t) : Z * IPage :=
  crc32c_append pageID (content p).
Definition updateChecksum (pageID : LogicalPageID) (p : t) : t :=
  mk (content p) (calculateChecksum pageID p).
Definition verifyChecksum (pageID : LogicalPageID) (p : t) : bool :=
  bool_decide (checksum p = calculateChecksum pageID p).
(** a buffer filled by a read past the end of the file *)
Definition unread : t := mk PageBlank (-1, PageBlank).
(** a buffer that has just been filled in memory *)
Definition fresh (c : IPage) : t := mk c (-1, PageBlank).
End Page.

(** The file ([IAsyncFile]).  [faults] tells, for the operations to come,
    which ones fail; [writeError] remembers that a write whose future sits in
    the pager's [operations] collection has failed. *)
Module AsyncFile.
Record t : Type := mk {
  exists_ : bool;
  size : Z;
  blocks : gmap PhysicalPageID Page.t;
  log : list IOEvent;
  faults : list bool;
  writeError : bool }.

Definition record (ev : IOEvent) (f : t) : t :=
  mk (exists_ f) (size f) (blocks f) (log f ++ [ev]) (faults f) (writeError f).

(** the outcome of the next operation *)
Definition nextFault : M t bool := fun f =>
  match faults f with
  | [] => (Ok false, f)
  | b :: rest =>
      (Ok b, mk (exists_ f) (size f) (blocks f) (log f) rest (writeError f))
  end.

(** [write(buf, blockSize, pageID * blockSize)]; the result tells whether the
    write completes *)
Definition write (pageID : PhysicalPageID) (header : bool) (blockSize : Z) (p : Page.t) : M t bool :=
  modify (record (EvWrite pageID header));;;
  failed <~ nextFault;;
  if failed
  then modify (fun f => mk (exists_ f) (size f) (blocks f) (log f) (faults f) true);;;
       ret false
  else modify (fun f => mk true (Z.max (size f) ((pageID + 1) * blockSize))
                          (<[pageID := p]> (blocks f)) (log f) (faults f) (writeError f));;;
       ret true.

Definition read (pageID : PhysicalPageID) (header : bool) : M t Page.t :=
  modify (record (EvRead pageID header));;;
  failed <~ nextFault;;
  if failed then throw io_error
  else gets (fun f => default Page.unread (blocks f !! pageID)).

Definition sync : M t unit :=
  failed <~ nextFault;;
  if failed then throw io_error else modify (record EvSync).

(** [operations.signalAndCollapse()]: wait for all outstanding writes *)
Definition signalAndCollapse : M t unit :=
  f <~ gets (fun f => f);;
  if writeError f then throw io_error else modify (record EvWritesDone).

(** wait for one write started by [write] *)
Definition awaitWrite (pageID : PhysicalPageID) (completes : bool) : M t unit :=
  if completes then modify (record (EvWriteDone pageID)) else throw io_error.
End AsyncFile.

(** ** DWAL pager *)

(** [DWALPager::SnapshotEntry] with its [DWALPagerSnapshot]; [refcount] is the
    reference count of the snapshot object, of which the entry holds one. *)
Module SnapshotEntry.
Record t : Type := mk {
  version : Version;
  metaKey : option MetaKey.t;
  refcount : nat }.
#[global] Instance eq_dec : EqDecision t.
Proof. solve_decision. Defined.
Definition isSoleOwner (e : t) : bool := bool_decide (refcount e = 1%nat).
End SnapshotEntry.

Module DWALPager.
Record t : Type := mk {
  pageFile : AsyncFile.t;
  pageCache : gmap LogicalPageID IPage;
  logicalPageSize : Z;
  physicalPageSize : Z;
  desiredPageSize : Z;
  (** the header page and the last committed header page; [None] stands for
      the null [pHeader] before recovery *)
  pHeader : option Header.t;
  pLastCommittedHeader : Header.t;
  freeList : FIFOQueue.t;
  delayedFreeList : FIFOQueue.t;
  remapQueue : FIFOQueue.t;
  remappedPages : gmap LogicalPageID (gmap Version LogicalPageID);
  snapshots : list SnapshotEntry.t;
  remapUndoStop : bool;
  (** [g_network->isSimulated()] *)
  isSimulated : bool }.

Definition set_pageFile (x : AsyncFile.t) (s : t) : t :=
  mk x (pageCache s) (logicalPageSize s) (physicalPageSize s) (desiredPageSize s)
     (pHeader s) (pLastCommittedHeader s) (freeList s) (delayedFreeList s)
     (remapQueue s) (remappedPages s) (snapshots s) (remapUndoStop s) (isSimulated s).
Definition set_pageCache (x : gmap LogicalPageID IPage) (s : t) : t :=
  mk (pageFile s) x (logicalPageSize s) (physicalPageSize s) (desiredPageSize s)
     (pHeader s) (pLastCommittedHeader s) (freeList s) (delayedFreeList s)
     (remapQueue s) (remappedPages s) (snapshots s) (remapUndoStop s) (isSimulated s).
Definition set_pageSizes (logical physical : Z) (s : t) : t :=
  mk (pageFile s) (pageCache s) logical physical (desiredPageSize s)
     (pHeader s) (pLastCommittedHeader s) (freeList s) (delayedFreeList s)
     (remapQueue s) (remappedPages s) (snapshots s) (remapUndoStop s) (isSimulated s).
Definition set_pHeader (x : option Header.t) (s : t) : t :=
  mk (pageFile s) (pageCache s) (logicalPageSize s) (physicalPageSize s) (desiredPageSize s)
     x (pLastCommittedHeader s) (freeList s) (delayedFreeList s)
     (remapQueue s) (remappedPages s) (snapshots s) (remapUndoStop s) (isSimulated s).
Definition set_pLastCommittedHeader (x : Header.t) (s : t) : t :=
  mk (pageFile s) (pageCache s) (logicalPageSize s) (physicalPageSize s) (desiredPageSize s)
     (pHeader s) x (freeList s) (delayedFreeList s)
     (remapQueue s) (remappedPages s) (snapshots s) (remapUndoStop s) (isSimulated s).
Definition set_freeList (x : FIFOQueue.t) (s : t) : t :=
  mk (pageFile s) (pageCache s) (logicalPageSize s) (physicalPageSize s) (desiredPageSize s)
     (pHeader s) (pLastCommittedHeader s) x (delayedFreeList s)
     (remapQueue s) (remappedPages s) (snapshots s) (remapUndoStop s) (isSimulated s).
Definition set_delayedFreeList (x : FIFOQueue.t) (s : t) : t :=
  mk (pageFile s) (pageCache s) (logicalPageSize s) (physicalPageSize s) (desiredPageSize s)
     (pHeader s) (pLastCommittedHeader s) (freeList s) x
     (remapQueue s) (remappedPages s) (snapshots s) (remapUndoStop s) (isSimulated s).
Definition set_remapQueue (x : FIFOQueue.t) (s : t) : t :=
  mk (pageFile s) (pageCache s) (logicalPageSize s) (physicalPageSize s) (desiredPageSize s)
     (pHeader s) (pLastCommittedHeader s) (freeList s) (delayedFreeList s)
     x (remappedPages s) (snapshots s) (remapUndoStop s) (isSimulated s).
Definition set_remappedPages (x : gmap LogicalPageID (gmap Version LogicalPageID)) (s : t) : t :=
  mk (pageFile s) (pageCache s) (logicalPageSize s) (physicalPageSize s) (desiredPageSize s)
     (pHeader s) (pLastCommittedHeader s) (freeList s) (delayedFreeList s)
     (remapQueue s) x (snapshots s) (remapUndoStop s) (isSimulated s).
Definition set_snapshots (x : list SnapshotEntry.t) (s : t) : t :=
  mk (pageFile s) (pageCache s) (logicalPageSize s) (physicalPageSize s) (desiredPageSize s)
     (pHeader s) (pLastCommittedHeader s) (freeList s) (delayedFreeList s)
     (remapQueue s) (remappedPages s) x (remapUndoStop s) (isSimulated s).
Definition set_remapUndoStop (x : bool) (s : t) : t :=
  mk (pageFile s) (pageCache s) (logicalPageSize s) (physicalPageSize s) (desiredPageSize s)
     (pHeader s) (pLastCommittedHeader s) (freeList s) (delayedFreeList s)
     (remapQueue s) (remappedPages s) (snapshots s) x (isSimulated s).

Definition pageFileL : Lens t AsyncFile.t :=
  mkLens pageFile (fun f s => set_pageFile (f (pageFile s)) s).
Definition freeListL : Lens t FIFOQueue.t :=
  mkLens freeList (fun f s => set_freeList (f (freeList s)) s).
Definition delayedFreeListL : Lens t FIFOQueue.t :=
  mkLens delayedFreeList (fun f s => set_delayedFreeList (f (delayedFreeList s)) s).
Definition remapQueueL : Lens t FIFOQueue.t :=
  mkLens remapQueue (fun f s => set_remapQueue (f (remapQueue s)) s).

(** a queue of the pager: one of its three lenses *)
Definition ownQueue (qL : Lens t FIFOQueue.t) : Prop :=
  qL = freeListL \/ qL = delayedFreeListL \/ qL = remapQueueL.

(** two states with the same headers and the same snapshots *)
Definition sameHeaders (s s' : t) : Prop :=
  pHeader s' = pHeader s /\
  pLastCommittedHeader s' = pLastCommittedHeader s /\
  snapshots s' = snapshots s.


(** the object before [recover] has run *)
Definition construct (desiredPageSize : Z) (file : AsyncFile.t) (simulated : bool) : t :=
  let q := FIFOQueue.mk 0 0 0 (Cursor.init NONE 0 0 0) (Cursor.init NONE 0 0 0)
             (Cursor.init NONE 0 0 0) invalidLogicalPageID in
  mk file ∅ 0 0 desiredPageSize None
     (Header.mk 0 0 0 (QueueState.mk 0 0 0 0 0) (QueueState.mk 0 0 0 0 0)
        (QueueState.mk 0 0 0 0 0) 0 0 None)
     q q q ∅ [] false simulated.

(** dereference [pHeader] *)
Definition header : M t Header.t :=
  s <~ gets (fun s => s);;
  match pHeader s with
  | Some h => ret h
  | None => throw assertion_failed
  end.

Definition modifyHeader (f : Header.t -> Header.t) : M t unit :=
  h <~ header;;
  modify (set_pHeader (Some (f h))).

Definition setPageSize (size : Z) : M t unit :=
  (* the smallest multiple of [smallestPhysicalBlock] that holds [size] *)
  let physical := Z.max 1 ((size + smallestPhysicalBlock - 1) / smallestPhysicalBlock)
                  * smallestPhysicalBlock in
  modify (set_pageSizes size physical);;;
  modify (fun s => set_pHeader (Header.set_pageSize size <$> pHeader s) s).

(** [sizeof(FastAllocatedPage::Checksum)] *)
Definition sizeofChecksum : Z := 4.

Definition getUsablePageSize (s : t) : Z := logicalPageSize s - sizeofChecksum.

Definition updateCommittedHeader : M t unit :=
  h <~ header;;
  modify (set_pLastCommittedHeader h).

(** Grow the pager file by one page and return it *)
Definition newLastPageID : M t LogicalPageID :=
  h <~ header;;
  let id := Header.pageCount h in
  modifyHeader (Header.set_pageCount (Header.pageCount h + 1));;;
  ret id.

Definition writePhysicalPage (pageID : PhysicalPageID) (page : IPage) (header : bool) : M t bool :=
  s <~ gets (fun s => s);;
  let p := Page.updateChecksum pageID (Page.fresh page) in
  let blockSize := if header then smallestPhysicalBlock else physicalPageSize s in
  liftL pageFileL (AsyncFile.write pageID header blockSize p).

Definition writeHeaderPage (pageID : PhysicalPageID) (page : Header.t) : M t bool :=
  writePhysicalPage pageID (PageHeader page) true.

(** Every branch of the source starts the write of [data] behind what is
    outstanding for the page and replaces the cached content at once. *)
Definition updatePage (pageID : LogicalPageID) (data : IPage) : M t unit :=
  writePhysicalPage pageID data false;;;
  modify (fun s => set_pageCache (<[pageID := data]> (pageCache s)) s).

(** Read a physical page from the page file.  Header reads are checked
    explicitly during recovery. *)
Definition readPhysicalPage (pageID : PhysicalPageID) (header : bool) : M t Page.t :=
  page <~ liftL pageFileL (AsyncFile.read pageID header);;
  if negb header && negb (Page.verifyChecksum pageID page)
  then throw checksum_failed
  else ret page.

Definition readHeaderPage (pageID : PhysicalPageID) : M t Page.t :=
  readPhysicalPage pageID true.

(** Reads the most recent version of pageID either committed or written using
    updatePage().  The cache is taken large enough never to evict. *)
Definition readPage (pageID : LogicalPageID) (cacheable : bool) : M t IPage :=
  s <~ gets (fun s => s);;
  match pageCache s !! pageID with
  | Some p => ret p
  | None =>
      page <~ readPhysicalPage pageID false;;
      (if cacheable
       then modify (fun s => set_pageCache (<[pageID := Page.content page]> (pageCache s)) s)
       else ret tt);;;
      ret (Page.content page)
  end.

(** Calculate the *effective* oldest version, which can be older than the one
    set in the last commit since active snapshots delay page reuse.
    [snapshots.front()] of an empty deque is undefined. *)
Definition effectiveOldestVersion : M t Version :=
  s <~ gets (fun s => s);;
  match snapshots s with
  | front :: _ =>
      ret (Z.min (Header.oldestVersion (pLastCommittedHeader s)) (SnapshotEntry.version front))
  | [] => throw assertion_failed
  end.

Definition freePage (pageID : LogicalPageID) (v : Version) : M t unit :=
  s <~ gets (fun s => s);;
  (* If pageID has been remapped, then it can't be freed until all existing
     remaps for that page have been undone, so queue it for later deletion *)
  if bool_decide (is_Some (remappedPages s !! pageID))
  then modify (over remapQueueL
                 (FIFOQueue.pushBack (RemappedPage.mk v pageID invalidLogicalPageID)))
  else
    eov <~ effectiveOldestVersion;;
    (* If v is older than the oldest version still readable then mark pageID
       as free as of the next commit *)
    if v <? eov
    then modify (over freeListL (FIFOQueue.pushBack pageID))
    else (* Otherwise add it to the delayed free list *)
      modify (over delayedFreeListL (FIFOQueue.pushBack (DelayedFreePage.mk v pageID))).

(** [pop] of one of the pager's own queues *)
Definition pop {T} `{FIFOQueueCodec T} (qL : Lens t FIFOQueue.t) (upperBound : option T) : M t (option T) :=
  FIFOQueue.readNext qL (lens_comp qL FIFOQueue.headReaderL) readPage freePage upperBound.

(** Get a new, previously available page ID. *)
Definition newPageID_impl : M t LogicalPageID :=
  (* First try the free list *)
  freePageID <~ pop (T := Z) freeListL None;;
  match freePageID with
  | Some id => ret id
  | None =>
      (* Try to reuse pages up to the earlier of the oldest version set by the
         user or the oldest snapshot still in the snapshots list *)
      s <~ gets (fun s => s);;
      ASSERT (negb (bool_decide (snapshots s = [])));;;
      eov <~ effectiveOldestVersion;;
      delayedFreePageID <~ pop delayedFreeListL (Some (DelayedFreePage.mk eov 0));;
      match delayedFreePageID with
      | Some d => ret (DelayedFreePage.pageID d)
      | None =>
          (* Lastly, add a new page to the pager *)
          newLastPageID
      end
  end.

Definition newPageID : M t LogicalPageID := newPageID_impl.

(** [std::map::upper_bound(v)] followed by [--j]: the entry with the greatest
    key that is not above [v], if the map has one *)
Definition greatestAtMost (v : Version) (entries : list (Version * LogicalPageID))
  : option (Version * LogicalPageID) :=
  foldr (fun e best =>
           if fst e <=? v
           then match best with
                | Some b => if fst b <? fst e then Some e else best
                | None => Some e
                end
           else best) None entries.

(** The page that holds the content of [pageID] as of version [v] *)
Definition remapAtVersion (s : t) (pageID : LogicalPageID) (v : Version) : LogicalPageID :=
  match remappedPages s !! pageID with
  | Some versions =>
      match greatestAtMost v (map_to_list versions) with
      | Some j => snd j
      | None => pageID
      end
  | None => pageID
  end.

Definition readPageAtVersion (pageID : LogicalPageID) (v : Version) (cacheable : bool) : M t IPage :=
  s <~ gets (fun s => s);;
  readPage (remapAtVersion s pageID v) cacheable.

(** This pager does not support atomic update, so it always allocates and
    uses a new pageID *)
Definition atomicUpdatePage (pageID : LogicalPageID) (data : IPage) (v : Version) : M t LogicalPageID :=
  newPage <~ newPageID;;
  updatePage newPage data;;;
  modify (over remapQueueL (FIFOQueue.pushBack (RemappedPage.mk v pageID newPage)));;;
  modify (fun s =>
    set_remappedPages
      (<[pageID := <[v := newPage]> (default ∅ (remappedPages s !! pageID))]> (remappedPages s)) s);;;
  ret pageID.

(** *** Snapshots *)

(** Try to expire snapshots up to but not including v, but do not expire any
    snapshots that are in use. *)
Fixpoint expire (v : Version) (l : list SnapshotEntry.t) : list SnapshotEntry.t :=
  match l with
  | front :: (_ :: _) as rest =>
      if (SnapshotEntry.version front <? v) && SnapshotEntry.isSoleOwner front
      then expire v rest
      else l
  | _ => l
  end.

Definition expireSnapshots (v : Version) : M t unit :=
  modify (fun s => set_snapshots (expire v (snapshots s)) s).

Definition addLatestSnapshot : M t unit :=
  modify (fun s =>
    let h := pLastCommittedHeader s in
    set_snapshots
      (snapshots s ++ [SnapshotEntry.mk (Header.committedVersion h) (Header.metaKey h) 1]) s).

(** Modelled from the spec: [std::upper_bound] belongs to the C++ standard
    library.  On the deque, which is ordered by version, it finds the first
    entry whose version is above [v]. *)
Fixpoint upper_bound (v : Version) (l : list SnapshotEntry.t) : nat :=
  match l with
  | e :: rest => if v <? SnapshotEntry.version e then O else Datatypes.S (upper_bound v rest)
  | [] => O
  end.

Definition addref (e : SnapshotEntry.t) : SnapshotEntry.t :=
  SnapshotEntry.mk (SnapshotEntry.version e) (SnapshotEntry.metaKey e)
    (Datatypes.S (SnapshotEntry.refcount e)).

Definition delref (e : SnapshotEntry.t) : SnapshotEntry.t :=
  SnapshotEntry.mk (SnapshotEntry.version e) (SnapshotEntry.metaKey e)
    (Nat.pred (SnapshotEntry.refcount e)).

(** [getReadSnapshot]; the reference it returns is counted on the entry *)
Definition getReadSnapshot (v : Version) : M t SnapshotEntry.t :=
  s <~ gets (fun s => s);;
  ASSERT (negb (bool_decide (snapshots s = [])));;;
  match upper_bound v (snapshots s) with
  | O => throw version_invalid
  | Datatypes.S i =>
      match snapshots s !! i with
      | Some e =>
          modify (set_snapshots (<[i := addref e]> (snapshots s)));;;
          ret e
      | None => throw assertion_failed
      end
  end.

(** a reader drops the reference it got from [getReadSnapshot]; the entry, if
    still in the deque, is the [i]-th *)
Definition releaseSnapshot (i : nat) : M t unit :=
  modify (fun s =>
    match snapshots s !! i with
    | Some e => if (1 <? SnapshotEntry.refcount e)%nat
                then set_snapshots (<[i := delref e]> (snapshots s)) s
                else s
    | None => s
    end).

(** Set the pending oldest version to keep as of the next commit *)
Definition setOldestVersion (v : Version) : M t unit :=
  h <~ header;;
  ASSERT (Header.oldestVersion h <=? v);;;
  ASSERT (v <=? Header.committedVersion h);;;
  modifyHeader (Header.set_oldestVersion v);;;
  expireSnapshots v.

Definition getOldestVersion : M t Version := h <~ header;; ret (Header.oldestVersion h).
Definition setCommitVersion (v : Version) : M t unit :=
  modifyHeader (Header.set_committedVersion v).
Definition setMetaKey (k : option MetaKey.t) : M t unit :=
  modifyHeader (Header.set_metaKey k).
Definition getMetaKey : M t (option MetaKey.t) := h <~ header;; ret (Header.metaKey h).

(** *** Remap undo *)

(** One turn of the loop of [undoRemaps]; [false] when the loop ends. *)
Definition undoRemaps_step (cutoff : RemappedPage.t) : M t bool :=
  s <~ gets (fun s => s);;
  if remapUndoStop s then ret false
  else
    p <~ pop remapQueueL (Some cutoff);;
    match p with
    | None => ret false
    | Some p =>
        (if RemappedPage.newPageID p =? invalidLogicalPageID
         then freePage (RemappedPage.originalPageID p) (RemappedPage.version p)
         else
           (* Read the data from the page that the original was mapped to *)
           data <~ readPage (RemappedPage.newPageID p) false;;
           (* Write the data to the original page so it can be read using
              its original pageID *)
           updatePage (RemappedPage.originalPageID p) data;;;
           (* Remove the remap from this page, deleting the entry for the
              pageID if its map becomes empty *)
           s <~ gets (fun s => s);;
           match remappedPages s !! RemappedPage.originalPageID p with
           | None => throw assertion_failed
           | Some versions =>
               (if bool_decide (size versions = 1%nat)
                then modify (set_remappedPages
                               (delete (RemappedPage.originalPageID p) (remappedPages s)))
                else modify (set_remappedPages
                               (<[RemappedPage.originalPageID p :=
                                    delete (RemappedPage.version p) versions]> (remappedPages s))));;;
               (* Now that the remap has been undone nothing will read this
                  page so it can be freed as of the next commit. *)
               freePage (RemappedPage.newPageID p) 0
           end);;;
        ret true
    end.

Fixpoint undoRemaps_loop (fuel : nat) (cutoff : RemappedPage.t) : M t unit :=
  match fuel with
  | O => ret tt
  | Datatypes.S fuel' =>
      again <~ undoRemaps_step cutoff;;
      if again then undoRemaps_loop fuel' cutoff else ret tt
  end.

(** The background actor, run for at most [turns] turns of its loop (the
    scheduler may hold it at any of its waits until the next commit stops
    it). *)
Definition undoRemaps (turns : nat) : M t unit :=
  eov <~ effectiveOldestVersion;;
  undoRemaps_loop turns (RemappedPage.mk eov 0 0).

(** *** Commit *)

Definition flush (qL : Lens t FIFOQueue.t) (fuel : nat) : M t unit :=
  FIFOQueue.flush_impl qL newPageID updatePage fuel.
Definition preFlush (qL : Lens t FIFOQueue.t) : M t bool :=
  FIFOQueue.preFlush_impl qL newPageID updatePage.
Definition finishFlush (qL : Lens t FIFOQueue.t) : M t unit :=
  FIFOQueue.finishFlush qL updatePage.

Fixpoint flushQueues_loop (fuel : nat) : M t unit :=
  match fuel with
  | O => throw fuel_exhausted
  | Datatypes.S fuel' =>
      freeBusy <~ preFlush freeListL;;
      delayedFreeBusy <~ preFlush delayedFreeListL;;
      (* Once preFlush() returns false for both queues then there are no more
         operations pending on either queue. *)
      if negb freeBusy && negb delayedFreeBusy then ret tt
      else flushQueues_loop fuel'
  end.

(** Flush all queues so they have no operations pending. *)
Definition flushQueues (fuel : nat) : M t unit :=
  (* Flush remap queue separately, it's not involved in free page management *)
  flush remapQueueL fuel;;;
  (* Flush the free list and delayed free list queues together as they are
     used by freePage() and newPageID() *)
  flushQueues_loop fuel;;;
  finishFlush freeListL;;;
  finishFlush delayedFreeListL.

Definition commit_impl (fuel : nat) : M t unit :=
  (* Write old committed header to Page 1 *)
  s <~ gets (fun s => s);;
  writeHeaderPage 1 (pLastCommittedHeader s);;;
  (* Trigger the remap eraser to stop and then wait for it. *)
  modify (set_remapUndoStop true);;;
  flushQueues fuel;;;
  s <~ gets (fun s => s);;
  modifyHeader (Header.set_queues (FIFOQueue.getState (freeList s))
                  (FIFOQueue.getState (delayedFreeList s))
                  (FIFOQueue.getState (remapQueue s)));;;
  (* Wait for all outstanding writes to complete *)
  liftL pageFileL AsyncFile.signalAndCollapse;;;
  (* Sync everything except the header *)
  liftL pageFileL AsyncFile.sync;;;
  (* Update header on disk and sync again. *)
  h <~ header;;
  completes <~ writeHeaderPage 0 h;;
  liftL pageFileL (AsyncFile.awaitWrite 0 completes);;;
  liftL pageFileL AsyncFile.sync;;;
  (* Update the last committed header for use in the next commit. *)
  updateCommittedHeader;;;
  addLatestSnapshot;;;
  (* Try to expire snapshots up to the oldest version, in case some were
     being kept around due to being in use *)
  h <~ header;;
  expireSnapshots (Header.oldestVersion h);;;
  (* Start unmapping pages for expired versions *)
  modify (set_remapUndoStop false).

Definition commit (fuel : nat) : M t unit := commit_impl fuel.

(** *** Recovery *)

(** the page buffer read as a [Header] *)
Definition asHeader (p : IPage) : Header.t :=
  match p with
  | PageHeader h => h
  | _ => Header.mk 0 0 0 (QueueState.mk 0 0 0 0 0) (QueueState.mk 0 0 0 0 0)
           (QueueState.mk 0 0 0 0 0) 0 0 None
  end.

Definition addRemap (r : RemappedPage.t)
    (m : gmap LogicalPageID (gmap Version LogicalPageID))
  : gmap LogicalPageID (gmap Version LogicalPageID) :=
  if RemappedPage.newPageID r =? invalidLogicalPageID then m
  else <[RemappedPage.originalPageID r :=
           <[RemappedPage.version r := RemappedPage.newPageID r]>
             (default ∅ (m !! RemappedPage.originalPageID r))]> m.

Definition recover (fuel : nat) : M t unit :=
  s <~ gets (fun s => s);;
  let exists_ := AsyncFile.exists_ (pageFile s) in
  (* Header page is always treated as having a page size of
     smallestPhysicalBlock *)
  setPageSize smallestPhysicalBlock;;;
  let fileSize := if exists_ then AsyncFile.size (pageFile s) else 0 in
  (* If there are at least 2 pages then try to recover the existing file *)
  if exists_ && (smallestPhysicalBlock * 2 <=? fileSize)
  then
    (* Read physical page 0 directly *)
    page0 <~ readHeaderPage 0;;
    (* If the checksum fails for the header page, try to recover committed
       header backup from page 1 *)
    r <~ (if negb (Page.verifyChecksum 0 page0)
          then
            page1 <~ readHeaderPage 1;;
            if negb (Page.verifyChecksum 1 page1)
            then (if isSimulated s then throw io_error_injected else throw checksum_failed)
            else ret (page1, true)
          else ret (page0, false));;
    let '(headerPage, recoveredHeader) := r in
    let h := asHeader (Page.content headerPage) in
    modify (set_pHeader (Some h));;;
    (if negb (Header.formatVersion h =? Header.FORMAT_VERSION)
     then throw internal_error else ret tt);;;
    setPageSize (Header.pageSize h);;;
    s <~ gets (fun s => s);;
    modify (fun s =>
      set_remapQueue (FIFOQueue.recover (getUsablePageSize s) (Header.remapQueue h))
        (set_delayedFreeList (FIFOQueue.recover (getUsablePageSize s) (Header.delayedFreeList h))
           (set_freeList (FIFOQueue.recover (getUsablePageSize s) (Header.freeList h)) s)));;;
    remaps <~ FIFOQueue.peekAll_impl (T := RemappedPage.t) remapQueueL readPage freePage fuel;;
    modify (fun s => set_remappedPages (foldl (fun m r => addRemap r m) (remappedPages s) remaps) s);;;
    (* If the header was recovered from the backup at Page 1 then write and
       sync it to Page 0 before continuing. *)
    (if recoveredHeader : bool
     then
       completes <~ writeHeaderPage 0 h;;
       liftL pageFileL (AsyncFile.awaitWrite 0 completes);;;
       liftL pageFileL AsyncFile.signalAndCollapse;;;
       liftL pageFileL AsyncFile.sync
     else ret tt);;;
    (* Update the last committed header with the one that was recovered *)
    updateCommittedHeader;;;
    addLatestSnapshot
  else
    (* Note: If the file contains less than 2 pages but more than 0 bytes
       then the pager was never successfully committed. A new pager will be
       created in its place. *)
    modify (set_pHeader (Some (asHeader PageBlank)));;;
    s <~ gets (fun s => s);;
    setPageSize (desiredPageSize s);;;
    (* There are 2 reserved pages: Page 0 - header, Page 1 - header backup *)
    modifyHeader (fun h =>
      Header.mk Header.FORMAT_VERSION (Header.pageSize h) 2
        (Header.freeList h) (Header.delayedFreeList h) (Header.remapQueue h) 1 1 None);;;
    (* Create queues *)
    s <~ gets (fun s => s);;
    id1 <~ newLastPageID;;
    modify (set_freeList (FIFOQueue.create (getUsablePageSize s) id1));;;
    id2 <~ newLastPageID;;
    modify (set_delayedFreeList (FIFOQueue.create (getUsablePageSize s) id2));;;
    id3 <~ newLastPageID;;
    modify (set_remapQueue (FIFOQueue.create (getUsablePageSize s) id3));;;
    s <~ gets (fun s => s);;
    modifyHeader (Header.set_queues (FIFOQueue.getState (freeList s))
                    (FIFOQueue.getState (delayedFreeList s))
                    (FIFOQueue.getState (remapQueue s)));;;
    (* Since there is no previously committed header use the initial header
       for the initial commit. *)
    updateCommittedHeader;;;
    commit fuel.

(** *** The pager as a state machine *)

(** A call of the pager's interface between recovery and shutdown; a run of
    the background actor counts as one. *)
Inductive Call : Type :=
  | CallNewPageID
  | CallFreePage (pageID : LogicalPageID) (v : Version)
  | CallUpdatePage (pageID : LogicalPageID) (data : IPage)
  | CallAtomicUpdatePage (pageID : LogicalPageID) (data : IPage) (v : Version)
  | CallReadPage (pageID : LogicalPageID) (cacheable : bool)
  | CallReadPageAtVersion (pageID : LogicalPageID) (v : Version) (cacheable : bool)
  | CallGetReadSnapshot (v : Version)
  | CallReleaseSnapshot (i : nat)
  | CallSetOldestVersion (v : Version)
  | CallSetCommitVersion (v : Version)
  | CallSetMetaKey (k : option MetaKey.t)
  | CallCommit (fuel : nat)
  | CallUndoRemaps (turns : nat).

Definition discard {A} (m : M t A) : M t unit := _ <~ m;; ret tt.

Definition call (c : Call) : M t unit :=
  match c with
  | CallNewPageID => discard newPageID
  | CallFreePage pageID v => freePage pageID v
  | CallUpdatePage pageID data => updatePage pageID data
  | CallAtomicUpdatePage pageID data v => discard (atomicUpdatePage pageID data v)
  | CallReadPage pageID cacheable => discard (readPage pageID cacheable)
  | CallReadPageAtVersion pageID v cacheable => discard (readPageAtVersion pageID v cacheable)
  | CallGetReadSnapshot v => discard (getReadSnapshot v)
  | CallReleaseSnapshot i => releaseSnapshot i
  | CallSetOldestVersion v => setOldestVersion v
  | CallSetCommitVersion v => setCommitVersion v
  | CallSetMetaKey k => setMetaKey k
  | CallCommit fuel => commit fuel
  | CallUndoRemaps turns => undoRemaps turns
  end.

(** The states a pager goes through once [recover] has succeeded on a newly
    constructed object, whatever the calls and whether they succeed or not. *)
Inductive reachable : t -> Prop :=
  | reachable_recover desired file simulated fuel s :
      recover fuel (construct desired file simulated) = (Ok tt, s) ->
      reachable s
  | reachable_call s c r s' :
      reachable s -> call c s = (r, s') -> reachable s'.

(** a read or a write of a page other than a header page *)
Definition dataEvent (ev : IOEvent) : Prop :=
  match ev with
  | EvRead _ false | EvWrite _ false => True
  | _ => False
  end.

(** the file's log has grown by reads and writes of data pages only *)
Definition dataIO (s s' : t) : Prop :=
  exists W, AsyncFile.log (pageFile s') = AsyncFile.log (pageFile s) ++ W /\
            Forall dataEvent W.

(** the file's log has grown *)
Definition logGrows (s s' : t) : Prop :=
  exists W, AsyncFile.log (pageFile s') = AsyncFile.log (pageFile s) ++ W.

(** the state after a recovery that took its header from [page] *)
Definition recoveredFrom (page : Page.t) (s : t) : Prop :=
  let h := asHeader (Page.content page) in
  Header.formatVersion h = Header.FORMAT_VERSION /\
  pHeader s = Some h /\ pLastCommittedHeader s = h /\
  snapshots s = [SnapshotEntry.mk (Header.committedVersion h) (Header.metaKey h) 1].

(** a state keeps the snapshot list non-empty *)
Definition keepsSnapshots (s s' : t) : Prop := snapshots s <> [] -> snapshots s' <> [].

(** the first [n] entries of the deque all have a version below [v] and no
    owner but the deque *)
Definition expirable (v : Version) (l : list SnapshotEntry.t) : Prop :=
  Forall (fun e => SnapshotEntry.version e < v /\ SnapshotEntry.isSoleOwner e = true) l.
(** the file keeps what it has: a write that has failed stays failed, the
    file still exists and it has not shrunk *)
Definition fileKept (s s' : t) : Prop :=
  (AsyncFile.writeError (pageFile s) = true -> AsyncFile.writeError (pageFile s') = true) /\
  (AsyncFile.exists_ (pageFile s) = true -> AsyncFile.exists_ (pageFile s') = true) /\
  AsyncFile.size (pageFile s) <= AsyncFile.size (pageFile s').
End DWALPager.

(** ** Versioned B-tree *)

(** [BTreePageID]: the pager pages that hold one B-tree page *)
Abbreviation BTreePageID := (list LogicalPageID) (only parsing).

(** the page buffer read as a [BTreePage]; a [SuperPage] puts the blocks of
    its pages end to end, which gives back the page that was cut into them *)
Definition asBTreePage (p : IPage) : BTreePage.t :=
  match p with
  | PageBTree b _ => b
  | _ => BTreePage.mk 0 0 []
  end.
Definition SuperPage (pages : list IPage) : BTreePage.t :=
  asBTreePage (default PageBlank (head pages)).


Fixpoint mapM {S A B} (f : A -> M S B) (l : list A) : M S (list B) :=
  match l with
  | [] => ret []
  | x :: rest => y <~ f x;; ys <~ mapM f rest;; ret (y :: ys)
  end.

(** [VersionedBTree::dbBegin] and [VersionedBTree::dbEnd], the records that
    bound the key space *)
Definition dbBegin : RedwoodRecordRef.t := RedwoodRecordRef.mk EmptyString 0 None.
Definition dbEnd : RedwoodRecordRef.t :=
  RedwoodRecordRef.mk
    (String "255" (String "255" (String "255" (String "255" (String "255" EmptyString)))))
    0 None.

(** [VersionedBTree::RangeMutation]: the change at a boundary key of the
    mutation buffer and in the range after it, up to the next boundary *)
Module RangeMutation.
Record t : Type := mk {
  boundaryChanged : bool;
  boundaryValue : option ValueRef; (* Not present means cleared *)
  clearAfterBoundary : bool }.

Definition create : t := mk false None false.

Definition boundaryCleared (m : t) : bool :=
  boundaryChanged m && negb (bool_decide (is_Some (boundaryValue m))).

(** Returns true if this RangeMutation doesn't actually mutate anything *)
Definition noChanges (m : t) : bool :=
  negb (boundaryChanged m) && negb (clearAfterBoundary m).

Definition clearBoundary (m : t) : t := mk true None (clearAfterBoundary m).

Definition clearAll (m : t) : t :=
  let m := clearBoundary m in
  mk (boundaryChanged m) (boundaryValue m) true.

Definition setBoundaryValue (v : ValueRef) (m : t) : t :=
  mk true (Some v) (clearAfterBoundary m).

Definition boundarySet (m : t) : bool :=
  boundaryChanged m && bool_decide (is_Some (boundaryValue m)).
End RangeMutation.

(** [VersionedBTree::MutationBufferStdMap], the mutation buffer that the
    source defines in full; the one it selects, [MutationBufferART], comes
    from ArtMutationBuffer.h and has the same interface.  The [std::map] is
    kept as the list of its entries in key order, no key twice; an iterator
    is the key of its entry, [None] is [end()].  Where the source reads
    through [end()] or steps back from [begin()], which is undefined, the run
    stops with [assertion_failed]. *)
Module MutationBufferStdMap.
Definition MutationsT : Type := list (Key * RangeMutation.t).
Definition t : Type := MutationsT.
Definition iterator : Type := option Key.

(** the first entry whose key is not below [k], and the first one above *)
Fixpoint lower_bound (k : Key) (m : t) : iterator :=
  match m with
  | [] => None
  | (k', _) :: rest => if String.ltb k' k then lower_bound k rest else Some k'
  end.

Fixpoint upper_bound (k : Key) (m : t) : iterator :=
  match m with
  | [] => None
  | (k', _) :: rest => if String.ltb k k' then Some k' else upper_bound k rest
  end.

(** the entry before the one with key [k] *)
Fixpoint previous (k : Key) (m : t) : iterator :=
  match m with
  | [] => None
  | (k', _) :: rest =>
      if String.ltb k' k
      then match previous k rest with
           | Some p => Some p
           | None => Some k'
           end
      else None
  end.

(** [std::map::insert]: an entry whose key is there already stays *)
Fixpoint insert_entry (k : Key) (v : RangeMutation.t) (m : t) : t :=
  match m with
  | [] => [(k, v)]
  | (k', v') :: rest =>
      if String.ltb k k' then (k, v) :: m
      else if String.eqb k k' then m
      else (k', v') :: insert_entry k v rest
  end.

Fixpoint find (k : Key) (m : t) : option RangeMutation.t :=
  match m with
  | [] => None
  | (k', v) :: rest => if String.eqb k k' then Some v else find k rest
  end.

Fixpoint update (k : Key) (f : RangeMutation.t -> RangeMutation.t) (m : t) : t :=
  match m with
  | [] => []
  | (k', v) :: rest => if String.eqb k k' then (k', f v) :: rest else (k', v) :: update k f rest
  end.

(** Create range representing the entire keyspace.  Setting the dbEnd key to
    be cleared prevents having to treat a range clear to dbEnd as a special
    case. *)
Definition create : t :=
  [(RedwoodRecordRef.key dbBegin, RangeMutation.create);
   (RedwoodRecordRef.key dbEnd, RangeMutation.clearBoundary RangeMutation.create)].

(** [i.mutation()] read, and changed in place *)
Definition mutation (i : iterator) : M t RangeMutation.t :=
  m <~ gets (fun m => m);;
  match i ≫= fun k => find k m with
  | Some r => ret r
  | None => throw assertion_failed
  end.

Definition mutate (i : iterator) (f : RangeMutation.t -> RangeMutation.t) : M t unit :=
  _ <~ mutation i;;
  modify (update (default EmptyString i) f).

(** [++i] *)
Definition next (i : iterator) : M t iterator :=
  match i with
  | Some k => gets (upper_bound k)
  | None => throw assertion_failed
  end.

(** the map without the entries whose key is one of [keys] *)
Fixpoint without (keys : Key -> bool) (m : t) : t :=
  match m with
  | [] => []
  | (k, v) :: rest => if keys k then without keys rest else (k, v) :: without keys rest
  end.

(** erase [begin, end) from the mutation map; [std::map::erase] steps from
    the first iterator to the last one, so the first must not come after it *)
Definition erase (first last : iterator) : M t unit :=
  match first, last with
  | None, None => ret tt
  | None, Some _ => throw assertion_failed
  | Some f, None => modify (without (fun k => negb (String.ltb k f)))
  | Some f, Some l =>
      if String.ltb l f then throw assertion_failed
      else modify (without (fun k => negb (String.ltb k f) && String.ltb k l))
  end.

(** Find or create a mutation buffer boundary for bound and return an
    iterator to it *)
Definition insert (boundary : Key) : M t iterator :=
  (* Find the first split point in buffer that is >= key *)
  m <~ gets (fun m => m);;
  match lower_bound boundary m with
  | None => throw assertion_failed
  | Some ib =>
      (* If we found the boundary we are looking for, return its iterator *)
      if String.eqb ib boundary then ret (Some ib)
      else
        modify (insert_entry boundary RangeMutation.create);;;
        let ib := Some boundary in
        m <~ gets (fun m => m);;
        match previous boundary m with
        | None => throw assertion_failed
        | Some iPrevious =>
            previousMutation <~ mutation (Some iPrevious);;
            (* If the range we just divided was being cleared, then the
               dividing boundary key and range after it must also be cleared *)
            (if RangeMutation.clearAfterBoundary previousMutation
             then mutate ib RangeMutation.clearAll
             else ret tt);;;
            ret ib
        end
  end.

(** the keys of the buffer go up strictly, and the two boundaries [create]
    puts in are there *)
Definition sorted (m : t) : Prop :=
  StronglySorted (fun a b => String.ltb (fst a) (fst b) = true) m.

Definition keyIn (k : Key) (m : t) : Prop := is_Some (find k m).

Definition wellFormed (m : t) : Prop :=
  sorted m /\
  keyIn (RedwoodRecordRef.key dbBegin) m /\
  keyIn (RedwoodRecordRef.key dbEnd) m.

(** the entry that governs the key [k]: the last one whose key is not above
    [k], which is where [commitSubtree] starts its slice of the buffer *)
Fixpoint governing (k : Key) (m : t) : option (Key * RangeMutation.t) :=
  match m with
  | [] => None
  | (k', v) :: rest =>
      if String.ltb k k' then None
      else match governing k rest with
           | Some e => Some e
           | None => Some (k', v)
           end
  end.

(** the buffer clears the key [k]: the boundary at [k] is cleared or, with
    no boundary at [k], the range that holds [k] is; and it sets [k] to [v] *)
Definition clears (k : Key) (m : t) : bool :=
  match governing k m with
  | Some (k', r) =>
      if String.eqb k' k then RangeMutation.boundaryCleared r
      else RangeMutation.clearAfterBoundary r
  | None => false
  end.

Definition sets (k : Key) (v : ValueRef) (m : t) : bool :=
  match governing k m with
  | Some (k', r) =>
      String.eqb k' k && RangeMutation.boundaryChanged r
      && bool_decide (RangeMutation.boundaryValue r = Some v)
  | None => false
  end.
(** What the buffer has pending for a key, as [commitSubtree] reads it off
    the entry that governs the key: a changed boundary replaces the records
    of its key by its value, if it has one; a boundary that is not changed
    leaves them; between boundaries, the records go when the boundary before
    them clears what comes after it. *)
Inductive Effect : Type :=
  | Untouched
  | Cleared
  | SetTo (v : ValueRef).

Definition effect (k : Key) (m : t) : Effect :=
  match governing k m with
  | Some (k', r) =>
      if String.eqb k' k
      then if RangeMutation.boundaryChanged r
           then match RangeMutation.boundaryValue r with
                | Some v => SetTo v
                | None => Cleared
                end
           else Untouched
      else if RangeMutation.clearAfterBoundary r then Cleared else Untouched
  | None => Untouched
  end.

End MutationBufferStdMap.

Module VersionedBTree.
(** [m_pBuffer] is the buffer it points to, [None] the null pointer. *)
Record t : Type := mk {
  m_pager : DWALPager.t;
  m_lazyDeleteQueue : FIFOQueue.t;
  m_pBuffer : option MutationBufferStdMap.t }.

Definition set_m_pager (x : DWALPager.t) (s : t) : t :=
  mk x (m_lazyDeleteQueue s) (m_pBuffer s).
Definition set_m_lazyDeleteQueue (x : FIFOQueue.t) (s : t) : t :=
  mk (m_pager s) x (m_pBuffer s).
Definition set_m_pBuffer (x : option MutationBufferStdMap.t) (s : t) : t :=
  mk (m_pager s) (m_lazyDeleteQueue s) x.

Definition m_pagerL : Lens t DWALPager.t :=
  mkLens m_pager (fun f s => set_m_pager (f (m_pager s)) s).
Definition m_lazyDeleteQueueL : Lens t FIFOQueue.t :=
  mkLens m_lazyDeleteQueue (fun f s => set_m_lazyDeleteQueue (f (m_lazyDeleteQueue s)) s).

(** [DWALPagerSnapshot::getPhysicalPage].  The reader's reference keeps the
    snapshot out of [expireSnapshots], which drops sole-owned entries only,
    so [expired] holds no error while it reads. *)
Definition getPhysicalPage (snapshot : SnapshotEntry.t) (pageID : LogicalPageID)
    (cacheable : bool) : M t IPage :=
  liftL m_pagerL (DWALPager.readPageAtVersion pageID (SnapshotEntry.version snapshot) cacheable).

Definition readPage (snapshot : SnapshotEntry.t) (id : BTreePageID) (forLazyDelete : bool)
  : M t BTreePage.t :=
  match id with
  | [pageID] =>
      p <~ getPhysicalPage snapshot pageID (negb forLazyDelete);;
      ret (asBTreePage p)
  | _ =>
      ASSERT (negb (bool_decide (id = [])));;;
      pages <~ mapM (fun pageID => getPhysicalPage snapshot pageID (negb forLazyDelete)) id;;
      ret (SuperPage pages)
  end.


(** run on the buffer [m_pBuffer] points to; the null pointer is not to be
    followed *)
Definition onBuffer {A} (m : M MutationBufferStdMap.t A) : M t A :=
  fun s => match m_pBuffer s with
           | Some b => let '(r, b') := m b in (r, set_m_pBuffer (Some b') s)
           | None => (Err assertion_failed, s)
           end.

Definition set (keyValue : Key * ValueRef) : M t unit :=
  onBuffer
    (i <~ MutationBufferStdMap.insert (fst keyValue);;
     MutationBufferStdMap.mutate i (RangeMutation.setBoundaryValue (snd keyValue))).

Definition clear (clearedRange : Key * Key) : M t unit :=
  let (begin, end_) := clearedRange in
  (* Optimization for single key clears to create just one mutation boundary
     instead of two *)
  if (Z.of_nat (String.length begin) =? Z.of_nat (String.length end_) - 1)
     && bool_decide (String.get (String.length end_ - 1) end_ = Some Ascii.zero)
     && String.prefix begin end_
  then
    onBuffer
      (i <~ MutationBufferStdMap.insert begin;;
       MutationBufferStdMap.mutate i RangeMutation.clearBoundary)
  else
    onBuffer
      (iBegin <~ MutationBufferStdMap.insert begin;;
       iEnd <~ MutationBufferStdMap.insert end_;;
       MutationBufferStdMap.mutate iBegin RangeMutation.clearAll;;;
       iBegin <~ MutationBufferStdMap.next iBegin;;
       MutationBufferStdMap.erase iBegin iEnd).

(** [m_lazyDeleteQueue.flush()] *)
Definition flushLazyDeleteQueue (fuel : nat) : M t unit :=
  FIFOQueue.flush_impl m_lazyDeleteQueueL
    (liftL m_pagerL DWALPager.newPageID)
    (fun id data => liftL m_pagerL (DWALPager.updatePage id data))
    fuel.

(** [m_lazyDeleteQueue.pop()]: no upper bound is given *)
Definition lazyDeletePop : M t (option LazyDeleteQueueEntry.t) :=
  FIFOQueue.readNext m_lazyDeleteQueueL (lens_comp m_lazyDeleteQueueL FIFOQueue.headReaderL)
    (fun id c => liftL m_pagerL (DWALPager.readPage id c))
    (fun id v => liftL m_pagerL (DWALPager.freePage id v))
    None.


(** a value of type [int] compared with a [size_t] *)
Definition to_size_t (n : Z) : Z := n mod 2 ^ 64.

Section IncrementalSubtreeClear.
(** [pStop]: [None] is the null pointer; otherwise the flag, which the
    committing actor may set while the worker waits, as the worker reads it
    at the end of its n-th batch.  Page counts are taken as integers: a file
    has far fewer than [INT_MAX] pages. *)
Variable pStop : option (nat -> bool).
Variable batchSize : Z.
Variable minPages : Z.
Variable maxPages : Z.

(** Take up to batchSize pages from front of queue *)
Fixpoint popBatch (fuel : nat) (entries : list LazyDeleteQueueEntry.t)
  : M t (list LazyDeleteQueueEntry.t) :=
  match fuel with
  | O => throw fuel_exhausted
  | Datatypes.S fuel' =>
      if Z.of_nat (length entries) <? to_size_t batchSize
      then
        q <~ lazyDeletePop;;
        match q with
        | None => ret entries
        | Some q => popBatch fuel' (entries ++ [q])
        end
      else ret entries
  end.




End IncrementalSubtreeClear.




(** the head reader of the lazy delete queue has nothing left to read: the
    queue was never set up, or the reader stands at the end of the queue *)
Definition lazyDeleteQueueAtEnd (s : t) : Prop :=
  let c := FIFOQueue.headReader (m_lazyDeleteQueue s) in
  Cursor.mode c = NONE \/
  Cursor.pageID c = invalidLogicalPageID \/ Cursor.pageID c = Cursor.endPageID c.





End VersionedBTree.

(** ** Key-value store facade *)

Abbreviation KeyValueRef := (Key * ValueRef)%type (only parsing).

(** Modelled from the spec: [KeyValueRef::expectedSize] is declared in
    FDBTypes.h, which is not among the sources; the spec counts the bytes of
    a record, its key and its value. *)
Definition expectedSize (kv : KeyValueRef) : Z :=
  Z.of_nat (String.length (fst kv)) + Z.of_nat (length (snd kv)).

(** arithmetic of the type [int]: 32 bits, two's complement *)
Definition int32 (z : Z) : Z := (z + 2 ^ 31) mod 2 ^ 32 - 2 ^ 31.
Definition INT_MAX : Z := 2 ^ 31 - 1.
Definition INT_MIN : Z := - 2 ^ 31.

(** Modelled from the spec: [RangeResultRef] is declared in FDBTypes.h; the
    spec gives it the records, the flag [more] and, with [more],
    [readThrough]. *)
Module RangeResultRef.
Record t : Type := mk {
  records : list KeyValueRef;
  more : bool;
  readThrough : option Key }.
End RangeResultRef.

(** [IStoreCursor], the interface [VersionedBTree::Cursor] overrides, over
    the state [S] of the store that holds the cursor of the running actor. *)
Class IStoreCursor (S : Type) : Type := {
  findEqual : Key -> M S unit;
  findFirstEqualOrGreater : Key -> Z -> M S unit;
  findLastLessOrEqual : Key -> Z -> M S unit;
  next : M S unit;
  prev : M S unit;
  isValid : S -> bool;
  getKey : S -> Key;
  getValue : S -> ValueRef }.

(** what the facade uses of the tree it holds in [m_tree] *)
Class IVersionedStore (S : Type) : Type := {
  getLastCommittedVersion : S -> Version;
  readAtVersion : Version -> M S unit }.

Module KeyValueStoreRedwoodUnversioned.
Section Facade.
Context {S : Type} `{IStoreCursor S} `{IVersionedStore S}.

(** the loop of [readRange_impl] for a positive [rowLimit]; it takes at most
    [rowLimit] turns, which is what [fuel] counts *)
Fixpoint readForward (fuel : nat) (keys : Key * Key) (byteLimit rowLimit accumulatedBytes : Z)
    (result : list KeyValueRef) : M S (list KeyValueRef * Z * Z) :=
  match fuel with
  | O => throw fuel_exhausted
  | Datatypes.S fuel' =>
      cur <~ gets (fun s => s);;
      if isValid cur && String.ltb (getKey cur) (snd keys)
      then
        let kv := (getKey cur, getValue cur) in
        let accumulatedBytes := int32 (accumulatedBytes + expectedSize kv) in
        let result := result ++ [kv] in
        let rowLimit := int32 (rowLimit - 1) in
        if (rowLimit =? 0) || (byteLimit <=? accumulatedBytes)
        then ret (result, rowLimit, accumulatedBytes)
        else next;;; readForward fuel' keys byteLimit rowLimit accumulatedBytes result
      else ret (result, rowLimit, accumulatedBytes)
  end.

(** the loop for a negative [rowLimit] *)
Fixpoint readReverse (fuel : nat) (keys : Key * Key) (byteLimit rowLimit accumulatedBytes : Z)
    (result : list KeyValueRef) : M S (list KeyValueRef * Z * Z) :=
  match fuel with
  | O => throw fuel_exhausted
  | Datatypes.S fuel' =>
      cur <~ gets (fun s => s);;
      if isValid cur && negb (String.ltb (getKey cur) (fst keys))
      then
        let kv := (getKey cur, getValue cur) in
        let accumulatedBytes := int32 (accumulatedBytes + expectedSize kv) in
        let result := result ++ [kv] in
        let rowLimit := int32 (rowLimit + 1) in
        if (rowLimit =? 0) || (byteLimit <=? accumulatedBytes)
        then ret (result, rowLimit, accumulatedBytes)
        else prev;;; readReverse fuel' keys byteLimit rowLimit accumulatedBytes result
      else ret (result, rowLimit, accumulatedBytes)
  end.

Definition readRange_impl (keys : Key * Key) (rowLimit byteLimit : Z) : M S RangeResultRef.t :=
  ASSERT (0 <? byteLimit);;;
  if rowLimit =? 0 then ret (RangeResultRef.mk [] false None)
  else
    self <~ gets (fun s => s);;
    readAtVersion (getLastCommittedVersion self);;;
    (* Prefetch is currently only done in the forward direction *)
    let prefetchBytes := if 1 <? rowLimit then byteLimit else 0 in
    r <~ (if 0 <? rowLimit
          then
            findFirstEqualOrGreater (fst keys) prefetchBytes;;;
            readForward (Z.to_nat rowLimit) keys byteLimit rowLimit 0 []
          else
            findLastLessOrEqual (snd keys) 0;;;
            cur <~ gets (fun s => s);;
            (if isValid cur && String.eqb (getKey cur) (snd keys) then prev else ret tt);;;
            readReverse (Z.to_nat (- rowLimit)) keys byteLimit rowLimit 0 []);;
    let '(result, rowLimit, accumulatedBytes) := r in
    if (rowLimit =? 0) || (byteLimit <=? accumulatedBytes)
    then
      match last result with
      | Some kv => ret (RangeResultRef.mk result true (Some (fst kv)))
      | None => throw assertion_failed
      end
    else ret (RangeResultRef.mk result false None).

Definition readValue_impl (key : Key) : M S (option ValueRef) :=
  self <~ gets (fun s => s);;
  readAtVersion (getLastCommittedVersion self);;;
  findEqual key;;;
  cur <~ gets (fun s => s);;
  if isValid cur then ret (Some (getValue cur)) else ret None.

(** [substr(0, len)] of a value; a negative length is not a length the
    source can mean, and the run stops there *)
Definition readValuePrefix_impl (key : Key) (maxLength : Z) : M S (option ValueRef) :=
  self <~ gets (fun s => s);;
  readAtVersion (getLastCommittedVersion self);;;
  findEqual key;;;
  cur <~ gets (fun s => s);;
  if isValid cur
  then
    let v := getValue cur in
    let len := Z.min (Z.of_nat (length v)) maxLength in
    ASSERT (0 <=? len);;;
    ret (Some (take (Z.to_nat len) (getValue cur)))
  else ret None.

End Facade.

(** The records of a store in key order with the cursor's place among them:
    what the operations of a cursor do, in the words of the interface. *)
Fixpoint countWhile {A} (P : A -> bool) (l : list A) : nat :=
  match l with
  | [] => O
  | x :: rest => if P x then Datatypes.S (countWhile P rest) else O
  end.

Definition firstEqualOrGreater (k : Key) (items : list KeyValueRef) : option nat :=
  let n := countWhile (fun kv => String.ltb (fst kv) k) items in
  if (n <? length items)%nat then Some n else None.

Definition lastLessOrEqual (k : Key) (items : list KeyValueRef) : option nat :=
  match countWhile (fun kv => String.leb (fst kv) k) items with
  | O => None
  | Datatypes.S n => Some n
  end.

(** the place of the record with key [k], if there is one *)
Definition equalTo (k : Key) (items : list KeyValueRef) : option nat :=
  match firstEqualOrGreater k items with
  | Some i =>
      match items !! i with
      | Some kv => if String.eqb (fst kv) k then Some i else None
      | None => None
      end
  | None => None
  end.

Record CursorContract {S : Type} `{IStoreCursor S}
    (items : S -> list KeyValueRef) (position : S -> option nat) : Prop := {
  contract_isValid : forall s, isValid s = bool_decide (is_Some (position s));
  contract_get : forall s i,
    position s = Some i -> items s !! i = Some (getKey s, getValue s);
  contract_findFirstEqualOrGreater : forall k prefetchBytes s s',
    findFirstEqualOrGreater k prefetchBytes s = (Ok tt, s') ->
    items s' = items s /\ position s' = firstEqualOrGreater k (items s);
  contract_findLastLessOrEqual : forall k prefetchBytes s s',
    findLastLessOrEqual k prefetchBytes s = (Ok tt, s') ->
    items s' = items s /\ position s' = lastLessOrEqual k (items s);
  contract_next : forall s s' i,
    position s = Some i -> next s = (Ok tt, s') ->
    items s' = items s /\
    position s' = (if (Datatypes.S i <? length (items s))%nat then Some (Datatypes.S i) else None);
  contract_prev : forall s s' i,
    position s = Some i -> prev s = (Ok tt, s') ->
    items s' = items s /\ position s' = (match i with O => None | Datatypes.S j => Some j end) }.

(** [findEqual] leaves the cursor at the record with the key, or invalid *)
Definition FindEqualContract {S : Type} `{IStoreCursor S}
    (items : S -> list KeyValueRef) (position : S -> option nat) : Prop :=
  forall k s s',
    findEqual k s = (Ok tt, s') ->
    items s' = items s /\ position s' = equalTo k (items s).

(** the records from the cursor's place on, in the order [next] visits them,
    and in the order [prev] does *)
Definition ahead (items : list KeyValueRef) (position : option nat) : list KeyValueRef :=
  match position with
  | Some i => drop i items
  | None => []
  end.

Definition behind (items : list KeyValueRef) (position : option nat) : list KeyValueRef :=
  match position with
  | Some i => reverse (take (Datatypes.S i) items)
  | None => []
  end.

(** the records of [items] with a key in the range, and the bytes of a
    result *)
Definition inRange (keys : Key * Key) (items : list KeyValueRef) : list KeyValueRef :=
  filter (fun kv => String.ltb (fst kv) (fst keys) = false /\ String.ltb (fst kv) (snd keys) = true)
    items.

Definition bytesOf (l : list KeyValueRef) : Z := foldr (fun kv n => expectedSize kv + n) 0 l.

(** What a loop of [readRange_impl] has done when it ends: of the records
    [remaining] before the cursor it has [taken] the first ones, all with a
    key it goes on at; [n] rows were allowed and [left] still are; [acc]
    bytes were counted before and [total] are now.  No limit was reached
    before the last record taken; and either a limit is reached now, or the
    record that comes next, if there is one, has a key the loop stops at. *)
Definition scanned (continue : Key -> bool) (byteLimit n acc : Z)
    (remaining taken : list KeyValueRef) (left total : Z) : Prop :=
  taken `prefix_of` remaining /\
  Forall (fun kv => continue (fst kv) = true) taken /\
  left = n - Z.of_nat (length taken) /\ 0 <= left /\
  total = acc + bytesOf taken /\
  (forall p x q, taken = p ++ x :: q -> acc + bytesOf p < byteLimit) /\
  (((left = 0 \/ byteLimit <= total) /\ taken <> []) \/
   (left <> 0 /\ total < byteLimit /\
    forall kv rest, remaining = taken ++ kv :: rest -> continue (fst kv) = false)).

(** the keys of [items] go up strictly *)
Definition keysAscend (items : list KeyValueRef) : Prop :=
  StronglySorted (fun a b => String.ltb (fst a) (fst b) = true) items.
End KeyValueStoreRedwoodUnversioned.

(** A store that is a list of records in memory, with its cursor. *)
Module ListStore.
Record t : Type := mk {
  items : list KeyValueRef;
  cursor : option nat }.

Definition position (s : t) : option nat :=
  match cursor s with
  | Some i => if (i <? length (items s))%nat then Some i else None
  | None => None
  end.

Definition seek (f : list KeyValueRef -> option nat) : M t unit :=
  modify (fun s => mk (items s) (f (items s))).

#[global] Instance cursor_ops : IStoreCursor t := {
  findEqual k := seek (KeyValueStoreRedwoodUnversioned.equalTo k);
  findFirstEqualOrGreater k _ := seek (KeyValueStoreRedwoodUnversioned.firstEqualOrGreater k);
  findLastLessOrEqual k _ := seek (KeyValueStoreRedwoodUnversioned.lastLessOrEqual k);
  next := modify (fun s => mk (items s) (Datatypes.S <$> position s));
  prev := modify (fun s => mk (items s)
                    (match position s with
                     | Some (Datatypes.S j) => Some j
                     | _ => None
                     end));
  isValid s := bool_decide (is_Some (position s));
  getKey s := default EmptyString (fst <$> (position s ≫= fun i => items s !! i));
  getValue s := default [] (snd <$> (position s ≫= fun i => items s !! i)) }.

#[global] Instance store_ops : IVersionedStore t := {
  getLastCommittedVersion _ := 0;
  readAtVersion _ := modify (fun s => mk (items s) None) }.
End ListStore.

(** ** Delta encoding of records *)

(** arithmetic of the types [int16_t] and [int64_t], two's complement *)
Definition int16 (z : Z) : Z := (z + 2 ^ 15) mod 2 ^ 16 - 2 ^ 15.
Definition int64 (z : Z) : Z := (z + 2 ^ 63) mod 2 ^ 64 - 2 ^ 63.

(** The bytes of an integer of [n] bytes, low byte first, and the unsigned
    integer that bytes hold: the packed structures of the source are read
    and written in the byte order of the machine, which is little-endian on
    the machines the source is built for. *)
Fixpoint toBytes (n : nat) (z : Z) : list Z :=
  match n with
  | O => []
  | S n' => z mod 256 :: toBytes n' (z / 256)
  end.

Fixpoint fromBytes (bs : list Z) : Z :=
  match bs with
  | [] => 0
  | b :: bs' => b + 256 * fromBytes bs'
  end.

(** the bytes of a key, and the key that bytes make *)
Definition keyBytes (k : Key) : list Z :=
  (fun c => Z.of_N (N_of_ascii c)) <$> list_ascii_of_string k.
Definition bytesKey (bs : list Z) : Key :=
  string_of_list_ascii ((fun b => ascii_of_N (Z.to_N b)) <$> bs).

(** Modelled from the spec: [commonPrefixLength] is declared in flow, which
    is not among the sources; it is the spec's common-prefix length, the
    number of leading bytes that two strings share among their first [cl]. *)
Fixpoint commonPrefixLength (a b : list Z) (cl : nat) : nat :=
  match cl, a, b with
  | S cl', x :: a', y :: b' => if x =? y then S (commonPrefixLength a' b' cl') else O
  | _, _, _ => O
  end.

(** [RedwoodRecordRef::Delta], a packed structure laid over a buffer: the
    bytes from its address on, as far as the buffer goes.  The byte of the
    flags comes first, the length fields in one of four formats follow, then
    the key suffix, the value and the version delta. *)
Module Delta.
Definition t : Type := list Z.

Definition PREFIX_SOURCE_PREV : Z := 0x80.
Definition IS_DELETED : Z := 0x40.
Definition HAS_VALUE : Z := 0x20.
Definition HAS_VERSION : Z := 0x10.
Definition VERSION_DELTA_SIZE : Z := 0xC.
Definition LENGTHS_FORMAT : Z := 0x03.
Definition MASK : Z := 0xFFFFFFFFFFFF.

Definition LengthFormatSizes (formatType : Z) : Z :=
  match formatType with
  | 0 => 3
  | 1 => 4
  | 2 => 6
  | _ => 8
  end.

Definition VersionDeltaSizes (code : Z) : Z :=
  match code with
  | 0 => 0
  | 1 => 4
  | 2 => 6
  | _ => 8
  end.

(** [n] bytes of the buffer from offset [off]; past the end of the buffer
    the source reads memory that is not the buffer's, the model nothing *)
Definition read (off n : nat) (d : t) : list Z := take n (drop off d).

(** the bytes [bs] written at offset [off]; the source writes past the end of
    a buffer that is too short, which is undefined: the model has no result
    there *)
Definition store (off : nat) (bs : list Z) (d : t) : option t :=
  if decide (off + length bs <= length d)%nat
  then Some (take off d ++ bs ++ drop (off + length bs) d)
  else None.

Definition flags (d : t) : Z := fromBytes (read 0 1 d).

Definition determineLengthFormat (prefixLength suffixLength valueLength : Z) : Z :=
  if (0xFF <? prefixLength) || (0xFF <? suffixLength) then 3
  else if valueLength <? 0x100 then 0
  else if valueLength <? 0x10000 then 1
  else 2.

(** the three length fields of a format, as [writeDelta] assigns them *)
Definition lengthFields (formatType prefixLength suffixLength valueLength : Z) : list Z :=
  match formatType with
  | 0 => toBytes 1 prefixLength ++ toBytes 1 suffixLength ++ toBytes 1 valueLength
  | 1 => toBytes 1 prefixLength ++ toBytes 1 suffixLength ++ toBytes 2 valueLength
  | 2 => toBytes 1 prefixLength ++ toBytes 1 suffixLength ++ toBytes 4 valueLength
  | _ => toBytes 2 prefixLength ++ toBytes 2 suffixLength ++ toBytes 4 valueLength
  end.

(** [data()], as an offset from the address of the structure *)
Definition data (d : t) : nat :=
  match Z.land (flags d) LENGTHS_FORMAT with
  | 0 => 1 + 3
  | 1 => 1 + 4
  | 2 => 1 + 6
  | _ => 1 + 8
  end.

Definition getKeyPrefixLength (d : t) : Z :=
  match Z.land (flags d) LENGTHS_FORMAT with
  | 0 => fromBytes (read 1 1 d)
  | 1 => fromBytes (read 1 1 d)
  | 2 => fromBytes (read 1 1 d)
  | _ => fromBytes (read 1 2 d)
  end.

Definition getKeySuffixLength (d : t) : Z :=
  match Z.land (flags d) LENGTHS_FORMAT with
  | 0 => fromBytes (read 2 1 d)
  | 1 => fromBytes (read 2 1 d)
  | 2 => fromBytes (read 2 1 d)
  | _ => fromBytes (read 3 2 d)
  end.

(** the result is an [int]: a 32-bit length is converted *)
Definition getValueLength (d : t) : Z :=
  match Z.land (flags d) LENGTHS_FORMAT with
  | 0 => fromBytes (read 3 1 d)
  | 1 => fromBytes (read 3 2 d)
  | 2 => int32 (fromBytes (read 3 4 d))
  | _ => int32 (fromBytes (read 5 4 d))
  end.

Definition getKeySuffix (d : t) : list Z :=
  read (data d) (Z.to_nat (getKeySuffixLength d)) d.

Definition getValue (d : t) : list Z :=
  read (data d + Z.to_nat (getKeySuffixLength d)) (Z.to_nat (getValueLength d)) d.

Definition hasVersion (d : t) : bool := negb (Z.land (flags d) HAS_VERSION =? 0).

Definition hasValue (d : t) : bool := negb (Z.land (flags d) HAS_VALUE =? 0).

Definition getPrefixSource (d : t) : bool := negb (Z.land (flags d) PREFIX_SOURCE_PREV =? 0).

Definition getDeleted (d : t) : bool := negb (Z.land (flags d) IS_DELETED =? 0).

(** [getVersionDeltaSizeBytes()] of a delta *)
Definition getVersionDeltaSizeBytes (d : t) : Z :=
  let code := Z.shiftr (Z.land (flags d) VERSION_DELTA_SIZE) 2 in
  VersionDeltaSizes code.

(** the static [getVersionDeltaSizeBytes(Version d)] *)
Definition getVersionDeltaSizeBytesOf (d : Version) : Z :=
  if d =? 0 then 0
  else if d =? int32 d then 4
  else if d =? Z.land d MASK then 6
  else 8.

(** [getVersionDelta(r)], with [r] as an offset; its result is an [int],
    to which the 48-bit and the 64-bit delta are converted *)
Definition getVersionDelta (r : nat) (d : t) : Z :=
  let code := Z.shiftr (Z.land (flags d) VERSION_DELTA_SIZE) 2 in
  match code with
  | 0 => 0
  | 1 => int32 (fromBytes (read r 4 d))
  | 2 =>
      let high := int32 (fromBytes (read r 4 d)) in
      let low := int16 (fromBytes (read (r + 4) 2 d)) in
      int32 (Z.lor (int64 (Z.shiftl high 16)) (Z.land low 0xFFFF))
  | _ => int32 (int64 (fromBytes (read r 8 d)))
  end.

(** [d.flags |= bits] *)
Definition orFlags (bits : Z) (d : t) : option t :=
  store 0 (toBytes 1 (Z.lor (flags d) bits)) d.

(** [setVersionDelta(d, w)], with [w] as an offset: the delta after it and
    the number of bytes written *)
Definition setVersionDelta (delta : Version) (w : nat) (d : t) : option (t * Z) :=
  d ← orFlags HAS_VERSION d;
  if delta =? 0 then Some (d, 0)
  else if delta =? int32 delta then
    d ← orFlags (Z.shiftl 1 2) d;
    d ← store w (toBytes 4 delta) d;
    Some (d, 4)
  else if delta =? Z.land delta MASK then
    d ← orFlags (Z.shiftl 2 2) d;
    d ← store w (toBytes 4 (Z.shiftr delta 16)) d;
    d ← store (w + 4) (toBytes 2 delta) d;
    Some (d, 6)
  else
    d ← orFlags (Z.shiftl 3 2) d;
    d ← store w (toBytes 8 delta) d;
    Some (d, 8).

Definition setPrefixSource (val : bool) (d : t) : option t :=
  if val then orFlags PREFIX_SOURCE_PREV d
  else store 0 (toBytes 1 (Z.land (flags d) (Z.lnot PREFIX_SOURCE_PREV))) d.

Definition setDeleted (val : bool) (d : t) : option t :=
  if val then orFlags IS_DELETED d
  else store 0 (toBytes 1 (Z.land (flags d) (Z.lnot IS_DELETED))) d.

(** [apply(base, arena)]: the record that a delta makes of its base *)
Definition apply (d : t) (base : RedwoodRecordRef.t) : RedwoodRecordRef.t :=
  let keyPrefixLen := getKeyPrefixLength d in
  let keySuffixLen := getKeySuffixLength d in
  let valueLen := if hasValue d then getValueLength d else 0 in
  let r := data d in
  let '(k, r) :=
    if 0 <? keySuffixLen
    then
      let keySuffix := read r (Z.to_nat keySuffixLen) d in
      (bytesKey (take (Z.to_nat keyPrefixLen) (keyBytes (RedwoodRecordRef.key base)) ++ keySuffix),
       (r + Z.to_nat keySuffixLen)%nat)
    else (bytesKey (take (Z.to_nat keyPrefixLen) (keyBytes (RedwoodRecordRef.key base))), r) in
  let '(value, r) :=
    if hasValue d
    then (Some (read r (Z.to_nat valueLen) d), (r + Z.to_nat valueLen)%nat)
    else (None, r) in
  let v := if hasVersion d
           then int64 (RedwoodRecordRef.version base + getVersionDelta r d)
           else 0 in
  RedwoodRecordRef.mk k v value.

Definition size (d : t) : Z :=
  let size := 1 + getVersionDeltaSizeBytes d in
  match Z.land (flags d) LENGTHS_FORMAT with
  | 0 => int32 (size + 3 + fromBytes (read 2 1 d) + fromBytes (read 3 1 d))
  | 1 => int32 (size + 4 + fromBytes (read 2 1 d) + fromBytes (read 3 2 d))
  | 2 => int32 (size + 6 + fromBytes (read 2 1 d) + fromBytes (read 3 4 d))
  | _ => int32 (size + 8 + fromBytes (read 3 2 d) + fromBytes (read 5 4 d))
  end.
End Delta.

(** [RedwoodRecordRef::DeltaValueOnly]: a delta read for its value alone *)
Module DeltaValueOnly.
Definition apply (d : Delta.t) (base : RedwoodRecordRef.t) : RedwoodRecordRef.t :=
  let value := if Delta.hasValue d then Some (Delta.getValue d) else None in
  RedwoodRecordRef.mk EmptyString 0 value.
End DeltaValueOnly.

(** The members of [RedwoodRecordRef] that make deltas. *)
Module RedwoodRecordRefDelta.
Import RedwoodRecordRef.

Definition keySize (r : RedwoodRecordRef.t) : Z := Z.of_nat (String.length (key r)).

Definition getCommonPrefixLen (r other : RedwoodRecordRef.t) (skipLen : Z) : Z :=
  let skipStart := Z.min skipLen (keySize r) in
  skipStart
  + Z.of_nat (commonPrefixLength (drop (Z.to_nat skipStart) (keyBytes (key r)))
                                 (drop (Z.to_nat skipStart) (keyBytes (key other)))
                                 (Z.to_nat (Z.min (keySize other) (keySize r) - skipStart))).

Definition valueSize (r : RedwoodRecordRef.t) : Z :=
  match value r with
  | Some v => Z.of_nat (length v)
  | None => 0
  end.

Definition deltaSize (r base : RedwoodRecordRef.t) (skipLen : Z) (worstCaseOverhead : bool) : Z :=
  let prefixLen := getCommonPrefixLen r base skipLen in
  let keySuffixLen := keySize r - prefixLen in
  let valueLen := valueSize r in
  let '(formatType, versionBytes) :=
    if worstCaseOverhead
    then (Delta.determineLengthFormat (keySize r) (keySize r) valueLen,
          if version r =? 0 then 0 else Delta.getVersionDeltaSizeBytesOf (int64 (Z.shiftl (version r) 1)))
    else (Delta.determineLengthFormat prefixLen keySuffixLen valueLen,
          if version r =? 0 then 0
          else Delta.getVersionDeltaSizeBytesOf (int64 (version r - version base))) in
  int32 (1 + Delta.LengthFormatSizes formatType + keySuffixLen + valueLen + versionBytes).

(** [writeDelta(d, base, keyPrefixLen)]: the delta written and its size.  A
    prefix longer than the key leaves a suffix of negative length, which no
    string has: the model has no result there. *)
Definition writeDelta (r : RedwoodRecordRef.t) (d : Delta.t) (base : RedwoodRecordRef.t)
    (keyPrefixLen : Z) : option (Delta.t * Z) :=
  d ← Delta.store 0 (toBytes 1 (match value r with Some _ => Delta.HAS_VALUE | None => 0 end)) d;
  let keyPrefixLen := if keyPrefixLen <? 0 then getCommonPrefixLen r base 0 else keyPrefixLen in
  if keySize r <? keyPrefixLen then None else
  let keySuffix := drop (Z.to_nat keyPrefixLen) (keyBytes (key r)) in
  let suffixLen := Z.of_nat (length keySuffix) in
  let valueLen := valueSize r in
  let formatType := Delta.determineLengthFormat keyPrefixLen suffixLen valueLen in
  d ← Delta.orFlags formatType d;
  d ← Delta.store 1 (Delta.lengthFields formatType keyPrefixLen suffixLen valueLen) d;
  let wptr := Delta.data d in
  d ← Delta.store wptr keySuffix d;
  let wptr := (wptr + length keySuffix)%nat in
  '(d, wptr) ← match value r with
               | Some v => d ← Delta.store wptr v d; Some (d, (wptr + length v)%nat)
               | None => Some (d, wptr)
               end;
  '(d, wptr) ← (if version r =? 0 then Some (d, wptr)
                else '(d, n) ← Delta.setVersionDelta (int64 (version r - version base)) wptr d;
                     Some (d, (wptr + Z.to_nat n)%nat));
  Some (d, int32 (Z.of_nat wptr)).
End RedwoodRecordRefDelta.

(** ** The bytes of a lazy delete queue entry *)

(** [LazyDeleteQueueEntry::readFromBytes], [bytesNeeded] and [writeToBytes]
    on the bytes of a queue page from where the entry starts.  Modelled from
    the spec: [LogicalPageID] is declared in IPager.h, which is not among the
    sources; the spec gives a page identifier 64 bits, without sign. *)
Module LazyDeleteQueueEntryCodec.

Definition bytesNeeded (x : LazyDeleteQueueEntry.t) : Z :=
  int32 (8 + 1 + Z.of_nat (length (LazyDeleteQueueEntry.pageID x)) * 8).

(** the entry read, and the number of bytes it takes *)
Definition readFromBytes (src : list Z) : LazyDeleteQueueEntry.t * Z :=
  let version := int64 (fromBytes (Delta.read 0 8 src)) in
  let count := fromBytes (Delta.read 8 1 src) in
  let pageID :=
    (fun i => fromBytes (Delta.read (9 + 8 * i) 8 src)) <$> seq 0 (Z.to_nat count) in
  let x := LazyDeleteQueueEntry.mk version pageID in
  (x, bytesNeeded x).

(** the count of page identifiers goes into one byte *)
Definition writeToBytes (dst : list Z) (x : LazyDeleteQueueEntry.t) : option (list Z * Z) :=
  d ← Delta.store 0 (toBytes 8 (LazyDeleteQueueEntry.version x)) dst;
  d ← Delta.store 8 (toBytes 1 (Z.of_nat (length (LazyDeleteQueueEntry.pageID x)))) d;
  d ← Delta.store 9 (mjoin (toBytes 8 <$> LazyDeleteQueueEntry.pageID x)) d;
  Some (d, bytesNeeded x).
End LazyDeleteQueueEntryCodec.

(** ** Object cache *)

(** [ObjectCache<IndexType, ObjectType>]: the entries by index and the order
    in which they are to be evicted, oldest first.  The eviction order of
    the source links the entries of the map themselves; here it lists their
    keys in the map.  [evictable] is the method that the source asks of
    [ObjectType], [newObject] the object that its default constructor
    makes. *)
Module ObjectCache.
Section ObjectCache.
Context {IndexType : Type} `{Countable IndexType} {ObjectType : Type}.
Variable evictable : ObjectType -> bool.
Variable newObject : ObjectType.

Record Entry : Type := mkEntry {
    index : IndexType;
    item : ObjectType;
    hits : Z }.

Record t : Type := mk {
    sizeLimit : Z;
    cacheHits : Z;
    cacheMisses : Z;
    noHitEvictions : Z;
    failedEvictions : Z;
    cache : gmap IndexType Entry;
    evictionOrder : list IndexType }.

Definition create (sizeLimit : Z) : t := mk sizeLimit 0 0 0 0 ∅ [].

Definition setSizeLimit (n : Z) : M t unit :=
  ASSERT (0 <? n);;;
  modify (fun s => mk n (cacheHits s) (cacheMisses s) (noHitEvictions s) (failedEvictions s)
                      (cache s) (evictionOrder s)).

(** the pointer that [getIfExists] returns is the item, or nothing *)
Definition getIfExists (i : IndexType) : M t (option ObjectType) :=
  s <~ gets (fun s => s);;
  match cache s !! i with
  | Some entry =>
      modify (fun s => mk (sizeLimit s) (cacheHits s) (cacheMisses s) (noHitEvictions s)
                          (failedEvictions s)
                          (<[i := mkEntry (index entry) (item entry) (int32 (hits entry + 1))]>
                             (cache s))
                          (evictionOrder s));;;
      ret (Some (item entry))
  | None => ret None
  end.

(** [evictionOrder.erase(evictionOrder.iterator_to(entry))] *)
Fixpoint unlink (i : IndexType) (order : list IndexType) : list IndexType :=
  match order with
  | [] => []
  | k :: order' => if decide (k = i) then order' else k :: unlink i order'
  end.

(** The loop of [get] that evicts.  The size of the map is unsigned, and the
    limit is converted to compare with it.  Every turn that does not leave
    the loop takes an entry from the eviction order: [fuel] counts the turns
    left.  [front()] of an empty list is undefined in the source. *)
Fixpoint evict (fuel : nat) : M t unit :=
  s <~ gets (fun s => s);;
  if sizeLimit s mod 2 ^ 64 <? Z.of_nat (size (cache s))
  then
    match fuel with
    | O => throw fuel_exhausted
    | S fuel' =>
        match evictionOrder s with
        | [] => throw assertion_failed
        | k :: order =>
            match cache s !! k with
            | None => throw assertion_failed
            | Some toEvict =>
                if negb (evictable (item toEvict))
                then
                  modify (fun s => mk (sizeLimit s) (cacheHits s) (cacheMisses s)
                                      (noHitEvictions s) (int64 (failedEvictions s + 1))
                                      (cache s) (order ++ [k]))
                else
                  modify (fun s => mk (sizeLimit s) (cacheHits s) (cacheMisses s)
                                      (if hits toEvict =? 0
                                       then int64 (noHitEvictions s + 1)
                                       else noHitEvictions s)
                                      (failedEvictions s)
                                      (delete (index toEvict) (cache s)) order);;;
                  evict fuel'
            end
        end
    end
  else ret tt.

(** [get(index, noHit)].  The reference that the source returns is to the
    item of the entry; it dangles when the loop has evicted the entry, which
    is undefined. *)
Definition get (i : IndexType) (noHit : bool) : M t ObjectType :=
  s <~ gets (fun s => s);;
  match cache s !! i with
  | Some entry =>
      if bool_decide (i ∈ evictionOrder s)
      then
        modify (fun s => mk (sizeLimit s)
                            (if noHit then cacheHits s else int64 (cacheHits s + 1))
                            (cacheMisses s) (noHitEvictions s) (failedEvictions s)
                            (<[i := mkEntry (index entry) (item entry)
                                      (if noHit then hits entry else int32 (hits entry + 1))]>
                               (cache s))
                            (unlink i (evictionOrder s) ++ [i]));;;
        ret (item entry)
      else
        modify (fun s => mk (sizeLimit s) (cacheHits s) (int64 (cacheMisses s + 1))
                            (noHitEvictions s) (failedEvictions s)
                            (<[i := mkEntry i (item entry) (if noHit then 0 else 1)]> (cache s))
                            (evictionOrder s ++ [i]));;;
        order <~ gets evictionOrder;;
        evict (length order);;;
        s <~ gets (fun s => s);;
        match cache s !! i with
        | Some entry => ret (item entry)
        | None => throw assertion_failed
        end
  | None =>
      modify (fun s => mk (sizeLimit s) (cacheHits s) (int64 (cacheMisses s + 1))
                          (noHitEvictions s) (failedEvictions s)
                          (<[i := mkEntry i newObject (if noHit then 0 else 1)]> (cache s))
                          (evictionOrder s ++ [i]));;;
      order <~ gets evictionOrder;;
      evict (length order);;;
      s <~ gets (fun s => s);;
      match cache s !! i with
      | Some entry => ret (item entry)
      | None => throw assertion_failed
      end
  end.

(** [clear_impl]: the loop that would wait for the entries runs from
    [begin()] to [begin()], over nothing *)
Definition clear : M t unit :=
  modify (fun s => mk (sizeLimit s) (cacheHits s) (cacheMisses s) (noHitEvictions s)
                      (failedEvictions s) ∅ []).

Definition count : M t Z :=
  s <~ gets (fun s => s);;
  ASSERT (bool_decide (length (evictionOrder s) = size (cache s)));;;
  ret (int32 (Z.of_nat (length (evictionOrder s)))).

(** the entries are the keys of the eviction order, each once, and an entry
    knows its index *)
Definition linked (s : t) : Prop :=
  NoDup (evictionOrder s) /\
  (forall k, k ∈ evictionOrder s <-> is_Some (cache s !! k)) /\
  (forall k e, cache s !! k = Some e -> index e = k).

(** what a caller does with the reference that [get] returns: it writes the
    item of the entry *)
Definition setItem (i : IndexType) (x : ObjectType) (s : t) : t :=
  mk (sizeLimit s) (cacheHits s) (cacheMisses s) (noHitEvictions s) (failedEvictions s)
     (alter (fun e => mkEntry (index e) x (hits e)) i (cache s)) (evictionOrder s).

(** the calls of the class *)
Inductive Call : Type :=
  | CallSetSizeLimit (n : Z)
  | CallGetIfExists (i : IndexType)
  | CallGet (i : IndexType) (noHit : bool)
  | CallClear
  | CallCount.

Definition run (c : Call) : M t unit :=
  match c with
  | CallSetSizeLimit n => setSizeLimit n
  | CallGetIfExists i => getIfExists i;;; ret tt
  | CallGet i noHit => get i noHit;;; ret tt
  | CallClear => clear
  | CallCount => count;;; ret tt
  end.

(** the states that calls that return, and writes to the items, make of a new
    cache *)
Inductive reachable : t -> Prop :=
  | reachable_create n : reachable (create n)
  | reachable_call c s s' : reachable s -> run c s = (Ok tt, s') -> reachable s'
  | reachable_setItem i x s : reachable s -> reachable (setItem i x s).
End ObjectCache.
End ObjectCache.

(** ** Example runs *)
Module Examples.
Import DWALPager.

(** a file that does not exist yet, and a pager opened on it *)
Definition noFile : AsyncFile.t := AsyncFile.mk false 0 ∅ [] [] false.
Definition opened : DWALPager.t :=
  Eval vm_compute in snd (recover 10 (construct 4096 noFile false)).

(** a page is allocated (page 5), freed at version 1, which is the effective
    oldest version, and the change committed *)
Definition freedAtOldest : DWALPager.t :=
  Eval vm_compute in
    (let s := snd (newPageID opened) in
     let s := snd (freePage 5 1 s) in
     snd (commit 10 s)).



(** the pager once more committed, nothing else done *)
Definition committed : DWALPager.t :=
  Eval vm_compute in snd (commit 10 opened).

(** a pager opened on the file that the commit left *)
Definition reopened : DWALPager.t :=
  Eval vm_compute in snd (recover 10 (construct 4096 (pageFile committed) false)).

(** a leaf page of the B-tree without records, told apart by [kvBytes] *)
Definition leafPage (n : Z) : IPage := PageBTree (BTreePage.mk 1 n []) 0.

(** page 5 is allocated *)
Definition allocated : DWALPager.t :=
  Eval vm_compute in snd (newPageID opened).

(** and rewritten atomically at version 10 *)
Definition remappedOnce : DWALPager.t :=
  Eval vm_compute in snd (atomicUpdatePage 5 (leafPage 1) 10 allocated).

(** and after that rewritten atomically at version 5 *)
Definition remappedTwice : DWALPager.t :=
  Eval vm_compute in snd (atomicUpdatePage 5 (leafPage 2) 5 remappedOnce).

(** the file of [opened] found with a first block that does not pass its
    checksum; the second block holds the header of the commit before *)
Definition tornFile : AsyncFile.t :=
  Eval vm_compute in
    (let f := pageFile opened in
     AsyncFile.mk true (AsyncFile.size f) (<[0 := Page.unread]> (AsyncFile.blocks f)) [] [] false).

(** a file of two blocks: the first does not pass its checksum, the second
    holds, with its checksum, a header of another format version *)
Definition otherFormat : Header.t :=
  Header.mk 1 4096 2 (QueueState.mk 0 0 0 0 0) (QueueState.mk 0 0 0 0 0)
    (QueueState.mk 0 0 0 0 0) 1 1 None.
Definition otherFormatFile : AsyncFile.t :=
  Eval vm_compute in
    AsyncFile.mk true 8192
      (<[1 := Page.updateChecksum 1 (Page.fresh (PageHeader otherFormat))]>
         (<[0 := Page.unread]> ∅)) [] [] false.

(** the pager opened on [tornFile] *)
Definition recovered : DWALPager.t :=
  Eval vm_compute in snd (recover 10 (construct 4096 tornFile false)).

(** a file of two blocks of which neither passes its checksum *)
Definition bothBadFile : AsyncFile.t :=
  Eval vm_compute in AsyncFile.mk true 8192 (<[0 := Page.unread]> ∅) [] [] false.

(** a file of one block only *)
Definition shortFile : AsyncFile.t :=
  Eval vm_compute in AsyncFile.mk true 4096 (<[0 := Page.unread]> ∅) [] [] false.

(** a B-tree page of height 2 with one child, the leaf at page 7 *)
Definition internalPage : IPage :=
  PageBTree (BTreePage.mk 2 0 [RedwoodRecordRef.mk EmptyString 0 (Some [7])]) 0.

(** a tree whose lazy delete queue, kept on page 5, holds the page 6 of
    [internalPage] as cleared at version 5; the queue is flushed and the
    pager committed *)
Definition lazyTree : VersionedBTree.t :=
  Eval vm_compute in
    (let p := snd (newPageID opened) in
     let p := snd (newPageID p) in
     let p := snd (newPageID p) in
     let p := snd (updatePage 6 internalPage p) in
     let p := snd (updatePage 7 (leafPage 0) p) in
     let q := FIFOQueue.pushBack (LazyDeleteQueueEntry.mk 5 [6])
                (FIFOQueue.create (getUsablePageSize p) 5) in
     let bt := snd (VersionedBTree.flushLazyDeleteQueue 10 (VersionedBTree.mk p q None)) in
     VersionedBTree.set_m_pager (snd (commit 10 (VersionedBTree.m_pager bt))) bt).

(** [lazyTree] once the worker has popped the entry *)
Definition lazyPopped : VersionedBTree.t :=
  Eval vm_compute in snd (VersionedBTree.lazyDeletePop lazyTree).

(** [lazyTree] with an empty mutation buffer to write to *)
Definition buffered : VersionedBTree.t :=
  Eval vm_compute in
    VersionedBTree.set_m_pBuffer (Some MutationBufferStdMap.create) lazyTree.

Definition snapshot1 : SnapshotEntry.t := SnapshotEntry.mk 1 None 1.
(** a list store of four records *)
Definition letters : ListStore.t :=
  ListStore.mk [("a", [1]); ("b", [2]); ("c", [3]); ("d", [4])]%string None.
(** a list store whose values are longer than a byte *)
Definition longValues : ListStore.t :=
  ListStore.mk [("a", [1; 2; 3]); ("c", [4; 5; 6; 7])]%string None.

(** a record, a base that shares three bytes of its key, and a buffer for
    the delta between them *)
Definition deltaRecord : RedwoodRecordRef.t :=
  RedwoodRecordRef.mk "abcd" 7 (Some [1; 2; 3]).
Definition deltaBase : RedwoodRecordRef.t :=
  RedwoodRecordRef.mk "abc" 2 (Some []).
Definition deltaBuffer : Delta.t := replicate 32 0.

(** a page cache of two entries at most, over items that say whether they
    may be evicted, after a first [get] *)
Definition onePage : @ObjectCache.t Z _ _ bool :=
  ObjectCache.mk 2 0 1 0 0 {[1 := ObjectCache.mkEntry 1 true 1]} [1].


(** a queue by itself, over a pager that keeps the pages written in a map
    and the page identifiers it has handed out in a set *)
Definition QueueAlone : Type :=
  FIFOQueue.t * (gmap LogicalPageID IPage * gset LogicalPageID).
Definition alonePages (s : QueueAlone) : gmap LogicalPageID IPage := fst (snd s).
Definition aloneAllocated (s : QueueAlone) : gset LogicalPageID := snd (snd s).
Definition aloneReadPage (id : LogicalPageID) (cacheable : bool) : M QueueAlone IPage :=
  fun s =>
    match alonePages s !! id with
    | Some p => (Ok p, s)
    | None => (Err io_error, s)
    end.
Definition aloneUpdatePage (id : LogicalPageID) (p : IPage) : M QueueAlone unit :=
  modify (fun s => (fst s, (<[id := p]> (alonePages s), aloneAllocated s))).
Definition aloneNewPageID : M QueueAlone LogicalPageID :=
  fun s =>
    let id := fresh ({[invalidLogicalPageID]} ∪ aloneAllocated s) in
    (Ok id, (fst s, (alonePages s, {[id]} ∪ aloneAllocated s))).
Definition aloneFreePage (id : LogicalPageID) (v : Version) : M QueueAlone unit :=
  ret tt.
(** a new queue on page 1, of pages that have room for two page identifiers *)
Definition newQueue : QueueAlone := (FIFOQueue.create 28 1, (∅, {[1]})).
End Examples.

(** * Properties *)

(** ** The monad *)

Lemma bind_ok {S A B} (m : M S A) (k : A -> M S B) s a s' :
  m s = (Ok a, s') -> bind m k s = k a s'.
Proof. intros H. unfold bind. now rewrite H. Qed.

Lemma bind_err {S A B} (m : M S A) (k : A -> M S B) s e s' :
  m s = (Err e, s') -> bind m k s = (Err e, s').
Proof. intros H. unfold bind. now rewrite H. Qed.

Lemma bind_inv_ok {S A B} (m : M S A) (k : A -> M S B) s b s2 :
  bind m k s = (Ok b, s2) ->
  exists a s1, m s = (Ok a, s1) /\ k a s1 = (Ok b, s2).
Proof.
  unfold bind. destruct (m s) as [[a|e] s1]; [eauto | discriminate].
Qed.

Lemma bind_ret {S A B} (a : A) (k : A -> M S B) s : bind (ret a) k s = k a s.
Proof. reflexivity. Qed.

Lemma bind_gets {S A B} (f : S -> A) (k : A -> M S B) s : bind (gets f) k s = k (f s) s.
Proof. reflexivity. Qed.

Lemma bind_modify {S B} (f : S -> S) (k : unit -> M S B) s :
  bind (modify f) k s = k tt (f s).
Proof. reflexivity. Qed.

Lemma bind_ASSERT {S B} (b : bool) (k : unit -> M S B) s :
  b = true -> bind (ASSERT b) k s = k tt s.
Proof. intros ->. reflexivity. Qed.

Lemma bind_assoc {S A B C} (m : M S A) (f : A -> M S B) (g : B -> M S C) s :
  bind (bind m f) g s = bind m (fun x => bind (f x) g) s.
Proof. unfold bind. destruct (m s) as [[a|e] s1]; reflexivity. Qed.

Lemma ret_inv {S A} (a : A) (s : S) r s' : ret a s = (r, s') -> r = Ok a /\ s' = s.
Proof. intros E. inversion E. auto. Qed.

Lemma gets_inv {S A} (f : S -> A) (s : S) r s' : gets f s = (r, s') -> r = Ok (f s) /\ s' = s.
Proof. intros E. inversion E. auto. Qed.

Lemma modify_inv {S} (f : S -> S) (s : S) r s' : modify f s = (r, s') -> r = Ok tt /\ s' = f s.
Proof. intros E. inversion E. auto. Qed.

Lemma ASSERT_inv_ok {S} b (s : S) u s' : ASSERT b s = (Ok u, s') -> b = true /\ s' = s.
Proof. destruct b; intros E; inversion E. auto. Qed.

(** Take a successful run apart, statement by statement. *)
Ltac run_inv H :=
  repeat
    match type of H with
    | bind _ _ _ = (Ok _, _) =>
        let a := fresh "a" in let s1 := fresh "s" in
        let H1 := fresh "H" in
        apply bind_inv_ok in H; destruct H as (a & s1 & H1 & H);
        try (apply gets_inv in H1; destruct H1 as [H1 ->]; injection H1 as H1; subst a);
        try (apply modify_inv in H1; destruct H1 as [_ ->]);
        try (apply ASSERT_inv_ok in H1; destruct H1 as [H1 ->])
    | ret _ _ = (_, _) => apply ret_inv in H; destruct H as [H ->]
    | modify _ _ = (_, _) => apply modify_inv in H; destruct H as [H ->]
    | gets _ _ = (_, _) => apply gets_inv in H; destruct H as [H ->]
    | throw _ _ = (Ok _, _) => discriminate H
    end.

(** case analysis on the condition of the conditional that [H] runs *)
Ltac run_if H Hb :=
  match type of H with
  | (if ?b then _ else _) _ = _ => destruct b eqn:Hb
  end.

(** ** Relations that every run of an actor respects *)
Section Preserves.
Context {S : Type} (R : S -> S -> Prop).
Hypothesis R_refl : forall s, R s s.
Hypothesis R_trans : forall a b c, R a b -> R b c -> R a c.

Lemma preserves_ret {A} (a : A) : preserves R (ret a).
Proof. intros s r s' E. inversion E; subst. apply R_refl. Qed.

Lemma preserves_throw {A} e : preserves R (@throw S A e).
Proof. intros s r s' E. inversion E; subst. apply R_refl. Qed.

Lemma preserves_gets {A} (f : S -> A) : preserves R (gets f).
Proof. intros s r s' E. inversion E; subst. apply R_refl. Qed.

Lemma preserves_ASSERT b : preserves R (@ASSERT S b).
Proof. destruct b; [apply preserves_ret | apply preserves_throw]. Qed.

Lemma preserves_modify (f : S -> S) : (forall s, R s (f s)) -> preserves R (modify f).
Proof. intros Hf s r s' E. inversion E; subst. apply Hf. Qed.

Lemma preserves_bind {A B} (m : M S A) (k : A -> M S B) :
  preserves R m -> (forall a, preserves R (k a)) -> preserves R (bind m k).
Proof.
  intros Hm Hk s r s' E. unfold bind in E.
  destruct (m s) as [[a|e] s1] eqn:Em.
  - eapply R_trans; [eapply Hm, Em | eapply Hk, E].
  - inversion E; subst. eapply Hm, Em.
Qed.
End Preserves.

Lemma unchanged_refl {S A} (f : S -> A) s : unchanged f s s.
Proof. reflexivity. Qed.

Lemma unchanged_trans {S A} (f : S -> A) a b c :
  unchanged f a b -> unchanged f b c -> unchanged f a c.
Proof. unfold unchanged. congruence. Qed.

Create HintDb preorder.

(** Break an actor into its statements. *)
Ltac preorder := solve [eassumption | eauto with preorder].
Ltac preserves_step :=
  first
    [ assumption
    | match goal with H : forall _, preserves _ _ |- _ => apply H end
    | match goal with H : forall _ _, preserves _ _ |- _ => apply H end
    | match goal with |- preserves _ (let _ := _ in _) => cbv zeta end
    | apply preserves_ret; preorder
    | apply preserves_throw; preorder
    | apply preserves_gets; preorder
    | apply preserves_ASSERT; preorder
    | apply preserves_bind; [preorder | | intros ?]
    | apply preserves_modify; intros;
      first [solve [auto] | solve [cbn; auto] | solve [unfold lens_comp; cbn; auto]]
    | solve [auto]
    | match goal with
      | |- preserves _ (if ?b then _ else _) => destruct b
      | |- preserves _ (match ?x with _ => _ end) => destruct x
      end ].

Ltac preserves_steps := repeat preserves_step.

(** ** FIFO queue *)
Module FIFOQueueFacts.
Import FIFOQueue.

Section ReadFrame.
Context {S T : Type} `{FIFOQueueCodec T} (R : S -> S -> Prop).
Hypothesis R_refl : forall s, R s s.
Hypothesis R_trans : forall a b c, R a b -> R b c -> R a c.
Variable qL : Lens S t.
Variable cL : Lens S Cursor.t.
Variable readPage : LogicalPageID -> bool -> M S IPage.
Variable freePage : LogicalPageID -> Version -> M S unit.
Hypothesis R_queue : forall f s, R s (over qL f s).
Hypothesis R_cursor : forall f s, R s (over cL f s).
Hypothesis R_readPage : forall id c, preserves R (readPage id c).
Hypothesis R_freePage : forall id v, preserves R (freePage id v).

Lemma loadPage_preserves : preserves R (loadPage cL readPage).
Proof using R_refl R_trans R_cursor R_readPage.
  unfold loadPage. preserves_steps.
Qed.

Lemma readNext_impl_preserves ub :
  preserves R (readNext_impl qL cL readPage freePage ub).
Proof using R_refl R_trans R_queue R_cursor R_readPage R_freePage.
  pose proof loadPage_preserves.
  unfold readNext_impl. preserves_steps.
Qed.

Lemma readNext_preserves ub :
  preserves R (readNext qL cL readPage freePage ub).
Proof using R_refl R_trans R_queue R_cursor R_readPage R_freePage.
  pose proof (readNext_impl_preserves ub).
  unfold readNext. preserves_steps.
Qed.
End ReadFrame.

Section ReadFacts.
Context {S T : Type} `{FIFOQueueCodec T}.
Variable qL : Lens S t.
Variable cL : Lens S Cursor.t.
Variable readPage : LogicalPageID -> bool -> M S IPage.
Variable freePage : LogicalPageID -> Version -> M S unit.


(** Without an upper bound, [readNext] hands out nothing only at the end of
    the queue, and then it changes nothing. *)
Lemma readNext_None_unbounded s s' :
  readNext qL cL readPage freePage None s = (Ok None, s') ->
  s' = s /\
  (Cursor.mode (view cL s) = NONE \/
   Cursor.pageID (view cL s) = invalidLogicalPageID \/
   Cursor.pageID (view cL s) = Cursor.endPageID (view cL s)).
Proof.
  unfold readNext. intros E. run_inv E.
  run_if E Hm.
  { run_inv E. apply bool_decide_eq_true in Hm. auto. }
  unfold readNext_impl in E. run_inv E.
  run_if E Hend.
  { run_inv E. split; [reflexivity|]. right.
    apply orb_true_iff in Hend as [Hend|Hend]; apply Z.eqb_eq in Hend; auto. }
  run_inv E. cbv zeta in E. simpl in E. run_inv E. discriminate.
Qed.


End ReadFacts.

Section PeekFrame.
Context {S T : Type} `{FIFOQueueCodec T} (R : S -> S -> Prop).
Hypothesis R_refl : forall s, R s s.
Hypothesis R_trans : forall a b c, R a b -> R b c -> R a c.
Variable qL : Lens S t.
Variable readPage : Z -> bool -> M S IPage.
Variable freePage : Z -> Z -> M S unit.
Hypothesis R_queue : forall f s, R s (over qL f s).
Hypothesis R_readPage : forall id c, preserves R (readPage id c).
Hypothesis R_freePage : forall id v, preserves R (freePage id v).

Lemma liftL_fstL_preserves {A} (m : M S A) :
  preserves R m -> preserves (onFirst (C := Cursor.t) R) (liftL fstL m).
Proof using Type.
  intros Hm [s c] r [s' c'] E. unfold liftL in E. cbn in E.
  destruct (m s) as [r0 s0] eqn:Em. inversion E; subst. exact (Hm _ _ _ Em).
Qed.

Lemma peekAll_loop_preserves fuel results :
  preserves (onFirst R) (peekAll_loop (T := T) qL readPage freePage fuel results).
Proof using R_refl R_trans R_queue R_readPage R_freePage.
  assert (Hrefl : forall x : S * Cursor.t, onFirst R x x) by (intros x; apply R_refl).
  assert (Htrans : forall a b c : S * Cursor.t, onFirst R a b -> onFirst R b c -> onFirst R a c).
  { intros a b c. apply R_trans. }
  assert (Hnext : preserves (onFirst R)
            (readNext (T := T) (lens_comp fstL qL) sndL
               (fun id c => liftL fstL (readPage id c))
               (fun id v => liftL fstL (freePage id v)) None)).
  { apply FIFOQueueFacts.readNext_preserves; [exact Hrefl | exact Htrans | | | |].
    - intros f [s c]. apply R_queue.
    - intros f [s c]. apply R_refl.
    - intros id c. apply liftL_fstL_preserves, R_readPage.
    - intros id v. apply liftL_fstL_preserves, R_freePage. }
  revert results. induction fuel as [|fuel IH]; intros results; simpl; preserves_steps.
Qed.

Lemma peekAll_impl_preserves fuel :
  preserves R (peekAll_impl (T := T) qL readPage freePage fuel).
Proof using R_refl R_trans R_queue R_readPage R_freePage.
  intros s r s' E. unfold peekAll_impl in E.
  destruct (peekAll_loop qL readPage freePage fuel []
              (s, Cursor.initReadOnly (headReader (view qL s))))
    as [r0 [s0 c0]] eqn:El.
  inversion E; subst. exact (peekAll_loop_preserves _ _ _ _ _ El).
Qed.
End PeekFrame.

Section WriteFrame.
Context {S : Type} (R : S -> S -> Prop).
Hypothesis R_refl : forall s, R s s.
Hypothesis R_trans : forall a b c, R a b -> R b c -> R a c.
Variable qL : Lens S t.
Variable newPageID : M S LogicalPageID.
Variable updatePage : LogicalPageID -> IPage -> M S unit.
Hypothesis R_queue : forall f s, R s (over qL f s).
Hypothesis R_newPageID : preserves R newPageID.
Hypothesis R_updatePage : forall id d, preserves R (updatePage id d).

Lemma writePage_preserves wL : preserves R (writePage qL updatePage wL).
Proof using R_refl R_trans R_queue R_updatePage.
  unfold writePage. preserves_steps.
Qed.

Lemma addNewPage_preserves wL id off init :
  preserves R (addNewPage qL updatePage wL id off init).
Proof using R_refl R_trans R_queue R_updatePage.
  pose proof (writePage_preserves wL).
  unfold addNewPage. preserves_steps.
Qed.

Lemma write_impl_preserves wL item :
  preserves R (write_impl qL newPageID updatePage wL item).
Proof using R_refl R_trans R_queue R_updatePage R_newPageID.
  pose proof (addNewPage_preserves wL).
  unfold write_impl. preserves_steps.
Qed.

Lemma runOperations_preserves wL ops :
  preserves R (runOperations qL newPageID updatePage wL ops).
Proof using R_refl R_trans R_queue R_updatePage R_newPageID.
  pose proof (write_impl_preserves wL).
  induction ops as [|item rest IH]; simpl; preserves_steps.
Qed.

Lemma notBusyCursor_preserves wL :
  preserves R (notBusyCursor qL newPageID updatePage wL).
Proof using R_refl R_trans R_queue R_updatePage R_newPageID.
  pose proof (runOperations_preserves wL).
  unfold notBusyCursor. preserves_steps.
Qed.

Lemma notBusy_preserves : preserves R (notBusy qL newPageID updatePage).
Proof using R_refl R_trans R_queue R_updatePage R_newPageID.
  pose proof notBusyCursor_preserves.
  unfold notBusy. preserves_steps.
Qed.

Lemma preFlush_impl_preserves : preserves R (preFlush_impl qL newPageID updatePage).
Proof using R_refl R_trans R_queue R_updatePage R_newPageID.
  pose proof notBusy_preserves.
  unfold preFlush_impl. preserves_steps.
Qed.

Lemma queue_finishFlush_preserves : preserves R (finishFlush qL updatePage).
Proof using R_refl R_trans R_queue R_updatePage.
  pose proof addNewPage_preserves.
  unfold finishFlush. preserves_steps.
Qed.

Lemma flush_impl_preserves fuel : preserves R (flush_impl qL newPageID updatePage fuel).
Proof using R_refl R_trans R_queue R_updatePage R_newPageID.
  pose proof preFlush_impl_preserves. pose proof queue_finishFlush_preserves.
  induction fuel as [|fuel IH]; simpl; preserves_steps.
Qed.
End WriteFrame.
End FIFOQueueFacts.

(** ** DWAL pager: what the operations leave alone *)
Module DWALPagerFrame.
Import DWALPager.

(** Releasing and popping pages: a preorder that ignores the tail writers of
    the three queues and the page cache, and that page reads respect, is
    respected by [freePage]; [pop] respects it as well when it also ignores
    the queue that is popped. *)
Section PopFrame.
Variable R : t -> t -> Prop.
Hypothesis R_refl : forall s, R s s.
Hypothesis R_trans : forall a b c, R a b -> R b c -> R a c.
Hypothesis R_freeTail : forall f s, R s (over (lens_comp freeListL FIFOQueue.tailWriterL) f s).
Hypothesis R_delayedTail : forall f s, R s (over (lens_comp delayedFreeListL FIFOQueue.tailWriterL) f s).
Hypothesis R_remapTail : forall f s, R s (over (lens_comp remapQueueL FIFOQueue.tailWriterL) f s).
Hypothesis R_pageCache : forall x s, R s (set_pageCache x s).
Hypothesis R_read : forall id, preserves R (readPhysicalPage id false).

Lemma header_preserves : preserves R header.
Proof using R_refl R_trans. unfold header. preserves_steps. Qed.

Lemma effectiveOldestVersion_preserves : preserves R effectiveOldestVersion.
Proof using R_refl R_trans. unfold effectiveOldestVersion. preserves_steps. Qed.

Lemma readPage_preserves id c : preserves R (readPage id c).
Proof using R_refl R_trans R_pageCache R_read.
  unfold readPage. preserves_steps.
Qed.

Lemma freePage_preserves id v : preserves R (freePage id v).
Proof using R_refl R_trans R_freeTail R_delayedTail R_remapTail.
  pose proof effectiveOldestVersion_preserves.
  unfold freePage. preserves_steps.
  - apply preserves_modify. intros s. apply (R_remapTail (Cursor.write _)).
  - apply preserves_modify. intros s. apply (R_freeTail (Cursor.write _)).
  - apply preserves_modify. intros s. apply (R_delayedTail (Cursor.write _)).
Qed.

Lemma pop_preserves {T} `{FIFOQueueCodec T} qL (ub : option T) :
  (forall f s, R s (over qL f s)) -> preserves R (pop qL ub).
Proof using R_refl R_trans R_freeTail R_delayedTail R_remapTail R_pageCache R_read.
  intros Hq. unfold pop.
  apply FIFOQueueFacts.readNext_preserves;
    [exact R_refl | exact R_trans | exact Hq | | exact readPage_preserves | exact freePage_preserves].
  intros f s. cbn. apply Hq.
Qed.
End PopFrame.

(** The same for everything a flush does: it also allocates pages and writes
    them. *)
Section FlushFrame.
Variable R : t -> t -> Prop.
Hypothesis R_refl : forall s, R s s.
Hypothesis R_trans : forall a b c, R a b -> R b c -> R a c.
Hypothesis R_freeList : forall x s, R s (set_freeList x s).
Hypothesis R_delayedFreeList : forall x s, R s (set_delayedFreeList x s).
Hypothesis R_remapQueue : forall x s, R s (set_remapQueue x s).
Hypothesis R_pageCache : forall x s, R s (set_pageCache x s).
Hypothesis R_pHeader : forall x s, R s (set_pHeader x s).
Hypothesis R_remappedPages : forall x s, R s (set_remappedPages x s).
Hypothesis R_read : forall id, preserves R (readPhysicalPage id false).
Hypothesis R_write : forall id d, preserves R (writePhysicalPage id d false).

Lemma R_ownQueue qL : ownQueue qL -> forall f s, R s (over qL f s).
Proof using R_freeList R_delayedFreeList R_remapQueue.
  intros [->|[->| ->]] f s; cbn; auto.
Qed.

Lemma readPage_preserves' id c : preserves R (readPage id c).
Proof using R_refl R_trans R_pageCache R_read.
  apply readPage_preserves; auto.
Qed.

Lemma freePage_preserves' id v : preserves R (freePage id v).
Proof using R_refl R_trans R_freeList R_delayedFreeList R_remapQueue.
  apply freePage_preserves; auto; intros f s; cbn; auto.
Qed.

Lemma pop_preserves' {T} `{FIFOQueueCodec T} qL (ub : option T) :
  ownQueue qL -> preserves R (pop qL ub).
Proof using R_refl R_trans R_freeList R_delayedFreeList R_remapQueue R_pageCache R_read.
  intros Hq. apply pop_preserves; auto; try (intros f s; cbn; auto).
  apply R_ownQueue, Hq.
Qed.

Lemma newLastPageID_preserves : preserves R newLastPageID.
Proof using R_refl R_trans R_pHeader.
  pose proof (header_preserves R R_refl R_trans).
  unfold newLastPageID, modifyHeader. preserves_steps.
Qed.

Lemma newPageID_preserves : preserves R newPageID.
Proof using R_refl R_trans R_freeList R_delayedFreeList R_remapQueue R_pageCache R_pHeader R_read.
  pose proof newLastPageID_preserves.
  pose proof (effectiveOldestVersion_preserves R R_refl R_trans).
  unfold newPageID, newPageID_impl.
  apply preserves_bind; [preorder | apply pop_preserves'; left; reflexivity | intros ?].
  destruct a; [preserves_steps|].
  preserves_steps.
Qed.

Lemma updatePage_preserves id d : preserves R (updatePage id d).
Proof using R_refl R_trans R_pageCache R_write.
  unfold updatePage. preserves_steps.
Qed.

Lemma flush_preserves qL fuel : ownQueue qL -> preserves R (flush qL fuel).
Proof using R_refl R_trans R_freeList R_delayedFreeList R_remapQueue R_pageCache R_pHeader R_read R_write.
  intros Hq. pose proof (R_ownQueue qL Hq).
  unfold flush. apply FIFOQueueFacts.flush_impl_preserves;
    [exact R_refl | exact R_trans | exact H | exact newPageID_preserves | exact updatePage_preserves].
Qed.

Lemma preFlush_preserves qL : ownQueue qL -> preserves R (preFlush qL).
Proof using R_refl R_trans R_freeList R_delayedFreeList R_remapQueue R_pageCache R_pHeader R_read R_write.
  intros Hq. pose proof (R_ownQueue qL Hq).
  unfold preFlush. apply FIFOQueueFacts.preFlush_impl_preserves;
    [exact R_refl | exact R_trans | exact H | exact newPageID_preserves | exact updatePage_preserves].
Qed.

Lemma finishFlush_preserves qL : ownQueue qL -> preserves R (finishFlush qL).
Proof using R_refl R_trans R_freeList R_delayedFreeList R_remapQueue R_pageCache R_write.
  intros Hq. pose proof (R_ownQueue qL Hq).
  unfold finishFlush. apply FIFOQueueFacts.queue_finishFlush_preserves;
    [exact R_refl | exact R_trans | exact H | exact updatePage_preserves].
Qed.

Lemma flushQueues_loop_preserves fuel : preserves R (flushQueues_loop fuel).
Proof using R_refl R_trans R_freeList R_delayedFreeList R_remapQueue R_pageCache R_pHeader R_read R_write.
  pose proof (preFlush_preserves freeListL (or_introl eq_refl)).
  pose proof (preFlush_preserves delayedFreeListL (or_intror (or_introl eq_refl))).
  induction fuel as [|fuel IH]; simpl; preserves_steps.
Qed.

Lemma flushQueues_preserves fuel : preserves R (flushQueues fuel).
Proof using R_refl R_trans R_freeList R_delayedFreeList R_remapQueue R_pageCache R_pHeader R_read R_write.
  pose proof (flush_preserves remapQueueL fuel (or_intror (or_intror eq_refl))).
  pose proof (flushQueues_loop_preserves fuel).
  pose proof (finishFlush_preserves freeListL (or_introl eq_refl)).
  pose proof (finishFlush_preserves delayedFreeListL (or_intror (or_introl eq_refl))).
  unfold flushQueues. preserves_steps.
Qed.

Lemma atomicUpdatePage_preserves id d v : preserves R (atomicUpdatePage id d v).
Proof using R_refl R_trans R_freeList R_delayedFreeList R_remapQueue R_pageCache R_pHeader R_remappedPages R_read R_write.
  pose proof newPageID_preserves. pose proof updatePage_preserves.
  unfold atomicUpdatePage. preserves_steps.
Qed.

Lemma undoRemaps_preserves turns : preserves R (undoRemaps turns).
Proof using R_refl R_trans R_freeList R_delayedFreeList R_remapQueue R_pageCache R_pHeader R_remappedPages R_read R_write.
  pose proof updatePage_preserves.
  pose proof readPage_preserves'.
  pose proof freePage_preserves'.
  pose proof (effectiveOldestVersion_preserves R R_refl R_trans).
  assert (Hstep : forall cutoff, preserves R (undoRemaps_step cutoff)).
  { intros cutoff. unfold undoRemaps_step.
    apply preserves_bind; [preorder | preserves_steps | intros ?].
    destruct (remapUndoStop a); [preserves_steps|].
    apply preserves_bind; [preorder | | intros ?].
    { apply pop_preserves'. right; right; reflexivity. }
    preserves_steps. }
  assert (Hloop : forall cutoff, preserves R (undoRemaps_loop turns cutoff)).
  { induction turns as [|n IH]; intros cutoff; simpl; preserves_steps. }
  unfold undoRemaps. preserves_steps.
Qed.
End FlushFrame.
End DWALPagerFrame.

(** ** DWAL pager: allocation and release of pages *)
Module DWALPagerFacts.
Import DWALPager.

Lemma sameHeaders_refl s : sameHeaders s s.
Proof. repeat split. Qed.

Lemma sameHeaders_trans a b c : sameHeaders a b -> sameHeaders b c -> sameHeaders a c.
Proof. intros (?&?&?) (?&?&?). repeat split; congruence. Qed.

#[global] Hint Resolve sameHeaders_refl sameHeaders_trans : preorder.

(** An operation on the file alone respects whatever ignores the file. *)
Lemma liftL_pageFile_preserves (R : t -> t -> Prop) {A} (m : M AsyncFile.t A) :
  (forall x s, R s (set_pageFile x s)) -> preserves R (liftL pageFileL m).
Proof.
  intros HR s r s' E. unfold liftL in E. cbn in E.
  destruct (m (pageFile s)) as [r0 f]. inversion E; subst. apply HR.
Qed.

Lemma readPhysicalPage_sameHeaders id hdr : preserves sameHeaders (readPhysicalPage id hdr).
Proof.
  unfold readPhysicalPage. preserves_steps.
  apply liftL_pageFile_preserves. intros x s. repeat split.
Qed.





(** *** What the file operations do *)

Lemma liftL_pageFile_inv {A} (m : M AsyncFile.t A) s r s' :
  liftL pageFileL m s = (r, s') ->
  exists f, m (pageFile s) = (r, f) /\ s' = set_pageFile f s.
Proof.
  unfold liftL. cbn. destruct (m (pageFile s)) as [r0 f]. intros E.
  inversion E; subst. eauto.
Qed.

Lemma nextFault_log f b f' :
  AsyncFile.nextFault f = (Ok b, f') ->
  AsyncFile.log f' = AsyncFile.log f /\ AsyncFile.blocks f' = AsyncFile.blocks f.
Proof.
  unfold AsyncFile.nextFault. destruct (AsyncFile.faults f); intros E; inversion E; auto.
Qed.

Lemma nextFault_ok f : exists b f', AsyncFile.nextFault f = (Ok b, f').
Proof. unfold AsyncFile.nextFault. destruct (AsyncFile.faults f); eauto. Qed.

Lemma file_write_log id hdr bs p f r f' :
  AsyncFile.write id hdr bs p f = (r, f') ->
  AsyncFile.log f' = AsyncFile.log f ++ [EvWrite id hdr] /\
  (r = Ok true -> AsyncFile.blocks f' !! id = Some p).
Proof.
  unfold AsyncFile.write. rewrite bind_modify.
  destruct (nextFault_ok (AsyncFile.record (EvWrite id hdr) f)) as (b & f1 & Hf).
  erewrite bind_ok by exact Hf. apply nextFault_log in Hf as [Hl Hb].
  destruct b; rewrite bind_modify; intros E; inversion E; subst; cbn; rewrite Hl; cbn.
  - split; [reflexivity | discriminate].
  - split; [reflexivity | intros _; apply lookup_insert_eq].
Qed.

Lemma file_read_log id hdr f r f' :
  AsyncFile.read id hdr f = (r, f') ->
  AsyncFile.log f' = AsyncFile.log f ++ [EvRead id hdr].
Proof.
  unfold AsyncFile.read. rewrite bind_modify.
  destruct (nextFault_ok (AsyncFile.record (EvRead id hdr) f)) as (b & f1 & Hf).
  erewrite bind_ok by exact Hf. apply nextFault_log in Hf as [Hl Hb].
  destruct b; intros E; inversion E; subst; rewrite Hl; reflexivity.
Qed.

Lemma file_sync_ok f u f' :
  AsyncFile.sync f = (Ok u, f') ->
  AsyncFile.log f' = AsyncFile.log f ++ [EvSync] /\
  AsyncFile.blocks f' = AsyncFile.blocks f.
Proof.
  unfold AsyncFile.sync.
  destruct (nextFault_ok f) as (b & f1 & Hf).
  erewrite bind_ok by exact Hf. apply nextFault_log in Hf as [Hl Hb].
  destruct b; intros E; inversion E; subst; cbn; rewrite Hl, Hb; auto.
Qed.

Lemma file_signalAndCollapse_ok f u f' :
  AsyncFile.signalAndCollapse f = (Ok u, f') ->
  AsyncFile.log f' = AsyncFile.log f ++ [EvWritesDone] /\
  AsyncFile.blocks f' = AsyncFile.blocks f.
Proof.
  unfold AsyncFile.signalAndCollapse. rewrite bind_gets.
  destruct (AsyncFile.writeError f); intros E; inversion E; subst; cbn; auto.
Qed.

Lemma file_awaitWrite_ok id c f u f' :
  AsyncFile.awaitWrite id c f = (Ok u, f') ->
  c = true /\ AsyncFile.log f' = AsyncFile.log f ++ [EvWriteDone id] /\
  AsyncFile.blocks f' = AsyncFile.blocks f.
Proof.
  unfold AsyncFile.awaitWrite.
  destruct c; intros E; inversion E; subst; cbn; auto.
Qed.

Lemma writePhysicalPage_inv id page hdr s r s' :
  writePhysicalPage id page hdr s = (r, s') ->
  exists f, s' = set_pageFile f s /\
    AsyncFile.log f = AsyncFile.log (pageFile s) ++ [EvWrite id hdr] /\
    (r = Ok true ->
     AsyncFile.blocks f !! id = Some (Page.updateChecksum id (Page.fresh page))).
Proof.
  unfold writePhysicalPage. rewrite bind_gets. intros E.
  apply liftL_pageFile_inv in E as (f & Hw & ->).
  apply file_write_log in Hw as [Hl Hb]. eauto.
Qed.

Lemma header_inv s h s' : header s = (Ok h, s') -> s' = s /\ pHeader s = Some h.
Proof.
  unfold header. rewrite bind_gets. destruct (pHeader s); intros E; inversion E; auto.
Qed.

Lemma modifyHeader_inv f s u s' :
  modifyHeader f s = (Ok u, s') ->
  exists h, pHeader s = Some h /\ s' = set_pHeader (Some (f h)) s.
Proof.
  unfold modifyHeader. intros E. run_inv E. apply header_inv in H as [-> Hh]. eauto.
Qed.













(** C7 as the claim words it fails: page 5 sits on the delayed free list with
    version 1, the effective oldest version is 1, not greater, and
    [newPageID] hands the page out. *)
Lemma delayedFreePage_reused_at_oldest :
  fst (pop (T := DelayedFreePage.t) delayedFreeListL None Examples.freedAtOldest)
    = Ok (Some (DelayedFreePage.mk 1 5)) /\
  fst (effectiveOldestVersion Examples.freedAtOldest) = Ok 1 /\
  fst (newPageID Examples.freedAtOldest) = Ok 5.
Proof. repeat split; vm_compute; reflexivity. Qed.
End DWALPagerFacts.

(** ** DWAL pager: commit and snapshots *)
Module DWALPagerCommit.
Import DWALPager DWALPagerFacts.

Lemma dataIO_refl s : dataIO s s.
Proof. exists []. rewrite app_nil_r. auto. Qed.

Lemma dataIO_trans a b c : dataIO a b -> dataIO b c -> dataIO a c.
Proof.
  intros (W1 & H1 & F1) (W2 & H2 & F2). exists (W1 ++ W2).
  rewrite H2, H1, app_assoc. split; [reflexivity | apply Forall_app; auto].
Qed.

Lemma dataIO_same s s' : pageFile s' = pageFile s -> dataIO s s'.
Proof. intros E. exists []. rewrite E, app_nil_r. auto. Qed.

Lemma readPhysicalPage_dataIO id : preserves dataIO (readPhysicalPage id false).
Proof.
  assert (Hrd : preserves dataIO (liftL pageFileL (AsyncFile.read id false))).
  { intros s r s' E. apply liftL_pageFile_inv in E as (f & Hr & ->).
    apply file_read_log in Hr. exists [EvRead id false]. cbn. split; [exact Hr|].
    repeat constructor. }
  pose proof dataIO_refl. pose proof dataIO_trans.
  unfold readPhysicalPage. preserves_steps.
Qed.

Lemma writePhysicalPage_dataIO id d : preserves dataIO (writePhysicalPage id d false).
Proof.
  intros s r s' E. apply writePhysicalPage_inv in E as (f & -> & Hl & _).
  exists [EvWrite id false]. cbn. split; [exact Hl | repeat constructor].
Qed.

Lemma flushQueues_dataIO fuel : preserves dataIO (flushQueues fuel).
Proof.
  apply DWALPagerFrame.flushQueues_preserves;
    first [ exact dataIO_refl | exact dataIO_trans
          | exact readPhysicalPage_dataIO | exact writePhysicalPage_dataIO
          | intros x s; apply dataIO_same; reflexivity ].
Qed.

Lemma liftL_pageFile_unchanged {A B} (f : t -> B) (m : M AsyncFile.t A) :
  (forall x s, f (set_pageFile x s) = f s) -> preserves (unchanged f) (liftL pageFileL m).
Proof. intros Hf. apply liftL_pageFile_preserves. exact Hf. Qed.

Lemma readPhysicalPage_snapshots id hdr : preserves (unchanged snapshots) (readPhysicalPage id hdr).
Proof.
  pose proof (unchanged_refl snapshots). pose proof (unchanged_trans snapshots).
  unfold readPhysicalPage. preserves_steps.
  apply liftL_pageFile_preserves. reflexivity.
Qed.

Lemma writePhysicalPage_snapshots id d hdr : preserves (unchanged snapshots) (writePhysicalPage id d hdr).
Proof.
  intros s r s' E. apply writePhysicalPage_inv in E as (f & -> & _). reflexivity.
Qed.

Lemma flushQueues_snapshots fuel : preserves (unchanged snapshots) (flushQueues fuel).
Proof.
  apply DWALPagerFrame.flushQueues_preserves;
    first [ exact (unchanged_refl snapshots) | exact (unchanged_trans snapshots)
          | intros id; exact (readPhysicalPage_snapshots id false)
          | intros id d; exact (writePhysicalPage_snapshots id d false)
          | intros x s; reflexivity ].
Qed.

Lemma updateCommittedHeader_inv s u s' :
  updateCommittedHeader s = (Ok u, s') ->
  exists h, pHeader s = Some h /\ s' = set_pLastCommittedHeader h s.
Proof.
  unfold updateCommittedHeader. intros E. run_inv E. apply header_inv in H as [-> Hh]. eauto.
Qed.

Lemma commit_inv fuel s s' :
  commit fuel s = (Ok tt, s') ->
  exists h W,
    pHeader s' = Some h /\ pLastCommittedHeader s' = h /\
    snapshots s' =
      expire (Header.oldestVersion h)
        (snapshots s ++ [SnapshotEntry.mk (Header.committedVersion h) (Header.metaKey h) 1]) /\
    Forall dataEvent W /\
    AsyncFile.log (pageFile s') =
      AsyncFile.log (pageFile s) ++ [EvWrite 1 true] ++ W ++
        [EvWritesDone; EvSync; EvWrite 0 true; EvWriteDone 0; EvSync] /\
    AsyncFile.blocks (pageFile s') !! 0 =
      Some (Page.updateChecksum 0 (Page.fresh (PageHeader h))).
Proof.
  unfold commit, commit_impl. intros E. run_inv E.
  apply writePhysicalPage_inv in H as (f0 & -> & Hl0 & _).
  pose proof (flushQueues_snapshots _ _ _ _ H0) as Hsn.
  apply flushQueues_dataIO in H0 as (W & HlW & HW).
  apply modifyHeader_inv in H1 as (h1 & Hh1 & ->).
  apply liftL_pageFile_inv in H2 as (f2 & H2 & ->).
  apply file_signalAndCollapse_ok in H2 as [Hl2 Hb2].
  apply liftL_pageFile_inv in H3 as (f3 & H3 & ->).
  apply file_sync_ok in H3 as [Hl3 Hb3].
  apply header_inv in H4 as [-> Hh4].
  apply writePhysicalPage_inv in H5 as (f5 & -> & Hl5 & Hb5).
  apply liftL_pageFile_inv in H6 as (f6 & H6 & ->).
  apply file_awaitWrite_ok in H6 as (-> & Hl6 & Hb6).
  apply liftL_pageFile_inv in H7 as (f7 & H7 & ->).
  apply file_sync_ok in H7 as [Hl7 Hb7].
  apply updateCommittedHeader_inv in H8 as (h8 & Hh8 & ->).
  apply header_inv in H9 as [-> Hh9].
  cbn in *.
  injection Hh4 as <-. injection Hh8 as <-. injection Hh9 as <-.
  unfold unchanged in Hsn. cbn in Hsn.
  eexists _, W. repeat split; auto.
  - rewrite Hsn. reflexivity.
  - rewrite Hl7, Hl6, Hl5, Hl3, Hl2, HlW, Hl0. rewrite <- !app_assoc. reflexivity.
  - rewrite Hb7, Hb6. auto.
Qed.

Lemma expire_spec v l :
  exists n, expire v l = drop n l /\ expirable v (take n l) /\ (l <> [] -> expire v l <> []).
Proof.
  induction l as [|front rest IH].
  - exists 0%nat. repeat split; [constructor | auto].
  - destruct rest as [|e rest'].
    + exists 0%nat. repeat split; [constructor | auto].
    + change (expire v (front :: e :: rest')) with
        (if (SnapshotEntry.version front <? v) && SnapshotEntry.isSoleOwner front
         then expire v (e :: rest') else front :: e :: rest').
      destruct ((SnapshotEntry.version front <? v) && SnapshotEntry.isSoleOwner front) eqn:Hc.
      * destruct IH as (n & Hn & Hex & Hne). exists (Datatypes.S n).
        apply andb_true_iff in Hc as [Hv Ho]. apply Z.ltb_lt in Hv.
        repeat split; [exact Hn | constructor; auto | intros _; apply Hne; discriminate].
      * exists 0%nat. repeat split; [constructor | auto].
Qed.

Lemma upper_bound_spec v l front rest :
  l = front :: rest -> SnapshotEntry.version front <= v ->
  exists i e, upper_bound v l = Datatypes.S i /\ l !! i = Some e /\
              SnapshotEntry.version e <= v /\
              (forall e', l !! Datatypes.S i = Some e' -> v < SnapshotEntry.version e').
Proof.
  revert front rest. induction l as [|x l IH]; intros front rest E Hv; [discriminate|].
  injection E as -> ->. cbn [upper_bound].
  destruct (v <? SnapshotEntry.version front) eqn:Hlt; [apply Z.ltb_lt in Hlt; lia|].
  destruct rest as [|y rest'].
  - exists 0%nat, front. cbn. repeat split; auto. intros e' [=].
  - cbn [upper_bound]. destruct (v <? SnapshotEntry.version y) eqn:Hy.
    + exists 0%nat, front. cbn. repeat split; auto. intros e' [= <-]. apply Z.ltb_lt, Hy.
    + destruct (IH y rest' eq_refl) as (i & e & Hi & He & Hve & Hnext).
      { apply Z.ltb_ge in Hy. exact Hy. }
      cbn [upper_bound] in Hi. rewrite Hy in Hi.
      exists (Datatypes.S i), e. rewrite Hi. repeat split; auto.
Qed.

Lemma getReadSnapshot_run v s front rest :
  snapshots s = front :: rest -> SnapshotEntry.version front <= v ->
  exists i e,
    getReadSnapshot v s = (Ok e, set_snapshots (<[i := addref e]> (snapshots s)) s) /\
    snapshots s !! i = Some e /\ SnapshotEntry.version e <= v /\
    (forall e', snapshots s !! Datatypes.S i = Some e' -> v < SnapshotEntry.version e').
Proof.
  intros Hs Hv. destruct (upper_bound_spec v _ _ _ Hs Hv) as (i & e & Hi & He & Hve & Hn).
  exists i, e. repeat split; auto.
  unfold getReadSnapshot. rewrite bind_gets.
  rewrite bind_ASSERT by (rewrite Hs; reflexivity).
  rewrite Hi, He. reflexivity.
Qed.

Lemma keepsSnapshots_refl s : keepsSnapshots s s.
Proof. intros H. exact H. Qed.

Lemma keepsSnapshots_trans a b c : keepsSnapshots a b -> keepsSnapshots b c -> keepsSnapshots a c.
Proof. unfold keepsSnapshots. auto. Qed.

Lemma unchanged_keepsSnapshots {A} (m : M t A) :
  preserves (unchanged snapshots) m -> preserves keepsSnapshots m.
Proof. intros Hm s r s' E Hs. rewrite (Hm _ _ _ E). exact Hs. Qed.

Lemma insert_nonempty {A} (l : list A) i x : l <> [] -> <[i := x]> l <> [].
Proof. destruct l; [congruence|]. destruct i; discriminate. Qed.

Lemma expire_nonempty v l : l <> [] -> expire v l <> [].
Proof. destruct (expire_spec v l) as (n & _ & _ & H). exact H. Qed.

Lemma call_keepsSnapshots c : preserves keepsSnapshots (call c).
Proof.
  pose proof keepsSnapshots_refl as R_refl.
  pose proof keepsSnapshots_trans as R_trans.
  assert (Hset1 : forall x s, keepsSnapshots s (set_freeList x s)) by (intros x s H; exact H).
  assert (Hset2 : forall x s, keepsSnapshots s (set_delayedFreeList x s)) by (intros x s H; exact H).
  assert (Hset3 : forall x s, keepsSnapshots s (set_remapQueue x s)) by (intros x s H; exact H).
  assert (Hset4 : forall x s, keepsSnapshots s (set_pageCache x s)) by (intros x s H; exact H).
  assert (Hset5 : forall x s, keepsSnapshots s (set_pHeader x s)) by (intros x s H; exact H).
  assert (Hset6 : forall x s, keepsSnapshots s (set_remappedPages x s)) by (intros x s H; exact H).
  assert (Hset7 : forall x s, keepsSnapshots s (set_pageFile x s)) by (intros x s H; exact H).
  assert (Hset8 : forall x s, keepsSnapshots s (set_remapUndoStop x s)) by (intros x s H; exact H).
  assert (Hset9 : forall x s, keepsSnapshots s (set_pLastCommittedHeader x s)) by (intros x s H; exact H).
  assert (Hrd : forall id hdr, preserves keepsSnapshots (readPhysicalPage id hdr)).
  { intros id hdr. apply unchanged_keepsSnapshots, readPhysicalPage_snapshots. }
  assert (Hwr : forall id d hdr, preserves keepsSnapshots (writePhysicalPage id d hdr)).
  { intros id d hdr. apply unchanged_keepsSnapshots, writePhysicalPage_snapshots. }
  assert (Hrd' := fun id => Hrd id false). assert (Hwr' := fun id d => Hwr id d false).
  pose proof (DWALPagerFrame.header_preserves _ R_refl R_trans) as Hhdr.
  assert (Hmod : forall f, preserves keepsSnapshots (modifyHeader f)).
  { intros f. unfold modifyHeader. preserves_steps. }
  assert (Hexp : forall v, preserves keepsSnapshots (expireSnapshots v)).
  { intros v. apply preserves_modify. intros s Hs. cbn. apply expire_nonempty, Hs. }
  pose proof (DWALPagerFrame.newPageID_preserves _ R_refl R_trans Hset1 Hset2 Hset3 Hset4 Hset5 Hrd') as HnewPageID.
  pose proof (DWALPagerFrame.freePage_preserves' _ R_refl R_trans Hset1 Hset2 Hset3) as HfreePage.
  pose proof (DWALPagerFrame.updatePage_preserves _ R_refl R_trans Hset4 Hwr') as HupdatePage.
  pose proof (DWALPagerFrame.readPage_preserves' _ R_refl R_trans Hset4 Hrd') as HreadPage.
  pose proof (DWALPagerFrame.atomicUpdatePage_preserves _ R_refl R_trans Hset1 Hset2 Hset3 Hset4 Hset5 Hset6 Hrd' Hwr') as Hatomic.
  pose proof (DWALPagerFrame.undoRemaps_preserves _ R_refl R_trans Hset1 Hset2 Hset3 Hset4 Hset5 Hset6 Hrd' Hwr') as Hundo.
  pose proof (DWALPagerFrame.flushQueues_preserves _ R_refl R_trans Hset1 Hset2 Hset3 Hset4 Hset5 Hrd' Hwr') as Hflush.
  destruct c; unfold call, discard.
  - preserves_steps.
  - apply HfreePage.
  - apply HupdatePage.
  - preserves_steps.
  - preserves_steps.
  - unfold readPageAtVersion. preserves_steps.
  - apply preserves_bind; [preorder | | intros ?; preserves_steps].
    intros s r s' E Hs. unfold getReadSnapshot in E. rewrite bind_gets in E.
    rewrite bind_ASSERT in E by (destruct (snapshots s); [congruence | reflexivity]).
    destruct (upper_bound v (snapshots s)) as [|i]; [inversion E; subst; exact Hs|].
    destruct (snapshots s !! i) as [e|]; [|inversion E; subst; exact Hs].
    rewrite bind_modify in E. inversion E; subst. cbn. apply insert_nonempty, Hs.
  - unfold releaseSnapshot. apply preserves_modify. intros s Hs.
    destruct (snapshots s !! i); [|exact Hs].
    destruct (1 <? SnapshotEntry.refcount t0)%nat; [|exact Hs].
    cbn. apply insert_nonempty, Hs.
  - unfold setOldestVersion. preserves_steps.
  - apply Hmod.
  - apply Hmod.
  - unfold commit, commit_impl, writeHeaderPage, updateCommittedHeader, addLatestSnapshot.
    assert (Hfile : forall A (m : M AsyncFile.t A), preserves keepsSnapshots (liftL pageFileL m)).
    { intros A m. apply liftL_pageFile_preserves, Hset7. }
    preserves_steps.
    apply preserves_modify. intros s _. cbn. intros E. apply app_eq_nil in E as [_ E]. discriminate.
  - apply Hundo.
Qed.

Lemma recover_snapshots fuel s s' :
  recover fuel s = (Ok tt, s') -> snapshots s' <> [].
Proof.
  unfold recover. intros E. run_inv E.
  run_if E Hc.
  - run_inv E.
    match type of E with
    | (let '(_, _) := ?r in _) _ = _ => destruct r as [headerPage recoveredHeader]
    end.
    run_inv E.
    unfold addLatestSnapshot in E. run_inv E. cbn.
    intros E'. apply app_eq_nil in E' as [_ E']. discriminate.
  - run_inv E. apply commit_inv in E as (h & W & _ & _ & -> & _).
    apply expire_nonempty. intros E'. apply app_eq_nil in E' as [_ E']. discriminate.
Qed.

Lemma reachable_snapshots s : reachable s -> snapshots s <> [].
Proof.
  induction 1 as [desired file simulated fuel s E | s c r s' _ IH E].
  - eapply recover_snapshots, E.
  - exact (call_keepsSnapshots c _ _ _ E IH).
Qed.



(** C10: in every state the pager goes through from recovery onward the
    snapshot list is not empty; a commit that returns has appended the
    snapshot of the committed header before it expires snapshots;
    [expireSnapshots v] drops a prefix of the list, shorter than the list,
    whose entries all have a version below [v] and no owner but the pager;
    and [getReadSnapshot v], for [v] not below the version of the first
    entry, returns an entry of the list whose version is at most [v], the
    last such one. *)
Theorem snapshots_never_empty (s : t) :
  reachable s ->
  snapshots s <> [] /\
  (forall fuel s', commit fuel s = (Ok tt, s') ->
     exists h, pHeader s' = Some h /\
       snapshots s' =
         expire (Header.oldestVersion h)
           (snapshots s ++
              [SnapshotEntry.mk (Header.committedVersion h) (Header.metaKey h) 1])) /\
  (forall v, exists n,
     expireSnapshots v s = (Ok tt, set_snapshots (drop n (snapshots s)) s) /\
     expirable v (take n (snapshots s)) /\
     (n < length (snapshots s))%nat) /\
  (forall v front rest,
     snapshots s = front :: rest -> SnapshotEntry.version front <= v ->
     exists i e,
       getReadSnapshot v s = (Ok e, set_snapshots (<[i := addref e]> (snapshots s)) s) /\
       snapshots s !! i = Some e /\ SnapshotEntry.version e <= v /\
       (forall e', snapshots s !! Datatypes.S i = Some e' -> v < SnapshotEntry.version e')).
Proof.
  intros Hr. pose proof (reachable_snapshots s Hr) as Hne.
  split; [exact Hne|]. split; [|split].
  - intros fuel s' E. apply commit_inv in E as (h & W & Hh & _ & Hs & _).
    exists h. auto.
  - intros v. destruct (expire_spec v (snapshots s)) as (n & Hn & Hex & Hkeep).
    exists n. split; [|split; [exact Hex|]].
    + unfold expireSnapshots, modify. rewrite Hn. reflexivity.
    + specialize (Hkeep Hne). rewrite Hn in Hkeep.
      destruct (decide (n < length (snapshots s))%nat) as [Hlt|Hge]; [exact Hlt|].
      exfalso. apply Hkeep, drop_ge. lia.
  - intros v front rest Hs Hv. exact (getReadSnapshot_run v s front rest Hs Hv).
Qed.

(** The theorem at work on a pager that has just been opened on a new file. *)
Lemma snapshots_never_empty_witness :
  snapshots Examples.opened <> [] /\
  fst (getReadSnapshot 1 Examples.opened) = Ok Examples.snapshot1.
Proof.
  assert (Hr : reachable Examples.opened).
  { exact (reachable_recover 4096 Examples.noFile false 10 Examples.opened
             ltac:(vm_compute; reflexivity)). }
  destruct (snapshots_never_empty Examples.opened Hr) as (Hne & _ & _ & Hget).
  split; [exact Hne|]. vm_compute. reflexivity.
Defined.
End DWALPagerCommit.

(** ** DWAL pager: reading a page as of a version *)
Module DWALPagerRemap.
Import DWALPager DWALPagerFacts.

Lemma greatestAtMost_None v l :
  greatestAtMost v l = None -> forall e, e ∈ l -> v < fst e.
Proof.
  induction l as [|e l IH]; intros Hn e' Hin; [inversion Hin|].
  cbn [greatestAtMost foldr] in Hn. fold (greatestAtMost v l) in Hn.
  destruct (fst e <=? v) eqn:He.
  - destruct (greatestAtMost v l) as [b|]; [destruct (fst b <? fst e)|]; discriminate.
  - apply Z.leb_gt in He. apply elem_of_cons in Hin as [->|Hin]; [lia | auto].
Qed.

Lemma greatestAtMost_Some v l j :
  greatestAtMost v l = Some j ->
  j ∈ l /\ fst j <= v /\ forall e, e ∈ l -> fst e <= v -> fst e <= fst j.
Proof.
  revert j. induction l as [|e l IH]; intros j; [discriminate|].
  cbn [greatestAtMost foldr]. fold (greatestAtMost v l).
  destruct (fst e <=? v) eqn:He.
  - apply Z.leb_le in He. destruct (greatestAtMost v l) as [b|] eqn:Hb.
    + destruct (IH b eq_refl) as (Hin & Hle & Hmax).
      destruct (fst b <? fst e) eqn:Hlt; intros [= <-].
      * apply Z.ltb_lt in Hlt. repeat split; [left | exact He |].
        intros e' [->|Hin']%elem_of_cons Hv; [lia|]. specialize (Hmax e' Hin' Hv). lia.
      * apply Z.ltb_ge in Hlt. repeat split; [right; exact Hin | exact Hle |].
        intros e' [->|Hin']%elem_of_cons Hv; [lia | auto].
    + intros [= <-]. repeat split; [left | exact He |].
      intros e' [->|Hin']%elem_of_cons Hv; [lia|].
      pose proof (greatestAtMost_None v l Hb e' Hin'). lia.
  - apply Z.leb_gt in He. intros Hj. destruct (IH j Hj) as (Hin & Hle & Hmax).
    repeat split; [right; exact Hin | exact Hle |].
    intros e' [->|Hin']%elem_of_cons Hv; [lia | auto].
Qed.

Lemma remapAtVersion_spec s id v :
  match remappedPages s !! id with
  | None => remapAtVersion s id v = id
  | Some versions =>
      (exists w p, versions !! w = Some p /\ w <= v /\
                   (forall w' p', versions !! w' = Some p' -> w' <= v -> w' <= w) /\
                   remapAtVersion s id v = p) \/
      ((forall w p, versions !! w = Some p -> v < w) /\ remapAtVersion s id v = id)
  end.
Proof.
  unfold remapAtVersion. destruct (remappedPages s !! id) as [versions|]; [|reflexivity].
  destruct (greatestAtMost v (map_to_list versions)) as [[w p]|] eqn:Hg.
  - left. apply greatestAtMost_Some in Hg as (Hin & Hle & Hmax).
    apply elem_of_map_to_list in Hin. exists w, p. repeat split; auto.
    intros w' p' Hw' Hv. apply (Hmax (w', p')); [apply elem_of_map_to_list, Hw' | exact Hv].
  - right. split; [|reflexivity]. intros w p Hw.
    apply (greatestAtMost_None v _ Hg (w, p)). apply elem_of_map_to_list, Hw.
Qed.

Lemma updatePage_inv id d s u s' :
  updatePage id d s = (Ok u, s') ->
  exists f, s' = set_pageCache (<[id := d]> (pageCache s)) (set_pageFile f s).
Proof.
  unfold updatePage. intros E. run_inv E.
  apply writePhysicalPage_inv in H as (f & -> & _). exists f. reflexivity.
Qed.

Lemma readPhysicalPage_remappedPages id hdr :
  preserves (unchanged remappedPages) (readPhysicalPage id hdr).
Proof.
  pose proof (unchanged_refl remappedPages). pose proof (unchanged_trans remappedPages).
  unfold readPhysicalPage. preserves_steps.
  apply liftL_pageFile_preserves. reflexivity.
Qed.

Lemma newPageID_remappedPages : preserves (unchanged remappedPages) newPageID.
Proof.
  apply DWALPagerFrame.newPageID_preserves;
    first [ exact (unchanged_refl remappedPages) | exact (unchanged_trans remappedPages)
          | intros id; exact (readPhysicalPage_remappedPages id false)
          | intros x s; reflexivity ].
Qed.

Lemma readPage_cached id c s d :
  pageCache s !! id = Some d -> readPage id c s = (Ok d, s).
Proof. intros Hc. unfold readPage. rewrite bind_gets, Hc. reflexivity. Qed.

Lemma atomicUpdatePage_inv id data w s r s' :
  atomicUpdatePage id data w s = (Ok r, s') ->
  exists newPage s1,
    newPageID s = (Ok newPage, s1) /\ r = id /\
    remappedPages s' !! id =
      Some (<[w := newPage]> (default ∅ (remappedPages s !! id))) /\
    pageCache s' !! newPage = Some data.
Proof.
  unfold atomicUpdatePage. intros E. run_inv E.
  pose proof (newPageID_remappedPages _ _ _ H) as Hrm. unfold unchanged in Hrm.
  apply updatePage_inv in H0 as (f & ->).
  exists a, s0. cbn. rewrite Hrm. repeat split; auto.
  - congruence.
  - apply lookup_insert_eq.
  - apply lookup_insert_eq.
Qed.

Lemma remapAtVersion_after_update s s' id v w newPage :
  remappedPages s' !! id = Some (<[w := newPage]> (default ∅ (remappedPages s !! id))) ->
  w <= v ->
  (forall versions w' p, remappedPages s !! id = Some versions ->
     versions !! w' = Some p -> w' <= w \/ v < w') ->
  remapAtVersion s' id v = newPage.
Proof.
  intros Hs' Hwv Hnone. pose proof (remapAtVersion_spec s' id v) as Hspec.
  rewrite Hs' in Hspec. destruct Hspec as [(w1 & p1 & Hw1 & Hle & Hmax & ->)|[Habove _]].
  - assert (Hge : w <= w1) by (apply (Hmax w newPage); [apply lookup_insert_eq | exact Hwv]).
    destruct (decide (w1 = w)) as [->|Hne].
    + rewrite lookup_insert_eq in Hw1. congruence.
    + rewrite lookup_insert_ne in Hw1 by congruence.
      destruct (remappedPages s !! id) as [versions|] eqn:Hold; cbn in Hw1.
      * destruct (Hnone versions w1 p1 eq_refl Hw1); lia.
      * rewrite lookup_empty in Hw1. discriminate.
  - specialize (Habove w newPage (lookup_insert_eq _ _ _)). lia.
Qed.

(** C6, amended: [readPageAtVersion id v] reads the page that the remap index
    gives for [id] at [v]: where the index has entries for [id] and one of
    them has a version at most [v], the new page of the entry with the
    greatest such version, otherwise [id] itself.  After an atomic update of
    [id] at version [w] a read at [v >= w] resolves to the replacement page
    and returns the new content, provided the index held no entry for [id]
    with a version above [w] and at most [v]. *)
Theorem readPageAtVersion_resolution (s : t) (id : LogicalPageID) (v : Version) (c : bool) :
  readPageAtVersion id v c s = readPage (remapAtVersion s id v) c s /\
  match remappedPages s !! id with
  | None => remapAtVersion s id v = id
  | Some versions =>
      (exists w p, versions !! w = Some p /\ w <= v /\
                   (forall w' p', versions !! w' = Some p' -> w' <= v -> w' <= w) /\
                   remapAtVersion s id v = p) \/
      ((forall w p, versions !! w = Some p -> v < w) /\ remapAtVersion s id v = id)
  end /\
  (forall data w r s',
     atomicUpdatePage id data w s = (Ok r, s') ->
     w <= v ->
     (forall versions w' p, remappedPages s !! id = Some versions ->
        versions !! w' = Some p -> w' <= w \/ v < w') ->
     exists newPage s1,
       newPageID s = (Ok newPage, s1) /\ r = id /\
       remapAtVersion s' id v = newPage /\
       readPageAtVersion id v c s' = (Ok data, s')).
Proof.
  split; [reflexivity|]. split; [apply remapAtVersion_spec|].
  intros data w r s' E Hwv Hnone.
  apply atomicUpdatePage_inv in E as (newPage & s1 & Hnew & -> & Hrm & Hcache).
  pose proof (remapAtVersion_after_update s s' id v w newPage Hrm Hwv Hnone) as Hres.
  exists newPage, s1. repeat split; auto.
  unfold readPageAtVersion. rewrite bind_gets, Hres. apply readPage_cached, Hcache.
Qed.

(** The theorem at work: page 5 is rewritten at version 10 into the new page
    6, and a read at version 12 returns the new content. *)
Lemma readPageAtVersion_resolution_witness :
  remapAtVersion Examples.remappedOnce 5 12 = 6 /\
  readPageAtVersion 5 12 true Examples.remappedOnce =
    (Ok (Examples.leafPage 1), Examples.remappedOnce).
Proof.
  destruct (readPageAtVersion_resolution Examples.allocated 5 12 true) as (_ & _ & H).
  destruct (H (Examples.leafPage 1) 10 5 Examples.remappedOnce
              ltac:(vm_compute; reflexivity) ltac:(lia)
              ltac:(intros ? ? ? E; vm_compute in E; discriminate))
    as (newPage & s1 & Hnew & _ & Hres & Hread).
  assert (newPage = 6) as -> by (vm_compute in Hnew; congruence).
  split; [exact Hres | exact Hread].
Defined.

(** C6 as the claim words it fails: page 5, already rewritten at version 10
    into page 6, is rewritten at version 5 into page 7; a read at version 12,
    not below 5, still resolves to page 6 and returns the content written
    there. *)
Lemma atomicUpdatePage_shadowed :
  atomicUpdatePage 5 (Examples.leafPage 2) 5 Examples.remappedOnce
    = (Ok 5, Examples.remappedTwice) /\
  fst (newPageID Examples.remappedOnce) = Ok 7 /\
  remapAtVersion Examples.remappedTwice 5 12 = 6 /\
  fst (readPageAtVersion 5 12 true Examples.remappedTwice) = Ok (Examples.leafPage 1).
Proof. repeat split; vm_compute; reflexivity. Qed.
End DWALPagerRemap.

(** ** DWAL pager: recovery *)
Module DWALPagerRecovery.
Import DWALPager DWALPagerFacts DWALPagerCommit.

Lemma file_read_nofault id hdr f :
  AsyncFile.faults f = [] ->
  AsyncFile.read id hdr f =
    (Ok (default Page.unread (AsyncFile.blocks f !! id)), AsyncFile.record (EvRead id hdr) f).
Proof.
  intros Hf. unfold AsyncFile.read. rewrite bind_modify.
  unfold bind, AsyncFile.nextFault. cbn. rewrite Hf. reflexivity.
Qed.

Lemma readHeaderPage_nofault id s :
  AsyncFile.faults (pageFile s) = [] ->
  readHeaderPage id s =
    (Ok (default Page.unread (AsyncFile.blocks (pageFile s) !! id)),
     set_pageFile (AsyncFile.record (EvRead id true) (pageFile s)) s).
Proof.
  intros Hf. unfold readHeaderPage, readPhysicalPage.
  erewrite bind_ok; [reflexivity|].
  unfold liftL. cbn [view pageFileL]. rewrite file_read_nofault by exact Hf. reflexivity.
Qed.

Lemma setPageSize_run size s :
  setPageSize size s =
    (Ok tt,
     set_pHeader (Header.set_pageSize size <$> pHeader s)
       (set_pageSizes size
          (Z.max 1 ((size + smallestPhysicalBlock - 1) / smallestPhysicalBlock)
           * smallestPhysicalBlock) s)).
Proof. reflexivity. Qed.

Lemma logGrows_refl s : logGrows s s.
Proof. exists []. rewrite app_nil_r. reflexivity. Qed.

Lemma logGrows_trans a b c : logGrows a b -> logGrows b c -> logGrows a c.
Proof.
  intros (W1 & H1) (W2 & H2). exists (W1 ++ W2). rewrite H2, H1, app_assoc. reflexivity.
Qed.

Lemma logGrows_same s s' : pageFile s' = pageFile s -> logGrows s s'.
Proof. intros E. exists []. rewrite E, app_nil_r. reflexivity. Qed.

Lemma dataIO_logGrows {A} (m : M t A) : preserves dataIO m -> preserves logGrows m.
Proof. intros Hm s r s' E. destruct (Hm _ _ _ E) as (W & HW & _). exists W. exact HW. Qed.

Lemma file_logGrows {A} (m : M AsyncFile.t A) :
  (forall f r f', m f = (r, f') -> exists W, AsyncFile.log f' = AsyncFile.log f ++ W) ->
  preserves logGrows (liftL pageFileL m).
Proof.
  intros Hm s r s' E. apply liftL_pageFile_inv in E as (f & Hf & ->). exact (Hm _ _ _ Hf).
Qed.

Lemma file_sync_log f r f' :
  AsyncFile.sync f = (r, f') -> exists W, AsyncFile.log f' = AsyncFile.log f ++ W.
Proof.
  unfold AsyncFile.sync.
  destruct (nextFault_ok f) as (b & f1 & Hf).
  erewrite bind_ok by exact Hf. apply nextFault_log in Hf as [Hl Hb].
  destruct b; intros E; inversion E; subst; cbn; rewrite ?Hl; eauto.
  exists []. rewrite app_nil_r. reflexivity.
Qed.

Lemma file_signalAndCollapse_log f r f' :
  AsyncFile.signalAndCollapse f = (r, f') -> exists W, AsyncFile.log f' = AsyncFile.log f ++ W.
Proof.
  unfold AsyncFile.signalAndCollapse. rewrite bind_gets.
  destruct (AsyncFile.writeError f); intros E; inversion E; subst; cbn; eauto.
  exists []. rewrite app_nil_r. reflexivity.
Qed.

Lemma file_awaitWrite_log id c f r f' :
  AsyncFile.awaitWrite id c f = (r, f') -> exists W, AsyncFile.log f' = AsyncFile.log f ++ W.
Proof.
  unfold AsyncFile.awaitWrite.
  destruct c; intros E; inversion E; subst; cbn; eauto.
  exists []. rewrite app_nil_r. reflexivity.
Qed.

Lemma readPage_dataIO id c : preserves dataIO (readPage id c).
Proof.
  apply DWALPagerFrame.readPage_preserves;
    first [ exact dataIO_refl | exact dataIO_trans | exact readPhysicalPage_dataIO
          | intros x s; apply dataIO_same; reflexivity ].
Qed.

Lemma freePage_dataIO id v : preserves dataIO (freePage id v).
Proof.
  apply DWALPagerFrame.freePage_preserves';
    first [ exact dataIO_refl | exact dataIO_trans
          | intros x s; apply dataIO_same; reflexivity ].
Qed.

Lemma peekAll_dataIO {T} `{FIFOQueueCodec T} qL fuel :
  ownQueue qL ->
  preserves dataIO (FIFOQueue.peekAll_impl (T := T) qL readPage freePage fuel).
Proof.
  intros Hq. apply FIFOQueueFacts.peekAll_impl_preserves;
    first [ exact dataIO_refl | exact dataIO_trans | exact readPage_dataIO
          | exact freePage_dataIO | idtac ].
  destruct Hq as [->|[->| ->]]; intros f s; apply dataIO_same; reflexivity.
Qed.

Lemma readPage_sameHeaders id c : preserves sameHeaders (readPage id c).
Proof.
  apply DWALPagerFrame.readPage_preserves;
    first [ exact sameHeaders_refl | exact sameHeaders_trans
          | intros i; exact (readPhysicalPage_sameHeaders i false)
          | intros x s; repeat split ].
Qed.

Lemma freePage_sameHeaders id v : preserves sameHeaders (freePage id v).
Proof.
  apply DWALPagerFrame.freePage_preserves';
    first [ exact sameHeaders_refl | exact sameHeaders_trans
          | intros x s; repeat split ].
Qed.

Lemma peekAll_sameHeaders {T} `{FIFOQueueCodec T} qL fuel :
  ownQueue qL ->
  preserves sameHeaders (FIFOQueue.peekAll_impl (T := T) qL readPage freePage fuel).
Proof.
  intros Hq. apply FIFOQueueFacts.peekAll_impl_preserves;
    first [ exact sameHeaders_refl | exact sameHeaders_trans | exact readPage_sameHeaders
          | exact freePage_sameHeaders | idtac ].
  destruct Hq as [->|[->| ->]]; intros f s; repeat split.
Qed.

Lemma set_pageSize_same h : Header.set_pageSize (Header.pageSize h) h = h.
Proof. destruct h. reflexivity. Qed.

(** C9, amended: on a file that exists and holds at least two header blocks,
    and whose operations do not fail, recovery first reads page 0 and
    verifies its checksum.  If the checksum is good the header of page 0 is
    taken and no header page is written.  If not, page 1 is read next and
    verified; if its checksum is good its header is taken and, once the
    format version has been checked and the queues and the remap index have
    been recovered, is written to page 0 and synced before the first snapshot
    is added.  If neither checksum is good, recovery fails with
    [checksum_failed], under simulation with an injected [io_error], and has
    written nothing. *)
Theorem recover_header_promotion (desired : Z) (file : AsyncFile.t) (sim : bool)
    (fuel : nat) (r : Result unit) (s' : t) :
  AsyncFile.exists_ file = true ->
  smallestPhysicalBlock * 2 <= AsyncFile.size file ->
  AsyncFile.faults file = [] ->
  recover fuel (construct desired file sim) = (r, s') ->
  let page0 := default Page.unread (AsyncFile.blocks file !! 0) in
  let page1 := default Page.unread (AsyncFile.blocks file !! 1) in
  let log' := AsyncFile.log (pageFile s') in
  if Page.verifyChecksum 0 page0 then
    (exists rest, log' = AsyncFile.log file ++ EvRead 0 true :: rest) /\
    (r = Ok tt ->
     recoveredFrom page0 s' /\
     exists W, Forall dataEvent W /\ log' = AsyncFile.log file ++ [EvRead 0 true] ++ W)
  else if Page.verifyChecksum 1 page1 then
    (exists rest, log' = AsyncFile.log file ++ EvRead 0 true :: EvRead 1 true :: rest) /\
    (r = Ok tt ->
     recoveredFrom page1 s' /\
     (exists W, Forall dataEvent W /\
        log' = AsyncFile.log file ++ [EvRead 0 true; EvRead 1 true] ++ W ++
                 [EvWrite 0 true; EvWriteDone 0; EvWritesDone; EvSync]) /\
     AsyncFile.blocks (pageFile s') !! 0 =
       Some (Page.updateChecksum 0 (Page.fresh (PageHeader (asHeader (Page.content page1))))))
  else
    r = Err (if sim then io_error_injected else checksum_failed) /\
    log' = AsyncFile.log file ++ [EvRead 0 true; EvRead 1 true] /\
    AsyncFile.blocks (pageFile s') = AsyncFile.blocks file.
Proof.
  intros Hex Hsz Hf E page0 page1 log'.
  unfold recover in E. rewrite bind_gets in E.
  cbn [construct pageFile] in E. rewrite Hex in E.
  apply Z.leb_le in Hsz. rewrite Hsz in E. cbn [andb] in E.
  erewrite bind_ok in E by apply setPageSize_run.
  erewrite bind_ok in E by (apply readHeaderPage_nofault; exact Hf).
  cbv beta in E.
  match type of E with
  | _ (set_pageFile _ ?s) = _ => set (s1 := s) in *
  end.
  change (pageFile s1) with file in *.
  change (isSimulated (construct desired file sim)) with sim in *.
  fold page0 in E.
  set (s2 := set_pageFile (AsyncFile.record (EvRead 0 true) file) s1) in *.
  (* what the run does once it has chosen its header page *)
  match type of E with
  | bind _ ?k _ = _ =>
  assert (Htail : (forall x, preserves logGrows (k x)) /\
            (forall hp rh sa sb, k (hp, rh) sa = (Ok tt, sb) ->
               snapshots sa = [] ->
               recoveredFrom hp sb /\
               exists W, Forall dataEvent W /\
                 AsyncFile.log (pageFile sb) =
                   AsyncFile.log (pageFile sa) ++ W ++
                     (if rh : bool then [EvWrite 0 true; EvWriteDone 0; EvWritesDone; EvSync]
                      else []) /\
                 (rh = true ->
                  AsyncFile.blocks (pageFile sb) !! 0 =
                    Some (Page.updateChecksum 0
                            (Page.fresh (PageHeader (asHeader (Page.content hp))))))))
  end.
  { split.
    - intros [headerPage recoveredHeader].
      pose proof logGrows_refl as R_refl. pose proof logGrows_trans as R_trans.
      pose proof (dataIO_logGrows _ (peekAll_dataIO (T := RemappedPage.t) remapQueueL fuel
                    (or_intror (or_intror eq_refl)))) as Hpeek.
      assert (Hw : forall id h, preserves logGrows (writeHeaderPage id h)).
      { intros id h s r0 s0 E0. apply writePhysicalPage_inv in E0 as (f & -> & Hl & _).
        eexists. exact Hl. }
      assert (Ha : forall id c, preserves logGrows (liftL pageFileL (AsyncFile.awaitWrite id c))).
      { intros id c. apply file_logGrows, file_awaitWrite_log. }
      pose proof (file_logGrows _ file_signalAndCollapse_log) as Hsc.
      pose proof (file_logGrows _ file_sync_log) as Hsy.
      pose proof (DWALPagerFrame.header_preserves _ R_refl R_trans) as Hhdr.
      unfold setPageSize, updateCommittedHeader, addLatestSnapshot.
      preserves_steps.
      all: apply preserves_modify; intros s; apply logGrows_same; reflexivity.
    - intros hp rh sa sb Ek Hsnap. cbv beta iota in Ek. run_inv Ek. clear E.
      match goal with
      | H : (if negb ?c then _ else _) _ = _ |- _ =>
          destruct c eqn:Hfmt; cbn [negb] in H; [|discriminate H];
          apply ret_inv in H as [_ ->]
      end.
      apply Z.eqb_eq in Hfmt.
      match goal with
      | H : FIFOQueue.peekAll_impl _ _ _ _ _ = _ |- _ =>
          pose proof (peekAll_sameHeaders (T := RemappedPage.t) remapQueueL fuel
                        (or_intror (or_intror eq_refl)) _ _ _ H) as (Hp1 & Hp2 & Hp3);
          apply (peekAll_dataIO (T := RemappedPage.t) remapQueueL fuel
                   (or_intror (or_intror eq_refl))) in H as (W & HlW & HW)
      end.
      cbn in Hp1, Hp2, Hp3, HlW.
      match goal with
      | H : updateCommittedHeader _ = _ |- _ =>
          apply updateCommittedHeader_inv in H as (h8 & Hh8 & ->)
      end.
      unfold addLatestSnapshot in Ek. apply modify_inv in Ek as [_ ->].
      rewrite set_pageSize_same in Hp1.
      match goal with
      | H : (if rh then _ else _) _ = _ |- _ => destruct rh; run_inv H
      end.
      + match goal with
        | H : writeHeaderPage _ _ _ = _ |- _ =>
            apply writePhysicalPage_inv in H as (f5 & -> & Hl5 & Hb5)
        end.
        repeat match goal with
        | H : liftL pageFileL _ _ = _ |- _ => apply liftL_pageFile_inv in H as (? & H & ->)
        end.
        repeat match goal with
        | H : AsyncFile.awaitWrite _ _ _ = _ |- _ =>
            apply file_awaitWrite_ok in H as (-> & Hl6 & Hb6)
        | H : AsyncFile.signalAndCollapse _ = _ |- _ =>
            apply file_signalAndCollapse_ok in H as (Hl7 & Hb7)
        | H : AsyncFile.sync _ = _ |- _ => apply file_sync_ok in H as (Hl8 & Hb8)
        end.
        cbn in *. rewrite Hp1 in Hh8. injection Hh8 as <-.
        split; [repeat split; auto; rewrite Hp3, Hsnap; reflexivity|].
        exists W. split; [exact HW|]. split.
        * rewrite Hl8, Hl7, Hl6, Hl5, HlW. rewrite <- !app_assoc. reflexivity.
        * intros _. rewrite Hb8, Hb7, Hb6. auto.
      + cbn in *. rewrite Hp1 in Hh8. injection Hh8 as <-.
        split; [repeat split; auto; rewrite Hp3, Hsnap; reflexivity|].
        exists W. split; [exact HW|]. split; [|discriminate].
        rewrite HlW, app_nil_r. reflexivity. }
  destruct Htail as [Hgrow Hok].
  assert (Hs2 : AsyncFile.log (pageFile s2) = AsyncFile.log file ++ [EvRead 0 true]) by reflexivity.
  destruct (Page.verifyChecksum 0 page0) eqn:Hv0; cbn [negb] in E.
  - rewrite bind_ret in E. split.
    + destruct (Hgrow (page0, false) _ _ _ E) as (W & HW). exists W. unfold log'.
      rewrite HW, Hs2, <- app_assoc. reflexivity.
    + intros ->. destruct (Hok page0 false _ _ E eq_refl) as (Hrec & W & HW & Hlog & _).
      split; [exact Hrec|]. exists W. split; [exact HW|]. unfold log'.
      rewrite Hlog, Hs2, app_nil_r, <- app_assoc. reflexivity.
  - rewrite bind_assoc in E.
    erewrite bind_ok in E by (apply readHeaderPage_nofault; exact Hf).
    cbv beta in E. change (pageFile s2) with (AsyncFile.record (EvRead 0 true) file) in E.
    change (AsyncFile.blocks (AsyncFile.record (EvRead 0 true) file)) with (AsyncFile.blocks file) in E.
    fold page1 in E.
    match type of E with
    | _ ?s = _ => set (s3 := s) in *
    end.
    assert (Hs3 : AsyncFile.log (pageFile s3) =
                    AsyncFile.log file ++ [EvRead 0 true; EvRead 1 true]).
    { cbn. rewrite <- app_assoc. reflexivity. }
    destruct (Page.verifyChecksum 1 page1) eqn:Hv1; cbn [negb] in E.
    + rewrite bind_ret in E. split.
      * destruct (Hgrow (page1, true) _ _ _ E) as (W & HW). exists W. unfold log'.
        rewrite HW, Hs3, <- app_assoc. reflexivity.
      * intros ->. destruct (Hok page1 true _ _ E eq_refl) as (Hrec & W & HW & Hlog & Hb).
        split; [exact Hrec|]. split; [|exact (Hb eq_refl)].
        exists W. split; [exact HW|]. unfold log'.
        rewrite Hlog, Hs3, <- app_assoc. reflexivity.
    + assert (E' : (Err (if sim then io_error_injected else checksum_failed), s3) = (r, s')).
      { rewrite <- E. destruct sim; reflexivity. }
      injection E' as <- <-. repeat split; [exact Hs3].
Qed.

(** The theorem at work: the first block of the file does not pass its
    checksum, the second does; recovery succeeds and leaves on page 0 the
    header of page 1. *)
Lemma recover_header_promotion_witness :
  recover 10 (construct 4096 Examples.tornFile false) = (Ok tt, Examples.recovered) /\
  recoveredFrom (default Page.unread (AsyncFile.blocks Examples.tornFile !! 1))
    Examples.recovered /\
  (exists W, Forall dataEvent W /\
     AsyncFile.log (pageFile Examples.recovered) =
       AsyncFile.log Examples.tornFile ++ [EvRead 0 true; EvRead 1 true] ++ W ++
         [EvWrite 0 true; EvWriteDone 0; EvWritesDone; EvSync]) /\
  AsyncFile.blocks (pageFile Examples.recovered) !! 0 =
    Some (Page.updateChecksum 0
            (Page.fresh
               (PageHeader
                  (asHeader
                     (Page.content
                        (default Page.unread (AsyncFile.blocks Examples.tornFile !! 1))))))).
Proof.
  assert (E : recover 10 (construct 4096 Examples.tornFile false) = (Ok tt, Examples.recovered))
    by (vm_compute; reflexivity).
  split; [exact E|].
  pose proof (recover_header_promotion 4096 Examples.tornFile false 10 (Ok tt)
                Examples.recovered eq_refl ltac:(vm_compute; discriminate) eq_refl E) as H.
  cbv zeta in H.
  destruct (Page.verifyChecksum 0 (default Page.unread (AsyncFile.blocks Examples.tornFile !! 0)))
    eqn:Hv0; [vm_compute in Hv0; discriminate|].
  destruct (Page.verifyChecksum 1 (default Page.unread (AsyncFile.blocks Examples.tornFile !! 1)))
    eqn:Hv1; [|vm_compute in Hv1; discriminate].
  destruct H as [_ H]. exact (H eq_refl).
Defined.

(** C9 as the claim words it fails: the first block of the file does not pass
    its checksum, the second passes it and holds a header of another format
    version; recovery fails on the format version and has not written page
    0.  And when neither block passes its checksum under simulation, the
    error is an injected [io_error]. *)
Lemma recover_backup_not_promoted :
  Page.verifyChecksum 0 (default Page.unread (AsyncFile.blocks Examples.otherFormatFile !! 0))
    = false /\
  Page.verifyChecksum 1 (default Page.unread (AsyncFile.blocks Examples.otherFormatFile !! 1))
    = true /\
  fst (recover 10 (construct 4096 Examples.otherFormatFile false)) = Err internal_error /\
  AsyncFile.log (pageFile (snd (recover 10 (construct 4096 Examples.otherFormatFile false))))
    = [EvRead 0 true; EvRead 1 true] /\
  AsyncFile.blocks (pageFile (snd (recover 10 (construct 4096 Examples.otherFormatFile false))))
    !! 0 = Some Page.unread /\
  fst (recover 10 (construct 4096 Examples.bothBadFile true)) = Err io_error_injected.
Proof. repeat split; vm_compute; reflexivity. Qed.
End DWALPagerRecovery.

(** ** Versioned B-tree: the lazy delete worker *)
Module VersionedBTreeFacts.
Import VersionedBTree.

Lemma popBatch_spec batchSize fuel entries s out s' :
  popBatch batchSize fuel entries s = (Ok out, s') ->
  (exists more, out = entries ++ more) /\
  (Z.of_nat (length out) < to_size_t batchSize -> lazyDeleteQueueAtEnd s').
Proof.
  revert entries s. induction fuel as [|fuel IH]; intros entries s E; [discriminate|].
  cbn [popBatch] in E.
  destruct (Z.of_nat (length entries) <? to_size_t batchSize) eqn:Hlt.
  - run_inv E. destruct a as [q|].
    + apply IH in E as [[more ->] Hend]. split; [|exact Hend].
      exists (q :: more). rewrite <- app_assoc. reflexivity.
    + run_inv E. injection E as <-.
      apply FIFOQueueFacts.readNext_None_unbounded in H as [-> Hend].
      split; [exists []; rewrite app_nil_r; reflexivity|]. intros _. exact Hend.
  - run_inv E. injection E as <-. apply Z.ltb_ge in Hlt.
    split; [exists []; rewrite app_nil_r; reflexivity|]. lia.
Qed.
















End VersionedBTreeFacts.

(** ** The key-value store facade *)
Module KeyValueStoreFacts.
Import KeyValueStoreRedwoodUnversioned.


(** the order of keys *)
Lemma ltb_lt a b : String.ltb a b = true <-> String_as_OT.lt a b.
Proof.
  unfold String.ltb. rewrite <- String_as_OT.cmp_lt. unfold String_as_OT.cmp.
  destruct (String.compare a b); split; congruence.
Qed.

Lemma ltb_trans a b c : String.ltb a b = true -> String.ltb b c = true -> String.ltb a c = true.
Proof. rewrite !ltb_lt. apply String_as_OT.lt_trans. Qed.

Lemma ltb_irrefl a : String.ltb a a = false.
Proof.
  destruct (String.ltb a a) eqn:E; [|reflexivity].
  apply ltb_lt in E. exfalso. exact (String_as_OT.lt_not_eq _ _ E eq_refl).
Qed.

Lemma ltb_ge a b : String.ltb a b = false -> a = b \/ String.ltb b a = true.
Proof.
  unfold String.ltb. destruct (String.compare a b) eqn:E; intros Hlt; try discriminate.
  - left. apply String.compare_eq_iff, E.
  - right. rewrite String.compare_antisym, E. reflexivity.
Qed.

Lemma ltb_le_trans a b c :
  String.ltb b a = false -> String.ltb b c = true -> String.ltb a c = true.
Proof.
  intros Hab Hbc. destruct (ltb_ge _ _ Hab) as [->|Hlt]; [exact Hbc|].
  eapply ltb_trans; eassumption.
Qed.

Lemma ltb_asym a b : String.ltb a b = true -> String.ltb b a = false.
Proof.
  intros Hab. destruct (String.ltb b a) eqn:Hba; [|reflexivity].
  pose proof (ltb_trans _ _ _ Hab Hba) as H. rewrite ltb_irrefl in H. discriminate.
Qed.

Lemma leb_ltb a b : String.leb a b = negb (String.ltb b a).
Proof.
  unfold String.leb, String.ltb. rewrite (String.compare_antisym a b).
  destruct (String.compare b a); reflexivity.
Qed.

Lemma int32_id z : INT_MIN <= z <= INT_MAX -> int32 z = z.
Proof.
  unfold INT_MIN, INT_MAX, int32. intros Hz.
  rewrite Z.mod_small by lia. lia.
Qed.

Lemma expectedSize_nonneg kv : 0 <= expectedSize kv.
Proof. unfold expectedSize. lia. Qed.

Lemma bytesOf_app a b : bytesOf (a ++ b) = bytesOf a + bytesOf b.
Proof. induction a as [|x a IH]; cbn; [reflexivity|]. unfold bytesOf in *. rewrite IH. lia. Qed.

Lemma bytesOf_nonneg a : 0 <= bytesOf a.
Proof.
  induction a as [|x a IH]; cbn; [lia|]. pose proof (expectedSize_nonneg x). unfold bytesOf in *. lia.
Qed.

Section Loops.
Context {S : Type} `{IStoreCursor S}.
Variable items : S -> list (string * list Z).
Variable position : S -> option nat.
Hypothesis contract : CursorContract items position.

Lemma isValid_ahead s :
  if isValid s
  then exists rest, ahead (items s) (position s) = (getKey s, getValue s) :: rest
  else ahead (items s) (position s) = [].
Proof using contract.
  rewrite (contract_isValid _ _ contract). destruct (position s) as [i|] eqn:Hp.
  - rewrite bool_decide_eq_true_2 by eauto. cbn.
    pose proof (contract_get _ _ contract s i Hp) as Hi.
    exists (drop (Datatypes.S i) (items s)). apply drop_S, Hi.
  - rewrite bool_decide_eq_false_2 by (intros [? ?]; discriminate). reflexivity.
Qed.

Lemma next_ahead s s' kv rest :
  ahead (items s) (position s) = kv :: rest ->
  next s = (Ok tt, s') ->
  ahead (items s') (position s') = rest.
Proof using contract.
  intros Ha En. destruct (position s) as [i|] eqn:Hp; [|discriminate]. cbn in Ha.
  destruct (contract_next _ _ contract s s' i Hp En) as [-> Hp'].
  assert (Hi : items s !! i = Some kv).
  { rewrite <- (Nat.add_0_r i), <- lookup_drop, Ha. reflexivity. }
  rewrite (drop_S _ _ _ Hi) in Ha. injection Ha as <-.
  rewrite Hp'. destruct (Datatypes.S i <? length (items s))%nat eqn:Hlt; cbn; [reflexivity|].
  apply Nat.ltb_ge in Hlt. symmetry. apply drop_ge. lia.
Qed.

Lemma isValid_behind s :
  if isValid s
  then exists rest, behind (items s) (position s) = (getKey s, getValue s) :: rest
  else behind (items s) (position s) = [].
Proof using contract.
  rewrite (contract_isValid _ _ contract). destruct (position s) as [i|] eqn:Hp.
  - rewrite bool_decide_eq_true_2 by eauto. cbn.
    pose proof (contract_get _ _ contract s i Hp) as Hi.
    exists (reverse (take i (items s))).
    rewrite (take_S_r _ _ _ Hi), reverse_snoc. reflexivity.
  - rewrite bool_decide_eq_false_2 by (intros [? ?]; discriminate). reflexivity.
Qed.

Lemma prev_behind s s' kv rest :
  behind (items s) (position s) = kv :: rest ->
  prev s = (Ok tt, s') ->
  behind (items s') (position s') = rest.
Proof using contract.
  intros Ha En. destruct (position s) as [i|] eqn:Hp; [|discriminate]. cbn in Ha.
  destruct (contract_prev _ _ contract s s' i Hp En) as [-> Hp'].
  pose proof (contract_get _ _ contract s i Hp) as Hi.
  rewrite (take_S_r _ _ _ Hi), reverse_snoc in Ha. injection Ha as _ <-.
  rewrite Hp'. destruct i as [|j]; cbn; reflexivity.
Qed.

Lemma scanned_stop continue byteLimit n acc kv rest :
  continue (fst kv) = true -> 0 < n -> 0 <= acc < byteLimit ->
  n - 1 = 0 \/ byteLimit <= acc + expectedSize kv ->
  scanned continue byteLimit n acc (kv :: rest) [kv] (n - 1) (acc + expectedSize kv).
Proof.
  intros Hc Hn Hacc Hstop. unfold scanned.
  split; [|split; [|split; [|split; [|split; [|split]]]]].
  - exists rest. reflexivity.
  - repeat constructor. exact Hc.
  - cbn. lia.
  - lia.
  - cbn. lia.
  - intros p x q E. destruct p as [|y p]; [cbn; lia|].
    destruct p; discriminate.
  - left. split; [exact Hstop | discriminate].
Qed.

Lemma scanned_none continue byteLimit n acc remaining :
  0 < n -> 0 <= acc < byteLimit ->
  (forall kv rest, remaining = kv :: rest -> continue (fst kv) = false) ->
  scanned continue byteLimit n acc remaining [] n acc.
Proof.
  intros Hn Hacc Hc. unfold scanned.
  split; [|split; [|split; [|split; [|split; [|split]]]]].
  - apply prefix_nil.
  - constructor.
  - cbn. lia.
  - lia.
  - cbn. lia.
  - intros p x q E. destruct p; discriminate.
  - right. split; [lia | split; [lia | exact Hc]].
Qed.

Lemma scanned_cons continue byteLimit n acc kv rest taken left total :
  continue (fst kv) = true -> 0 <= acc < byteLimit ->
  scanned continue byteLimit (n - 1) (acc + expectedSize kv) rest taken left total ->
  scanned continue byteLimit n acc (kv :: rest) (kv :: taken) left total.
Proof.
  intros Hc Hacc (Hpre & Hall & Hleft & Hpos & Htot & Hbefore & Hend).
  unfold scanned.
  split; [|split; [|split; [|split; [|split; [|split]]]]].
  - apply prefix_cons, Hpre.
  - constructor; assumption.
  - cbn [length]. lia.
  - exact Hpos.
  - cbn. unfold bytesOf in Htot. lia.
  - intros p x q E. destruct p as [|y p]; [cbn; lia|].
    injection E as <- E. cbn. specialize (Hbefore p x q E). unfold bytesOf in *. lia.
  - destruct Hend as [[Hstop Hne]|(Hl & Ht & Hnext)].
    + left. split; [exact Hstop | discriminate].
    + right. split; [exact Hl | split; [exact Ht |]].
      intros kv' rest' E. injection E as E. exact (Hnext kv' rest' E).
Qed.

Lemma readForward_scanned fuel keys byteLimit rowLimit acc result s res rl ac s' :
  0 < rowLimit <= Z.of_nat fuel -> rowLimit <= INT_MAX ->
  0 <= acc < byteLimit ->
  (forall kv, kv ∈ ahead (items s) (position s) -> byteLimit + expectedSize kv <= INT_MAX) ->
  readForward fuel keys byteLimit rowLimit acc result s = (Ok (res, rl, ac), s') ->
  exists taken,
    res = result ++ taken /\
    scanned (fun k => String.ltb k (snd keys)) byteLimit rowLimit acc
      (ahead (items s) (position s)) taken rl ac.
Proof using contract.
  revert rowLimit acc result s. induction fuel as [|fuel IH];
    intros rowLimit acc result s Hrow Hmax Hacc Hsize E; [lia|].
  cbn [readForward] in E. rewrite bind_gets in E.
  pose proof (isValid_ahead s) as Hvalid.
  destruct (isValid s) eqn:Hv; cbn [andb] in E.
  - destruct Hvalid as [rest Ha].
    destruct (String.ltb (getKey s) (snd keys)) eqn:Hk.
    + cbv zeta in E.
      assert (Hsz : byteLimit + expectedSize (getKey s, getValue s) <= INT_MAX).
      { apply Hsize. rewrite Ha. left. }
      pose proof (expectedSize_nonneg (getKey s, getValue s)) as Hnn.
      rewrite (int32_id (acc + _)) in E by (unfold INT_MIN, INT_MAX in *; lia).
      rewrite (int32_id (rowLimit - 1)) in E by (unfold INT_MIN, INT_MAX in *; lia).
      destruct ((rowLimit - 1 =? 0) || (byteLimit <=? acc + expectedSize (getKey s, getValue s)))
        eqn:Hstop.
      * apply ret_inv in E as [E _]. injection E as -> -> ->.
        exists [(getKey s, getValue s)]. split; [reflexivity|]. rewrite Ha.
        apply scanned_stop; [exact Hk | lia | exact Hacc |].
        apply orb_true_iff in Hstop as [Hs|Hs]; [left; lia | right; lia].
      * apply orb_false_iff in Hstop as [Hs1 Hs2].
        apply Z.eqb_neq in Hs1. apply Z.leb_gt in Hs2.
        apply bind_inv_ok in E as ([] & s1 & Hnext & E).
        pose proof (next_ahead s s1 _ _ Ha Hnext) as Ha1.
        assert (Hsize1 : forall kv, kv ∈ ahead (items s1) (position s1) ->
                           byteLimit + expectedSize kv <= INT_MAX).
        { rewrite Ha1. intros kv Hin. apply Hsize. rewrite Ha. right. exact Hin. }
        assert (H1 : 0 < rowLimit - 1 <= Z.of_nat fuel) by lia.
        assert (H2 : rowLimit - 1 <= INT_MAX) by lia.
        assert (H3 : 0 <= acc + expectedSize (getKey s, getValue s) < byteLimit) by lia.
        destruct (IH (rowLimit - 1) (acc + expectedSize (getKey s, getValue s))
                    (result ++ [(getKey s, getValue s)]) s1 H1 H2 H3 Hsize1 E)
          as (taken & -> & Hscan).
        exists ((getKey s, getValue s) :: taken). split; [rewrite <- app_assoc; reflexivity|].
        rewrite Ha. rewrite Ha1 in Hscan. apply scanned_cons; assumption.
    + apply ret_inv in E as [E _]. injection E as -> -> ->.
      exists []. split; [rewrite app_nil_r; reflexivity|].
      apply scanned_none; [lia | exact Hacc |].
      intros kv rest' E. rewrite Ha in E. injection E as <- _. exact Hk.
  - apply ret_inv in E as [E _]. injection E as -> -> ->.
    exists []. split; [rewrite app_nil_r; reflexivity|].
    apply scanned_none; [lia | exact Hacc |].
    intros kv rest' E. rewrite Hvalid in E. discriminate.
Qed.

Lemma readReverse_scanned fuel keys byteLimit rowLimit acc result s res rl ac s' :
  0 < - rowLimit <= Z.of_nat fuel -> INT_MIN <= rowLimit ->
  0 <= acc < byteLimit ->
  (forall kv, kv ∈ behind (items s) (position s) -> byteLimit + expectedSize kv <= INT_MAX) ->
  readReverse fuel keys byteLimit rowLimit acc result s = (Ok (res, rl, ac), s') ->
  exists taken,
    res = result ++ taken /\
    scanned (fun k => negb (String.ltb k (fst keys))) byteLimit (- rowLimit) acc
      (behind (items s) (position s)) taken (- rl) ac.
Proof using contract.
  revert rowLimit acc result s. induction fuel as [|fuel IH];
    intros rowLimit acc result s Hrow Hmin Hacc Hsize E; [lia|].
  cbn [readReverse] in E. rewrite bind_gets in E.
  pose proof (isValid_behind s) as Hvalid.
  destruct (isValid s) eqn:Hv; cbn [andb] in E.
  - destruct Hvalid as [rest Ha].
    destruct (negb (String.ltb (getKey s) (fst keys))) eqn:Hk.
    + cbv zeta in E.
      assert (Hsz : byteLimit + expectedSize (getKey s, getValue s) <= INT_MAX).
      { apply Hsize. rewrite Ha. left. }
      pose proof (expectedSize_nonneg (getKey s, getValue s)) as Hnn.
      rewrite (int32_id (acc + _)) in E by (unfold INT_MIN, INT_MAX in *; lia).
      rewrite (int32_id (rowLimit + 1)) in E by (unfold INT_MIN, INT_MAX in *; lia).
      destruct ((rowLimit + 1 =? 0) || (byteLimit <=? acc + expectedSize (getKey s, getValue s)))
        eqn:Hstop.
      * apply ret_inv in E as [E _]. injection E as -> -> ->.
        exists [(getKey s, getValue s)]. split; [reflexivity|]. rewrite Ha.
        replace (- (rowLimit + 1)) with (- rowLimit - 1) by lia.
        apply scanned_stop; [exact Hk | lia | exact Hacc |].
        apply orb_true_iff in Hstop as [Hs|Hs]; [left; lia | right; lia].
      * apply orb_false_iff in Hstop as [Hs1 Hs2].
        apply Z.eqb_neq in Hs1. apply Z.leb_gt in Hs2.
        apply bind_inv_ok in E as ([] & s1 & Hprev & E).
        pose proof (prev_behind s s1 _ _ Ha Hprev) as Ha1.
        assert (Hsize1 : forall kv, kv ∈ behind (items s1) (position s1) ->
                           byteLimit + expectedSize kv <= INT_MAX).
        { rewrite Ha1. intros kv Hin. apply Hsize. rewrite Ha. right. exact Hin. }
        assert (H1 : 0 < - (rowLimit + 1) <= Z.of_nat fuel) by lia.
        assert (H2 : INT_MIN <= rowLimit + 1) by lia.
        assert (H3 : 0 <= acc + expectedSize (getKey s, getValue s) < byteLimit) by lia.
        destruct (IH (rowLimit + 1) (acc + expectedSize (getKey s, getValue s))
                    (result ++ [(getKey s, getValue s)]) s1 H1 H2 H3 Hsize1 E)
          as (taken & -> & Hscan).
        exists ((getKey s, getValue s) :: taken). split; [rewrite <- app_assoc; reflexivity|].
        rewrite Ha. rewrite Ha1 in Hscan.
        replace (- (rowLimit + 1)) with (- rowLimit - 1) in Hscan by lia.
        apply scanned_cons; assumption.
    + apply ret_inv in E as [E _]. injection E as -> -> ->.
      exists []. split; [rewrite app_nil_r; reflexivity|].
      apply scanned_none; [lia | exact Hacc |].
      intros kv rest' E. rewrite Ha in E. injection E as <- _. exact Hk.
  - apply ret_inv in E as [E _]. injection E as -> -> ->.
    exists []. split; [rewrite app_nil_r; reflexivity|].
    apply scanned_none; [lia | exact Hacc |].
    intros kv rest' E. rewrite Hvalid in E. discriminate.
Qed.
End Loops.

(** *** Sorted records *)

Lemma countWhile_spec {A} (P : A -> bool) (l : list A) :
  (countWhile P l <= length l)%nat /\
  Forall (fun x => P x = true) (take (countWhile P l) l) /\
  (forall x rest, drop (countWhile P l) l = x :: rest -> P x = false).
Proof.
  induction l as [|y l (IH1 & IH2 & IH3)]; cbn [countWhile].
  - split; [reflexivity|]. split; [constructor|]. intros x rest E. discriminate.
  - destruct (P y) eqn:Hy; cbn.
    + split; [lia|]. split; [constructor; assumption | exact IH3].
    + split; [lia|]. split; [constructor|]. intros x rest E. injection E as <- _. exact Hy.
Qed.

(** in a list whose keys go up, past a record with a key at or above [k]
    there is none with a key below [k] *)
Lemma keysAscend_above k x rest :
  keysAscend (x :: rest) -> String.ltb (fst x) k = false ->
  Forall (fun y => String.ltb (fst y) k = false) (x :: rest).
Proof.
  intros Hs Hx. apply StronglySorted_inv in Hs as [_ Hall]. constructor; [exact Hx|].
  eapply Forall_impl; [exact Hall|]. cbn. intros y Hy.
  destruct (String.ltb (fst y) k) eqn:E; [|reflexivity].
  rewrite (ltb_trans _ _ _ Hy E) in Hx. discriminate.
Qed.

Lemma keysAscend_drop n l : keysAscend l -> keysAscend (drop n l).
Proof.
  revert l. induction n as [|n IH]; intros l Hs; [exact Hs|].
  destruct l as [|x l]; [exact Hs|]. apply IH. apply StronglySorted_inv in Hs as [Hs _]. exact Hs.
Qed.

Lemma inRange_app keys a b : inRange keys (a ++ b) = inRange keys a ++ inRange keys b.
Proof. unfold inRange. apply filter_app. Qed.

Lemma inRange_none keys l :
  Forall (fun kv => String.ltb (fst kv) (fst keys) = true \/ String.ltb (fst kv) (snd keys) = false) l ->
  inRange keys l = [].
Proof.
  induction 1 as [|x l Hx _ IH]; [reflexivity|]. unfold inRange in *.
  rewrite filter_cons_False; [exact IH|]. intros [H1 H2]. destruct Hx; congruence.
Qed.

Lemma inRange_all keys l :
  Forall (fun kv => String.ltb (fst kv) (fst keys) = false /\ String.ltb (fst kv) (snd keys) = true) l ->
  inRange keys l = l.
Proof.
  induction 1 as [|x l Hx _ IH]; [reflexivity|]. unfold inRange in *.
  rewrite filter_cons_True by exact Hx. rewrite IH. reflexivity.
Qed.

Lemma keysAscend_split a x b :
  keysAscend (a ++ x :: b) ->
  Forall (fun y => String.ltb (fst y) (fst x) = true) a /\
  Forall (fun y => String.ltb (fst x) (fst y) = true) b /\
  keysAscend a /\ keysAscend b.
Proof.
  induction a as [|y a IH]; cbn; intros Hs.
  - apply StronglySorted_inv in Hs as [Hs Hall]. repeat split; [constructor | exact Hall | constructor | exact Hs].
  - apply StronglySorted_inv in Hs as [Hs Hall]. destruct (IH Hs) as (Ha & Hb & Hsa & Hsb).
    repeat split; [|exact Hb| |exact Hsb].
    + constructor; [|exact Ha]. apply Forall_app in Hall as [_ Hall].
      apply Forall_cons in Hall as [Hx _]. exact Hx.
    + constructor; [exact Hsa|]. apply Forall_app in Hall as [Hall _]. exact Hall.
Qed.

Lemma forward_wanted keys items taken :
  keysAscend items ->
  taken `prefix_of` drop (countWhile (fun kv => String.ltb (fst kv) (fst keys)) items) items ->
  Forall (fun kv => String.ltb (fst kv) (snd keys) = true) taken ->
  taken `prefix_of` inRange keys items /\
  ((forall kv rest,
      drop (countWhile (fun kv => String.ltb (fst kv) (fst keys)) items) items = taken ++ kv :: rest ->
      String.ltb (fst kv) (snd keys) = false) ->
   inRange keys items = taken).
Proof.
  intros Hs [rest Hrest] Htaken.
  set (n := countWhile (fun kv => String.ltb (fst kv) (fst keys)) items) in *.
  destruct (countWhile_spec (fun kv => String.ltb (fst kv) (fst keys)) items) as (_ & Hbelow & Hhead).
  fold n in Hbelow, Hhead.
  assert (Habove : Forall (fun y => String.ltb (fst y) (fst keys) = false) (drop n items)).
  { destruct (drop n items) as [|x A] eqn:HA; [constructor|].
    apply keysAscend_above; [rewrite <- HA; apply keysAscend_drop, Hs | exact (Hhead x A eq_refl)]. }
  assert (Hin : inRange keys items = taken ++ inRange keys rest).
  { rewrite <- (take_drop n items) at 1. rewrite inRange_app, Hrest, inRange_app.
    rewrite inRange_none by (eapply Forall_impl; [exact Hbelow | cbn; auto]).
    rewrite inRange_all; [reflexivity|].
    rewrite Hrest in Habove. apply Forall_app in Habove as [Habove _].
    clear -Habove Htaken. induction Htaken as [|x l Hx _ IH]; [constructor|].
    apply Forall_cons in Habove as [Hx' Habove]. constructor; auto. }
  split; [rewrite Hin; apply prefix_app_r; reflexivity|].
  intros Hnext. rewrite Hin. destruct rest as [|kv rest']; [cbn; apply app_nil_r|].
  specialize (Hnext kv rest' Hrest).
  rewrite inRange_none; [apply app_nil_r|].
  assert (Hsr : keysAscend (kv :: rest')).
  { pose proof (keysAscend_drop n _ Hs) as Hd. rewrite Hrest in Hd.
    clear -Hd. induction taken as [|x t IH]; [exact Hd|].
    apply IH. apply StronglySorted_inv in Hd as [Hd _]. exact Hd. }
  eapply Forall_impl; [exact (keysAscend_above _ _ _ Hsr Hnext)|]. cbn. auto.
Qed.

Lemma keysAscend_take n l : keysAscend l -> keysAscend (take n l).
Proof.
  revert l. induction n as [|n IH]; intros l Hs; [constructor|].
  destruct l as [|x l]; [constructor|]. cbn.
  apply StronglySorted_inv in Hs as [Hs Hall]. constructor; [apply IH, Hs|].
  apply Forall_take. exact Hall.
Qed.

Lemma keysAscend_reverse_split T a x b :
  keysAscend T -> reverse T = a ++ x :: b ->
  Forall (fun y => String.ltb (fst y) (fst x) = true) b /\
  Forall (fun y => String.ltb (fst x) (fst y) = true) a.
Proof.
  intros Hs E. apply (f_equal reverse) in E.
  rewrite reverse_involutive, reverse_app, reverse_cons, <- app_assoc in E. cbn in E.
  rewrite E in Hs. apply keysAscend_split in Hs as (Hb & Ha & _ & _).
  rewrite Forall_reverse in Hb, Ha. auto.
Qed.

Lemma reverse_wanted keys items B taken :
  keysAscend items ->
  match reverse (take (countWhile (fun kv => String.leb (fst kv) (snd keys)) items) items) with
  | h :: t => B = if String.eqb (fst h) (snd keys) then t else h :: t
  | [] => B = []
  end ->
  taken `prefix_of` B ->
  Forall (fun kv => negb (String.ltb (fst kv) (fst keys)) = true) taken ->
  taken `prefix_of` reverse (inRange keys items) /\
  ((forall kv rest, B = taken ++ kv :: rest -> negb (String.ltb (fst kv) (fst keys)) = false) ->
   reverse (inRange keys items) = taken).
Proof.
  intros Hs HB [rest Hrest] Htaken.
  set (m := countWhile (fun kv => String.leb (fst kv) (snd keys)) items) in *.
  destruct (countWhile_spec (fun kv => String.leb (fst kv) (snd keys)) items) as (_ & Hle & Hhead).
  fold m in Hle, Hhead.
  (* the records past the place have a key above the range *)
  assert (Hdrop : inRange keys (drop m items) = []).
  { destruct (drop m items) as [|x D] eqn:HD; [reflexivity|].
    specialize (Hhead x D eq_refl). rewrite leb_ltb in Hhead.
    apply negb_false_iff in Hhead.
    pose proof (keysAscend_drop m _ Hs) as Hsd. rewrite HD in Hsd.
    apply StronglySorted_inv in Hsd as [_ Hall].
    apply inRange_none. constructor.
    - right. apply ltb_asym, Hhead.
    - eapply Forall_impl; [exact Hall|]. cbn. intros y Hy. right.
      apply ltb_asym. eapply ltb_trans; eassumption. }
  assert (Hrev : reverse (inRange keys items) = inRange keys (reverse (take m items))).
  { rewrite <- (take_drop m items) at 1. rewrite inRange_app, Hdrop, app_nil_r.
    unfold inRange. symmetry. apply filter_reverse. }
  pose proof (keysAscend_take m _ Hs) as HsT.
  (* the records before the cursor all have a key below the end of the range *)
  assert (HBspec : inRange keys (reverse (take m items)) = inRange keys B /\
                   Forall (fun kv => String.ltb (fst kv) (snd keys) = true) B /\
                   exists pre, reverse (take m items) = pre ++ B).
  { destruct (reverse (take m items)) as [|h t] eqn:HRT.
    - subst B. repeat split; [constructor | exists []; reflexivity].
    - assert (Hh : String.leb (fst h) (snd keys) = true).
      { rewrite <- Forall_reverse, HRT in Hle. apply Forall_cons in Hle as [Hh _]. exact Hh. }
      destruct (keysAscend_reverse_split _ [] h t HsT HRT) as [Ht _].
      rewrite leb_ltb in Hh. apply negb_true_iff in Hh.
      destruct (String.eqb (fst h) (snd keys)) eqn:Heq.
      + apply String.eqb_eq in Heq. subst B. split; [|split].
        * change (h :: t) with ([h] ++ t). rewrite inRange_app.
          rewrite (inRange_none keys [h]); [reflexivity|].
          constructor; [|constructor]. right. rewrite Heq. apply ltb_irrefl.
        * rewrite <- Heq. exact Ht.
        * exists [h]. reflexivity.
      + apply String.eqb_neq in Heq. subst B. split; [reflexivity|]. split; [|exists []; reflexivity].
        assert (Hlt : String.ltb (fst h) (snd keys) = true).
        { destruct (ltb_ge _ _ Hh) as [E|E]; [congruence | exact E]. }
        constructor; [exact Hlt|]. eapply Forall_impl; [exact Ht|].
        cbn. intros y Hy. eapply ltb_trans; eassumption. }
  destruct HBspec as (HinB & HltB & pre & Hpre).
  assert (Hin : inRange keys B = taken ++ inRange keys rest).
  { rewrite Hrest, inRange_app. rewrite inRange_all; [reflexivity|].
    rewrite Hrest in HltB. apply Forall_app in HltB as [HltB _].
    clear -HltB Htaken. induction Htaken as [|x l Hx _ IH]; [constructor|].
    apply Forall_cons in HltB as [Hx' HltB]. apply negb_true_iff in Hx. constructor; auto. }
  rewrite Hrev, HinB, Hin.
  split; [apply prefix_app_r; reflexivity|].
  intros Hnext. destruct rest as [|kv rest']; [cbn; apply app_nil_r|].
  specialize (Hnext kv rest' Hrest). apply negb_false_iff in Hnext.
  rewrite inRange_none; [apply app_nil_r|].
  rewrite Hrest, app_assoc in Hpre.
  destruct (keysAscend_reverse_split _ _ kv rest' HsT Hpre) as [Hbelow _].
  constructor; [left; exact Hnext|].
  eapply Forall_impl; [exact Hbelow|]. cbn. intros y Hy. left.
  eapply ltb_trans; eassumption.
Qed.

Lemma result_of_scan continue byteLimit n remaining taken left total wanted :
  0 < n ->
  scanned continue byteLimit n 0 remaining taken left total ->
  taken `prefix_of` wanted ->
  ((forall kv rest, remaining = taken ++ kv :: rest -> continue (fst kv) = false) ->
   wanted = taken) ->
  Z.of_nat (length taken) <= n /\
  (forall p x q, taken = p ++ x :: q -> bytesOf p < byteLimit /\ Z.of_nat (length p) < n) /\
  ((left =? 0) || (byteLimit <=? total) = true <->
   Z.of_nat (length taken) = n \/ byteLimit <= bytesOf taken) /\
  ((left =? 0) || (byteLimit <=? total) = false -> taken = wanted) /\
  ((left =? 0) || (byteLimit <=? total) = true -> taken <> []).
Proof.
  intros Hn (Hpre & Hall & Hleft & Hpos & Htot & Hbefore & Hend) Hwanted Hall_wanted.
  cbn in Htot. split; [lia|]. split; [|split; [|split]].
  - intros p x q E. split; [exact (Hbefore p x q E)|].
    rewrite E, length_app in Hleft. cbn in Hleft. lia.
  - rewrite orb_true_iff, Z.eqb_eq, Z.leb_le. subst total. lia.
  - rewrite orb_false_iff, Z.eqb_neq, Z.leb_gt. intros [Hl Ht].
    destruct Hend as [[Hstop _]|(_ & _ & Hnext)]; [lia|].
    symmetry. apply Hall_wanted, Hnext.
  - rewrite orb_true_iff, Z.eqb_eq, Z.leb_le. intros Hstop.
    destruct Hend as [[_ Hne]|(Hl & Ht & _)]; [exact Hne | lia].
Qed.

Lemma ahead_firstEqualOrGreater k items :
  ahead items (firstEqualOrGreater k items) =
    drop (countWhile (fun kv => String.ltb (fst kv) k) items) items.
Proof.
  unfold firstEqualOrGreater.
  destruct (countWhile_spec (fun kv => String.ltb (fst kv) k) items) as (Hle & _).
  destruct (_ <? _)%nat eqn:Hlt; cbn; [reflexivity|].
  apply Nat.ltb_ge in Hlt. symmetry. apply drop_ge. lia.
Qed.

Lemma behind_lastLessOrEqual k items :
  behind items (lastLessOrEqual k items) =
    reverse (take (countWhile (fun kv => String.leb (fst kv) k) items) items).
Proof.
  unfold lastLessOrEqual. destruct (countWhile _ items); reflexivity.
Qed.

Section ReadRange.
Context {S : Type} `{IStoreCursor S} `{IVersionedStore S}.
Variable items : S -> list (string * list Z).
Variable position : S -> option nat.
Hypothesis contract : CursorContract items position.

(** What a read of the range [keys] has done when it returns: nothing when
    [rowLimit] is zero; otherwise its records are the first ones of the
    records of the store in the range, in key order for a positive
    [rowLimit] and in reverse key order for a negative one; no limit was
    reached before the last record, [more] tells whether one is reached,
    and [readThrough] is the key of the last record. *)
Lemma readRange_result (keys : string * string) (rowLimit byteLimit : Z)
    (s s0 : S) (result : RangeResultRef.t) (s' : S) :
  INT_MIN <= rowLimit <= INT_MAX ->
  (rowLimit <> 0 -> readAtVersion (getLastCommittedVersion s) s = (Ok tt, s0)) ->
  keysAscend (items s0) ->
  (forall kv, kv ∈ items s0 -> byteLimit + expectedSize kv <= INT_MAX) ->
  readRange_impl keys rowLimit byteLimit s = (Ok result, s') ->
  let wanted :=
    if 0 <? rowLimit then inRange keys (items s0) else reverse (inRange keys (items s0)) in
  let got := RangeResultRef.records result in
  (rowLimit = 0 -> got = []) /\
  got `prefix_of` wanted /\
  Z.of_nat (length got) <= Z.abs rowLimit /\
  (forall p x q, got = p ++ x :: q ->
     bytesOf p < byteLimit /\ Z.of_nat (length p) < Z.abs rowLimit) /\
  (RangeResultRef.more result = true <->
   rowLimit <> 0 /\ (Z.of_nat (length got) = Z.abs rowLimit \/ byteLimit <= bytesOf got)) /\
  (RangeResultRef.more result = false -> rowLimit <> 0 -> got = wanted) /\
  (RangeResultRef.more result = true ->
   exists kv, last got = Some kv /\ RangeResultRef.readThrough result = Some (fst kv)).
Proof using contract.
  intros Hint Hread Hsorted Hsize E wanted got.
  unfold readRange_impl in E.
  destruct (0 <? byteLimit) eqn:Hbl; [|discriminate E].
  apply Z.ltb_lt in Hbl. rewrite bind_ASSERT in E by reflexivity.
  destruct (rowLimit =? 0) eqn:Hr0.
  - apply Z.eqb_eq in Hr0. apply ret_inv in E as [E _]. injection E as ->.
    subst got. cbn. subst rowLimit. cbn.
    split; [reflexivity|]. split; [apply prefix_nil|]. split; [lia|].
    split; [intros p x q Ep; destruct p; discriminate|].
    split; [split; [discriminate | intros [Hne _]; congruence]|].
    split; [congruence | discriminate].
  - apply Z.eqb_neq in Hr0. rewrite bind_gets in E.
    rewrite (bind_ok _ _ _ _ _ (Hread Hr0)) in E.
    cbv zeta in E. apply bind_inv_ok in E as ([[res rl] ac] & s2 & Hloop & E).
    assert (Hfin :
      res `prefix_of` wanted /\
      Z.of_nat (length res) <= Z.abs rowLimit /\
      (forall p x q, res = p ++ x :: q ->
         bytesOf p < byteLimit /\ Z.of_nat (length p) < Z.abs rowLimit) /\
      ((rl =? 0) || (byteLimit <=? ac) = true <->
       Z.of_nat (length res) = Z.abs rowLimit \/ byteLimit <= bytesOf res) /\
      ((rl =? 0) || (byteLimit <=? ac) = false -> res = wanted) /\
      ((rl =? 0) || (byteLimit <=? ac) = true -> res <> [])).
    { subst wanted. destruct (0 <? rowLimit) eqn:Hdir.
      - apply Z.ltb_lt in Hdir.
        apply bind_inv_ok in Hloop as ([] & s1 & Hfind & Hloop).
        destruct (contract_findFirstEqualOrGreater _ _ contract _ _ _ _ Hfind) as [Hitems Hpos].
        assert (Hahead : ahead (items s1) (position s1) =
                  drop (countWhile (fun kv => String.ltb (fst kv) (fst keys)) (items s0)) (items s0)).
        { rewrite Hitems, Hpos. apply ahead_firstEqualOrGreater. }
        assert (Hsize1 : forall kv, kv ∈ ahead (items s1) (position s1) ->
                           byteLimit + expectedSize kv <= INT_MAX).
        { rewrite Hahead. intros kv Hin. apply Hsize. exact (subseteq_drop _ _ _ Hin). }
        assert (Hfuel : 0 < rowLimit <= Z.of_nat (Z.to_nat rowLimit)) by lia.
        assert (Hacc0 : 0 <= 0 < byteLimit) by lia.
        destruct (readForward_scanned items position contract _ _ _ _ _ _ _ _ _ _ _
                    Hfuel (proj2 Hint) Hacc0 Hsize1 Hloop) as (taken & Eres & Hscan).
        cbn in Eres. subst res. rewrite Hahead in Hscan.
        pose proof Hscan as (Hpre & Hall & _).
        destruct (forward_wanted keys (items s0) taken Hsorted Hpre Hall) as [Hw1 Hw2].
        split; [exact Hw1|].
        rewrite Z.abs_eq by lia.
        exact (result_of_scan (fun k => String.ltb k (snd keys)) _ _ _ _ _ _ _
                 Hdir Hscan Hw1 Hw2).
      - apply Z.ltb_ge in Hdir.
        apply bind_inv_ok in Hloop as ([] & s1 & Hfind & Hloop).
        destruct (contract_findLastLessOrEqual _ _ contract _ _ _ _ Hfind) as [Hitems Hpos].
        rewrite bind_gets in Hloop.
        apply bind_inv_ok in Hloop as ([] & s1' & Hstep & Hloop).
        assert (Hbehind0 : behind (items s1) (position s1) =
                  reverse (take (countWhile (fun kv => String.leb (fst kv) (snd keys)) (items s0))
                             (items s0))).
        { rewrite Hitems, Hpos. apply behind_lastLessOrEqual. }
        assert (HB : match reverse (take (countWhile (fun kv => String.leb (fst kv) (snd keys))
                                            (items s0)) (items s0)) with
                     | h :: t => behind (items s1') (position s1') =
                                   if String.eqb (fst h) (snd keys) then t else h :: t
                     | [] => behind (items s1') (position s1') = []
                     end).
        { rewrite <- Hbehind0. pose proof (isValid_behind items position contract s1) as Hv.
          destruct (isValid s1); cbn [andb] in Hstep.
          - destruct Hv as [rest Hv]. rewrite Hv. cbn [fst].
            destruct (String.eqb (getKey s1) (snd keys)).
            + exact (prev_behind items position contract _ _ _ _ Hv Hstep).
            + apply ret_inv in Hstep as [_ ->]. exact Hv.
          - rewrite Hv. apply ret_inv in Hstep as [_ ->]. exact Hv. }
        assert (Hsize1 : forall kv, kv ∈ behind (items s1') (position s1') ->
                           byteLimit + expectedSize kv <= INT_MAX).
        { intros kv Hin. apply Hsize.
          assert (Hsub : kv ∈ reverse (take (countWhile (fun kv => String.leb (fst kv) (snd keys))
                                               (items s0)) (items s0))).
          { destruct (reverse _) as [|h t]; [rewrite HB in Hin; exact Hin|].
            destruct (String.eqb (fst h) (snd keys)); rewrite HB in Hin; [right|]; exact Hin. }
          rewrite elem_of_reverse in Hsub. exact (subseteq_take _ _ _ Hsub). }
        assert (Hfuel : 0 < - rowLimit <= Z.of_nat (Z.to_nat (- rowLimit))) by lia.
        assert (Hacc0 : 0 <= 0 < byteLimit) by lia.
        destruct (readReverse_scanned items position contract _ _ _ _ _ _ _ _ _ _ _
                    Hfuel (proj1 Hint) Hacc0 Hsize1 Hloop) as (taken & Eres & Hscan).
        cbn in Eres. subst res.
        pose proof Hscan as (Hpre & Hall & _).
        destruct (reverse_wanted keys (items s0) _ taken Hsorted HB Hpre Hall) as [Hw1 Hw2].
        split; [exact Hw1|].
        rewrite Z.abs_neq by lia.
        replace (rl =? 0) with (- rl =? 0) by (destruct (Z.eqb_spec (- rl) 0), (Z.eqb_spec rl 0); lia).
        assert (Hn : 0 < - rowLimit) by lia.
        exact (result_of_scan (fun k => negb (String.ltb k (fst keys))) _ _ _ _ _ _ _
                 Hn Hscan Hw1 Hw2). }
    destruct Hfin as (Hpre & Hlen & Hbefore & Hmore & Hall & Hne).
    destruct ((rl =? 0) || (byteLimit <=? ac)) eqn:Hm.
    + destruct (last res) as [kv|] eqn:Hlast; [|discriminate E].
      apply ret_inv in E as [E _]. injection E as ->. subst got. cbn.
      split; [intros; contradiction|]. split; [exact Hpre|]. split; [exact Hlen|].
      split; [exact Hbefore|].
      split; [split; [intros _; split; [exact Hr0 | apply Hmore; reflexivity] | reflexivity]|].
      split; [discriminate|]. intros _. exists kv. auto.
    + apply ret_inv in E as [E _]. injection E as ->. subst got. cbn.
      split; [intros; contradiction|]. split; [exact Hpre|]. split; [exact Hlen|].
      split; [exact Hbefore|].
      split; [split; [discriminate | intros [_ Hlim]; apply Hmore in Hlim; discriminate]|].
      split; [intros _ _; apply Hall; reflexivity | discriminate].
Qed.
End ReadRange.

(** if the store and its cursor never fail, a read with a byte limit above
    zero returns *)
Section Returns.
Context {S : Type} `{IStoreCursor S} `{IVersionedStore S}.
Hypothesis readAtVersion_ok : forall v s, exists s', readAtVersion v s = (Ok tt, s').
Hypothesis findFirstEqualOrGreater_ok :
  forall k p s, exists s', findFirstEqualOrGreater k p s = (Ok tt, s').
Hypothesis findLastLessOrEqual_ok :
  forall k p s, exists s', findLastLessOrEqual k p s = (Ok tt, s').
Hypothesis next_ok : forall s, exists s', next s = (Ok tt, s').
Hypothesis prev_ok : forall s, exists s', prev s = (Ok tt, s').

Lemma readForward_returns fuel keys byteLimit rowLimit acc result s :
  0 < rowLimit <= Z.of_nat fuel -> rowLimit <= INT_MAX -> acc < byteLimit ->
  exists res rl ac s',
    readForward fuel keys byteLimit rowLimit acc result s = (Ok (res, rl, ac), s') /\
    ((rl =? 0) || (byteLimit <=? ac) = true -> res <> []).
Proof using next_ok.
  revert rowLimit acc result s. induction fuel as [|fuel IH];
    intros rowLimit acc result s Hrow Hmax Hacc; [lia|].
  cbn [readForward]. rewrite bind_gets.
  destruct (isValid s && String.ltb (getKey s) (snd keys)).
  - cbv zeta.
    rewrite (int32_id (rowLimit - 1)) by (unfold INT_MIN, INT_MAX in *; lia).
    destruct ((rowLimit - 1 =? 0) || (byteLimit <=? int32 (acc + _))) eqn:Hstop.
    + eexists _, _, _, _. split; [reflexivity|]. intros _. destruct result; discriminate.
    + apply orb_false_iff in Hstop as [Hs1 Hs2].
      apply Z.eqb_neq in Hs1. apply Z.leb_gt in Hs2.
      destruct (next_ok s) as [s1 Hn]. rewrite (bind_ok _ _ _ _ _ Hn).
      assert (H1 : 0 < rowLimit - 1 <= Z.of_nat fuel) by lia.
      assert (H2 : rowLimit - 1 <= INT_MAX) by lia.
      destruct (IH (rowLimit - 1) (int32 (acc + expectedSize (getKey s, getValue s)))
                  (result ++ [(getKey s, getValue s)]) s1 H1 H2 Hs2) as (res & rl & ac & s' & E & Hne).
      eauto 10.
  - eexists _, _, _, _. split; [reflexivity|]. intros Hlim.
    apply orb_true_iff in Hlim as [Hl|Hl]; [apply Z.eqb_eq in Hl|apply Z.leb_le in Hl]; lia.
Qed.

Lemma readReverse_returns fuel keys byteLimit rowLimit acc result s :
  0 < - rowLimit <= Z.of_nat fuel -> INT_MIN <= rowLimit -> acc < byteLimit ->
  exists res rl ac s',
    readReverse fuel keys byteLimit rowLimit acc result s = (Ok (res, rl, ac), s') /\
    ((rl =? 0) || (byteLimit <=? ac) = true -> res <> []).
Proof using prev_ok.
  revert rowLimit acc result s. induction fuel as [|fuel IH];
    intros rowLimit acc result s Hrow Hmin Hacc; [lia|].
  cbn [readReverse]. rewrite bind_gets.
  destruct (isValid s && negb (String.ltb (getKey s) (fst keys))).
  - cbv zeta.
    rewrite (int32_id (rowLimit + 1)) by (unfold INT_MIN, INT_MAX in *; lia).
    destruct ((rowLimit + 1 =? 0) || (byteLimit <=? int32 (acc + _))) eqn:Hstop.
    + eexists _, _, _, _. split; [reflexivity|]. intros _. destruct result; discriminate.
    + apply orb_false_iff in Hstop as [Hs1 Hs2].
      apply Z.eqb_neq in Hs1. apply Z.leb_gt in Hs2.
      destruct (prev_ok s) as [s1 Hn]. rewrite (bind_ok _ _ _ _ _ Hn).
      assert (H1 : 0 < - (rowLimit + 1) <= Z.of_nat fuel) by lia.
      assert (H2 : INT_MIN <= rowLimit + 1) by lia.
      destruct (IH (rowLimit + 1) (int32 (acc + expectedSize (getKey s, getValue s)))
                  (result ++ [(getKey s, getValue s)]) s1 H1 H2 Hs2) as (res & rl & ac & s' & E & Hne).
      eauto 10.
  - eexists _, _, _, _. split; [reflexivity|]. intros Hlim.
    apply orb_true_iff in Hlim as [Hl|Hl]; [apply Z.eqb_eq in Hl|apply Z.leb_le in Hl]; lia.
Qed.

Lemma readRange_run (keys : string * string) (rowLimit byteLimit : Z) (s : S) :
  0 < byteLimit -> INT_MIN <= rowLimit <= INT_MAX ->
  exists result s', readRange_impl keys rowLimit byteLimit s = (Ok result, s').
Proof using readAtVersion_ok findFirstEqualOrGreater_ok findLastLessOrEqual_ok next_ok prev_ok.
  intros Hbyte Hrow. unfold readRange_impl.
  assert (Hb : (0 <? byteLimit) = true) by (apply Z.ltb_lt; lia).
  rewrite Hb, bind_ASSERT by reflexivity.
  destruct (rowLimit =? 0) eqn:Hz; [eexists _, _; reflexivity|].
  apply Z.eqb_neq in Hz. rewrite bind_gets.
  destruct (readAtVersion_ok (getLastCommittedVersion s) s) as [s0 E0].
  rewrite (bind_ok _ _ _ _ _ E0).
  assert (Hfin : forall (m : M S (list KeyValueRef * Z * Z)) s1,
            (exists res rl ac s', m s1 = (Ok (res, rl, ac), s') /\
               ((rl =? 0) || (byteLimit <=? ac) = true -> res <> [])) ->
            exists result s',
              (r <~ m;;
               let '(result, rowLimit, accumulatedBytes) := r in
               if (rowLimit =? 0) || (byteLimit <=? accumulatedBytes)
               then match last result with
                    | Some kv => ret (RangeResultRef.mk result true (Some (fst kv)))
                    | None => throw assertion_failed
                    end
               else ret (RangeResultRef.mk result false None)) s1 = (Ok result, s')).
  { intros m s1 (res & rl & ac & s' & E & Hne). rewrite (bind_ok _ _ _ _ _ E).
    destruct ((rl =? 0) || (byteLimit <=? ac)); [|eexists _, _; reflexivity].
    destruct (last res) eqn:Hl; [eexists _, _; reflexivity|].
    apply last_None in Hl. destruct (Hne eq_refl Hl). }
  apply Hfin.
  destruct (0 <? rowLimit) eqn:Hdir.
  - apply Z.ltb_lt in Hdir.
    destruct (findFirstEqualOrGreater_ok (fst keys) (if 1 <? rowLimit then byteLimit else 0) s0)
      as [s1 E1].
    rewrite (bind_ok _ _ _ _ _ E1).
    apply readForward_returns; lia.
  - apply Z.ltb_ge in Hdir.
    destruct (findLastLessOrEqual_ok (snd keys) 0 s0) as [s1 E1].
    rewrite (bind_ok _ _ _ _ _ E1), bind_gets.
    assert (Hstep : exists s2,
              (if isValid s1 && String.eqb (getKey s1) (snd keys) then prev else ret tt) s1
              = (Ok tt, s2)).
    { destruct (isValid s1 && String.eqb (getKey s1) (snd keys)); [apply prev_ok|].
      eexists; reflexivity. }
    destruct Hstep as [s2 E2]. rewrite (bind_ok _ _ _ _ _ E2).
    apply readReverse_returns; lia.
Qed.

(** the read returns: its loops end within [|rowLimit|] turns *)
Theorem readRange_returns (keys : string * string) (rowLimit byteLimit : Z) (s : S) :
  0 < byteLimit -> INT_MIN <= rowLimit <= INT_MAX ->
  exists result s', readRange_impl keys rowLimit byteLimit s = (Ok result, s').
Proof using readAtVersion_ok findFirstEqualOrGreater_ok findLastLessOrEqual_ok next_ok prev_ok.
  apply readRange_run.
Qed.
End Returns.

Section Limits.
Context {S : Type} `{IStoreCursor S} `{IVersionedStore S}.
Variable items : S -> list (string * list Z).
Variable position : S -> option nat.
Hypothesis contract : CursorContract items position.
Hypothesis readAtVersion_ok : forall v s, exists s', readAtVersion v s = (Ok tt, s').
Hypothesis findFirstEqualOrGreater_ok :
  forall k p s, exists s', findFirstEqualOrGreater k p s = (Ok tt, s').
Hypothesis findLastLessOrEqual_ok :
  forall k p s, exists s', findLastLessOrEqual k p s = (Ok tt, s').
Hypothesis next_ok : forall s, exists s', next s = (Ok tt, s').
Hypothesis prev_ok : forall s, exists s', prev s = (Ok tt, s').

(** C1: a read of the range [keys] with a byte limit above zero and a row
    limit that is an [int] returns a result, over a store whose cursor
    keeps the contract of its interface and whose operations return.  The
    result is empty when [rowLimit] is zero; otherwise its records are the
    first ones of the records of the store in the range, in key order for a
    positive [rowLimit] and in reverse key order for a negative one.  It
    takes at most [|rowLimit|] records, and before each record it takes
    fewer than [|rowLimit|] records were taken and their bytes were below
    [byteLimit]: the record that reaches [byteLimit] is in the result and
    is its last.  [more] is set exactly when [|rowLimit|] records are in
    the result or their bytes reach [byteLimit]; without [more] the result
    is all of the range; with [more], [readThrough] is the key of the last
    record.  The keys of the store go up, and the byte count stays within
    an [int]. *)
Theorem readRange_limits (keys : string * string) (rowLimit byteLimit : Z) (s s0 : S) :
  0 < byteLimit ->
  INT_MIN <= rowLimit <= INT_MAX ->
  (rowLimit <> 0 -> readAtVersion (getLastCommittedVersion s) s = (Ok tt, s0)) ->
  keysAscend (items s0) ->
  (forall kv, kv ∈ items s0 -> byteLimit + expectedSize kv <= INT_MAX) ->
  exists (result : RangeResultRef.t) (s' : S),
    readRange_impl keys rowLimit byteLimit s = (Ok result, s') /\
    let wanted :=
      if 0 <? rowLimit then inRange keys (items s0) else reverse (inRange keys (items s0)) in
    let got := RangeResultRef.records result in
    (rowLimit = 0 -> got = []) /\
    got `prefix_of` wanted /\
    Z.of_nat (length got) <= Z.abs rowLimit /\
    (forall p x q, got = p ++ x :: q ->
       bytesOf p < byteLimit /\ Z.of_nat (length p) < Z.abs rowLimit) /\
    (RangeResultRef.more result = true <->
     rowLimit <> 0 /\ (Z.of_nat (length got) = Z.abs rowLimit \/ byteLimit <= bytesOf got)) /\
    (RangeResultRef.more result = false -> rowLimit <> 0 -> got = wanted) /\
    (RangeResultRef.more result = true ->
     exists kv, last got = Some kv /\ RangeResultRef.readThrough result = Some (fst kv)).
Proof using All.
  intros Hbyte Hint Hread Hsorted Hsize.
  destruct (readRange_run readAtVersion_ok findFirstEqualOrGreater_ok
              findLastLessOrEqual_ok next_ok prev_ok keys rowLimit byteLimit s Hbyte Hint)
    as (result & s' & E).
  exists result, s'. split; [exact E|].
  exact (readRange_result items position contract keys rowLimit byteLimit s s0 result s'
           Hint Hread Hsorted Hsize E).
Qed.
End Limits.

(** the list store keeps the contract of a cursor *)
Lemma ListStore_contract : CursorContract ListStore.items ListStore.position.
Proof.
  split.
  - reflexivity.
  - intros s i Hp. cbn [getKey getValue ListStore.cursor_ops]. rewrite Hp. cbn.
    unfold ListStore.position in Hp. destruct (ListStore.cursor s) as [j|]; [|discriminate].
    destruct (j <? length (ListStore.items s))%nat eqn:Hj; [|discriminate].
    injection Hp as <-. apply Nat.ltb_lt in Hj.
    destruct (lookup_lt_is_Some_2 _ _ Hj) as [kv Hkv]. rewrite Hkv. destruct kv; reflexivity.
  - intros k pb s s' E. injection E as <-. split; [reflexivity|].
    unfold ListStore.position. cbn [ListStore.cursor ListStore.items].
    unfold firstEqualOrGreater. destruct (_ <? _)%nat eqn:Hn; [|reflexivity].
    rewrite Hn. reflexivity.
  - intros k pb s s' E. injection E as <-. split; [reflexivity|].
    unfold ListStore.position. cbn [ListStore.cursor ListStore.items].
    unfold lastLessOrEqual.
    destruct (countWhile_spec (fun kv => String.leb (fst kv) k) (ListStore.items s)) as (Hle & _).
    destruct (countWhile _ _) as [|n]; [reflexivity|].
    assert (Hn : (n <? length (ListStore.items s))%nat = true) by (apply Nat.ltb_lt; lia).
    rewrite Hn. reflexivity.
  - intros s s' i Hp E. injection E as <-. split; [reflexivity|].
    unfold ListStore.position at 1. cbn [ListStore.cursor ListStore.items].
    rewrite Hp. reflexivity.
  - intros s s' i Hp E. injection E as <-. split; [reflexivity|].
    unfold ListStore.position at 1. cbn [ListStore.cursor ListStore.items].
    rewrite Hp. destruct i as [|j]; [reflexivity|].
    unfold ListStore.position in Hp. destruct (ListStore.cursor s) as [j'|]; [|discriminate].
    destruct (j' <? length (ListStore.items s))%nat eqn:Hj; [|discriminate].
    injection Hp as ->. apply Nat.ltb_lt in Hj.
    assert (Hn : (j <? length (ListStore.items s))%nat = true) by (apply Nat.ltb_lt; lia).
    rewrite Hn. reflexivity.
Qed.

Lemma ListStore_returns :
  (forall v (s : ListStore.t), exists s', readAtVersion v s = (Ok tt, s')) /\
  (forall k p (s : ListStore.t), exists s', findFirstEqualOrGreater k p s = (Ok tt, s')) /\
  (forall k p (s : ListStore.t), exists s', findLastLessOrEqual k p s = (Ok tt, s')) /\
  (forall s : ListStore.t, exists s', next s = (Ok tt, s')) /\
  (forall s : ListStore.t, exists s', prev s = (Ok tt, s')).
Proof. repeat split; intros; eexists; reflexivity. Qed.

(** The theorem at work on the list store of four records: a forward read
    of two rows and a reverse read of two rows, both stopped by the row
    limit. *)
Lemma readRange_limits_witness :
  (exists result s',
     readRange_impl ("a", "z")%string 2 1048576 Examples.letters = (Ok result, s') /\
     RangeResultRef.records result = [("a", [1]); ("b", [2])]%string /\
     RangeResultRef.more result = true /\
     RangeResultRef.readThrough result = Some "b"%string) /\
  (exists result s',
     readRange_impl ("a", "z")%string (-2) 1048576 Examples.letters = (Ok result, s') /\
     RangeResultRef.records result = [("d", [4]); ("c", [3])]%string /\
     RangeResultRef.more result = true /\
     RangeResultRef.readThrough result = Some "c"%string).
Proof.
  destruct ListStore_returns as (H1 & H2 & H3 & H4 & H5).
  assert (Hsorted : keysAscend (ListStore.items Examples.letters))
    by (repeat constructor).
  assert (Hsize : forall kv, kv ∈ ListStore.items Examples.letters ->
                    1048576 + expectedSize kv <= INT_MAX).
  { intros kv Hin. cbn [Examples.letters ListStore.items] in Hin.
    repeat (apply elem_of_cons in Hin as [->|Hin]; [vm_compute; discriminate|]).
    apply elem_of_nil in Hin. destruct Hin. }
  split.
  - destruct (readRange_limits ListStore.items ListStore.position ListStore_contract
                H1 H2 H3 H4 H5 ("a", "z")%string 2 1048576 Examples.letters Examples.letters
                ltac:(reflexivity) ltac:(vm_compute; split; discriminate)
                ltac:(reflexivity) Hsorted Hsize)
      as (result & s' & E & _).
    exists result, s'. split; [exact E|].
    vm_compute in E. injection E as <- _. repeat split.
  - destruct (readRange_limits ListStore.items ListStore.position ListStore_contract
                H1 H2 H3 H4 H5 ("a", "z")%string (-2) 1048576 Examples.letters Examples.letters
                ltac:(reflexivity) ltac:(vm_compute; split; discriminate)
                ltac:(reflexivity) Hsorted Hsize)
      as (result & s' & E & _).
    exists result, s'. split; [exact E|].
    vm_compute in E. injection E as <- _. repeat split.
Defined.

Lemma readRange_returns_witness :
  exists result s', readRange_impl ("a", "z")%string (-3) 2 Examples.letters = (Ok result, s').
Proof.
  apply readRange_returns.
  - intros v s. eexists; reflexivity.
  - intros k p s. eexists; reflexivity.
  - intros k p s. eexists; reflexivity.
  - intros s. eexists; reflexivity.
  - intros s. eexists; reflexivity.
  - lia.
  - vm_compute. split; discriminate.
Defined.
End KeyValueStoreFacts.

(** ** Versioned B-tree: the mutation buffer *)
Module MutationBufferFacts.
Import MutationBufferStdMap.
Import KeyValueStoreFacts.

Lemma eqb_sym a b : String.eqb a b = String.eqb b a.
Proof.
  destruct (String.eqb a b) eqn:E1, (String.eqb b a) eqn:E2; try reflexivity.
  - apply String.eqb_eq in E1. subst. rewrite String.eqb_refl in E2. discriminate.
  - apply String.eqb_eq in E2. subst. rewrite String.eqb_refl in E1. discriminate.
Qed.

Lemma ltb_neq a b : String.ltb a b = true -> String.eqb a b = false.
Proof.
  intros H. destruct (String.eqb a b) eqn:E; [|reflexivity].
  apply String.eqb_eq in E. subst. rewrite ltb_irrefl in H. discriminate.
Qed.

Lemma ltb_neq' a b : String.ltb a b = true -> String.eqb b a = false.
Proof. intros H. rewrite eqb_sym. apply ltb_neq, H. Qed.

Lemma keyIn_cons x k r m : keyIn x ((k, r) :: m) <-> x = k \/ keyIn x m.
Proof.
  unfold keyIn. cbn. destruct (String.eqb x k) eqn:E.
  - apply String.eqb_eq in E. split; [left; exact E | intros _; eexists; reflexivity].
  - split; [right; assumption|]. intros [->|H]; [|exact H].
    rewrite String.eqb_refl in E. discriminate.
Qed.

Lemma keyIn_nil x : ~ keyIn x [].
Proof. intros [r H]. discriminate. Qed.

Lemma sorted_cons_inv k r m :
  sorted ((k, r) :: m) -> sorted m /\ forall x, keyIn x m -> String.ltb k x = true.
Proof.
  intros H. apply StronglySorted_inv in H as [Hs Hall]. split; [exact Hs|].
  clear Hs. induction m as [|[k' r'] m IH]; intros x Hx.
  - destruct (keyIn_nil _ Hx).
  - apply Forall_cons in Hall as [Hk Hall]. apply keyIn_cons in Hx as [->|Hx].
    + exact Hk.
    + apply IH; assumption.
Qed.

Lemma sorted_cons k r m :
  sorted m -> (forall x, keyIn x m -> String.ltb k x = true) -> sorted ((k, r) :: m).
Proof.
  intros Hs Hall. constructor; [exact Hs|].
  clear Hs. induction m as [|[k' r'] m IH]; constructor.
  - apply Hall, keyIn_cons. left. reflexivity.
  - apply IH. intros x Hx. apply Hall, keyIn_cons. right. exact Hx.
Qed.

Lemma find_above k r m x :
  sorted ((k, r) :: m) -> String.ltb x k = true -> find x ((k, r) :: m) = None.
Proof.
  intros Hs Hx. destruct (find x ((k, r) :: m)) eqn:E; [|reflexivity].
  assert (Hin : keyIn x ((k, r) :: m)) by (eexists; exact E).
  apply sorted_cons_inv in Hs as [_ Hall].
  apply keyIn_cons in Hin as [->|Hin].
  - rewrite ltb_irrefl in Hx. discriminate.
  - apply Hall in Hin. rewrite (ltb_asym _ _ Hin) in Hx. discriminate.
Qed.

(** *** The operations of the map, through [find] *)
Lemma find_insert_entry k v m x :
  sorted m ->
  find x (insert_entry k v m) =
  if String.eqb x k
  then match find k m with Some r => Some r | None => Some v end
  else find x m.
Proof.
  induction m as [|[k' r'] m IH]; intros Hs.
  - cbn. destruct (String.eqb x k); reflexivity.
  - cbn [insert_entry]. destruct (String.ltb k k') eqn:Hlt.
    + rewrite (find_above _ _ _ _ Hs Hlt).
      cbn [find]. destruct (String.eqb x k); reflexivity.
    + destruct (String.eqb k k') eqn:Heq.
      * apply String.eqb_eq in Heq. subst k'. cbn [find].
        rewrite String.eqb_refl. destruct (String.eqb x k); reflexivity.
      * cbn [find]. rewrite Heq. destruct (String.eqb x k') eqn:Hx.
        -- apply String.eqb_eq in Hx. subst k'. rewrite eqb_sym, Heq. reflexivity.
        -- apply IH. apply sorted_cons_inv in Hs as [Hs _]. exact Hs.
Qed.

Lemma keyIn_insert_entry k v m x :
  sorted m -> keyIn x (insert_entry k v m) <-> x = k \/ keyIn x m.
Proof.
  intros Hs. unfold keyIn. rewrite find_insert_entry by exact Hs.
  destruct (String.eqb x k) eqn:E.
  - apply String.eqb_eq in E. subst x. split; [left; reflexivity|].
    intros _. destruct (find k m); eexists; reflexivity.
  - split; [right; assumption|]. intros [->|Hx]; [|exact Hx].
    rewrite String.eqb_refl in E. discriminate.
Qed.

Lemma sorted_insert_entry k v m : sorted m -> sorted (insert_entry k v m).
Proof.
  induction m as [|[k' r'] m IH]; intros Hs.
  - cbn. repeat constructor.
  - cbn [insert_entry]. destruct (String.ltb k k') eqn:Hlt.
    + apply sorted_cons; [exact Hs|]. intros x Hx.
      apply sorted_cons_inv in Hs as [_ Hall].
      apply keyIn_cons in Hx as [->|Hx]; [exact Hlt|].
      eapply ltb_trans; [exact Hlt | apply Hall, Hx].
    + destruct (String.eqb k k') eqn:Heq; [exact Hs|].
      pose proof Hs as Hs'. apply sorted_cons_inv in Hs' as [Hs' Hall].
      apply sorted_cons; [apply IH, Hs'|]. intros x Hx.
      apply keyIn_insert_entry in Hx as [->|Hx]; [|apply Hall, Hx|exact Hs'].
      destruct (ltb_ge _ _ Hlt) as [->|H]; [|exact H].
      rewrite String.eqb_refl in Heq. discriminate.
Qed.

Lemma find_update k f m x :
  find x (update k f m) = if String.eqb x k then f <$> find k m else find x m.
Proof.
  induction m as [|[k' r'] m IH]; cbn.
  - destruct (String.eqb x k); reflexivity.
  - destruct (String.eqb k k') eqn:Heq; cbn.
    + apply String.eqb_eq in Heq. subst k'. destruct (String.eqb x k); reflexivity.
    + destruct (String.eqb x k') eqn:Hx.
      * apply String.eqb_eq in Hx. subst k'. rewrite eqb_sym, Heq. reflexivity.
      * exact IH.
Qed.

Lemma keyIn_update k f m x : keyIn x (update k f m) <-> keyIn x m.
Proof.
  unfold keyIn. rewrite find_update. destruct (String.eqb x k) eqn:E; [|reflexivity].
  apply String.eqb_eq in E. subst x. rewrite fmap_is_Some. reflexivity.
Qed.

Lemma sorted_update k f m : sorted m -> sorted (update k f m).
Proof.
  induction m as [|[k' r'] m IH]; intros Hs; cbn; [constructor|].
  pose proof Hs as Hs'. apply sorted_cons_inv in Hs' as [Hs' Hall].
  destruct (String.eqb k k').
  - apply sorted_cons; assumption.
  - apply sorted_cons; [apply IH, Hs'|]. intros x Hx. apply Hall.
    apply keyIn_update in Hx. exact Hx.
Qed.

Lemma find_without keys m x :
  find x (without keys m) = if keys x then None else find x m.
Proof.
  induction m as [|[k' r'] m IH].
  - cbn. destruct (keys x); reflexivity.
  - cbn [without]. destruct (keys k') eqn:Hk; cbn [find].
    + destruct (String.eqb x k') eqn:E; [|exact IH].
      apply String.eqb_eq in E. subst k'. rewrite IH, Hk. reflexivity.
    + destruct (String.eqb x k') eqn:E; [|exact IH].
      apply String.eqb_eq in E. subst k'. rewrite Hk. reflexivity.
Qed.

Lemma sorted_without keys m : sorted m -> sorted (without keys m).
Proof.
  induction m as [|[k' r'] m IH]; intros Hs; [constructor|].
  pose proof Hs as Hs'. apply sorted_cons_inv in Hs' as [Hs' Hall].
  cbn [without]. destruct (keys k'); [apply IH, Hs'|].
  apply sorted_cons; [apply IH, Hs'|]. intros x [r Hx]. apply Hall.
  rewrite find_without in Hx. destruct (keys x); [discriminate|].
  eexists; exact Hx.
Qed.

(** *** Bounds *)
Lemma buffer_lower_bound_spec k m :
  sorted m ->
  match lower_bound k m with
  | Some ib =>
      keyIn ib m /\ String.ltb ib k = false /\
      forall x, keyIn x m -> String.ltb x ib = true -> String.ltb x k = true
  | None => forall x, keyIn x m -> String.ltb x k = true
  end.
Proof.
  induction m as [|[k' r'] m IH]; intros Hs; cbn [lower_bound].
  - intros x Hx. destruct (keyIn_nil _ Hx).
  - pose proof Hs as Hs'. apply sorted_cons_inv in Hs' as [Hs' Hall].
    destruct (String.ltb k' k) eqn:Hlt.
    + specialize (IH Hs'). destruct (lower_bound k m) as [ib|].
      * destruct IH as (Hin & Hge & Hbelow). split; [apply keyIn_cons; right; exact Hin|].
        split; [exact Hge|]. intros x Hx Hxi.
        apply keyIn_cons in Hx as [->|Hx]; [exact Hlt | apply Hbelow; assumption].
      * intros x Hx. apply keyIn_cons in Hx as [->|Hx]; [exact Hlt | apply IH, Hx].
    + split; [apply keyIn_cons; left; reflexivity|]. split; [exact Hlt|].
      intros x Hx Hxk. apply keyIn_cons in Hx as [->|Hx].
      * rewrite ltb_irrefl in Hxk. discriminate.
      * apply Hall in Hx. rewrite (ltb_asym _ _ Hx) in Hxk. discriminate.
Qed.

Lemma buffer_upper_bound_spec k m :
  sorted m ->
  match upper_bound k m with
  | Some ib =>
      keyIn ib m /\ String.ltb k ib = true /\
      forall x, keyIn x m -> String.ltb x ib = true -> String.ltb k x = false
  | None => forall x, keyIn x m -> String.ltb k x = false
  end.
Proof.
  induction m as [|[k' r'] m IH]; intros Hs; cbn [upper_bound].
  - intros x Hx. destruct (keyIn_nil _ Hx).
  - pose proof Hs as Hs'. apply sorted_cons_inv in Hs' as [Hs' Hall].
    destruct (String.ltb k k') eqn:Hlt.
    + split; [apply keyIn_cons; left; reflexivity|]. split; [exact Hlt|].
      intros x Hx Hxk. apply keyIn_cons in Hx as [->|Hx].
      * rewrite ltb_irrefl in Hxk. discriminate.
      * apply Hall in Hx. rewrite (ltb_asym _ _ Hx) in Hxk. discriminate.
    + specialize (IH Hs'). destruct (upper_bound k m) as [ib|].
      * destruct IH as (Hin & Hge & Hbelow). split; [apply keyIn_cons; right; exact Hin|].
        split; [exact Hge|]. intros x Hx Hxi.
        apply keyIn_cons in Hx as [->|Hx]; [exact Hlt | apply Hbelow; assumption].
      * intros x Hx. apply keyIn_cons in Hx as [->|Hx]; [exact Hlt | apply IH, Hx].
Qed.

Lemma previous_spec k m :
  sorted m ->
  match previous k m with
  | Some p =>
      keyIn p m /\ String.ltb p k = true /\
      forall x, keyIn x m -> String.ltb x k = true -> String.ltb p x = false
  | None => forall x, keyIn x m -> String.ltb x k = false
  end.
Proof.
  induction m as [|[k' r'] m IH]; intros Hs; cbn [previous].
  - intros x Hx. destruct (keyIn_nil _ Hx).
  - pose proof Hs as Hs'. apply sorted_cons_inv in Hs' as [Hs' Hall].
    destruct (String.ltb k' k) eqn:Hlt.
    + specialize (IH Hs'). destruct (previous k m) as [p|].
      * destruct IH as (Hin & Hp & Hmax). split; [apply keyIn_cons; right; exact Hin|].
        split; [exact Hp|]. intros x Hx Hxk.
        apply keyIn_cons in Hx as [->|Hx]; [|apply Hmax; assumption].
        apply ltb_asym, Hall, Hin.
      * split; [apply keyIn_cons; left; reflexivity|]. split; [exact Hlt|].
        intros x Hx Hxk. apply keyIn_cons in Hx as [->|Hx]; [apply ltb_irrefl|].
        rewrite (IH x Hx) in Hxk. discriminate.
    + intros x Hx. apply keyIn_cons in Hx as [->|Hx]; [exact Hlt|].
      apply Hall in Hx. destruct (String.ltb x k) eqn:Hxk; [|reflexivity].
      rewrite (ltb_trans _ _ _ Hx Hxk) in Hlt. discriminate.
Qed.

Lemma governing_spec k m a r :
  sorted m -> find a m = Some r -> String.ltb k a = false ->
  (forall x, keyIn x m -> String.ltb a x = true -> String.ltb k x = true) ->
  governing k m = Some (a, r).
Proof.
  induction m as [|[k' r'] m IH]; intros Hs Hfind Hak Hgap; [discriminate|].
  pose proof Hs as Hs'. apply sorted_cons_inv in Hs' as [Hs' Hall].
  cbn [governing]. cbn [find] in Hfind. destruct (String.eqb a k') eqn:Heq.
  - apply String.eqb_eq in Heq. subst k'. injection Hfind as ->. rewrite Hak.
    destruct (governing k m) as [[a' r']|] eqn:Hg; [|reflexivity].
    exfalso. clear IH.
    assert (Hno : forall x, keyIn x m -> String.ltb k x = true).
    { intros x Hx. apply Hgap; [apply keyIn_cons; right; exact Hx | apply Hall, Hx]. }
    clear -Hg Hno. induction m as [|[k2 r2] m IH]; [discriminate|].
    cbn [governing] in Hg. rewrite (Hno k2) in Hg by (apply keyIn_cons; left; reflexivity).
    discriminate.
  - assert (Hin : keyIn a m) by (eexists; exact Hfind).
    pose proof (Hall _ Hin) as Hka.
    assert (Hkk : String.ltb k k' = false).
    { destruct (String.ltb k k') eqn:E; [|reflexivity].
      rewrite (ltb_trans _ _ _ E Hka) in Hak. discriminate. }
    rewrite Hkk. rewrite (IH Hs' Hfind Hak); [reflexivity|].
    intros x Hx. apply Hgap, keyIn_cons. right. exact Hx.
Qed.
(** *** Keys *)
Lemma ltb_empty_r x : String.ltb x EmptyString = false.
Proof. destruct x; reflexivity. Qed.

Lemma ltb_empty_l x : x <> EmptyString -> String.ltb EmptyString x = true.
Proof. destruct x; [congruence | reflexivity]. Qed.

Lemma compare_cons c s c' s' :
  String.compare (String c s) (String c' s') =
  match Ascii.compare c c' with
  | Eq => String.compare s s'
  | o => o
  end.
Proof. reflexivity. Qed.

Lemma ascii_compare_zero c : Ascii.compare c Ascii.zero <> Lt.
Proof.
  unfold Ascii.compare. change (N_of_ascii zero) with 0%N.
  destruct (N_of_ascii c); cbn; discriminate.
Qed.

(** only [a] lies between [a] and [a] followed by a zero byte *)
Lemma single_key a b k :
  (String.length a + 1 = String.length b)%nat ->
  String.get (String.length b - 1) b = Some Ascii.zero ->
  String.prefix a b = true ->
  String.ltb k a = false -> String.ltb k b = true -> k = a.
Proof.
  unfold String.ltb. revert b k. induction a as [|x a IH]; intros b k Hlen Hget Hpre Hka Hkb.
  - destruct b as [|y [|? ?]]; try discriminate. cbn in Hget. injection Hget as ->.
    destruct k as [|z k]; [reflexivity|]. exfalso.
    rewrite compare_cons in Hkb. pose proof (ascii_compare_zero z) as Hz.
    destruct (Ascii.compare z zero); try discriminate; try congruence.
    destruct k; discriminate.
  - destruct b as [|y b]; [discriminate|]. cbn in Hpre.
    destruct (ascii_dec x y) as [<-|]; [|discriminate].
    destruct k as [|z k]; [discriminate|].
    rewrite compare_cons in Hka, Hkb.
    destruct (Ascii.compare z x) eqn:Hzx; try discriminate.
    apply Ascii.compare_eq_iff in Hzx. subst z. f_equal.
    apply (IH b k); try assumption.
    + cbn in Hlen. lia.
    + cbn [String.length] in Hget, Hlen.
      destruct (String.length b) as [|n] eqn:Hn; [lia|].
      cbn in Hget. cbn. rewrite Nat.sub_0_r in *.
      destruct n; exact Hget.
Qed.

(** *** The operations of the buffer *)
Lemma wellFormed_sorted m : wellFormed m -> sorted m.
Proof. intros [H _]. exact H. Qed.

Lemma mutation_ok k m r :
  find k m = Some r -> mutation (Some k) m = (Ok r, m).
Proof. intros H. unfold mutation. rewrite bind_gets. cbn. rewrite H. reflexivity. Qed.

Lemma mutate_ok k f m :
  keyIn k m -> mutate (Some k) f m = (Ok tt, update k f m).
Proof.
  intros [r H]. unfold mutate. rewrite (bind_ok _ _ _ _ _ (mutation_ok _ _ _ H)).
  reflexivity.
Qed.

Lemma insert_ok k m :
  wellFormed m -> String.ltb (RedwoodRecordRef.key dbEnd) k = false ->
  exists m',
    insert k m = (Ok (Some k), m') /\ wellFormed m' /\ keyIn k m' /\
    (forall x, keyIn x m' <-> x = k \/ keyIn x m) /\
    (forall x, x <> k -> find x m' = find x m) /\
    (keyIn k m -> m' = m).
Proof.
  intros (Hs & Hb & He) Hk. unfold insert. rewrite bind_gets.
  pose proof (buffer_lower_bound_spec k m Hs) as Hlb.
  destruct (lower_bound k m) as [ib|].
  2:{ exfalso. rewrite (Hlb _ He) in Hk. discriminate. }
  destruct Hlb as (Hin & Hge & Hbelow).
  destruct (String.eqb ib k) eqn:Heq.
  - apply String.eqb_eq in Heq. subst ib. exists m.
    split; [reflexivity|]. split; [repeat split; assumption|]. split; [exact Hin|].
    split; [intros x; split; [right; assumption | intros [->|H]; assumption]|].
    split; [reflexivity|]. reflexivity.
  - assert (Hnew : ~ keyIn k m).
    { intros Hkin. destruct (ltb_ge _ _ Hge) as [->|Hlt].
      - rewrite String.eqb_refl in Heq. discriminate.
      - pose proof (Hbelow _ Hkin Hlt) as H. rewrite ltb_irrefl in H. discriminate. }
    assert (Hne : k <> EmptyString).
    { intros ->. apply Hnew. exact Hb. }
    set (m1 := insert_entry k RangeMutation.create m).
    assert (Hs1 : sorted m1) by (apply sorted_insert_entry, Hs).
    assert (Hin1 : forall x, keyIn x m1 <-> x = k \/ keyIn x m)
      by (intros x; apply keyIn_insert_entry, Hs).
    assert (Hfind1 : forall x, x <> k -> find x m1 = find x m).
    { intros x Hx. unfold m1. rewrite find_insert_entry by exact Hs.
      destruct (String.eqb x k) eqn:E; [|reflexivity].
      apply String.eqb_eq in E. contradiction. }
    rewrite (bind_modify _ _ m). fold m1. rewrite bind_gets.
    pose proof (previous_spec k m1 Hs1) as Hp.
    destruct (previous k m1) as [p|].
    2:{ exfalso. specialize (Hp EmptyString). rewrite ltb_empty_l in Hp by exact Hne.
        assert (keyIn EmptyString m1) as H0 by (apply Hin1; right; exact Hb).
        specialize (Hp H0). discriminate. }
    destruct Hp as ((rp & Hrp) & Hpk & Hmax).
    rewrite (bind_ok _ _ _ _ _ (mutation_ok _ _ _ Hrp)).
    assert (Hk1 : keyIn k m1) by (apply Hin1; left; reflexivity).
    destruct (RangeMutation.clearAfterBoundary rp).
    + rewrite (bind_ok _ _ _ _ _ (mutate_ok _ RangeMutation.clearAll _ Hk1)).
      exists (update k RangeMutation.clearAll m1). split; [reflexivity|].
      split.
      { split; [apply sorted_update, Hs1|].
        split; apply keyIn_update, Hin1; right; assumption. }
      split; [apply keyIn_update, Hk1|].
      split; [intros x; rewrite keyIn_update; apply Hin1|].
      split; [|intros H; contradiction].
      intros x Hx. rewrite find_update.
      destruct (String.eqb x k) eqn:E; [apply String.eqb_eq in E; contradiction|].
      apply Hfind1, Hx.
    + rewrite bind_ret. exists m1. split; [reflexivity|].
      split; [split; [exact Hs1|]; split; apply Hin1; right; assumption|].
      split; [exact Hk1|]. split; [exact Hin1|]. split; [exact Hfind1|].
      intros H; contradiction.
Qed.
Lemma onBuffer_ok {A} (f : M MutationBufferStdMap.t A) s m r m' :
  VersionedBTree.m_pBuffer s = Some m -> f m = (r, m') ->
  VersionedBTree.onBuffer f s = (r, VersionedBTree.set_m_pBuffer (Some m') s).
Proof. intros Hb Hf. unfold VersionedBTree.onBuffer. rewrite Hb, Hf. reflexivity. Qed.

Lemma set_ok k v m :
  wellFormed m -> String.ltb (RedwoodRecordRef.key dbEnd) k = false ->
  exists m',
    (i <~ insert k;; mutate i (RangeMutation.setBoundaryValue v)) m = (Ok tt, m') /\
    wellFormed m' /\ sets k v m' = true.
Proof.
  intros Hwf Hk. destruct (insert_ok k m Hwf Hk) as (m1 & E1 & Hwf1 & Hk1 & Hin1 & _).
  rewrite (bind_ok _ _ _ _ _ E1), (mutate_ok _ _ _ Hk1).
  exists (update k (RangeMutation.setBoundaryValue v) m1). split; [reflexivity|].
  destruct Hwf1 as (Hs1 & Hb1 & He1).
  split; [split; [apply sorted_update, Hs1|]; split; apply keyIn_update; assumption|].
  destruct Hk1 as [r Hr]. unfold sets.
  rewrite (governing_spec k _ k (RangeMutation.setBoundaryValue v r)).
  - rewrite String.eqb_refl. cbn. apply bool_decide_eq_true. reflexivity.
  - apply sorted_update, Hs1.
  - rewrite find_update, String.eqb_refl, Hr. reflexivity.
  - apply ltb_irrefl.
  - intros x _ Hx. exact Hx.
Qed.

Lemma clear_ok a b k m :
  wellFormed m ->
  String.ltb k a = false -> String.ltb k b = true ->
  String.ltb (RedwoodRecordRef.key dbEnd) b = false ->
  exists m',
    (iBegin <~ insert a;;
     iEnd <~ insert b;;
     mutate iBegin RangeMutation.clearAll;;;
     iBegin <~ next iBegin;;
     erase iBegin iEnd) m = (Ok tt, m') /\
    wellFormed m' /\ clears k m' = true.
Proof.
  intros Hwf Hka Hkb Hb.
  assert (Hab : String.ltb a b = true) by (eapply ltb_le_trans; eassumption).
  assert (Ha : String.ltb (RedwoodRecordRef.key dbEnd) a = false).
  { destruct (String.ltb (RedwoodRecordRef.key dbEnd) a) eqn:E; [|reflexivity].
    destruct (ltb_ge _ _ Hb) as [Heq|Hlt].
    - rewrite Heq in E. rewrite (ltb_asym _ _ Hab) in E. discriminate.
    - pose proof (ltb_trans _ _ _ Hab Hlt) as H. rewrite (ltb_asym _ _ H) in E. discriminate. }
  destruct (insert_ok a m Hwf Ha) as (m2 & E2 & Hwf2 & Ha2 & Hin2 & _).
  destruct (insert_ok b m2 Hwf2 Hb) as (m3 & E3 & Hwf3 & Hb3 & Hin3 & Hfind3 & _).
  assert (Ha3 : keyIn a m3) by (apply Hin3; right; exact Ha2).
  rewrite (bind_ok _ _ _ _ _ E2), (bind_ok _ _ _ _ _ E3).
  rewrite (bind_ok _ _ _ _ _ (mutate_ok _ RangeMutation.clearAll _ Ha3)).
  set (m4 := update a RangeMutation.clearAll m3).
  destruct Hwf3 as (Hs3 & Hb0 & He3).
  assert (Hs4 : sorted m4) by (apply sorted_update, Hs3).
  assert (Hin4 : forall x, keyIn x m4 <-> keyIn x m3) by (intros x; apply keyIn_update).
  unfold next. rewrite bind_gets.
  pose proof (buffer_upper_bound_spec a m4 Hs4) as Hub.
  destruct (upper_bound a m4) as [f|].
  2:{ exfalso. rewrite (Hub b) in Hab by (apply Hin4, Hb3). discriminate. }
  destruct Hub as (Hf4 & Haf & Hfirst).
  assert (Hbf : String.ltb b f = false).
  { destruct (String.ltb b f) eqn:E; [|reflexivity].
    rewrite (Hfirst b) in Hab by (try apply Hin4; assumption). discriminate. }
  unfold erase. rewrite Hbf.
  set (gone := fun x => negb (String.ltb x f) && String.ltb x b).
  exists (without gone m4). split; [reflexivity|].
  assert (Hkept : forall x, gone x = false -> find x (without gone m4) = find x m4).
  { intros x Hx. rewrite find_without, Hx. reflexivity. }
  destruct Ha3 as [ra Hra].
  assert (Hfa : find a (without gone m4) = Some (RangeMutation.clearAll ra)).
  { rewrite Hkept.
    - unfold m4. rewrite find_update, String.eqb_refl, Hra. reflexivity.
    - unfold gone. rewrite Haf. reflexivity. }
  split.
  - split; [apply sorted_without, Hs4|]. split.
    + change (RedwoodRecordRef.key dbBegin) with EmptyString in *.
      assert (keyIn EmptyString m4) as [r Hr] by (apply Hin4, Hb0).
      exists r. rewrite Hkept; [exact Hr|]. unfold gone.
      assert (String.ltb EmptyString f = true) as ->; [|reflexivity].
      apply ltb_empty_l. intros ->. rewrite ltb_empty_r in Haf. discriminate.
    + assert (keyIn (RedwoodRecordRef.key dbEnd) m4) as [r Hr] by (apply Hin4, He3).
      exists r. rewrite Hkept; [exact Hr|]. unfold gone.
      destruct (String.ltb (RedwoodRecordRef.key dbEnd) b) eqn:E; [discriminate|].
      apply andb_false_r.
  - unfold clears.
    rewrite (governing_spec k _ a (RangeMutation.clearAll ra)); try assumption.
    + destruct (String.eqb a k); reflexivity.
    + apply sorted_without, Hs4.
    + intros x [r Hx] Hax. rewrite find_without in Hx.
      destruct (gone x) eqn:Hg; [discriminate|].
      assert (Hx4 : keyIn x m4) by (eexists; exact Hx).
      assert (Hxf : String.ltb x f = false).
      { destruct (String.ltb x f) eqn:E; [|reflexivity].
        rewrite (Hfirst x Hx4 E) in Hax. discriminate. }
      unfold gone in Hg. rewrite Hxf in Hg. cbn in Hg.
      destruct (ltb_ge _ _ Hg) as [->|Hlt]; [exact Hkb|].
      eapply ltb_trans; eassumption.
Qed.

Lemma clear_single_ok a k m :
  wellFormed m ->
  String.ltb (RedwoodRecordRef.key dbEnd) a = false -> k = a ->
  exists m',
    (i <~ insert a;; mutate i RangeMutation.clearBoundary) m = (Ok tt, m') /\
    wellFormed m' /\ clears k m' = true.
Proof.
  intros Hwf Ha ->. destruct (insert_ok a m Hwf Ha) as (m1 & E1 & Hwf1 & Hk1 & _).
  rewrite (bind_ok _ _ _ _ _ E1), (mutate_ok _ _ _ Hk1).
  exists (update a RangeMutation.clearBoundary m1). split; [reflexivity|].
  destruct Hwf1 as (Hs1 & Hb1 & He1).
  split; [split; [apply sorted_update, Hs1|]; split; apply keyIn_update; assumption|].
  destruct Hk1 as [r Hr]. unfold clears.
  rewrite (governing_spec a _ a (RangeMutation.clearBoundary r)).
  - rewrite String.eqb_refl. reflexivity.
  - apply sorted_update, Hs1.
  - rewrite find_update, String.eqb_refl, Hr. reflexivity.
  - apply ltb_irrefl.
  - intros x _ Hx. exact Hx.
Qed.

(** After [set(k, v)] the buffer sets [k] to [v]; a [clear] of a range that
    holds [k] after it leaves a buffer that clears [k] and sets it no more. *)
Theorem set_then_clear_pending (s : VersionedBTree.t) (m : MutationBufferStdMap.t)
    (k : Key) (v : ValueRef) (range : Key * Key) :
  VersionedBTree.m_pBuffer s = Some m ->
  wellFormed m ->
  String.ltb k (fst range) = false -> String.ltb k (snd range) = true ->
  String.ltb (RedwoodRecordRef.key dbEnd) (snd range) = false ->
  exists m1 m2,
    VersionedBTree.set (k, v) s = (Ok tt, VersionedBTree.set_m_pBuffer (Some m1) s) /\
    sets k v m1 = true /\
    VersionedBTree.clear range (VersionedBTree.set_m_pBuffer (Some m1) s)
    = (Ok tt, VersionedBTree.set_m_pBuffer (Some m2) s) /\
    wellFormed m2 /\ clears k m2 = true /\ sets k v m2 = false.
Proof.
  intros Hbuf Hwf Hka Hkb Hb. destruct range as [a b]. cbn [fst snd] in *.
  assert (Hk : String.ltb (RedwoodRecordRef.key dbEnd) k = false).
  { destruct (String.ltb (RedwoodRecordRef.key dbEnd) k) eqn:E; [|reflexivity].
    rewrite (ltb_trans _ _ _ E Hkb) in Hb. discriminate. }
  destruct (set_ok k v m Hwf Hk) as (m1 & E1 & Hwf1 & Hsets).
  exists m1.
  assert (Hclear : exists m2,
    VersionedBTree.clear (a, b) (VersionedBTree.set_m_pBuffer (Some m1) s)
    = (Ok tt, VersionedBTree.set_m_pBuffer (Some m2) s) /\
    wellFormed m2 /\ clears k m2 = true).
  { unfold VersionedBTree.clear.
    destruct ((Z.of_nat (String.length a) =? Z.of_nat (String.length b) - 1)
              && bool_decide (String.get (String.length b - 1) b = Some zero)
              && String.prefix a b) eqn:Hsingle.
    - apply andb_true_iff in Hsingle as [Hsingle Hpre].
      apply andb_true_iff in Hsingle as [Hlen Hget].
      apply Z.eqb_eq in Hlen. apply bool_decide_eq_true in Hget.
      assert (Heq : k = a) by (apply (single_key a b k); try assumption; lia).
      assert (Ha : String.ltb (RedwoodRecordRef.key dbEnd) a = false) by (subst a; exact Hk).
      destruct (clear_single_ok a k m1 Hwf1 Ha Heq) as (m2 & E2 & Hwf2 & Hc).
      exists m2. split; [|split; assumption].
      rewrite (onBuffer_ok _ (VersionedBTree.set_m_pBuffer (Some m1) s) m1 _ _ eq_refl E2).
      destruct s; reflexivity.
    - destruct (clear_ok a b k m1 Hwf1 Hka Hkb Hb) as (m2 & E2 & Hwf2 & Hc).
      exists m2. split; [|split; assumption].
      rewrite (onBuffer_ok _ (VersionedBTree.set_m_pBuffer (Some m1) s) m1 _ _ eq_refl E2).
      destruct s; reflexivity. }
  destruct Hclear as (m2 & E2 & Hwf2 & Hc). exists m2.
  split; [apply (onBuffer_ok _ _ m _ _ Hbuf E1)|].
  split; [exact Hsets|]. split; [exact E2|]. split; [exact Hwf2|]. split; [exact Hc|].
  unfold clears in Hc. unfold sets. destruct (governing k m2) as [[k' r]|]; [|reflexivity].
  destruct (String.eqb k' k); [|reflexivity]. cbn.
  unfold RangeMutation.boundaryCleared in Hc. apply andb_true_iff in Hc as [-> Hc].
  cbn. apply bool_decide_eq_false. intros Hv. rewrite Hv in Hc. discriminate.
Qed.
Lemma set_then_clear_pending_witness :
  exists m1 m2,
    VersionedBTree.set ("k", [118])%string Examples.buffered
    = (Ok tt, VersionedBTree.set_m_pBuffer (Some m1) Examples.buffered) /\
    sets "k" [118] m1 = true /\
    VersionedBTree.clear ("a", "z")%string
      (VersionedBTree.set_m_pBuffer (Some m1) Examples.buffered)
    = (Ok tt, VersionedBTree.set_m_pBuffer (Some m2) Examples.buffered) /\
    wellFormed m2 /\ clears "k" m2 = true /\ sets "k" [118] m2 = false.
Proof.
  apply (set_then_clear_pending Examples.buffered MutationBufferStdMap.create
           "k" [118] ("a", "z")%string).
  - reflexivity.
  - split; [repeat constructor|]. split; eexists; reflexivity.
  - reflexivity.
  - reflexivity.
  - reflexivity.
Defined.
End MutationBufferFacts.

(** ** The key-value store facade: reading a key *)
Module ReadValueFacts.
Import KeyValueStoreRedwoodUnversioned.
Import KeyValueStoreFacts.

(** in records whose keys go up, [equalTo] finds the record with the key *)
Lemma equalTo_spec k items :
  keysAscend items ->
  match equalTo k items with
  | Some i => exists v, items !! i = Some (k, v) /\ forall v', (k, v') ∈ items -> v' = v
  | None => forall v, (k, v) ∉ items
  end.
Proof.
  intros Hs. unfold equalTo, firstEqualOrGreater.
  set (n := countWhile (fun kv => String.ltb (fst kv) k) items).
  destruct (countWhile_spec (fun kv => String.ltb (fst kv) k) items) as (Hle & Hbelow & Hhead).
  fold n in Hle, Hbelow, Hhead.
  assert (Hfound : forall j v, items !! j = Some (k, v) -> j = n).
  { intros j v Hj. destruct (Nat.lt_trichotomy j n) as [Hlt|[->|Hgt]]; [|reflexivity|].
    - exfalso. rewrite Forall_lookup in Hbelow.
      assert (Hjt : take n items !! j = Some (k, v)) by (rewrite lookup_take_lt by lia; exact Hj).
      specialize (Hbelow _ _ Hjt). cbn in Hbelow. rewrite ltb_irrefl in Hbelow. discriminate.
    - exfalso. destruct (items !! n) as [x|] eqn:Hn.
      2:{ apply lookup_ge_None in Hn. apply lookup_lt_Some in Hj. lia. }
      pose proof (Hhead x (drop (Datatypes.S n) items) (drop_S _ _ _ Hn)) as Hx.
      cbn in Hx.
      assert (Hlt : String.ltb (fst x) k = true).
      { pose proof (take_drop_middle _ _ _ Hn) as Esplit.
        rewrite <- Esplit in Hs. apply keysAscend_split in Hs as (_ & Hb & _ & _).
        rewrite Forall_lookup in Hb.
        assert (Hd : drop (Datatypes.S n) items !! (j - Datatypes.S n)%nat = Some (k, v)).
        { rewrite lookup_drop. replace (Datatypes.S n + (j - Datatypes.S n))%nat with j by lia.
          exact Hj. }
        exact (Hb _ _ Hd). }
      rewrite Hlt in Hx. discriminate. }
  destruct (n <? length items)%nat eqn:Hn.
  - destruct (items !! n) as [[k' v]|] eqn:Hi.
    + cbn [fst]. destruct (String.eqb k' k) eqn:Hk.
      * apply String.eqb_eq in Hk. subst k'. exists v. split; [exact Hi|].
        intros v' Hin. apply list_elem_of_lookup in Hin as [j Hj].
        pose proof (Hfound _ _ Hj) as ->. rewrite Hi in Hj. congruence.
      * intros v' Hin. apply list_elem_of_lookup in Hin as [j Hj].
        pose proof (Hfound _ _ Hj) as ->. rewrite Hi in Hj. injection Hj as -> _.
        rewrite String.eqb_refl in Hk. discriminate.
    + intros v' Hin. apply list_elem_of_lookup in Hin as [j Hj].
      pose proof (Hfound _ _ Hj) as ->. rewrite Hi in Hj. discriminate.
  - apply Nat.ltb_ge in Hn. intros v' Hin. apply list_elem_of_lookup in Hin as [j Hj].
    pose proof (Hfound _ _ Hj) as ->. apply lookup_lt_Some in Hj. lia.
Qed.

Section ReadValue.
Context {S : Type} `{IStoreCursor S} `{IVersionedStore S}.
Variable items : S -> list (string * list Z).
Variable position : S -> option nat.
Hypothesis contract : CursorContract items position.
Hypothesis findEqual_contract : FindEqualContract items position.

(** A read of the key [key] that returns gives the value of the record with
    that key among the records that the store has at its last committed
    version, and nothing when there is no such record. *)
Theorem readValue_reads (key : string) (s s0 : S) (r : option (list Z)) (s' : S) :
  readAtVersion (getLastCommittedVersion s) s = (Ok tt, s0) ->
  keysAscend (items s0) ->
  readValue_impl key s = (Ok r, s') ->
  (forall v, r = Some v <-> (key, v) ∈ items s0) /\
  (r = None <-> forall v, (key, v) ∉ items s0).
Proof using contract findEqual_contract.
  intros Hread Hs E. unfold readValue_impl in E.
  rewrite bind_gets, (bind_ok _ _ _ _ _ Hread) in E.
  destruct (findEqual key s0) as [[[]|e] s1] eqn:Hfind.
  2:{ rewrite (bind_err _ _ _ _ _ Hfind) in E. discriminate. }
  rewrite (bind_ok _ _ _ _ _ Hfind), bind_gets in E.
  destruct (findEqual_contract _ _ _ Hfind) as [Hitems Hpos].
  pose proof (equalTo_spec key (items s0) Hs) as Hspec. rewrite <- Hpos in Hspec.
  rewrite (contract_isValid _ _ contract) in E.
  destruct (position s1) as [i|] eqn:Hp.
  - rewrite bool_decide_eq_true_2 in E by eauto.
    injection E as <- <-. destruct Hspec as (v & Hi & Huniq).
    pose proof (contract_get _ _ contract s1 i Hp) as Hget. rewrite Hitems, Hi in Hget.
    injection Hget as _ <-.
    assert (Hin : (key, v) ∈ items s0) by (apply list_elem_of_lookup; eauto).
    split.
    + intros v'. split; [intros [= <-]; exact Hin | intros Hv; f_equal; symmetry; apply Huniq, Hv].
    + split; [discriminate|]. intros Hno. destruct (Hno _ Hin).
  - rewrite bool_decide_eq_false_2 in E by (intros [? ?]; discriminate).
    injection E as <- <-. split.
    + intros v. split; [discriminate | intros Hv; destruct (Hspec _ Hv)].
    + split; [intros _; exact Hspec | reflexivity].
Qed.
End ReadValue.

Lemma ListStore_findEqual : FindEqualContract ListStore.items ListStore.position.
Proof.
  intros k s s' E. injection E as <-. split; [reflexivity|].
  unfold ListStore.position. cbn [ListStore.cursor ListStore.items].
  unfold equalTo, firstEqualOrGreater.
  destruct (_ <? _)%nat eqn:Hn; [|reflexivity].
  destruct (ListStore.items s !! _) as [kv|]; [|reflexivity].
  destruct (String.eqb (fst kv) k); [|reflexivity]. rewrite Hn. reflexivity.
Qed.

Lemma readValue_reads_witness :
  readValue_impl "b"%string Examples.letters
  = (Ok (Some [2]), ListStore.mk (ListStore.items Examples.letters) (Some 1%nat)) /\
  (Some [2] = None <-> forall v, ("b"%string, v) ∉ ListStore.items Examples.letters).
Proof.
  assert (E : readValue_impl "b"%string Examples.letters
              = (Ok (Some [2]), ListStore.mk (ListStore.items Examples.letters) (Some 1%nat)))
    by (vm_compute; reflexivity).
  split; [exact E|].
  assert (Hsorted : keysAscend (ListStore.items Examples.letters)) by (repeat constructor).
  exact (proj2 (readValue_reads ListStore.items ListStore.position ListStore_contract
                  ListStore_findEqual "b"%string Examples.letters Examples.letters _ _
                  eq_refl Hsorted E)).
Defined.
End ReadValueFacts.

(** ** Versioned B-tree: what the mutation buffer has pending for a key *)

Module MutationBufferAlgebra.
Import MutationBufferStdMap.
Import KeyValueStoreFacts.
Import MutationBufferFacts.

Lemma ltb_total a b : String.ltb a b = true \/ a = b \/ String.ltb b a = true.
Proof.
  destruct (String.ltb a b) eqn:E; [left; reflexivity|]. right. apply ltb_ge, E.
Qed.

Lemma governing_None x m :
  sorted m -> governing x m = None -> forall y, keyIn y m -> String.ltb x y = true.
Proof.
  destruct m as [|[k' r'] m]; intros Hs Hg y Hy; [destruct (keyIn_nil _ Hy)|].
  cbn [governing] in Hg. destruct (String.ltb x k') eqn:E.
  - apply sorted_cons_inv in Hs as [_ Hall]. apply keyIn_cons in Hy as [->|Hy]; [exact E|].
    eapply ltb_trans; [exact E | apply Hall, Hy].
  - destruct (governing x m) as [[? ?]|]; discriminate.
Qed.

Lemma governing_inv x m a r :
  sorted m -> governing x m = Some (a, r) ->
  find a m = Some r /\ String.ltb x a = false /\
  forall y, keyIn y m -> String.ltb a y = true -> String.ltb x y = true.
Proof.
  induction m as [|[k' r'] m IH]; intros Hs Hg; [discriminate|].
  pose proof Hs as Hs'. apply sorted_cons_inv in Hs' as [Hs' Hall].
  cbn [governing] in Hg. destruct (String.ltb x k') eqn:Hxk; [discriminate|].
  destruct (governing x m) as [[a' ra']|] eqn:Hgm.
  - injection Hg as -> ->. destruct (IH Hs' eq_refl) as (Hf & Hxa & Hgap).
    assert (Hin : keyIn a m) by (eexists; exact Hf).
    split.
    { cbn [find]. rewrite (ltb_neq' _ _ (Hall _ Hin)). exact Hf. }
    split; [exact Hxa|]. intros y Hy Hay. apply keyIn_cons in Hy as [->|Hy].
    + rewrite (ltb_asym _ _ (Hall _ Hin)) in Hay. discriminate.
    + apply Hgap; assumption.
  - injection Hg as -> ->. split; [cbn [find]; rewrite String.eqb_refl; reflexivity|].
    split; [exact Hxk|]. intros y Hy Hay. apply keyIn_cons in Hy as [->|Hy].
    + rewrite ltb_irrefl in Hay. discriminate.
    + exact (governing_None x m Hs' Hgm y Hy).
Qed.

Lemma governing_is_Some x m :
  sorted m -> keyIn EmptyString m -> exists a r, governing x m = Some (a, r).
Proof.
  intros Hs H0. destruct (governing x m) as [[a r]|] eqn:Hg; [eauto|].
  pose proof (governing_None x m Hs Hg _ H0) as H. rewrite ltb_empty_r in H. discriminate.
Qed.

(** the effect read off an entry *)
Lemma effect_spec x m a r :
  sorted m -> find a m = Some r -> String.ltb x a = false ->
  (forall y, keyIn y m -> String.ltb a y = true -> String.ltb x y = true) ->
  effect x m =
  if String.eqb a x
  then if RangeMutation.boundaryChanged r
       then match RangeMutation.boundaryValue r with
            | Some v => SetTo v
            | None => Cleared
            end
       else Untouched
  else if RangeMutation.clearAfterBoundary r then Cleared else Untouched.
Proof.
  intros Hs Hf Hxa Hgap. unfold effect.
  rewrite (governing_spec x m a r Hs Hf Hxa Hgap). reflexivity.
Qed.

(** an entry of the buffer with the key [x], or the last one before [x] *)
Lemma governed x m :
  wellFormed m ->
  exists a r,
    find a m = Some r /\ String.ltb x a = false /\
    (forall y, keyIn y m -> String.ltb a y = true -> String.ltb x y = true).
Proof.
  intros (Hs & H0 & _). destruct (governing_is_Some x m Hs H0) as (a & r & Hg).
  exists a, r. apply governing_inv; assumption.
Qed.

Lemma insert_keeps_effect k m :
  wellFormed m -> String.ltb (RedwoodRecordRef.key dbEnd) k = false ->
  exists m',
    insert k m = (Ok (Some k), m') /\ wellFormed m' /\ keyIn k m' /\
    (forall y, keyIn y m' <-> y = k \/ keyIn y m) /\
    forall x, effect x m' = effect x m.
Proof.
  intros Hwf Hk. pose proof Hwf as (Hs & Hb & He). unfold insert. rewrite bind_gets.
  pose proof (buffer_lower_bound_spec k m Hs) as Hlb.
  destruct (lower_bound k m) as [ib|].
  2:{ exfalso. rewrite (Hlb _ He) in Hk. discriminate. }
  destruct Hlb as (Hin & Hge & Hbelow).
  destruct (String.eqb ib k) eqn:Heq.
  - apply String.eqb_eq in Heq. subst ib. exists m.
    split; [reflexivity|]. split; [exact Hwf|]. split; [exact Hin|].
    split; [intros y; split; [right; assumption | intros [->|H]; assumption]|].
    reflexivity.
  - assert (Hnew : ~ keyIn k m).
    { intros Hkin. destruct (ltb_ge _ _ Hge) as [->|Hlt].
      - rewrite String.eqb_refl in Heq. discriminate.
      - pose proof (Hbelow _ Hkin Hlt) as H. rewrite ltb_irrefl in H. discriminate. }
    assert (Hne : k <> EmptyString) by (intros ->; apply Hnew; exact Hb).
    set (m1 := insert_entry k RangeMutation.create m).
    assert (Hs1 : sorted m1) by (apply sorted_insert_entry, Hs).
    assert (Hin1 : forall x, keyIn x m1 <-> x = k \/ keyIn x m)
      by (intros x; apply keyIn_insert_entry, Hs).
    assert (Hfind1 : forall x, x <> k -> find x m1 = find x m).
    { intros x Hx. unfold m1. rewrite find_insert_entry by exact Hs.
      destruct (String.eqb x k) eqn:E; [|reflexivity].
      apply String.eqb_eq in E. contradiction. }
    assert (Hfk1 : find k m1 = Some RangeMutation.create).
    { unfold m1. rewrite find_insert_entry, String.eqb_refl by exact Hs.
      destruct (find k m) eqn:E; [|reflexivity]. exfalso. apply Hnew. eexists; exact E. }
    rewrite (bind_modify _ _ m). fold m1. rewrite bind_gets.
    pose proof (previous_spec k m1 Hs1) as Hp.
    destruct (previous k m1) as [p|].
    2:{ exfalso. specialize (Hp EmptyString). rewrite ltb_empty_l in Hp by exact Hne.
        assert (keyIn EmptyString m1) as H0 by (apply Hin1; right; exact Hb).
        specialize (Hp H0). discriminate. }
    destruct Hp as ((rp & Hrp) & Hpk & Hmax).
    rewrite (bind_ok _ _ _ _ _ (mutation_ok _ _ _ Hrp)).
    assert (Hk1 : keyIn k m1) by (apply Hin1; left; reflexivity).
    assert (Hpne : p <> k) by (intros ->; rewrite ltb_irrefl in Hpk; discriminate).
    assert (Hrp0 : find p m = Some rp) by (rewrite <- Hfind1 by exact Hpne; exact Hrp).
    (* the entry for [k], whichever way the flag goes *)
    set (rk := if RangeMutation.clearAfterBoundary rp
               then RangeMutation.clearAll RangeMutation.create else RangeMutation.create).
    set (m' := if RangeMutation.clearAfterBoundary rp
               then update k RangeMutation.clearAll m1 else m1).
    assert (Hrun : ((if RangeMutation.clearAfterBoundary rp
                     then mutate (Some k) RangeMutation.clearAll else ret tt);;;
                    ret (Some k)) m1 = (Ok (Some k), m')).
    { unfold m'. destruct (RangeMutation.clearAfterBoundary rp).
      - rewrite (bind_ok _ _ _ _ _ (mutate_ok _ RangeMutation.clearAll _ Hk1)). reflexivity.
      - rewrite bind_ret. reflexivity. }
    assert (Hs' : sorted m').
    { unfold m'. destruct (RangeMutation.clearAfterBoundary rp); [apply sorted_update|]; exact Hs1. }
    assert (Hin' : forall y, keyIn y m' <-> y = k \/ keyIn y m).
    { intros y. unfold m'. destruct (RangeMutation.clearAfterBoundary rp).
      - rewrite keyIn_update. apply Hin1.
      - apply Hin1. }
    assert (Hfind' : forall y, y <> k -> find y m' = find y m).
    { intros y Hy. unfold m'. destruct (RangeMutation.clearAfterBoundary rp).
      - rewrite find_update. destruct (String.eqb y k) eqn:E; [apply String.eqb_eq in E; contradiction|].
        apply Hfind1, Hy.
      - apply Hfind1, Hy. }
    assert (Hfk' : find k m' = Some rk).
    { unfold m', rk. destruct (RangeMutation.clearAfterBoundary rp).
      - rewrite find_update, String.eqb_refl, Hfk1. reflexivity.
      - exact Hfk1. }
    exists m'. split; [exact Hrun|].
    split; [split; [exact Hs'|]; split; apply Hin'; right; assumption|].
    split; [apply Hin'; left; reflexivity|]. split; [exact Hin'|].
    (* the effect on every key *)
    assert (Hrk : RangeMutation.boundaryChanged rk = RangeMutation.clearAfterBoundary rp /\
                  RangeMutation.boundaryValue rk = None /\
                  RangeMutation.clearAfterBoundary rk = RangeMutation.clearAfterBoundary rp).
    { unfold rk. destruct (RangeMutation.clearAfterBoundary rp); repeat split. }
    destruct Hrk as (Hrk1 & Hrk2 & Hrk3).
    (* [p] is the last key of [m] before [k] *)
    assert (Hpmax : forall y, keyIn y m -> String.ltb p y = true -> String.ltb k y = true).
    { intros y Hy Hpy. destruct (ltb_total k y) as [H|[->|H]]; [exact H|contradiction|].
      rewrite (Hmax y) in Hpy by (try apply Hin1; auto). discriminate. }
    intros x. destruct (governed x m Hwf) as (a & r & Hfa & Hxa & Hgap).
    rewrite (effect_spec x m a r Hs Hfa Hxa Hgap).
    assert (Hain : keyIn a m) by (eexists; exact Hfa).
    assert (Hak : a <> k) by (intros ->; contradiction).
    destruct (String.ltb x k) eqn:Hxk.
    + (* [k] comes after [x]: the same entry governs *)
      apply (effect_spec x m' a r Hs'); [rewrite Hfind' by exact Hak; exact Hfa | exact Hxa |].
      intros y Hy Hay. apply Hin' in Hy as [->|Hy]; [exact Hxk | apply Hgap; assumption].
    + destruct (String.ltb a k) eqn:Hakk.
      * (* [a] is before [k] and [k] is not after [x]: [a] is [p], and [k] governs now *)
        assert (Hap : a = p).
        { destruct (ltb_total a p) as [H|[H|H]]; [|exact H|].
          - assert (Hpin : keyIn p m) by (eexists; exact Hrp0).
            pose proof (Hgap p Hpin H) as Hxp.
            rewrite (ltb_trans _ _ _ Hxp Hpk) in Hxk. discriminate.
          - rewrite (Hmax a) in H by (try apply Hin1; auto). discriminate. }
        subst a. rewrite Hfa in Hrp0. injection Hrp0 as ->.
        rewrite (effect_spec x m' k rk Hs' Hfk' Hxk).
        2:{ intros y Hy Hky. apply Hin' in Hy as [->|Hy]; [rewrite ltb_irrefl in Hky; discriminate|].
            apply Hgap; [exact Hy|]. eapply ltb_trans; eassumption. }
        rewrite Hrk1, Hrk2, Hrk3.
        assert (Hpx : String.eqb p x = false).
        { destruct (String.eqb p x) eqn:E; [|reflexivity]. apply String.eqb_eq in E. subst x.
          rewrite Hpk in Hxk. discriminate. }
        rewrite Hpx. destruct (String.eqb k x); reflexivity.
      * (* [a] is after [k] *)
        apply (effect_spec x m' a r Hs'); [rewrite Hfind' by exact Hak; exact Hfa | exact Hxa |].
        intros y Hy Hay. apply Hin' in Hy as [->|Hy]; [|apply Hgap; assumption].
        destruct (ltb_ge _ _ Hakk) as [?|H]; [contradiction|].
        rewrite (ltb_asym _ _ H) in Hay. discriminate.
Qed.

(** [insert(boundary)], for a boundary not after the end of the key space,
    returns the boundary, which the buffer has from then on, and changes
    nothing of what the buffer has pending for any key: a boundary made
    inside a cleared range is cleared with the range after it, one made
    elsewhere changes nothing after it. A boundary the buffer had leaves
    the buffer as it was. *)
Theorem insert_effect k m :
  wellFormed m -> String.ltb (RedwoodRecordRef.key dbEnd) k = false ->
  exists m',
    insert k m = (Ok (Some k), m') /\ wellFormed m' /\
    (forall y, keyIn y m' <-> y = k \/ keyIn y m) /\
    (keyIn k m -> m' = m) /\
    forall x, effect x m' = effect x m.
Proof.
  intros Hwf Hk.
  destruct (insert_keeps_effect k m Hwf Hk) as (m1 & E1 & Hwf1 & _ & Hin1 & Heff1).
  destruct (insert_ok k m Hwf Hk) as (m2 & E2 & _ & _ & _ & _ & Hsame).
  assert (m2 = m1) as -> by congruence.
  exists m1. split; [exact E1|]. split; [exact Hwf1|]. split; [exact Hin1|].
  split; [exact Hsame | exact Heff1].
Qed.
(** a change of the entry [k] that keeps its flag for the range after it
    shows at the key [k] only *)
Lemma update_effect k f m rk x :
  sorted m -> keyIn EmptyString m -> find k m = Some rk ->
  RangeMutation.clearAfterBoundary (f rk) = RangeMutation.clearAfterBoundary rk ->
  x <> k -> effect x (update k f m) = effect x m.
Proof.
  intros Hs H0 Hfk Hflag Hx.
  destruct (governing_is_Some x m Hs H0) as (a & r & Hg).
  destruct (governing_inv x m a r Hs Hg) as (Hfa & Hxa & Hgap).
  rewrite (effect_spec x m a r Hs Hfa Hxa Hgap).
  assert (Hgap' : forall y, keyIn y (update k f m) -> String.ltb a y = true -> String.ltb x y = true).
  { intros y Hy. apply Hgap. apply keyIn_update in Hy. exact Hy. }
  destruct (String.eqb a k) eqn:Hak.
  - apply String.eqb_eq in Hak. subst a. rewrite Hfk in Hfa. injection Hfa as <-.
    rewrite (effect_spec x (update k f m) k (f rk) (sorted_update _ _ _ Hs)); [| |exact Hxa|exact Hgap'].
    + assert (String.eqb k x = false) as ->.
      { destruct (String.eqb k x) eqn:E; [|reflexivity]. apply String.eqb_eq in E. congruence. }
      rewrite Hflag. reflexivity.
    + rewrite find_update, String.eqb_refl, Hfk. reflexivity.
  - apply (effect_spec x (update k f m) a r (sorted_update _ _ _ Hs)); [|exact Hxa|exact Hgap'].
    rewrite find_update, Hak. exact Hfa.
Qed.

Lemma update_effect_at k f m rk :
  sorted m -> find k m = Some rk ->
  effect k (update k f m) =
  if RangeMutation.boundaryChanged (f rk)
  then match RangeMutation.boundaryValue (f rk) with
       | Some v => SetTo v
       | None => Cleared
       end
  else Untouched.
Proof.
  intros Hs Hfk.
  rewrite (effect_spec k (update k f m) k (f rk) (sorted_update _ _ _ Hs)).
  - rewrite String.eqb_refl. reflexivity.
  - rewrite find_update, String.eqb_refl, Hfk. reflexivity.
  - apply ltb_irrefl.
  - intros y _ Hy. exact Hy.
Qed.

Lemma wellFormed_update k f m : wellFormed m -> wellFormed (update k f m).
Proof.
  intros (Hs & Hb & He). split; [apply sorted_update, Hs|]. split; apply keyIn_update; assumption.
Qed.

(** [set(k, v)] sets the key [k] to [v] and leaves what the buffer has
    pending for every other key. *)
Theorem set_effect (s : VersionedBTree.t) (m : MutationBufferStdMap.t) (k : Key) (v : ValueRef) :
  VersionedBTree.m_pBuffer s = Some m ->
  wellFormed m ->
  String.ltb (RedwoodRecordRef.key dbEnd) k = false ->
  exists m',
    VersionedBTree.set (k, v) s = (Ok tt, VersionedBTree.set_m_pBuffer (Some m') s) /\
    wellFormed m' /\
    forall x, effect x m' = if String.eqb x k then SetTo v else effect x m.
Proof.
  intros Hbuf Hwf Hk.
  destruct (insert_keeps_effect k m Hwf Hk) as (m1 & E1 & Hwf1 & Hk1 & _ & Heff1).
  pose proof Hwf1 as (Hs1 & Hb1 & _). pose proof Hk1 as [rk Hrk].
  exists (update k (RangeMutation.setBoundaryValue v) m1). split.
  - apply (onBuffer_ok _ _ m _ _ Hbuf). cbn [fst snd].
    rewrite (bind_ok _ _ _ _ _ E1). apply mutate_ok, Hk1.
  - split; [apply wellFormed_update, Hwf1|]. intros x.
    destruct (String.eqb x k) eqn:Hx.
    + apply String.eqb_eq in Hx. subst x.
      rewrite (update_effect_at k _ m1 rk Hs1 Hrk). reflexivity.
    + rewrite (update_effect k (RangeMutation.setBoundaryValue v) m1 rk x Hs1 Hb1 Hrk eq_refl);
        [apply Heff1|].
      intros ->. rewrite String.eqb_refl in Hx. discriminate.
Qed.

Lemma prefix_ltb a b :
  String.prefix a b = true -> (String.length a < String.length b)%nat -> String.ltb a b = true.
Proof.
  unfold String.ltb. revert b. induction a as [|x a IH]; intros b Hpre Hlen.
  - destruct b; [cbn in Hlen; lia | reflexivity].
  - destruct b as [|y b]; [discriminate|]. cbn in Hpre.
    destruct (ascii_dec x y) as [<-|]; [|discriminate].
    rewrite compare_cons.
    assert (Ascii.compare x x = Eq) as -> by (unfold Ascii.compare; apply N.compare_refl).
    apply IH; [exact Hpre | cbn in Hlen; lia].
Qed.

(** what [clear] does to a buffer that holds the two ends of the range *)
Lemma clear_range_effect a b m :
  wellFormed m -> keyIn a m -> keyIn b m -> String.ltb a b = true ->
  String.ltb (RedwoodRecordRef.key dbEnd) b = false ->
  exists m',
    (mutate (Some a) RangeMutation.clearAll;;;
     iBegin <~ next (Some a);;
     erase iBegin (Some b)) m = (Ok tt, m') /\
    wellFormed m' /\
    forall x, effect x m' =
              if negb (String.ltb x a) && String.ltb x b then Cleared else effect x m.
Proof.
  intros Hwf Ha Hb Hab Hbe. pose proof Hwf as (Hs & Hb0 & He).
  rewrite (bind_ok _ _ _ _ _ (mutate_ok _ RangeMutation.clearAll _ Ha)).
  set (m4 := update a RangeMutation.clearAll m).
  assert (Hs4 : sorted m4) by (apply sorted_update, Hs).
  assert (Hin4 : forall x, keyIn x m4 <-> keyIn x m) by (intros x; apply keyIn_update).
  unfold next. rewrite bind_gets.
  pose proof (buffer_upper_bound_spec a m4 Hs4) as Hub.
  destruct (upper_bound a m4) as [f|].
  2:{ exfalso. rewrite (Hub b) in Hab by (apply Hin4, Hb). discriminate. }
  destruct Hub as (Hf4 & Haf & Hfirst).
  assert (Hbf : String.ltb b f = false).
  { destruct (String.ltb b f) eqn:E; [|reflexivity].
    rewrite (Hfirst b) in Hab by (try apply Hin4; assumption). discriminate. }
  unfold erase. rewrite Hbf.
  set (gone := fun x => negb (String.ltb x f) && String.ltb x b).
  exists (without gone m4). split; [reflexivity|].
  assert (Hs5 : sorted (without gone m4)) by (apply sorted_without, Hs4).
  assert (Hkept : forall x, gone x = false -> find x (without gone m4) = find x m4).
  { intros x Hx. rewrite find_without, Hx. reflexivity. }
  assert (Hsub : forall y, keyIn y (without gone m4) -> keyIn y m /\ gone y = false).
  { intros y [r Hy]. rewrite find_without in Hy. destruct (gone y); [discriminate|].
    split; [apply Hin4; eexists; exact Hy | reflexivity]. }
  (* between [a] and [b] no key is left *)
  assert (Hbetween : forall y, keyIn y (without gone m4) -> String.ltb a y = true ->
                               String.ltb y b = false).
  { intros y Hy Hay. destruct (Hsub y Hy) as [Hym Hg]. unfold gone in Hg.
    destruct (String.ltb y f) eqn:Hyf.
    - rewrite (Hfirst y) in Hay by (try apply Hin4; assumption). discriminate.
    - cbn in Hg. exact Hg. }
  destruct Ha as [ra Hra].
  assert (Hga : gone a = false) by (unfold gone; rewrite Haf; reflexivity).
  assert (Hfa : find a (without gone m4) = Some (RangeMutation.clearAll ra)).
  { rewrite Hkept by exact Hga. unfold m4. rewrite find_update, String.eqb_refl, Hra. reflexivity. }
  assert (Hother : forall y, y <> a -> gone y = false -> find y (without gone m4) = find y m).
  { intros y Hy Hg. rewrite Hkept by exact Hg. unfold m4. rewrite find_update.
    destruct (String.eqb y a) eqn:E; [apply String.eqb_eq in E; contradiction | reflexivity]. }
  split.
  - split; [exact Hs5|]. change (RedwoodRecordRef.key dbBegin) with EmptyString in *. split.
    + destruct (String.eqb EmptyString a) eqn:E.
      * apply String.eqb_eq in E. subst a. eexists; exact Hfa.
      * destruct Hb0 as [r0 Hr0]. exists r0. rewrite Hother; [exact Hr0| |].
        -- intros <-. rewrite String.eqb_refl in E. discriminate.
        -- unfold gone. assert (String.ltb EmptyString f = true) as ->; [|reflexivity].
           apply ltb_empty_l. intros ->. rewrite ltb_empty_r in Haf. discriminate.
    + destruct He as [re Hre].
      assert (Hge : gone (RedwoodRecordRef.key dbEnd) = false)
        by (unfold gone; rewrite Hbe; apply andb_false_r).
      destruct (String.eqb (RedwoodRecordRef.key dbEnd) a) eqn:E.
      * apply String.eqb_eq in E. rewrite E. eexists; exact Hfa.
      * exists re. rewrite Hother; [exact Hre| |exact Hge].
        intros H. rewrite H, String.eqb_refl in E. discriminate.
  - intros x. destruct (governed x m Hwf) as (g & r & Hfg & Hxg & Hgap).
    rewrite (effect_spec x m g r Hs Hfg Hxg Hgap).
    assert (Hgin : keyIn g m) by (eexists; exact Hfg).
    destruct (String.ltb x a) eqn:Hxa; cbn [negb andb].
    + (* before the range *)
      assert (Hgane : g <> a) by (intros ->; rewrite Hxa in Hxg; discriminate).
      assert (Hgf : String.ltb g f = true).
      { destruct (ltb_ge _ _ Hxg) as [->|H].
        - eapply ltb_trans; eassumption.
        - eapply ltb_trans; [exact H|]. eapply ltb_trans; eassumption. }
      apply (effect_spec x _ g r Hs5); [|exact Hxg|].
      * rewrite Hother; [exact Hfg|exact Hgane|]. unfold gone. rewrite Hgf. reflexivity.
      * intros y Hy. apply Hgap. apply (Hsub y Hy).
    + destruct (String.ltb x b) eqn:Hxb.
      * (* in the range: the entry [a] governs, and it clears *)
        rewrite (effect_spec x _ a (RangeMutation.clearAll ra) Hs5 Hfa Hxa).
        -- destruct (String.eqb a x); reflexivity.
        -- intros y Hy Hay. pose proof (Hbetween y Hy Hay) as Hyb.
           destruct (ltb_ge _ _ Hyb) as [->|H]; [exact Hxb | eapply ltb_trans; eassumption].
      * (* after the range: [g] is [b] or comes after it *)
        assert (Hgb : String.ltb g b = false).
        { destruct (String.ltb g b) eqn:E; [|reflexivity].
          rewrite (Hgap b Hb E) in Hxb. discriminate. }
        assert (Hgane : g <> a) by (intros ->; rewrite Hab in Hgb; discriminate).
        apply (effect_spec x _ g r Hs5); [|exact Hxg|].
        -- rewrite Hother; [exact Hfg|exact Hgane|]. unfold gone. rewrite Hgb. apply andb_false_r.
        -- intros y Hy. apply Hgap. apply (Hsub y Hy).
Qed.

(** [clear] of the range from [begin] to [end], [begin] below [end] and
    [end] not above the end of the key space, clears every key of the range
    and leaves what the buffer has pending for every other key. *)
Theorem clear_effect (s : VersionedBTree.t) (m : MutationBufferStdMap.t) (range : Key * Key) :
  VersionedBTree.m_pBuffer s = Some m ->
  wellFormed m ->
  String.ltb (fst range) (snd range) = true ->
  String.ltb (RedwoodRecordRef.key dbEnd) (snd range) = false ->
  exists m',
    VersionedBTree.clear range s = (Ok tt, VersionedBTree.set_m_pBuffer (Some m') s) /\
    wellFormed m' /\
    forall x, effect x m' =
              if negb (String.ltb x (fst range)) && String.ltb x (snd range)
              then Cleared else effect x m.
Proof.
  intros Hbuf Hwf Hab Hbe. destruct range as [a b]. cbn [fst snd] in *.
  assert (Ha : String.ltb (RedwoodRecordRef.key dbEnd) a = false).
  { destruct (String.ltb (RedwoodRecordRef.key dbEnd) a) eqn:E; [|reflexivity].
    rewrite (ltb_trans _ _ _ E Hab) in Hbe. discriminate. }
  destruct (insert_keeps_effect a m Hwf Ha) as (m1 & E1 & Hwf1 & Ha1 & Hin1 & Heff1).
  unfold VersionedBTree.clear.
  destruct ((Z.of_nat (String.length a) =? Z.of_nat (String.length b) - 1)
            && bool_decide (String.get (String.length b - 1) b = Some zero)
            && String.prefix a b) eqn:Hsingle.
  - apply andb_true_iff in Hsingle as [Hsingle Hpre].
    apply andb_true_iff in Hsingle as [Hlen Hget].
    apply Z.eqb_eq in Hlen. apply bool_decide_eq_true in Hget.
    pose proof Hwf1 as (Hs1 & Hb1 & _). pose proof Ha1 as [ra Hra].
    exists (update a RangeMutation.clearBoundary m1). split.
    + apply (onBuffer_ok _ _ m _ _ Hbuf).
      rewrite (bind_ok _ _ _ _ _ E1). apply mutate_ok, Ha1.
    + split; [apply wellFormed_update, Hwf1|]. intros x.
      destruct (String.eqb x a) eqn:Hx.
      * apply String.eqb_eq in Hx. subst x. rewrite ltb_irrefl, Hab. cbn.
        rewrite (update_effect_at a _ m1 ra Hs1 Hra). reflexivity.
      * assert (Hxa : x <> a) by (intros ->; rewrite String.eqb_refl in Hx; discriminate).
        rewrite (update_effect a RangeMutation.clearBoundary m1 ra x Hs1 Hb1 Hra eq_refl Hxa).
        rewrite Heff1.
        destruct (negb (String.ltb x a) && String.ltb x b) eqn:Hin; [|reflexivity].
        apply andb_true_iff in Hin as [H1 H2]. apply negb_true_iff in H1.
        exfalso. apply Hxa. apply (single_key a b x); try assumption. lia.
  - assert (Hwfb : wellFormed m1) by exact Hwf1.
    destruct (insert_keeps_effect b m1 Hwf1 Hbe) as (m2 & E2 & Hwf2 & Hb2 & Hin2 & Heff2).
    assert (Ha2 : keyIn a m2) by (apply Hin2; right; exact Ha1).
    destruct (clear_range_effect a b m2 Hwf2 Ha2 Hb2 Hab Hbe) as (m' & E3 & Hwf' & Heff').
    exists m'. split.
    + apply (onBuffer_ok _ _ m _ _ Hbuf).
      rewrite (bind_ok _ _ _ _ _ E1), (bind_ok _ _ _ _ _ E2). exact E3.
    + split; [exact Hwf'|]. intros x. rewrite Heff', Heff2, Heff1. reflexivity.
Qed.

Lemma wellFormed_create : wellFormed MutationBufferStdMap.create.
Proof. split; [repeat constructor|]. split; eexists; reflexivity. Qed.

Lemma insert_effect_witness :
  exists m',
    insert "k" MutationBufferStdMap.create = (Ok (Some "k"%string), m') /\
    wellFormed m' /\
    (forall y, keyIn y m' <-> y = "k"%string \/ keyIn y MutationBufferStdMap.create) /\
    (keyIn "k" MutationBufferStdMap.create -> m' = MutationBufferStdMap.create) /\
    forall x, effect x m' = effect x MutationBufferStdMap.create.
Proof.
  apply (insert_effect "k" MutationBufferStdMap.create wellFormed_create). reflexivity.
Defined.

Lemma set_effect_witness :
  exists m',
    VersionedBTree.set ("k", [118])%string Examples.buffered
    = (Ok tt, VersionedBTree.set_m_pBuffer (Some m') Examples.buffered) /\
    wellFormed m' /\
    forall x, effect x m' =
              if String.eqb x "k" then SetTo [118] else effect x MutationBufferStdMap.create.
Proof.
  apply (set_effect Examples.buffered MutationBufferStdMap.create "k" [118]).
  - reflexivity.
  - exact wellFormed_create.
  - reflexivity.
Defined.

Lemma clear_effect_witness :
  exists m',
    VersionedBTree.clear ("a", "z")%string Examples.buffered
    = (Ok tt, VersionedBTree.set_m_pBuffer (Some m') Examples.buffered) /\
    wellFormed m' /\
    forall x, effect x m' =
              if negb (String.ltb x "a") && String.ltb x "z"
              then Cleared else effect x MutationBufferStdMap.create.
Proof.
  apply (clear_effect Examples.buffered MutationBufferStdMap.create ("a", "z")%string).
  - reflexivity.
  - exact wellFormed_create.
  - reflexivity.
  - reflexivity.
Defined.
End MutationBufferAlgebra.

(** ** The key-value store facade: reading the prefix of a value *)

Module ReadValuePrefixFacts.
Import KeyValueStoreRedwoodUnversioned.
Import KeyValueStoreFacts.
Import ReadValueFacts.

Section ReadValuePrefix.
Context {S : Type} `{IStoreCursor S} `{IVersionedStore S}.
Variable items : S -> list (string * list Z).
Variable position : S -> option nat.
Hypothesis contract : CursorContract items position.
Hypothesis findEqual_contract : FindEqualContract items position.

(** A read of at most [maxLength] bytes of the value of [key], with
    [maxLength] not negative, gives the first [maxLength] bytes of the value
    the store has for the key at its last committed version, the whole value
    when it is shorter, and nothing when the store has no record with the
    key; it fails only where the store or its cursor does. *)
Theorem readValuePrefix_reads (key : string) (maxLength : Z) (s s0 s1 : S) :
  0 <= maxLength ->
  readAtVersion (getLastCommittedVersion s) s = (Ok tt, s0) ->
  findEqual key s0 = (Ok tt, s1) ->
  keysAscend (items s0) ->
  exists r,
    readValuePrefix_impl key maxLength s = (Ok r, s1) /\
    (forall v, (key, v) ∈ items s0 -> r = Some (take (Z.to_nat maxLength) v)) /\
    ((forall v, (key, v) ∉ items s0) -> r = None) /\
    (forall p, r = Some p -> Z.of_nat (length p) <= maxLength /\
                             exists v, (key, v) ∈ items s0 /\ p `prefix_of` v).
Proof using contract findEqual_contract.
  intros Hmax Hread Hfind Hs. unfold readValuePrefix_impl.
  rewrite bind_gets, (bind_ok _ _ _ _ _ Hread), (bind_ok _ _ _ _ _ Hfind), bind_gets.
  destruct (findEqual_contract _ _ _ Hfind) as [Hitems Hpos].
  pose proof (equalTo_spec key (items s0) Hs) as Hspec. rewrite <- Hpos in Hspec.
  rewrite (contract_isValid _ _ contract).
  destruct (position s1) as [i|] eqn:Hp.
  - rewrite bool_decide_eq_true_2 by eauto.
    destruct Hspec as (v & Hi & Huniq).
    pose proof (contract_get _ _ contract s1 i Hp) as Hget. rewrite Hitems, Hi in Hget.
    injection Hget as _ Hv. rewrite <- Hv. cbv zeta.
    assert (Hlen : (0 <=? Z.min (Z.of_nat (length v)) maxLength) = true) by (apply Z.leb_le; lia).
    rewrite Hlen, bind_ASSERT by reflexivity.
    assert (Hin : (key, v) ∈ items s0) by (apply list_elem_of_lookup; eauto).
    assert (Htake : take (Z.to_nat (Z.min (Z.of_nat (length v)) maxLength)) v
                    = take (Z.to_nat maxLength) v).
    { destruct (Z.le_ge_cases (Z.of_nat (length v)) maxLength) as [Hle|Hge].
      - rewrite Z.min_l by exact Hle. rewrite Nat2Z.id.
        rewrite firstn_all. symmetry. apply take_ge. lia.
      - rewrite Z.min_r by lia. reflexivity. }
    eexists. split; [reflexivity|]. rewrite Htake. split.
    + intros v' Hv'. rewrite (Huniq _ Hv'). reflexivity.
    + split; [intros Hno; destruct (Hno _ Hin)|].
      intros p [= <-]. split.
      * rewrite length_take. lia.
      * exists v. split; [exact Hin|]. exists (drop (Z.to_nat maxLength) v).
        symmetry. apply take_drop.
  - rewrite bool_decide_eq_false_2 by (intros [? ?]; discriminate).
    eexists. split; [reflexivity|]. split; [intros v Hv; destruct (Hspec _ Hv)|].
    split; [reflexivity | discriminate].
Qed.
End ReadValuePrefix.

Lemma readValuePrefix_reads_witness :
  exists r,
    readValuePrefix_impl "c"%string 1 Examples.longValues
    = (Ok r, ListStore.mk (ListStore.items Examples.longValues) (Some 1%nat)) /\
    (forall v, ("c"%string, v) ∈ ListStore.items Examples.longValues ->
               r = Some (take (Z.to_nat 1) v)) /\
    ((forall v, ("c"%string, v) ∉ ListStore.items Examples.longValues) -> r = None) /\
    (forall p, r = Some p ->
               Z.of_nat (length p) <= 1 /\
               exists v, ("c"%string, v) ∈ ListStore.items Examples.longValues /\ p `prefix_of` v).
Proof.
  apply (readValuePrefix_reads ListStore.items ListStore.position ListStore_contract
           ListStore_findEqual "c"%string 1 Examples.longValues
           (ListStore.mk (ListStore.items Examples.longValues) None)).
  - lia.
  - reflexivity.
  - reflexivity.
  - repeat constructor.
Defined.
End ReadValuePrefixFacts.

(** ** Delta encoding of records *)

Module DeltaFacts.
Import RedwoodRecordRefDelta.

Lemma length_toBytes n z : length (toBytes n z) = n.
Proof. revert z. induction n as [|n IH]; intros z; simpl; [reflexivity | rewrite IH; reflexivity]. Qed.

Lemma fromBytes_toBytes n z : fromBytes (toBytes n z) = z mod 256 ^ Z.of_nat n.
Proof.
  revert z. induction n as [|n IH]; intros z.
  - simpl. rewrite Z.mod_1_r. reflexivity.
  - cbn [toBytes fromBytes]. rewrite IH, Nat2Z.inj_succ, Z.pow_succ_r by lia.
    rewrite Z.rem_mul_r by lia. reflexivity.
Qed.

Lemma bytesKey_keyBytes k : bytesKey (keyBytes k) = k.
Proof.
  unfold bytesKey, keyBytes. rewrite <- list_fmap_compose.
  rewrite <- (string_of_list_ascii_of_string k) at 2. f_equal.
  induction (list_ascii_of_string k) as [|c l IH]; [reflexivity|].
  cbn [fmap list_fmap compose]. rewrite N2Z.id, ascii_N_embedding. f_equal. exact IH.
Qed.

Lemma length_keyBytes k : length (keyBytes k) = String.length k.
Proof.
  unfold keyBytes. rewrite length_fmap. induction k as [|c k IH]; simpl; congruence.
Qed.

Lemma commonPrefixLength_spec a b cl :
  (commonPrefixLength a b cl <= cl)%nat /\
  (commonPrefixLength a b cl <= length a)%nat /\
  take (commonPrefixLength a b cl) a = take (commonPrefixLength a b cl) b.
Proof.
  revert a b. induction cl as [|cl IH]; intros a b.
  - destruct a, b; simpl; repeat split; lia.
  - destruct a as [|x a], b as [|y b]; simpl; try (repeat split; lia).
    destruct (Z.eqb_spec x y) as [->|Hne]; simpl.
    + destruct (IH a b) as (H1 & H2 & H3). repeat split; try lia. rewrite H3. reflexivity.
    + repeat split; lia.
Qed.

Lemma store_head b f l : Delta.store 0 [b] (f :: l) = Some (b :: l).
Proof.
  unfold Delta.store. destruct (decide _) as [_|Hn]; [reflexivity | simpl in Hn; lia].
Qed.

Lemma flags_head f l : Delta.flags (f :: l) = f.
Proof. unfold Delta.flags, Delta.read. simpl. lia. Qed.

Lemma store_end pre bs k d :
  length pre = k -> (k + length bs <= length d)%nat ->
  Delta.store k bs (pre ++ drop k d) = Some ((pre ++ bs) ++ drop (k + length bs) d).
Proof.
  intros <- Hle. unfold Delta.store.
  rewrite decide_True by (rewrite length_app, length_drop; lia).
  rewrite take_app_length, drop_app_add, drop_drop, <- app_assoc. reflexivity.
Qed.

Lemma read_app pre bs rest off n :
  length pre = off -> length bs = n -> Delta.read off n (pre ++ bs ++ rest) = bs.
Proof. intros <- <-. unfold Delta.read. rewrite drop_app_length, take_app_length. reflexivity. Qed.

Lemma read_1 f A r n : length A = n -> Delta.read 1 n (f :: A ++ r) = A.
Proof. intros H. exact (read_app [f] A r 1 n eq_refl H). Qed.

Lemma read_2 f A B r o n :
  S (length A) = o -> length B = n -> Delta.read o n (f :: A ++ B ++ r) = B.
Proof.
  intros Ho H. rewrite (app_assoc A B r : A ++ B ++ r = (A ++ B) ++ r).
  change (f :: (A ++ B) ++ r) with ((f :: A) ++ B ++ r) || rewrite <- app_assoc.
  exact (read_app (f :: A) B r o n Ho H).
Qed.

Lemma read_3 f A B C r o n :
  S (length A + length B) = o -> length C = n ->
  Delta.read o n (f :: A ++ B ++ C ++ r) = C.
Proof.
  intros Ho H. rewrite (app_assoc A B (C ++ r)).
  apply (read_2 f (A ++ B) C r o n); [rewrite length_app; exact Ho | exact H].
Qed.

Lemma read_4 f A B C D r o n :
  S (length A + length B + length C) = o -> length D = n ->
  Delta.read o n (f :: A ++ B ++ C ++ D ++ r) = D.
Proof.
  intros Ho H. rewrite (app_assoc A B (C ++ D ++ r)).
  apply (read_3 f (A ++ B) C D r o n); [rewrite length_app; exact Ho | exact H].
Qed.

Lemma int32_fits z : - 2 ^ 31 <= z < 2 ^ 31 -> int32 z = z.
Proof. intros H. unfold int32. rewrite Z.mod_small by lia. lia. Qed.

Lemma int32_congr a b q : a = b + 2 ^ 32 * q -> int32 a = int32 b.
Proof.
  intros ->. unfold int32.
  replace (b + 2 ^ 32 * q + 2 ^ 31) with (b + 2 ^ 31 + q * 2 ^ 32) by lia.
  rewrite Z.mod_add by lia. reflexivity.
Qed.

Lemma int32_mod z n : (32 <= n) -> int32 (z mod 2 ^ n) = int32 z.
Proof.
  intros Hn. apply (int32_congr _ _ (- (2 ^ (n - 32) * (z / 2 ^ n)))).
  pose proof (Z.div_mod z (2 ^ n) ltac:(lia)) as H.
  replace (2 ^ n) with (2 ^ 32 * 2 ^ (n - 32)) in H at 1
    by (rewrite <- Z.pow_add_r by lia; f_equal; lia).
  lia.
Qed.

Lemma int64_fits z : - 2 ^ 63 <= z < 2 ^ 63 -> int64 z = z.
Proof. intros H. unfold int64. rewrite Z.mod_small by lia. lia. Qed.

Ltac read_fields :=
  repeat match goal with
  | |- context [Delta.read ?o ?n (?f :: ?A ++ ?B ++ ?C ++ ?r)] =>
      rewrite (read_3 f A B C r o n eq_refl eq_refl)
  | |- context [Delta.read ?o ?n (?f :: ?A ++ ?B ++ ?r)] =>
      rewrite (read_2 f A B r o n eq_refl eq_refl)
  | |- context [Delta.read 1 ?n (?f :: ?A ++ ?r)] =>
      rewrite (read_1 f A r n eq_refl)
  end.

Lemma lengths_decode f p s v rest :
  Z.land f Delta.LENGTHS_FORMAT = Delta.determineLengthFormat p s v ->
  0 <= p <= 0xFFFF -> 0 <= s <= 0xFFFF -> 0 <= v < 2 ^ 31 ->
  let fmt := Delta.determineLengthFormat p s v in
  let L := Delta.lengthFields fmt p s v in
  let d := f :: L ++ rest in
  Z.of_nat (length L) = Delta.LengthFormatSizes fmt /\
  Delta.data d = S (length L) /\
  Delta.getKeyPrefixLength d = p /\
  Delta.getKeySuffixLength d = s /\
  Delta.getValueLength d = v /\
  Delta.size d = int32 (1 + Delta.getVersionDeltaSizeBytes d + Delta.LengthFormatSizes fmt + s + v).
Proof.
  intros Hf Hp Hs Hv fmt L d.
  unfold Delta.data, Delta.getKeyPrefixLength, Delta.getKeySuffixLength,
    Delta.getValueLength, Delta.size.
  fold d. generalize (Delta.getVersionDeltaSizeBytes d). intros vb.
  subst d. rewrite !flags_head, Hf. fold fmt.
  assert (H1 : forall z, 0 <= z < 256 -> fromBytes (toBytes 1 z) = z).
  { intros z Hz. rewrite fromBytes_toBytes. apply Z.mod_small. simpl. lia. }
  assert (H2 : forall z, 0 <= z < 65536 -> fromBytes (toBytes 2 z) = z).
  { intros z Hz. rewrite fromBytes_toBytes. apply Z.mod_small. simpl. lia. }
  assert (H4 : forall z, 0 <= z < 2 ^ 31 -> fromBytes (toBytes 4 z) = z).
  { intros z Hz. rewrite fromBytes_toBytes. apply Z.mod_small. simpl. lia. }
  subst L. unfold Delta.determineLengthFormat in *.
  destruct (0xFF <? p) eqn:Ep; [|destruct (0xFF <? s) eqn:Es]; cbn [orb] in *.
  1,2: subst fmt; cbn [Delta.lengthFields Delta.LengthFormatSizes]; rewrite <- ?app_assoc;
    read_fields; rewrite !H2, H4, int32_fits by lia; repeat split; reflexivity.
  apply Z.ltb_ge in Ep, Es.
  destruct (v <? 0x100) eqn:E0; [|destruct (v <? 0x10000) eqn:E1].
  - apply Z.ltb_lt in E0. subst fmt; cbn [Delta.lengthFields Delta.LengthFormatSizes].
    rewrite <- ?app_assoc. read_fields. rewrite !H1 by lia. repeat split; reflexivity.
  - apply Z.ltb_lt in E1. subst fmt; cbn [Delta.lengthFields Delta.LengthFormatSizes].
    rewrite <- ?app_assoc. read_fields. rewrite !H1, H2 by lia. repeat split; reflexivity.
  - subst fmt; cbn [Delta.lengthFields Delta.LengthFormatSizes].
    rewrite <- ?app_assoc. read_fields. rewrite !H1, H4, int32_fits by lia.
    repeat split; reflexivity.
Qed.

Lemma store_first b d : (1 <= length d)%nat -> Delta.store 0 [b] d = Some (b :: [] ++ drop 1 d).
Proof. destruct d as [|x d]; simpl; [lia|]. intros _. apply store_head. Qed.

Lemma store_at f body bs k k' d :
  S (length body) = k -> k' = k -> (k + length bs <= length d)%nat ->
  Delta.store k bs (f :: body ++ drop k' d)
  = Some (f :: (body ++ bs) ++ drop (k + length bs) d).
Proof.
  intros Hk -> Hle.
  exact (store_end (f :: body) bs k d Hk Hle).
Qed.

Lemma orFlags_head bits f l : Delta.orFlags bits (f :: l) = Some (Z.lor f bits mod 256 :: l).
Proof. unfold Delta.orFlags. rewrite flags_head. apply store_head. Qed.

Lemma land_ones_16 z : Z.land z 0xFFFF = z mod 2 ^ 16.
Proof. exact (Z.land_ones z 16 ltac:(lia)). Qed.

Lemma lor_shifted hi lo : 0 <= lo < 2 ^ 16 -> Z.lor (Z.shiftl hi 16) lo = hi * 2 ^ 16 + lo.
Proof.
  intros Hlo. rewrite Z.shiftl_mul_pow2 by lia.
  assert (Hdisj : Z.land (hi * 2 ^ 16) lo = 0).
  { apply Z.bits_inj'. intros n Hn. rewrite Z.land_spec, Z.bits_0.
    destruct (Z.lt_ge_cases n 16).
    - rewrite Z.mul_pow2_bits_low by lia. reflexivity.
    - rewrite (Z.bits_above_log2 lo n); [apply andb_false_r | lia |].
      destruct (Z.eq_dec lo 0) as [->|]; [simpl; lia|].
      apply Z.log2_lt_pow2; [lia|].
      apply Z.lt_le_trans with (2 ^ 16); [lia|]. apply Z.pow_le_mono_r; lia. }
  rewrite <- (Z.lxor_lor _ _ Hdisj), <- (Z.add_nocarry_lxor _ _ Hdisj). reflexivity.
Qed.

Lemma int48_decode delta :
  0 <= delta < 2 ^ 48 ->
  int32 (Z.lor (int64 (Z.shiftl (int32 (fromBytes (toBytes 4 (Z.shiftr delta 16)))) 16))
               (Z.land (int16 (fromBytes (toBytes 2 delta))) 0xFFFF))
  = int32 delta.
Proof.
  intros Hd. rewrite !fromBytes_toBytes, land_ones_16.
  change (256 ^ Z.of_nat 4) with (2 ^ 32). change (256 ^ Z.of_nat 2) with (2 ^ 16).
  rewrite Z.shiftr_div_pow2 by lia.
  assert (Hhi : 0 <= delta / 2 ^ 16 < 2 ^ 32).
  { split; [apply Z.div_pos; lia|]. apply Z.div_lt_upper_bound; [lia|].
    change (2 ^ 16 * 2 ^ 32) with (2 ^ 48). lia. }
  rewrite (Z.mod_small (delta / 2 ^ 16)) by lia.
  set (hi := int32 (delta / 2 ^ 16)).
  assert (Hhi' : exists q, hi = delta / 2 ^ 16 + 2 ^ 32 * q /\ - 2 ^ 31 <= hi < 2 ^ 31).
  { unfold hi, int32.
    exists (- ((delta / 2 ^ 16 + 2 ^ 31) / 2 ^ 32)).
    pose proof (Z.div_mod (delta / 2 ^ 16 + 2 ^ 31) (2 ^ 32) ltac:(lia)).
    pose proof (Z.mod_pos_bound (delta / 2 ^ 16 + 2 ^ 31) (2 ^ 32) ltac:(lia)). lia. }
  destruct Hhi' as (q & Hq & Hrange).
  assert (Hlo : (int16 (delta mod 2 ^ 16)) mod 2 ^ 16 = delta mod 2 ^ 16).
  { unfold int16.
    replace ((delta mod 2 ^ 16 + 2 ^ 15) mod 2 ^ 16 - 2 ^ 15)
      with (delta mod 2 ^ 16 + (- ((delta mod 2 ^ 16 + 2 ^ 15) / 2 ^ 16)) * 2 ^ 16).
    - rewrite Z.mod_add by lia. apply Z.mod_mod. lia.
    - pose proof (Z.div_mod (delta mod 2 ^ 16 + 2 ^ 15) (2 ^ 16) ltac:(lia)). lia. }
  rewrite Hlo.
  pose proof (Z.mod_pos_bound delta (2 ^ 16) ltac:(lia)) as Hlb.
  rewrite (int64_fits (Z.shiftl hi 16)).
  2:{ rewrite Z.shiftl_mul_pow2 by lia. lia. }
  rewrite lor_shifted by lia.
  apply (int32_congr _ _ (2 ^ 16 * q)).
  pose proof (Z.div_mod delta (2 ^ 16) ltac:(lia)). lia.
Qed.

Lemma versionDelta_cases delta :
  - 2 ^ 63 <= delta < 2 ^ 63 ->
  (delta =? 0) = true /\ delta = 0 \/
  (delta =? 0) = false /\ (delta =? int32 delta) = true /\ - 2 ^ 31 <= delta < 2 ^ 31 \/
  (delta =? 0) = false /\ (delta =? int32 delta) = false /\
    (delta =? Z.land delta Delta.MASK) = true /\ 2 ^ 31 <= delta < 2 ^ 48 \/
  (delta =? 0) = false /\ (delta =? int32 delta) = false /\
    (delta =? Z.land delta Delta.MASK) = false /\ (delta < - 2 ^ 31 \/ 2 ^ 48 <= delta).
Proof.
  intros Hd.
  assert (Hint : - 2 ^ 31 <= int32 delta < 2 ^ 31).
  { unfold int32. pose proof (Z.mod_pos_bound (delta + 2 ^ 31) (2 ^ 32) ltac:(lia)). lia. }
  assert (Hmask : Z.land delta Delta.MASK = delta mod 2 ^ 48).
  { exact (Z.land_ones delta 48 ltac:(lia)). }
  pose proof (Z.mod_pos_bound delta (2 ^ 48) ltac:(lia)) as Hm.
  destruct (Z.eqb_spec delta 0) as [->|H0]; [left; split; reflexivity|].
  right. destruct (Z.eqb_spec delta (int32 delta)) as [E1|E1].
  { left. repeat split; lia. }
  right. assert (Hout : delta < - 2 ^ 31 \/ 2 ^ 31 <= delta).
  { destruct (Z.lt_ge_cases delta (- 2 ^ 31)); [lia|].
    destruct (Z.lt_ge_cases delta (2 ^ 31)); [|lia].
    exfalso. apply E1. symmetry. apply int32_fits. lia. }
  rewrite Hmask. destruct (Z.eqb_spec delta (delta mod 2 ^ 48)) as [E2|E2].
  - left. repeat split; lia.
  - right. repeat split; try reflexivity.
    destruct (Z.lt_ge_cases delta (2 ^ 48)); [|lia].
    destruct (Z.lt_ge_cases delta 0); [lia|].
    exfalso. apply E2. symmetry. apply Z.mod_small. lia.
Qed.

Lemma setVersionDelta_run delta f body k d :
  f ∈ [0; 1; 2; 3; 32; 33; 34; 35] ->
  - 2 ^ 63 <= delta < 2 ^ 63 ->
  S (length body) = k -> (k + 8 <= length d)%nat ->
  exists f' W,
    Delta.setVersionDelta delta k (f :: body ++ drop k d)
    = Some (f' :: (body ++ W) ++ drop (k + length W) d, Z.of_nat (length W)) /\
    Z.land f' Delta.LENGTHS_FORMAT = Z.land f Delta.LENGTHS_FORMAT /\
    Z.land f' Delta.HAS_VALUE = Z.land f Delta.HAS_VALUE /\
    Z.land f' Delta.HAS_VERSION = Delta.HAS_VERSION /\
    Z.of_nat (length W) = Delta.getVersionDeltaSizeBytesOf delta /\
    Delta.VersionDeltaSizes (Z.shiftr (Z.land f' Delta.VERSION_DELTA_SIZE) 2)
    = Z.of_nat (length W) /\
    forall body' rest,
      Delta.getVersionDelta (S (length body')) (f' :: body' ++ W ++ rest) = int32 delta.
Proof.
  intros Hf Hd Hk Hroom. unfold Delta.setVersionDelta, Delta.getVersionDeltaSizeBytesOf.
  rewrite orFlags_head. cbn [mbind option_bind].
  destruct (versionDelta_cases delta Hd)
    as [(E0 & ->)|[(E0 & E1 & Hr)|[(E0 & E1 & E2 & Hr)|(E0 & E1 & E2 & Hr)]]].
  - exists (Z.lor f Delta.HAS_VERSION mod 256), [].
    cbn [Z.eqb]. rewrite app_nil_r, Nat.add_0_r.
    split; [reflexivity|].
    repeat (apply elem_of_cons in Hf as [->|Hf]; [repeat split; reflexivity|]).
    apply elem_of_nil in Hf. destruct Hf.
  - rewrite E0, E1, orFlags_head. cbn [mbind option_bind].
    rewrite (store_at _ body (toBytes 4 delta) k k d Hk eq_refl)
      by (rewrite length_toBytes; lia).
    cbn [mbind option_bind]. eexists _, (toBytes 4 delta). split; [reflexivity|].
    assert (Hdec : forall body' rest,
               int32 (fromBytes (Delta.read (S (length body')) 4
                                   (f :: body' ++ toBytes 4 delta ++ rest))) = int32 delta).
    { intros body' rest. rewrite (read_2 f body' (toBytes 4 delta) rest _ 4 eq_refl eq_refl).
      rewrite fromBytes_toBytes. exact (int32_mod delta 32 ltac:(lia)). }
    repeat (apply elem_of_cons in Hf as [->|Hf];
            [repeat split; try reflexivity; intros body' rest;
             unfold Delta.getVersionDelta; rewrite flags_head;
             exact (Hdec body' rest)|]).
    apply elem_of_nil in Hf. destruct Hf.
  - rewrite E0, E1, E2, orFlags_head. cbn [mbind option_bind].
    rewrite (store_at _ body (toBytes 4 (Z.shiftr delta 16)) k k d Hk eq_refl)
      by (rewrite length_toBytes; lia).
    cbn [mbind option_bind].
    rewrite (store_at _ (body ++ toBytes 4 (Z.shiftr delta 16)) (toBytes 2 delta) (k + 4) _ d)
      by (rewrite ?length_app, ?length_toBytes; lia).
    cbn [mbind option_bind].
    eexists _, (toBytes 4 (Z.shiftr delta 16) ++ toBytes 2 delta). split.
    { rewrite <- (app_assoc body), length_app, !length_toBytes, <- Nat.add_assoc.
      reflexivity. }
    assert (Hdec : forall body' rest,
               let d' := f :: body' ++ (toBytes 4 (Z.shiftr delta 16) ++ toBytes 2 delta) ++ rest in
               int32 (Z.lor (int64 (Z.shiftl (int32 (fromBytes (Delta.read (S (length body')) 4 d'))) 16))
                            (Z.land (int16 (fromBytes (Delta.read (S (length body') + 4) 2 d')))
                                    0xFFFF)) = int32 delta).
    { intros body' rest d'. subst d'. rewrite <- app_assoc.
      rewrite (read_2 f body' (toBytes 4 (Z.shiftr delta 16)) _ _ 4 eq_refl eq_refl).
      rewrite (read_3 f body' (toBytes 4 (Z.shiftr delta 16)) (toBytes 2 delta) rest
                 (S (length body') + 4) 2)
        by (rewrite ?length_toBytes; lia || reflexivity).
      apply int48_decode. lia. }
    repeat (apply elem_of_cons in Hf as [->|Hf];
            [repeat split; try reflexivity; intros body' rest;
             unfold Delta.getVersionDelta; rewrite flags_head;
             exact (Hdec body' rest)|]).
    apply elem_of_nil in Hf. destruct Hf.
  - rewrite E0, E1, E2, orFlags_head. cbn [mbind option_bind].
    rewrite (store_at _ body (toBytes 8 delta) k k d Hk eq_refl)
      by (rewrite length_toBytes; lia).
    cbn [mbind option_bind]. eexists _, (toBytes 8 delta). split; [reflexivity|].
    assert (Hdec : forall body' rest,
               int32 (int64 (fromBytes (Delta.read (S (length body')) 8
                                          (f :: body' ++ toBytes 8 delta ++ rest))))
               = int32 delta).
    { intros body' rest. rewrite (read_2 f body' (toBytes 8 delta) rest _ 8 eq_refl eq_refl).
      rewrite fromBytes_toBytes. change (256 ^ Z.of_nat 8) with (2 ^ 64). f_equal.
      unfold int64. rewrite Zplus_mod_idemp_l. rewrite Z.mod_small by lia. lia. }
    repeat (apply elem_of_cons in Hf as [->|Hf];
            [repeat split; try reflexivity; intros body' rest;
             unfold Delta.getVersionDelta; rewrite flags_head;
             exact (Hdec body' rest)|]).
    apply elem_of_nil in Hf. destruct Hf.
Qed.

Lemma determineLengthFormat_range p s v :
  Delta.determineLengthFormat p s v ∈ [0; 1; 2; 3].
Proof.
  unfold Delta.determineLengthFormat.
  destruct (_ || _); [|destruct (v <? 0x100); [|destruct (v <? 0x10000)]];
    repeat constructor.
Qed.

Lemma LengthFormatSizes_bound fmt : 3 <= Delta.LengthFormatSizes fmt <= 8.
Proof.
  unfold Delta.LengthFormatSizes.
  destruct fmt as [|[[]|[]|]|]; lia.
Qed.

Lemma firstFlags hv fmt :
  hv ∈ [0; Delta.HAS_VALUE] -> fmt ∈ [0; 1; 2; 3] ->
  let f := Z.lor (hv mod 256) fmt mod 256 in
  f ∈ [0; 1; 2; 3; 32; 33; 34; 35] /\
  Z.land f Delta.LENGTHS_FORMAT = fmt /\
  Z.land f Delta.HAS_VALUE = hv /\
  Z.land f Delta.HAS_VERSION = 0 /\
  Delta.VersionDeltaSizes (Z.shiftr (Z.land f Delta.VERSION_DELTA_SIZE) 2) = 0.
Proof.
  intros Hhv Hfmt.
  repeat (apply elem_of_cons in Hhv as [->|Hhv];
          [repeat (apply elem_of_cons in Hfmt as [->|Hfmt];
                   [vm_compute; repeat split; repeat constructor|]);
           apply elem_of_nil in Hfmt; destruct Hfmt|]).
  apply elem_of_nil in Hhv. destruct Hhv.
Qed.

Lemma version_part (v delta : Z) f0 body k d :
  f0 ∈ [0; 1; 2; 3; 32; 33; 34; 35] ->
  Z.land f0 Delta.HAS_VERSION = 0 ->
  Delta.VersionDeltaSizes (Z.shiftr (Z.land f0 Delta.VERSION_DELTA_SIZE) 2) = 0 ->
  - 2 ^ 63 <= delta < 2 ^ 63 ->
  S (length body) = k -> (k + 8 <= length d)%nat ->
  exists f W,
    ((if v =? 0 then Some (f0 :: body ++ drop k d, k)
      else Delta.setVersionDelta (int64 delta) k (f0 :: body ++ drop k d)
           ≫= λ '(d1, n0), Some (d1, (k + Z.to_nat n0)%nat))
     ≫= λ '(d1, wptr0), Some (d1, int32 (Z.of_nat wptr0)))
    = Some (f :: (body ++ W) ++ drop (k + length W) d, int32 (Z.of_nat (k + length W))) /\
    Z.land f Delta.LENGTHS_FORMAT = Z.land f0 Delta.LENGTHS_FORMAT /\
    Z.land f Delta.HAS_VALUE = Z.land f0 Delta.HAS_VALUE /\
    Delta.VersionDeltaSizes (Z.shiftr (Z.land f Delta.VERSION_DELTA_SIZE) 2)
    = Z.of_nat (length W) /\
    (v = 0 -> W = [] /\ Z.land f Delta.HAS_VERSION = 0) /\
    (v <> 0 ->
     Z.land f Delta.HAS_VERSION = Delta.HAS_VERSION /\
     Z.of_nat (length W) = Delta.getVersionDeltaSizeBytesOf delta /\
     forall body' rest,
       Delta.getVersionDelta (S (length body')) (f :: body' ++ W ++ rest) = int32 delta).
Proof.
  intros Hf0 Hver0 Hsz0 Hd Hk Hroom.
  destruct (Z.eqb_spec v 0) as [Hz|Hnz].
  - cbn [mbind option_bind]. exists f0, [].
    rewrite app_nil_r. cbn [length]. rewrite Nat.add_0_r.
    split; [reflexivity|]. split; [reflexivity|]. split; [reflexivity|].
    split; [exact Hsz0|].
    split; [intros _; split; [reflexivity | exact Hver0] | intros Hne; destruct (Hne Hz)].
  - rewrite (int64_fits _ Hd).
    destruct (setVersionDelta_run delta f0 body k d Hf0 Hd Hk Hroom)
      as (f' & W & Hrun & Hfmt' & Hval' & Hver' & Hsize & Hcode & Hdec).
    rewrite Hrun. cbn [mbind option_bind]. rewrite Nat2Z.id.
    exists f', W. split; [reflexivity|].
    split; [exact Hfmt'|]. split; [exact Hval'|]. split; [exact Hcode|].
    split; [intros Hz; destruct (Hnz Hz)|].
    intros _. repeat split; assumption.
Qed.

Lemma writeDelta_run r d base p0 :
  let p := if p0 <? 0 then getCommonPrefixLen r base 0 else p0 in
  0 <= p <= keySize r ->
  keySize r <= 0xFFFF ->
  keySize r + valueSize r + 17 <= INT_MAX ->
  keySize r + valueSize r + 17 <= Z.of_nat (length d) ->
  - 2 ^ 63 <= RedwoodRecordRef.version r - RedwoodRecordRef.version base < 2 ^ 63 ->
  let delta := RedwoodRecordRef.version r - RedwoodRecordRef.version base in
  let S := drop (Z.to_nat p) (keyBytes (RedwoodRecordRef.key r)) in
  let V := default [] (RedwoodRecordRef.value r) in
  let fmt := Delta.determineLengthFormat p (Z.of_nat (length S)) (valueSize r) in
  let L := Delta.lengthFields fmt p (Z.of_nat (length S)) (valueSize r) in
  exists f W n,
    writeDelta r d base p0 = Some (f :: L ++ S ++ V ++ W ++ drop n d, int32 (Z.of_nat n)) /\
    n = (1 + length L + length S + length V + length W)%nat /\
    Z.land f Delta.LENGTHS_FORMAT = fmt /\
    Z.land f Delta.HAS_VALUE
    = match RedwoodRecordRef.value r with Some _ => Delta.HAS_VALUE | None => 0 end /\
    Delta.VersionDeltaSizes (Z.shiftr (Z.land f Delta.VERSION_DELTA_SIZE) 2)
    = Z.of_nat (length W) /\
    (RedwoodRecordRef.version r = 0 -> W = [] /\ Z.land f Delta.HAS_VERSION = 0) /\
    (RedwoodRecordRef.version r <> 0 ->
     Z.land f Delta.HAS_VERSION = Delta.HAS_VERSION /\
     Z.of_nat (length W) = Delta.getVersionDeltaSizeBytesOf delta /\
     forall body' rest,
       Delta.getVersionDelta (Datatypes.S (length body')) (f :: body' ++ W ++ rest)
       = int32 delta).
Proof.
  intros p Hp Hkey Hint Hroom Hver delta S V fmt L.
  assert (HlenS : Z.of_nat (length S) = keySize r - p).
  { unfold S. rewrite length_drop, length_keyBytes. unfold keySize in *. lia. }
  assert (HlenV : Z.of_nat (length V) = valueSize r).
  { unfold V, valueSize. destruct (RedwoodRecordRef.value r); reflexivity. }
  assert (Hv0 : 0 <= valueSize r) by lia.
  set (hv := match RedwoodRecordRef.value r with Some _ => Delta.HAS_VALUE | None => 0 end).
  assert (Hhv : hv ∈ [0; Delta.HAS_VALUE]).
  { unfold hv. destruct (RedwoodRecordRef.value r); repeat constructor. }
  destruct (firstFlags hv fmt Hhv (determineLengthFormat_range _ _ _))
    as (Hf0 & Hfmt0 & Hval0 & Hver0 & Hsz0).
  set (f0 := Z.lor (hv mod 256) fmt mod 256) in *.
  assert (HL : forall rest,
             Z.of_nat (length L) = Delta.LengthFormatSizes fmt /\
             Delta.data (f0 :: L ++ rest) = Datatypes.S (length L)).
  { intros rest.
    destruct (lengths_decode f0 p (Z.of_nat (length S)) (valueSize r) rest Hfmt0)
      as (H1 & H2 & _); [lia | lia | unfold INT_MAX in Hint; lia |].
    split; assumption. }
  pose proof (LengthFormatSizes_bound fmt) as HLb.
  destruct (HL []) as (HlenL & _).
  unfold writeDelta. fold hv.
  change (toBytes 1 hv) with [hv mod 256].
  rewrite store_first by lia. cbn [mbind option_bind]. fold p.
  replace (keySize r <? p) with false by (symmetry; apply Z.ltb_ge; lia).
  fold S. fold fmt. rewrite orFlags_head. cbn [mbind option_bind]. fold f0. fold L.
  rewrite (store_at f0 [] L 1 1 d eq_refl eq_refl) by lia.
  cbn [mbind option_bind app].
  destruct (HL (drop (1 + length L) d)) as (_ & ->).
  rewrite (store_at f0 L S _ _ d eq_refl) by lia.
  cbn [mbind option_bind].
  assert (HV : RedwoodRecordRef.value r = Some V \/ RedwoodRecordRef.value r = None /\ V = []).
  { unfold V. destruct (RedwoodRecordRef.value r); [left | right]; split; reflexivity. }
  clearbody hv V L S. destruct HV as [->|[-> ->]].
  - rewrite (store_at f0 (L ++ S) V (Datatypes.S (length L) + length S)
               (Datatypes.S (length L) + length S) d)
      by (rewrite ?length_app; lia).
    cbn [mbind option_bind].
    destruct (version_part (RedwoodRecordRef.version r) delta f0 ((L ++ S) ++ V)
                (Datatypes.S (length L) + length S + length V) d Hf0 Hver0 Hsz0 Hver)
      as (f & W & Hrun & Hfmt' & Hval' & Hcode & Hzero & Hnonzero);
      [rewrite !length_app; lia | lia |].
    exists f, W, (Datatypes.S (length L) + length S + length V + length W)%nat.
    split; [rewrite !app_assoc; exact Hrun|].
    split; [lia|]. split; [congruence|]. split; [congruence|].
    split; [exact Hcode|]. split; assumption.
  - cbn [length] in HlenV.
    destruct (version_part (RedwoodRecordRef.version r) delta f0 (L ++ S)
                (Datatypes.S (length L) + length S) d Hf0 Hver0 Hsz0 Hver)
      as (f & W & Hrun & Hfmt' & Hval' & Hcode & Hzero & Hnonzero);
      [rewrite !length_app; lia | lia |].
    exists f, W, (Datatypes.S (length L) + length S + length W)%nat.
    split; [cbn [app]; rewrite !app_assoc; exact Hrun|].
    split; [cbn [length]; lia|]. split; [congruence|]. split; [congruence|].
    split; [exact Hcode|]. split; assumption.
Qed.




Lemma keyBytes_substring n k :
  keyBytes (String.substring 0 n k) = take n (keyBytes k).
Proof.
  revert n. induction k as [|c k IH]; intros [|n]; try reflexivity.
  cbn [String.substring]. unfold keyBytes in *. cbn [list_ascii_of_string fmap list_fmap take].
  f_equal. apply IH.
Qed.

Lemma getCommonPrefixLen_valid r base :
  let p := getCommonPrefixLen r base 0 in
  0 <= p <= keySize r /\
  take (Z.to_nat p) (keyBytes (RedwoodRecordRef.key base))
  = take (Z.to_nat p) (keyBytes (RedwoodRecordRef.key r)).
Proof.
  unfold getCommonPrefixLen.
  assert (H0 : Z.min 0 (keySize r) = 0) by (unfold keySize; lia).
  rewrite H0. change (Z.to_nat 0) with 0%nat. rewrite !drop_0.
  set (a := keyBytes (RedwoodRecordRef.key r)).
  set (b := keyBytes (RedwoodRecordRef.key base)).
  destruct (commonPrefixLength_spec a b (Z.to_nat (Z.min (keySize base) (keySize r) - 0)))
    as (H1 & H2 & H3).
  cbv zeta.
  rewrite !Z.add_0_l, Nat2Z.id. split; [|symmetry; exact H3].
  unfold a in H1, H2 |- *. rewrite length_keyBytes in H2. unfold keySize in *. lia.
Qed.

Lemma writeDelta_observed r d base p0 :
  let p := if p0 <? 0 then getCommonPrefixLen r base 0 else p0 in
  0 <= p <= keySize r ->
  keySize r <= 0xFFFF ->
  keySize r + valueSize r + 17 <= INT_MAX ->
  keySize r + valueSize r + 17 <= Z.of_nat (length d) ->
  - 2 ^ 63 <= RedwoodRecordRef.version r - RedwoodRecordRef.version base < 2 ^ 63 ->
  let delta := RedwoodRecordRef.version r - RedwoodRecordRef.version base in
  let n := 1 + Delta.LengthFormatSizes
                 (Delta.determineLengthFormat p (keySize r - p) (valueSize r))
           + (keySize r - p) + valueSize r
           + (if RedwoodRecordRef.version r =? 0 then 0
              else Delta.getVersionDeltaSizeBytesOf delta) in
  exists d',
    writeDelta r d base p0 = Some (d', n) /\
    n <= keySize r + valueSize r + 17 /\
    Delta.apply d' base
    = RedwoodRecordRef.mk
        (bytesKey (take (Z.to_nat p) (keyBytes (RedwoodRecordRef.key base))
                   ++ drop (Z.to_nat p) (keyBytes (RedwoodRecordRef.key r))))
        (if RedwoodRecordRef.version r =? 0 then 0
         else int64 (RedwoodRecordRef.version base + int32 delta))
        (RedwoodRecordRef.value r) /\
    (forall base', DeltaValueOnly.apply d' base'
                   = RedwoodRecordRef.mk EmptyString 0 (RedwoodRecordRef.value r)) /\
    Delta.size d' = n /\
    length d' = length d /\
    drop (Z.to_nat n) d' = drop (Z.to_nat n) d.
Proof.
  intros p Hp Hkey Hint Hroom Hver delta n.
  destruct (writeDelta_run r d base p0 Hp Hkey Hint Hroom Hver)
    as (f & W & n' & Hrun & Hn' & Hfmt & Hval & Hcode & Hzero & Hnonzero).
  fold p delta in Hrun, Hn', Hfmt, Hnonzero.
  set (S := drop (Z.to_nat p) (keyBytes (RedwoodRecordRef.key r))) in *.
  set (V := default [] (RedwoodRecordRef.value r)) in *.
  assert (HlenS : Z.of_nat (length S) = keySize r - p).
  { unfold S. rewrite length_drop, length_keyBytes. unfold keySize in *. lia. }
  assert (HlenV : Z.of_nat (length V) = valueSize r).
  { unfold V, valueSize. destruct (RedwoodRecordRef.value r); reflexivity. }
  rewrite HlenS in *.
  set (fmt := Delta.determineLengthFormat p (keySize r - p) (valueSize r)) in *.
  set (L := Delta.lengthFields fmt p (keySize r - p) (valueSize r)) in *.
  assert (Hv0 : 0 <= valueSize r) by lia.
  assert (HW : Z.of_nat (length W)
               = if RedwoodRecordRef.version r =? 0 then 0
                 else Delta.getVersionDeltaSizeBytesOf delta).
  { destruct (Z.eqb_spec (RedwoodRecordRef.version r) 0) as [Hz|Hnz].
    - destruct (Hzero Hz) as [-> _]. reflexivity.
    - apply (Hnonzero Hnz). }
  assert (HWb : 0 <= Z.of_nat (length W) <= 8).
  { rewrite HW. unfold Delta.getVersionDeltaSizeBytesOf.
    repeat destruct (_ =? _); lia. }
  assert (Hdec : forall rest,
             Z.of_nat (length L) = Delta.LengthFormatSizes fmt /\
             Delta.data (f :: L ++ rest) = Datatypes.S (length L) /\
             Delta.getKeyPrefixLength (f :: L ++ rest) = p /\
             Delta.getKeySuffixLength (f :: L ++ rest) = keySize r - p /\
             Delta.getValueLength (f :: L ++ rest) = valueSize r /\
             Delta.size (f :: L ++ rest)
             = int32 (1 + Delta.getVersionDeltaSizeBytes (f :: L ++ rest)
                      + Delta.LengthFormatSizes fmt + (keySize r - p) + valueSize r)).
  { intros rest.
    apply (lengths_decode f p (keySize r - p) (valueSize r) rest Hfmt);
      unfold INT_MAX in Hint; lia. }
  pose proof (LengthFormatSizes_bound fmt) as HLb.
  destruct (Hdec []) as (HlenL & _).
  assert (Hn : Z.of_nat n' = n).
  { unfold n. fold fmt. rewrite <- HW. lia. }
  assert (Hnb : n <= keySize r + valueSize r + 17) by (unfold n; fold fmt; lia).
  set (d' := f :: L ++ S ++ V ++ W ++ drop n' d) in *.
  exists d'. rewrite Hn in Hrun.
  split; [rewrite Hrun; f_equal; f_equal; apply int32_fits; unfold INT_MAX in *; lia|].
  split; [exact Hnb|].
  destruct (Hdec (S ++ V ++ W ++ drop n' d)) as (_ & Hdata & Hpre & Hsuf & Hvl & Hsize).
  fold d' in Hdata, Hpre, Hsuf, Hvl, Hsize.
  assert (HV : RedwoodRecordRef.value r = Some V \/ RedwoodRecordRef.value r = None /\ V = []).
  { unfold V. destruct (RedwoodRecordRef.value r); [left | right]; split; reflexivity. }
  assert (HhasValue : Delta.hasValue d'
                      = match RedwoodRecordRef.value r with Some _ => true | None => false end).
  { unfold Delta.hasValue, d'. rewrite flags_head, Hval.
    destruct (RedwoodRecordRef.value r); reflexivity. }
  assert (HhasVersion : Delta.hasVersion d' = negb (RedwoodRecordRef.version r =? 0)).
  { unfold Delta.hasVersion, d'. rewrite flags_head.
    destruct (Z.eqb_spec (RedwoodRecordRef.version r) 0) as [Hz|Hnz].
    - destruct (Hzero Hz) as [_ ->]. reflexivity.
    - destruct (Hnonzero Hnz) as [-> _]. reflexivity. }
  assert (HreadS : Delta.read (Datatypes.S (length L)) (Z.to_nat (keySize r - p)) d' = S).
  { unfold d'. apply read_2; [reflexivity | lia]. }
  assert (HreadV : Delta.read (Datatypes.S (length L) + Z.to_nat (keySize r - p))
                     (Z.to_nat (valueSize r)) d' = V).
  { unfold d'. apply read_3; lia. }
  assert (HgetV : forall off, off = (Datatypes.S (length L) + length S + length V)%nat ->
                              RedwoodRecordRef.version r <> 0 ->
                              Delta.getVersionDelta off d' = int32 delta).
  { intros off -> Hnz. destruct (Hnonzero Hnz) as (_ & _ & Hd).
    specialize (Hd (L ++ S ++ V) (drop n' d)).
    rewrite <- !app_assoc in Hd. rewrite !length_app in Hd.
    rewrite <- Hd. f_equal. lia. }
  clearbody S L.
  split.
  { unfold Delta.apply.
    rewrite Hdata, Hpre, Hsuf, Hvl, HhasValue, HhasVersion.
    assert (Hkey' :
              (if 0 <? keySize r - p
               then (bytesKey (take (Z.to_nat p) (keyBytes (RedwoodRecordRef.key base))
                               ++ Delta.read (Datatypes.S (length L))
                                    (Z.to_nat (keySize r - p)) d'),
                     (Datatypes.S (length L) + Z.to_nat (keySize r - p))%nat)
               else (bytesKey (take (Z.to_nat p) (keyBytes (RedwoodRecordRef.key base))),
                     Datatypes.S (length L)))
              = (bytesKey (take (Z.to_nat p) (keyBytes (RedwoodRecordRef.key base)) ++ S),
                 (Datatypes.S (length L) + Z.to_nat (keySize r - p))%nat)).
    { destruct (Z.ltb_spec 0 (keySize r - p)) as [Hpos|Hnpos].
      - rewrite HreadS. reflexivity.
      - assert (HS0 : length S = 0%nat) by lia.
        destruct S; [|discriminate]. rewrite app_nil_r.
        replace (keySize r - p) with 0 by lia. cbn [Z.to_nat]. rewrite Nat.add_0_r.
        reflexivity. }
    rewrite Hkey'. clear Hkey'.
    destruct HV as [HV|[HV HV0]]; rewrite HV; cbv beta iota zeta.
    - rewrite HreadV.
      destruct (Z.eqb_spec (RedwoodRecordRef.version r) 0) as [Hz|Hnz]; cbn [negb].
      + reflexivity.
      + rewrite HgetV; [reflexivity | lia | exact Hnz].
    - destruct (Z.eqb_spec (RedwoodRecordRef.version r) 0) as [Hz|Hnz]; cbn [negb].
      + reflexivity.
      + rewrite HgetV; [reflexivity | rewrite HV0; cbn [length]; lia | exact Hnz]. }
  split.
  { intros base'. unfold DeltaValueOnly.apply, Delta.getValue.
    rewrite HhasValue, Hdata, Hsuf, Hvl, HreadV.
    destruct HV as [HV|[HV HV0]]; rewrite HV; reflexivity. }
  split.
  { rewrite Hsize. unfold Delta.getVersionDeltaSizeBytes, d'. rewrite flags_head, Hcode, HW.
    replace (1 + (if RedwoodRecordRef.version r =? 0 then 0
                   else Delta.getVersionDeltaSizeBytesOf delta)
             + Delta.LengthFormatSizes fmt + (keySize r - p) + valueSize r)
      with n by (unfold n; lia).
    apply int32_fits. unfold INT_MAX in *. lia. }
  split.
  { unfold d'. cbn [length]. rewrite !length_app, length_drop. lia. }
  rewrite <- Hn, Nat2Z.id. unfold d'.
  replace (f :: L ++ S ++ V ++ W ++ drop n' d)
    with ((f :: L ++ S ++ V ++ W) ++ drop n' d)
    by (cbn [app]; rewrite <- !app_assoc; reflexivity).
  rewrite drop_app_length'; [reflexivity|].
  cbn [length]. rewrite !length_app. lia.
Qed.

Lemma prefix_valid r base p0 :
  p0 < 0 \/
  (p0 <= keySize r /\
   String.substring 0 (Z.to_nat p0) (RedwoodRecordRef.key base)
   = String.substring 0 (Z.to_nat p0) (RedwoodRecordRef.key r)) ->
  let p := if p0 <? 0 then getCommonPrefixLen r base 0 else p0 in
  0 <= p <= keySize r /\
  bytesKey (take (Z.to_nat p) (keyBytes (RedwoodRecordRef.key base))
            ++ drop (Z.to_nat p) (keyBytes (RedwoodRecordRef.key r)))
  = RedwoodRecordRef.key r.
Proof.
  intros Hp0 p.
  assert (H : 0 <= p <= keySize r /\
              take (Z.to_nat p) (keyBytes (RedwoodRecordRef.key base))
              = take (Z.to_nat p) (keyBytes (RedwoodRecordRef.key r))).
  { unfold p. destruct (Z.ltb_spec p0 0) as [Hneg|Hpos].
    - apply getCommonPrefixLen_valid.
    - destruct Hp0 as [Hneg|[Hle Hsub]]; [lia|]. split; [lia|].
      rewrite <- !keyBytes_substring, Hsub. reflexivity. }
  destruct H as [Hp Htake]. split; [exact Hp|].
  rewrite Htake, take_drop. apply bytesKey_keyBytes.
Qed.

(** A record written as a delta against a base into a buffer with room for
    it and read back against the same base has the key and the value of
    the record.  It has the version of the record exactly when that version
    is 0 or differs from the version of the base by what fits the [int]
    that [getVersionDelta] returns; a delta that takes 6 or 8 bytes is
    written whole and read back cut to 32 bits. *)
Theorem writeDelta_apply (r base : RedwoodRecordRef.t) (d : Delta.t) (keyPrefixLen : Z) :
  keyPrefixLen < 0 \/
  (keyPrefixLen <= keySize r /\
   String.substring 0 (Z.to_nat keyPrefixLen) (RedwoodRecordRef.key base)
   = String.substring 0 (Z.to_nat keyPrefixLen) (RedwoodRecordRef.key r)) ->
  keySize r <= 0xFFFF ->
  keySize r + valueSize r + 17 <= Z.of_nat (length d) ->
  Z.of_nat (length d) <= INT_MAX ->
  0 <= RedwoodRecordRef.version r < 2 ^ 63 ->
  0 <= RedwoodRecordRef.version base < 2 ^ 63 ->
  exists d' n,
    writeDelta r d base keyPrefixLen = Some (d', n) /\
    Delta.apply d' base
    = RedwoodRecordRef.mk
        (RedwoodRecordRef.key r)
        (if RedwoodRecordRef.version r =? 0 then 0
         else int64 (RedwoodRecordRef.version base
                     + int32 (RedwoodRecordRef.version r - RedwoodRecordRef.version base)))
        (RedwoodRecordRef.value r) /\
    (Delta.apply d' base = r <->
     RedwoodRecordRef.version r = 0 \/
     - 2 ^ 31 <= RedwoodRecordRef.version r - RedwoodRecordRef.version base < 2 ^ 31).
Proof.
  intros Hprefix Hkey Hroom Hbuf Hv Hb.
  destruct (prefix_valid r base keyPrefixLen Hprefix) as [Hp Hk].
  destruct (writeDelta_observed r d base keyPrefixLen Hp Hkey) as (d' & Hrun & _ & Happly & _);
    [lia | lia | lia |].
  rewrite Hk in Happly. exists d'. eexists. split; [exact Hrun|]. split; [exact Happly|].
  rewrite Happly. clear Happly Hrun.
  set (delta := RedwoodRecordRef.version r - RedwoodRecordRef.version base).
  assert (Hi : - 2 ^ 31 <= int32 delta < 2 ^ 31).
  { unfold int32. pose proof (Z.mod_pos_bound (delta + 2 ^ 31) (2 ^ 32) ltac:(lia)). lia. }
  destruct r as [k v val]. cbn [RedwoodRecordRef.key RedwoodRecordRef.version
                                  RedwoodRecordRef.value] in *.
  destruct (Z.eqb_spec v 0) as [Hz|Hnz].
  - subst v. split; [intros _; left; reflexivity | reflexivity].
  - split.
    + intros [= Hdec]. right.
      assert (Hx : int64 (RedwoodRecordRef.version base + int32 delta)
                   = RedwoodRecordRef.version base + int32 delta
                   \/ int64 (RedwoodRecordRef.version base + int32 delta) < 0).
      { unfold int64.
        destruct (Z.lt_ge_cases (RedwoodRecordRef.version base + int32 delta) (2 ^ 63)).
        - left. rewrite Z.mod_small by lia. lia.
        - right.
          replace (RedwoodRecordRef.version base + int32 delta + 2 ^ 63)
            with (RedwoodRecordRef.version base + int32 delta - 2 ^ 63 + 1 * 2 ^ 64) by lia.
          rewrite Z.mod_add by lia. rewrite Z.mod_small by lia. lia. }
      destruct Hx as [Hx|Hx]; [|lia].
      assert (int32 delta = delta) by (unfold delta in *; lia). lia.
    + intros [Hz|Hfit]; [destruct (Hnz Hz)|].
      rewrite (int32_fits delta Hfit). unfold delta.
      replace (RedwoodRecordRef.version base + (v - RedwoodRecordRef.version base)) with v by lia.
      rewrite int64_fits by lia. reflexivity.
Qed.

(** The size that [writeDelta] returns is the size that the delta reports
    of itself, and the size that [deltaSize] foretells without worst-case
    overhead when the prefix is the common prefix of the record and the
    base; it is at most 17 bytes more than the key and the value.  The
    buffer keeps its length, and every byte of it after the delta is
    unchanged. *)
Theorem writeDelta_size (r base : RedwoodRecordRef.t) (d : Delta.t) (keyPrefixLen : Z) :
  keyPrefixLen < 0 \/
  (keyPrefixLen <= keySize r /\
   String.substring 0 (Z.to_nat keyPrefixLen) (RedwoodRecordRef.key base)
   = String.substring 0 (Z.to_nat keyPrefixLen) (RedwoodRecordRef.key r)) ->
  keySize r <= 0xFFFF ->
  keySize r + valueSize r + 17 <= Z.of_nat (length d) ->
  Z.of_nat (length d) <= INT_MAX ->
  0 <= RedwoodRecordRef.version r < 2 ^ 63 ->
  0 <= RedwoodRecordRef.version base < 2 ^ 63 ->
  exists d' n,
    writeDelta r d base keyPrefixLen = Some (d', n) /\
    Delta.size d' = n /\
    (keyPrefixLen < 0 -> deltaSize r base 0 false = n) /\
    0 < n <= keySize r + valueSize r + 17 /\
    length d' = length d /\
    drop (Z.to_nat n) d' = drop (Z.to_nat n) d.
Proof.
  intros Hprefix Hkey Hroom Hbuf Hv Hb.
  destruct (prefix_valid r base keyPrefixLen Hprefix) as [Hp _].
  destruct (writeDelta_observed r d base keyPrefixLen Hp Hkey)
    as (d' & Hrun & Hn & _ & _ & Hsize & Hlen & Hdrop); [lia | lia | lia |].
  exists d'. eexists. split; [exact Hrun|]. split; [exact Hsize|].
  pose proof (LengthFormatSizes_bound
                (Delta.determineLengthFormat
                   (if keyPrefixLen <? 0 then getCommonPrefixLen r base 0 else keyPrefixLen)
                   (keySize r - (if keyPrefixLen <? 0 then getCommonPrefixLen r base 0
                                 else keyPrefixLen))
                   (valueSize r))) as HL.
  assert (Hvb : 0 <= (if RedwoodRecordRef.version r =? 0 then 0
                      else Delta.getVersionDeltaSizeBytesOf
                             (RedwoodRecordRef.version r - RedwoodRecordRef.version base))).
  { unfold Delta.getVersionDeltaSizeBytesOf. repeat destruct (_ =? _); lia. }
  assert (Hv0 : 0 <= valueSize r).
  { unfold valueSize. destruct (RedwoodRecordRef.value r); lia. }
  split; [|split; [lia|split; assumption]].
  intros Hneg. unfold deltaSize.
  replace (keyPrefixLen <? 0) with true in * by (symmetry; apply Z.ltb_lt; exact Hneg).
  rewrite (int64_fits (RedwoodRecordRef.version r - RedwoodRecordRef.version base)) by lia.
  apply int32_fits. unfold INT_MAX in *. lia.
Qed.

(** A delta read for its value alone gives the value of the record that was
    written, with an empty key and version 0, whatever base it is read
    against: the value of a record does not depend on the base of its
    delta. *)
Theorem writeDelta_valueOnly (r base base' : RedwoodRecordRef.t) (d : Delta.t) (keyPrefixLen : Z) :
  keyPrefixLen < 0 \/
  (keyPrefixLen <= keySize r /\
   String.substring 0 (Z.to_nat keyPrefixLen) (RedwoodRecordRef.key base)
   = String.substring 0 (Z.to_nat keyPrefixLen) (RedwoodRecordRef.key r)) ->
  keySize r <= 0xFFFF ->
  keySize r + valueSize r + 17 <= Z.of_nat (length d) ->
  Z.of_nat (length d) <= INT_MAX ->
  0 <= RedwoodRecordRef.version r < 2 ^ 63 ->
  0 <= RedwoodRecordRef.version base < 2 ^ 63 ->
  exists d' n,
    writeDelta r d base keyPrefixLen = Some (d', n) /\
    DeltaValueOnly.apply d' base'
    = RedwoodRecordRef.mk EmptyString 0 (RedwoodRecordRef.value r).
Proof.
  intros Hprefix Hkey Hroom Hbuf Hv Hb.
  destruct (prefix_valid r base keyPrefixLen Hprefix) as [Hp _].
  destruct (writeDelta_observed r d base keyPrefixLen Hp Hkey)
    as (d' & Hrun & _ & _ & Hvalue & _); [lia | lia | lia |].
  exists d'. eexists. split; [exact Hrun | apply Hvalue].
Qed.

Lemma getVersionDeltaSizeBytesOf_mono a b :
  0 <= a <= b -> b < 2 ^ 63 ->
  Delta.getVersionDeltaSizeBytesOf a <= Delta.getVersionDeltaSizeBytesOf b.
Proof.
  intros Hab Hb. unfold Delta.getVersionDeltaSizeBytesOf.
  destruct (versionDelta_cases a ltac:(lia))
    as [(E0 & Ha)|[(E0 & E1 & Ha)|[(E0 & E1 & E2 & Ha)|(E0 & E1 & E2 & Ha)]]];
    rewrite ?E0, ?E1, ?E2;
    destruct (versionDelta_cases b ltac:(lia))
      as [(F0 & Hb')|[(F0 & F1 & Hb')|[(F0 & F1 & F2 & Hb')|(F0 & F1 & F2 & Hb')]]];
    rewrite ?F0, ?F1, ?F2; lia.
Qed.

Lemma determineLengthFormat_mono p s k v :
  p <= k -> s <= k ->
  Delta.LengthFormatSizes (Delta.determineLengthFormat p s v)
  <= Delta.LengthFormatSizes (Delta.determineLengthFormat k k v).
Proof.
  intros Hp Hs. unfold Delta.determineLengthFormat.
  destruct (Z.ltb_spec 0xFF k); cbn [orb].
  - repeat (destruct (_ <? _)); cbn; lia.
  - replace (0xFF <? p) with false by (symmetry; apply Z.ltb_ge; lia).
    replace (0xFF <? s) with false by (symmetry; apply Z.ltb_ge; lia).
    cbn [orb]. lia.
Qed.

(** The size of a delta with worst-case overhead is not below its size
    without, for the same base and the same bytes skipped, when the version
    of the base is not after the version of the record. *)
Theorem deltaSize_worstCase (r base : RedwoodRecordRef.t) (skipLen : Z) :
  0 <= skipLen ->
  0 <= RedwoodRecordRef.version base <= RedwoodRecordRef.version r ->
  RedwoodRecordRef.version r < 2 ^ 62 ->
  keySize r + valueSize r + 17 <= INT_MAX ->
  deltaSize r base skipLen false <= deltaSize r base skipLen true.
Proof.
  intros Hskip Hb Hv Hint. unfold deltaSize.
  set (prefixLen := getCommonPrefixLen r base skipLen).
  assert (Hpl : 0 <= prefixLen <= keySize r).
  { unfold prefixLen, getCommonPrefixLen.
    set (skipStart := Z.min skipLen (keySize r)).
    set (c := commonPrefixLength _ _ _).
    pose proof (commonPrefixLength_spec
                  (drop (Z.to_nat skipStart) (keyBytes (RedwoodRecordRef.key r)))
                  (drop (Z.to_nat skipStart) (keyBytes (RedwoodRecordRef.key base)))
                  (Z.to_nat (Z.min (keySize base) (keySize r) - skipStart))) as (_ & H2 & _).
    fold c in H2. rewrite length_drop, length_keyBytes in H2.
    unfold keySize in *. lia. }
  assert (Hv0 : 0 <= valueSize r).
  { unfold valueSize. destruct (RedwoodRecordRef.value r); lia. }
  pose proof (determineLengthFormat_mono prefixLen (keySize r - prefixLen) (keySize r)
                (valueSize r) ltac:(lia) ltac:(lia)) as Hfmt.
  pose proof (LengthFormatSizes_bound
                (Delta.determineLengthFormat (keySize r) (keySize r) (valueSize r))) as HLw.
  pose proof (LengthFormatSizes_bound
                (Delta.determineLengthFormat prefixLen (keySize r - prefixLen) (valueSize r)))
    as HLa.
  cbv beta iota zeta.
  rewrite Z.shiftl_mul_pow2 by lia. change (2 ^ 1) with 2.
  rewrite (int64_fits (RedwoodRecordRef.version r * 2)) by lia.
  rewrite (int64_fits (RedwoodRecordRef.version r - RedwoodRecordRef.version base)) by lia.
  assert (Hvb : (if RedwoodRecordRef.version r =? 0 then 0
                 else Delta.getVersionDeltaSizeBytesOf
                        (RedwoodRecordRef.version r - RedwoodRecordRef.version base))
                <= (if RedwoodRecordRef.version r =? 0 then 0
                    else Delta.getVersionDeltaSizeBytesOf (RedwoodRecordRef.version r * 2))).
  { destruct (_ =? _); [lia|]. apply getVersionDeltaSizeBytesOf_mono; lia. }
  assert (Hvb0 : forall x, 0 <= (if RedwoodRecordRef.version r =? 0 then 0
                                 else Delta.getVersionDeltaSizeBytesOf x) <= 8).
  { intros x. unfold Delta.getVersionDeltaSizeBytesOf. repeat destruct (_ =? _); lia. }
  pose proof (Hvb0 (RedwoodRecordRef.version r * 2)).
  pose proof (Hvb0 (RedwoodRecordRef.version r - RedwoodRecordRef.version base)).
  rewrite !int32_fits by (unfold INT_MAX in *; lia). lia.
Qed.

Lemma writeDelta_apply_witness :
  exists d' n,
    writeDelta Examples.deltaRecord Examples.deltaBuffer Examples.deltaBase (-1)
    = Some (d', n) /\
    Delta.apply d' Examples.deltaBase
    = RedwoodRecordRef.mk
        (RedwoodRecordRef.key Examples.deltaRecord)
        (if RedwoodRecordRef.version Examples.deltaRecord =? 0 then 0
         else int64 (RedwoodRecordRef.version Examples.deltaBase
                     + int32 (RedwoodRecordRef.version Examples.deltaRecord
                              - RedwoodRecordRef.version Examples.deltaBase)))
        (RedwoodRecordRef.value Examples.deltaRecord) /\
    (Delta.apply d' Examples.deltaBase = Examples.deltaRecord <->
     RedwoodRecordRef.version Examples.deltaRecord = 0 \/
     - 2 ^ 31 <= RedwoodRecordRef.version Examples.deltaRecord
                 - RedwoodRecordRef.version Examples.deltaBase < 2 ^ 31).
Proof.
  apply (writeDelta_apply Examples.deltaRecord Examples.deltaBase Examples.deltaBuffer (-1)).
  - left. lia.
  - vm_compute. discriminate.
  - vm_compute. discriminate.
  - vm_compute. discriminate.
  - simpl. lia.
  - simpl. lia.
Defined.

Lemma writeDelta_size_witness :
  exists d' n,
    writeDelta Examples.deltaRecord Examples.deltaBuffer Examples.deltaBase 3
    = Some (d', n) /\
    Delta.size d' = n /\
    (3 < 0 -> deltaSize Examples.deltaRecord Examples.deltaBase 0 false = n) /\
    0 < n <= keySize Examples.deltaRecord + valueSize Examples.deltaRecord + 17 /\
    length d' = length Examples.deltaBuffer /\
    drop (Z.to_nat n) d' = drop (Z.to_nat n) Examples.deltaBuffer.
Proof.
  apply (writeDelta_size Examples.deltaRecord Examples.deltaBase Examples.deltaBuffer 3).
  - right. split; [vm_compute; discriminate | reflexivity].
  - vm_compute. discriminate.
  - vm_compute. discriminate.
  - vm_compute. discriminate.
  - simpl. lia.
  - simpl. lia.
Defined.

Lemma writeDelta_valueOnly_witness :
  exists d' n,
    writeDelta Examples.deltaRecord Examples.deltaBuffer Examples.deltaBase (-1)
    = Some (d', n) /\
    DeltaValueOnly.apply d' dbBegin
    = RedwoodRecordRef.mk EmptyString 0 (RedwoodRecordRef.value Examples.deltaRecord).
Proof.
  apply (writeDelta_valueOnly Examples.deltaRecord Examples.deltaBase dbBegin
           Examples.deltaBuffer (-1)).
  - left. lia.
  - vm_compute. discriminate.
  - vm_compute. discriminate.
  - vm_compute. discriminate.
  - simpl. lia.
  - simpl. lia.
Defined.

Lemma deltaSize_worstCase_witness :
  deltaSize Examples.deltaRecord Examples.deltaBase 2 false
  <= deltaSize Examples.deltaRecord Examples.deltaBase 2 true.
Proof.
  apply (deltaSize_worstCase Examples.deltaRecord Examples.deltaBase 2).
  - lia.
  - simpl. lia.
  - simpl. lia.
  - vm_compute. discriminate.
Defined.
End DeltaFacts.

(** ** Object cache *)
Module ObjectCacheFacts.
Import ObjectCache.
Import DeltaFacts.

Section Facts.
Context {IndexType : Type} `{Countable IndexType} {ObjectType : Type}.
Variable evictable : ObjectType -> bool.
Variable newObject : ObjectType.

#[local] Abbreviation Cache := (@ObjectCache.t IndexType _ _ ObjectType) (only parsing).
#[local] Abbreviation CacheEntry := (@ObjectCache.Entry IndexType ObjectType) (only parsing).

Lemma length_linked (l : list IndexType) (m : gmap IndexType CacheEntry) :
  NoDup l -> (forall k, k ∈ l <-> is_Some (m !! k)) -> length l = size m.
Proof.
  revert m. induction l as [|k l IH]; intros m Hnd Hin.
  - symmetry. apply map_size_empty_iff. apply map_eq. intros k.
    rewrite lookup_empty. destruct (m !! k) eqn:E; [|reflexivity].
    exfalso. apply (not_elem_of_nil k). apply Hin. eauto.
  - apply NoDup_cons in Hnd as [Hk Hnd].
    assert (Hmk : is_Some (m !! k)) by (apply Hin; left).
    cbn [length]. rewrite (IH (delete k m) Hnd).
    + rewrite map_size_delete_Some by exact Hmk.
      destruct (size m) eqn:Es; [|reflexivity].
      apply map_size_empty_iff in Es. subst m. rewrite lookup_empty in Hmk.
      destruct Hmk as [? ?]. discriminate.
    + intros k'. rewrite lookup_delete_is_Some, <- Hin. split.
      * intros Hk'. split; [intros ->; contradiction | right; exact Hk'].
      * intros [Hne Hk']. apply elem_of_cons in Hk' as [->|Hk']; [contradiction | exact Hk'].
Qed.

Lemma unlink_elem_of (i k : IndexType) l :
  NoDup l -> k ∈ unlink i l <-> k ∈ l /\ k <> i.
Proof.
  induction l as [|x l IH]; intros Hnd; cbn [unlink].
  - split; [intros Hk; destruct (not_elem_of_nil _ Hk) | intros [Hk _]; exact Hk].
  - apply NoDup_cons in Hnd as [Hx Hnd]. destruct (decide (x = i)) as [->|Hne].
    + split.
      * intros Hk. split; [right; exact Hk | intros ->; contradiction].
      * intros [Hk Hki]. apply elem_of_cons in Hk as [->|Hk]; [contradiction | exact Hk].
    + rewrite !elem_of_cons, (IH Hnd). split.
      * intros [->|[Hk Hki]]; [split; [left; reflexivity | exact Hne] | split; [right|]; assumption].
      * intros [[->|Hk] Hki]; [left; reflexivity | right; split; assumption].
Qed.

Lemma unlink_NoDup (i : IndexType) l : NoDup l -> NoDup (unlink i l).
Proof.
  induction l as [|x l IH]; intros Hnd; cbn [unlink]; [exact Hnd|].
  pose proof Hnd as Hnd'. apply NoDup_cons in Hnd as [Hx Hnd].
  destruct (decide (x = i)); [exact Hnd|].
  apply NoDup_cons. split; [|apply IH; exact Hnd].
  intros Hin. apply (unlink_elem_of i x l Hnd) in Hin as [Hin _]. contradiction.
Qed.

Lemma unlink_absent (i : IndexType) l : i ∉ l -> unlink i l = l.
Proof.
  induction l as [|x l IH]; intros Hi; cbn [unlink]; [reflexivity|].
  destruct (decide (x = i)) as [->|Hne]; [destruct Hi; left|].
  f_equal. apply IH. intros Hin. apply Hi. right. exact Hin.
Qed.

Lemma evict_done fuel (s : Cache) :
  (sizeLimit s mod 2 ^ 64 <? Z.of_nat (size (cache s))) = false ->
  evict evictable fuel s = (Ok tt, s).
Proof.
  intros Hc. destruct fuel; cbn [evict]; rewrite bind_gets, Hc; reflexivity.
Qed.

Lemma evict_blocked fuel (s : Cache) k order e :
  (sizeLimit s mod 2 ^ 64 <? Z.of_nat (size (cache s))) = true ->
  evictionOrder s = k :: order -> cache s !! k = Some e -> evictable (item e) = false ->
  evict evictable (S fuel) s
  = (Ok tt, mk (sizeLimit s) (cacheHits s) (cacheMisses s) (noHitEvictions s)
               (int64 (failedEvictions s + 1)) (cache s) (order ++ [k])).
Proof.
  intros Hc Ho Hk He. cbn [evict]. rewrite bind_gets, Hc, Ho, Hk, He. reflexivity.
Qed.

Lemma evict_step fuel (s : Cache) k order e :
  (sizeLimit s mod 2 ^ 64 <? Z.of_nat (size (cache s))) = true ->
  evictionOrder s = k :: order -> cache s !! k = Some e -> evictable (item e) = true ->
  evict evictable (S fuel) s
  = evict evictable fuel
      (mk (sizeLimit s) (cacheHits s) (cacheMisses s)
          (if hits e =? 0 then int64 (noHitEvictions s + 1) else noHitEvictions s)
          (failedEvictions s) (delete (index e) (cache s)) order).
Proof.
  intros Hc Ho Hk He. cbn [evict]. rewrite bind_gets, Hc, Ho, Hk, He. reflexivity.
Qed.

Lemma evict_spec fuel (s : Cache) :
  linked s -> (length (evictionOrder s) <= fuel)%nat ->
  exists (s' : Cache) (n : nat),
    evict evictable fuel s = (Ok tt, s') /\ linked s' /\ sizeLimit s' = sizeLimit s /\
    (n <= length (evictionOrder s))%nat /\
    (forall k, cache s' !! k
               = if decide (k ∈ take n (evictionOrder s)) then None else cache s !! k) /\
    (forall k e, k ∈ take n (evictionOrder s) -> cache s !! k = Some e ->
                 evictable (item e) = true) /\
    size (cache s') = (size (cache s) - n)%nat /\
    ((0 < n)%nat -> sizeLimit s mod 2 ^ 64 < Z.of_nat (size (cache s')) + 1) /\
    ((evictionOrder s' = drop n (evictionOrder s) /\
      Z.of_nat (size (cache s')) <= sizeLimit s mod 2 ^ 64) \/
     (exists k e,
         evictionOrder s !! n = Some k /\ cache s !! k = Some e /\
         evictable (item e) = false /\
         evictionOrder s' = drop (S n) (evictionOrder s) ++ [k] /\
         sizeLimit s mod 2 ^ 64 < Z.of_nat (size (cache s')))).
Proof.
  revert s. induction fuel as [|fuel IH]; intros s Hl Hfuel.
  - pose proof Hl as (Hnd & Hin & Hidx).
    pose proof (length_linked _ _ Hnd Hin) as Hlen.
    assert (Hc : (sizeLimit s mod 2 ^ 64 <? Z.of_nat (size (cache s))) = false).
    { apply Z.ltb_ge. pose proof (Z.mod_pos_bound (sizeLimit s) (2 ^ 64) ltac:(lia)). lia. }
    exists s, 0%nat. rewrite (evict_done _ _ Hc). apply Z.ltb_ge in Hc.
    split; [reflexivity|]. split; [exact Hl|]. split; [reflexivity|]. split; [lia|].
    split; [intros k; rewrite take_0; rewrite decide_False by apply not_elem_of_nil; reflexivity|].
    split; [intros k e Hk; rewrite take_0 in Hk; destruct (not_elem_of_nil _ Hk)|].
    split; [lia|]. split; [lia|]. left. split; [rewrite drop_0; reflexivity | exact Hc].
  - pose proof Hl as (Hnd & Hin & Hidx).
    pose proof (length_linked _ _ Hnd Hin) as Hlen.
    destruct (sizeLimit s mod 2 ^ 64 <? Z.of_nat (size (cache s))) eqn:Hc.
    2:{ exists s, 0%nat. rewrite (evict_done _ _ Hc). apply Z.ltb_ge in Hc.
        split; [reflexivity|]. split; [exact Hl|]. split; [reflexivity|]. split; [lia|].
        split; [intros k; rewrite take_0; rewrite decide_False by apply not_elem_of_nil;
                reflexivity|].
        split; [intros k e Hk; rewrite take_0 in Hk; destruct (not_elem_of_nil _ Hk)|].
        split; [lia|]. split; [lia|]. left. split; [rewrite drop_0; reflexivity | exact Hc]. }
    pose proof Hc as Hc'. apply Z.ltb_lt in Hc'.
    destruct (evictionOrder s) as [|k order] eqn:Ho.
    { exfalso. cbn [length] in Hlen.
      pose proof (Z.mod_pos_bound (sizeLimit s) (2 ^ 64) ltac:(lia)). lia. }
    assert (Hk : is_Some (cache s !! k)) by (apply Hin; left).
    destruct Hk as [e Hk]. pose proof (Hidx _ _ Hk) as Hie.
    apply NoDup_cons in Hnd as [Hkn Hnd'].
    destruct (evictable (item e)) eqn:He.
    + rewrite (evict_step fuel s k order e Hc Ho Hk He), Hie.
      set (s1 := mk (sizeLimit s) (cacheHits s) (cacheMisses s)
                    (if hits e =? 0 then int64 (noHitEvictions s + 1) else noHitEvictions s)
                    (failedEvictions s) (delete k (cache s)) order : Cache).
      assert (Hl1 : linked s1).
      { split; [exact Hnd'|]. split.
        - intros k'. unfold s1. cbn [evictionOrder cache].
          rewrite lookup_delete_is_Some, <- Hin. split.
          + intros Hk'. split; [intros ->; contradiction | right; exact Hk'].
          + intros [Hne Hk']. apply elem_of_cons in Hk' as [->|Hk']; [contradiction | exact Hk'].
        - intros k' e'. unfold s1. cbn [cache]. rewrite lookup_delete_Some.
          intros [_ Hk']. apply (Hidx _ _ Hk'). }
      destruct (IH s1 Hl1) as (s' & n & Hrun & Hl' & Hlim & Hn & Hcache & Hev & Hsize & Hlast & Hend).
      { unfold s1. cbn [evictionOrder]. cbn [length] in Hfuel. lia. }
      unfold s1 in Hlim, Hn, Hcache, Hev, Hsize, Hlast, Hend.
      cbn [evictionOrder cache sizeLimit] in Hlim, Hn, Hcache, Hev, Hsize, Hlast, Hend.
      assert (Hs1 : size (delete k (cache s)) = pred (size (cache s))).
      { apply map_size_delete_Some. eauto. }
      exists s', (S n). split; [exact Hrun|]. split; [exact Hl'|]. split; [exact Hlim|].
      split; [cbn [length]; lia|].
      split.
      { intros k'. rewrite Hcache. cbn [take]. destruct (decide (k' = k)) as [->|Hne].
        - destruct (decide (k ∈ k :: take n order)) as [_|Hx]; [|destruct Hx; left].
          rewrite lookup_delete_eq. destruct (decide _); reflexivity.
        - rewrite lookup_delete_ne by congruence.
          destruct (decide (k' ∈ take n order)) as [Hi|Hi].
          + destruct (decide (k' ∈ k :: take n order)) as [_|Hx]; [reflexivity|].
            destruct Hx. right. exact Hi.
          + destruct (decide (k' ∈ k :: take n order)) as [Hi'|_]; [|reflexivity].
            apply elem_of_cons in Hi' as [?|?]; [congruence | contradiction]. }
      split.
      { intros k' e'. cbn [take]. intros Hk' Hc1.
        apply elem_of_cons in Hk' as [->|Hk'].
        - rewrite Hk in Hc1. injection Hc1 as <-. exact He.
        - apply (Hev k' e' Hk'). rewrite lookup_delete_ne; [exact Hc1|].
          intros ->. apply Hkn. apply elem_of_take in Hk' as (j & Hj & _).
          apply list_elem_of_lookup. eauto. }
      split; [lia|].
      split.
      { intros _. destruct n as [|n'].
        - rewrite Hsize, Hs1. lia.
        - apply Hlast. lia. }
      destruct Hend as [[Hord Hle]|(k' & e' & Hk' & He' & Hne' & Hord & Hgt)].
      * left. split; [exact Hord | exact Hle].
      * right. exists k', e'. split; [exact Hk'|].
        split; [rewrite lookup_delete_Some in He'; apply He'|].
        split; [exact Hne'|]. split; [exact Hord | exact Hgt].
    + rewrite (evict_blocked fuel s k order e Hc Ho Hk He).
      eexists _, 0%nat. split; [reflexivity|]. cbn [evictionOrder cache sizeLimit].
      split.
      { split; [|split].
        - cbn [evictionOrder]. apply NoDup_app. split; [exact Hnd'|]. split.
          + intros x Hx Hx'. apply list_elem_of_singleton in Hx'. subst x. contradiction.
          + apply NoDup_singleton.
        - intros k'. cbn [evictionOrder cache]. rewrite <- Hin, elem_of_app, list_elem_of_singleton,
            elem_of_cons. tauto.
        - exact Hidx. }
      split; [reflexivity|]. split; [lia|].
      split; [intros k'; rewrite take_0; rewrite decide_False by apply not_elem_of_nil;
              reflexivity|].
      split; [intros k' e' Hk'; rewrite take_0 in Hk'; destruct (not_elem_of_nil _ Hk')|].
      split; [lia|]. split; [lia|].
      right. exists k, e. split; [reflexivity|]. split; [exact Hk|]. split; [exact He|].
      split; [reflexivity | exact Hc'].
Qed.

Lemma linked_hit (s : Cache) i e' :
  linked s -> is_Some (cache s !! i) -> index e' = i ->
  linked (mk (sizeLimit s) (cacheHits s) (cacheMisses s) (noHitEvictions s) (failedEvictions s)
             (<[i := e']> (cache s)) (unlink i (evictionOrder s) ++ [i])).
Proof.
  intros (Hnd & Hin & Hidx) Hi He'. split; [|split]; cbn [evictionOrder cache].
  - apply NoDup_app. split; [apply unlink_NoDup; exact Hnd|]. split; [|apply NoDup_singleton].
    intros x Hx Hx'. apply list_elem_of_singleton in Hx'. subst x.
    apply unlink_elem_of in Hx as [_ Hx]; [congruence | exact Hnd].
  - intros k. rewrite elem_of_app, list_elem_of_singleton, (unlink_elem_of i k _ Hnd),
      lookup_insert_is_Some, Hin.
    destruct (decide (i = k)) as [->|Hne]; [tauto|]. split.
    + intros [[Hk _]| ->]; [right; split; assumption | congruence].
    + intros [->|[_ Hk]]; [congruence | left; split; [exact Hk | congruence]].
  - intros k e. rewrite lookup_insert_Some. intros [[<- <-]|[_ Hk]]; [exact He' | eauto].
Qed.

Lemma linked_miss (s : Cache) i e' :
  linked s -> cache s !! i = None -> index e' = i ->
  linked (mk (sizeLimit s) (cacheHits s) (int64 (cacheMisses s + 1)) (noHitEvictions s)
             (failedEvictions s) (<[i := e']> (cache s)) (evictionOrder s ++ [i])).
Proof.
  intros (Hnd & Hin & Hidx) Hi He'. split; [|split]; cbn [evictionOrder cache].
  - apply NoDup_app. split; [exact Hnd|]. split; [|apply NoDup_singleton].
    intros x Hx Hx'. apply list_elem_of_singleton in Hx'. subst x.
    apply Hin in Hx as [? Hx]. congruence.
  - intros k. rewrite elem_of_app, list_elem_of_singleton, lookup_insert_is_Some, Hin.
    destruct (decide (i = k)) as [->|Hne]; [tauto|]. split.
    + intros [Hk| ->]; [right; split; assumption | congruence].
    + intros [->|[_ Hk]]; [congruence | left; exact Hk].
  - intros k e. rewrite lookup_insert_Some. intros [[<- <-]|[_ Hk]]; [exact He' | eauto].
Qed.

Lemma get_hit_run (s : Cache) i noHit e :
  linked s -> cache s !! i = Some e ->
  get evictable newObject i noHit s
  = (Ok (item e),
     mk (sizeLimit s) (if noHit then cacheHits s else int64 (cacheHits s + 1))
        (cacheMisses s) (noHitEvictions s) (failedEvictions s)
        (<[i := mkEntry (index e) (item e)
                  (if noHit then hits e else int32 (hits e + 1))]> (cache s))
        (unlink i (evictionOrder s) ++ [i])).
Proof.
  intros (Hnd & Hin & Hidx) Hi. unfold get. rewrite bind_gets, Hi.
  rewrite bool_decide_eq_true_2 by (apply Hin; eauto). reflexivity.
Qed.

Lemma get_miss_run (s : Cache) i noHit :
  linked s -> cache s !! i = None ->
  get evictable newObject i noHit s
  = (let s1 := mk (sizeLimit s) (cacheHits s) (int64 (cacheMisses s + 1)) (noHitEvictions s)
                  (failedEvictions s)
                  (<[i := mkEntry i newObject (if noHit then 0 else 1)]> (cache s))
                  (evictionOrder s ++ [i]) in
     match evict evictable (length (evictionOrder s1)) s1 with
     | (Ok _, s2) =>
         match cache s2 !! i with
         | Some entry => (Ok (item entry), s2)
         | None => (Err assertion_failed, s2)
         end
     | (Err e, s2) => (Err e, s2)
     end).
Proof.
  intros _ Hi. unfold get. rewrite bind_gets, Hi, bind_modify, bind_gets. cbv zeta.
  unfold bind at 1. destruct (evict _ _ _) as [[[]|err] s2]; [|reflexivity].
  rewrite bind_gets. destruct (cache s2 !! i); reflexivity.
Qed.

Lemma get_linked (s s' : Cache) i noHit x :
  linked s -> get evictable newObject i noHit s = (Ok x, s') -> linked s'.
Proof.
  intros Hl Hrun. destruct (cache s !! i) as [e|] eqn:Hi.
  - rewrite (get_hit_run s i noHit e Hl Hi) in Hrun. injection Hrun as _ <-.
    apply (linked_hit s i); [exact Hl | eauto | exact (proj2 (proj2 Hl) _ _ Hi)].
  - rewrite (get_miss_run s i noHit Hl Hi) in Hrun. cbv zeta in Hrun.
    set (s1 := mk _ _ _ _ _ _ _) in Hrun.
    assert (Hl1 : linked s1) by (apply linked_miss; [exact Hl | exact Hi | reflexivity]).
    destruct (evict_spec (length (evictionOrder s1)) s1 Hl1 (le_n _))
      as (s2 & n & Hev & Hl2 & _).
    rewrite Hev in Hrun. destruct (cache s2 !! i); [|discriminate].
    injection Hrun as _ <-. exact Hl2.
Qed.

(** [get] of an index that the cache has returns its item and evicts
    nothing: every other entry stays as it is, the entry keeps its item and
    counts the hit unless [noHit] is set, and it becomes the last in the
    eviction order, the others keeping their order. *)
Theorem get_hit (s : Cache) i noHit e :
  linked s -> cache s !! i = Some e ->
  exists s' : Cache,
    get evictable newObject i noHit s = (Ok (item e), s') /\
    linked s' /\
    cache s' !! i = Some (mkEntry i (item e) (if noHit then hits e else int32 (hits e + 1))) /\
    (forall k, k <> i -> cache s' !! k = cache s !! k) /\
    evictionOrder s' = unlink i (evictionOrder s) ++ [i] /\
    size (cache s') = size (cache s).
Proof.
  intros Hl Hi. eexists. split; [apply (get_hit_run s i noHit e Hl Hi)|].
  pose proof (proj2 (proj2 Hl) _ _ Hi) as Hie.
  split; [apply (linked_hit s i); [exact Hl | eauto | exact Hie]|].
  cbn [cache evictionOrder]. rewrite Hie.
  split; [apply lookup_insert_eq|].
  split; [intros k Hk; apply lookup_insert_ne; congruence|].
  split; [reflexivity|]. apply map_size_insert_Some. eauto.
Qed.

Lemma get_miss_spec (s : Cache) i noHit :
  linked s -> cache s !! i = None -> 0 < sizeLimit s < 2 ^ 63 ->
  exists (s' : Cache) (n : nat),
    get evictable newObject i noHit s = (Ok newObject, s') /\
    linked s' /\
    sizeLimit s' = sizeLimit s /\
    (n <= length (evictionOrder s))%nat /\
    cache s' !! i = Some (mkEntry i newObject (if noHit then 0 else 1)) /\
    (forall k, k <> i ->
               cache s' !! k
               = if decide (k ∈ take n (evictionOrder s)) then None else cache s !! k) /\
    (forall k e, k ∈ take n (evictionOrder s) -> cache s !! k = Some e ->
                 evictable (item e) = true) /\
    ((evictionOrder s' = drop n (evictionOrder s) ++ [i] /\
      Z.of_nat (size (cache s')) <= sizeLimit s) \/
     (exists k e,
         evictionOrder s !! n = Some k /\ cache s !! k = Some e /\
         evictable (item e) = false /\
         evictionOrder s' = drop (S n) (evictionOrder s) ++ [i; k] /\
         sizeLimit s < Z.of_nat (size (cache s')))).
Proof.
  intros Hl Hi Hlim. rewrite (get_miss_run s i noHit Hl Hi). cbv zeta.
  set (s1 := mk _ _ _ _ _ _ _).
  assert (Hl1 : linked s1) by (apply linked_miss; [exact Hl | exact Hi | reflexivity]).
  pose proof Hl as (Hnd & Hin & Hidx).
  pose proof (length_linked _ _ Hnd Hin) as Hlen.
  assert (Hmod : sizeLimit s1 mod 2 ^ 64 = sizeLimit s).
  { unfold s1. cbn [sizeLimit]. apply Z.mod_small. lia. }
  assert (Hsize1 : size (cache s1) = S (size (cache s))).
  { unfold s1. cbn [cache]. apply map_size_insert_None. exact Hi. }
  assert (Hinot : i ∉ evictionOrder s).
  { intros Hx. apply Hin in Hx as [? Hx]. congruence. }
  destruct (evict_spec (length (evictionOrder s1)) s1 Hl1 (le_n _))
    as (s2 & n & Hev & Hl2 & Hlim2 & Hn & Hcache & Hevd & Hsize & Hlast & Hend).
  rewrite Hmod in Hlast, Hend. rewrite Hev.
  assert (Hn' : (n <= length (evictionOrder s))%nat).
  { destruct n as [|n']; [lia|]. specialize (Hlast ltac:(lia)). lia. }
  assert (Htake : take n (evictionOrder s1) = take n (evictionOrder s)).
  { unfold s1. cbn [evictionOrder]. apply take_app_le. exact Hn'. }
  rewrite Htake in Hcache, Hevd.
  assert (Hi2 : cache s2 !! i = Some (mkEntry i newObject (if noHit then 0 else 1))).
  { rewrite Hcache. rewrite decide_False.
    - unfold s1. cbn [cache]. apply lookup_insert_eq.
    - intros Hx. apply Hinot. apply elem_of_take in Hx as (j & Hj & _).
      apply list_elem_of_lookup. eauto. }
  rewrite Hi2. cbn [item]. exists s2, n.
  split; [reflexivity|]. split; [exact Hl2|]. split; [exact Hlim2|].
  split; [exact Hn'|]. split; [exact Hi2|].
  split.
  { intros k Hk. rewrite Hcache. unfold s1. cbn [cache].
    rewrite lookup_insert_ne by congruence. reflexivity. }
  split.
  { intros k e Hk Hke. apply (Hevd k e Hk). unfold s1. cbn [cache].
    rewrite lookup_insert_ne; [exact Hke|]. intros <-. congruence. }
  destruct Hend as [[Hord Hle]|(k & e & Hk & Hke & Hne & Hord & Hgt)].
  - left. split; [|exact Hle]. rewrite Hord. unfold s1. cbn [evictionOrder].
    apply drop_app_le. exact Hn'.
  - right. assert (Hn'' : (n < length (evictionOrder s))%nat) by lia.
    unfold s1 in Hk, Hke, Hord. cbn [evictionOrder cache] in Hk, Hke, Hord.
    rewrite lookup_app_l in Hk by exact Hn''.
    assert (Hki : k <> i).
    { intros ->. apply Hinot. apply list_elem_of_lookup. eauto. }
    rewrite lookup_insert_ne in Hke by congruence.
    exists k, e. split; [exact Hk|]. split; [exact Hke|]. split; [exact Hne|].
    split; [|exact Hgt].
    rewrite Hord, drop_app_le by lia. rewrite <- app_assoc. reflexivity.
Qed.

(** [get] of an index that the cache does not have, with a size limit that
    is positive, makes an entry with a new object and returns it.  It evicts
    the [n] oldest entries, all of them evictable, and no other: it stops
    when the cache is within its limit, with the new entry last in the
    eviction order, or at the first entry that is not evictable, which it
    moves to the end of the order, behind the new entry. *)
Theorem get_miss (s : Cache) i noHit :
  linked s -> cache s !! i = None -> 0 < sizeLimit s < 2 ^ 63 ->
  exists (s' : Cache) (n : nat),
    get evictable newObject i noHit s = (Ok newObject, s') /\
    linked s' /\
    sizeLimit s' = sizeLimit s /\
    (n <= length (evictionOrder s))%nat /\
    cache s' !! i = Some (mkEntry i newObject (if noHit then 0 else 1)) /\
    (forall k, k <> i ->
               cache s' !! k
               = if decide (k ∈ take n (evictionOrder s)) then None else cache s !! k) /\
    (forall k e, k ∈ take n (evictionOrder s) -> cache s !! k = Some e ->
                 evictable (item e) = true) /\
    ((evictionOrder s' = drop n (evictionOrder s) ++ [i] /\
      Z.of_nat (size (cache s')) <= sizeLimit s) \/
     (exists k e,
         evictionOrder s !! n = Some k /\ cache s !! k = Some e /\
         evictable (item e) = false /\
         evictionOrder s' = drop (S n) (evictionOrder s) ++ [i; k] /\
         sizeLimit s < Z.of_nat (size (cache s')))).
Proof. intros Hl Hi Hlim. exact (get_miss_spec s i noHit Hl Hi Hlim). Qed.

(** A cache within a positive size limit, all of whose entries are
    evictable, is within its limit after every [get]. *)
Theorem get_bound (s : Cache) i noHit :
  linked s -> 0 < sizeLimit s < 2 ^ 63 ->
  Z.of_nat (size (cache s)) <= sizeLimit s ->
  (forall k e, cache s !! k = Some e -> evictable (item e) = true) ->
  exists x (s' : Cache),
    get evictable newObject i noHit s = (Ok x, s') /\
    sizeLimit s' = sizeLimit s /\
    Z.of_nat (size (cache s')) <= sizeLimit s'.
Proof.
  intros Hl Hlim Hsize Hall. destruct (cache s !! i) as [e|] eqn:Hi.
  - rewrite (get_hit_run s i noHit e Hl Hi). eexists _, _. split; [reflexivity|].
    cbn [sizeLimit cache]. split; [reflexivity|].
    rewrite map_size_insert_Some by eauto. exact Hsize.
  - destruct (get_miss_spec s i noHit Hl Hi Hlim)
      as (s' & n & Hrun & _ & Hsl & _ & _ & _ & _ & Hend).
    exists newObject, s'. split; [exact Hrun|].
    split; [exact Hsl|]. rewrite Hsl.
    destruct Hend as [[_ Hle]|(k & e & _ & Hke & Hne & _)]; [exact Hle|].
    rewrite (Hall k e Hke) in Hne. discriminate.
Qed.

Lemma linked_create n : linked (create n : Cache).
Proof.
  split; [apply NoDup_nil_2|]. split.
  - intros k. cbn [create evictionOrder cache]. rewrite lookup_empty. split.
    + intros Hk. destruct (not_elem_of_nil _ Hk).
    + intros [? ?]. discriminate.
  - intros k e. cbn [create cache]. rewrite lookup_empty. discriminate.
Qed.

Lemma run_linked c (s s' : Cache) :
  linked s -> run evictable newObject c s = (Ok tt, s') -> linked s'.
Proof.
  intros Hl Hrun. pose proof Hl as (Hnd & Hin & Hidx). destruct c as [n|i|i noHit| |]; cbn [run] in Hrun.
  - unfold setSizeLimit in Hrun. destruct (0 <? n); [|discriminate].
    rewrite bind_ASSERT in Hrun by reflexivity. injection Hrun as <-. exact Hl.
  - apply bind_inv_ok in Hrun as (x & s1 & Hget & Hret). injection Hret as <-.
    unfold getIfExists in Hget. rewrite bind_gets in Hget.
    destruct (cache s !! i) as [e|] eqn:Hi.
    + rewrite bind_modify in Hget. injection Hget as _ <-.
      split; [exact Hnd|]. split; cbn [evictionOrder cache].
      * intros k. rewrite lookup_insert_is_Some, Hin.
        destruct (decide (i = k)) as [->|Hne]; [split; [left; reflexivity | eauto]|].
        split; [intros Hk; right; split; assumption | intros [?|[_ Hk]]; [congruence | exact Hk]].
      * intros k e'. rewrite lookup_insert_Some.
        intros [[<- <-]|[_ Hk]]; [exact (Hidx _ _ Hi) | eauto].
    + injection Hget as _ <-. exact Hl.
  - apply bind_inv_ok in Hrun as (x & s1 & Hget & Hret). injection Hret as <-.
    exact (get_linked s s1 i noHit x Hl Hget).
  - injection Hrun as <-. split; [apply NoDup_nil_2|]. split; cbn [evictionOrder cache].
    + intros k. rewrite lookup_empty. split.
      * intros Hk. destruct (not_elem_of_nil _ Hk).
      * intros [? ?]. discriminate.
    + intros k e. rewrite lookup_empty. discriminate.
  - apply bind_inv_ok in Hrun as (x & s1 & Hcount & Hret). injection Hret as <-.
    unfold count in Hcount. rewrite bind_gets in Hcount.
    destruct (bool_decide _); [|discriminate].
    rewrite bind_ASSERT in Hcount by reflexivity. injection Hcount as _ <-. exact Hl.
Qed.

Lemma setItem_linked i x (s : Cache) : linked s -> linked (setItem i x s).
Proof.
  intros (Hnd & Hin & Hidx). split; [exact Hnd|]. split; cbn [setItem evictionOrder cache].
  - intros k. rewrite Hin. destruct (decide (i = k)) as [->|Hne].
    + rewrite lookup_alter_eq. rewrite fmap_is_Some. reflexivity.
    + rewrite lookup_alter_ne by exact Hne. reflexivity.
  - intros k e. destruct (decide (i = k)) as [->|Hne].
    + rewrite lookup_alter_eq. destruct (cache s !! k) as [e0|] eqn:Hk; [|discriminate].
      cbn [fmap option_fmap option_map]. intros [= <-]. exact (Hidx _ _ Hk).
    + rewrite lookup_alter_ne by exact Hne. apply Hidx.
Qed.

Lemma reachable_is_linked (s : Cache) : reachable evictable newObject s -> linked s.
Proof.
  induction 1 as [n|c s s' _ IH Hrun|i x s _ IH].
  - apply linked_create.
  - exact (run_linked c s s' IH Hrun).
  - exact (setItem_linked i x s IH).
Qed.

(** In every state that calls of the cache and writes to its items make of a
    new cache, the eviction order lists the entries of the cache, each once,
    every entry is kept under its own index, and [count()] passes its
    assertion and returns the number of entries. *)
Theorem reachable_count (s : Cache) :
  reachable evictable newObject s ->
  linked s /\
  length (evictionOrder s) = size (cache s) /\
  (Z.of_nat (size (cache s)) <= INT_MAX ->
   count s = (Ok (Z.of_nat (size (cache s))), s)).
Proof.
  intros Hr. pose proof (reachable_is_linked s Hr) as Hl. split; [exact Hl|].
  pose proof (length_linked _ _ (proj1 Hl) (proj1 (proj2 Hl))) as Hlen.
  split; [exact Hlen|]. intros Hmax.
  unfold count. rewrite bind_gets, bool_decide_eq_true_2 by exact Hlen.
  rewrite bind_ASSERT by reflexivity. rewrite Hlen, int32_fits; [reflexivity|].
  unfold INT_MAX in Hmax. lia.
Qed.
End Facts.

Lemma onePage_reachable :
  reachable (fun b : bool => b) true Examples.onePage.
Proof.
  apply (reachable_call _ _ (CallGet 1 false) (create 2)); [apply reachable_create|].
  reflexivity.
Qed.

Lemma onePage_linked : linked Examples.onePage.
Proof. exact (reachable_is_linked _ _ _ onePage_reachable). Qed.

Lemma get_hit_witness :
  exists s' : @ObjectCache.t Z _ _ bool,
    get (fun b : bool => b) true 1 false Examples.onePage
    = (Ok (item (mkEntry 1 true 1)), s') /\
    linked s' /\
    cache s' !! 1 = Some (mkEntry 1 (item (mkEntry 1 true 1))
                            (if false then hits (mkEntry 1 true 1)
                             else int32 (hits (mkEntry 1 true 1) + 1))) /\
    (forall k, k <> 1 -> cache s' !! k = cache Examples.onePage !! k) /\
    evictionOrder s' = unlink 1 (evictionOrder Examples.onePage) ++ [1] /\
    size (cache s') = size (cache Examples.onePage).
Proof.
  apply (get_hit (fun b : bool => b) true Examples.onePage 1 false (mkEntry 1 true 1)).
  - exact onePage_linked.
  - reflexivity.
Defined.

Lemma get_miss_witness :
  exists (s' : @ObjectCache.t Z _ _ bool) (n : nat),
    get (fun b : bool => b) true 2 false Examples.onePage = (Ok true, s') /\
    linked s' /\
    sizeLimit s' = sizeLimit Examples.onePage /\
    (n <= length (evictionOrder Examples.onePage))%nat /\
    cache s' !! 2 = Some (mkEntry 2 true (if false then 0 else 1)) /\
    (forall k, k <> 2 ->
               cache s' !! k
               = if decide (k ∈ take n (evictionOrder Examples.onePage)) then None
                 else cache Examples.onePage !! k) /\
    (forall k e, k ∈ take n (evictionOrder Examples.onePage) ->
                 cache Examples.onePage !! k = Some e -> item e = true) /\
    ((evictionOrder s' = drop n (evictionOrder Examples.onePage) ++ [2] /\
      Z.of_nat (size (cache s')) <= sizeLimit Examples.onePage) \/
     (exists k e,
         evictionOrder Examples.onePage !! n = Some k /\
         cache Examples.onePage !! k = Some e /\
         item e = false /\
         evictionOrder s' = drop (S n) (evictionOrder Examples.onePage) ++ [2; k] /\
         sizeLimit Examples.onePage < Z.of_nat (size (cache s')))).
Proof.
  apply (get_miss (fun b : bool => b) true Examples.onePage 2 false).
  - exact onePage_linked.
  - reflexivity.
  - simpl. lia.
Defined.

Lemma get_bound_witness :
  exists x (s' : @ObjectCache.t Z _ _ bool),
    get (fun b : bool => b) true 2 false Examples.onePage = (Ok x, s') /\
    sizeLimit s' = sizeLimit Examples.onePage /\
    Z.of_nat (size (cache s')) <= sizeLimit s'.
Proof.
  apply (get_bound (fun b : bool => b) true Examples.onePage 2 false).
  - exact onePage_linked.
  - simpl. lia.
  - vm_compute. discriminate.
  - intros k e Hk. unfold Examples.onePage in Hk. cbn [cache] in Hk.
    apply lookup_singleton_Some in Hk as [_ <-]. reflexivity.
Defined.

Lemma reachable_count_witness :
  linked Examples.onePage /\
  length (evictionOrder Examples.onePage) = size (cache Examples.onePage) /\
  (Z.of_nat (size (cache Examples.onePage)) <= INT_MAX ->
   count Examples.onePage
   = (Ok (Z.of_nat (size (cache Examples.onePage))), Examples.onePage)).
Proof.
  apply (reachable_count (fun b : bool => b) true Examples.onePage).
  exact onePage_reachable.
Defined.
End ObjectCacheFacts.

(** ** DWAL pager: a commit and the recovery after it *)
Module DWALPagerDurability.
Import DWALPager DWALPagerFacts DWALPagerCommit DWALPagerRecovery.

Lemma fileKept_refl s : fileKept s s.
Proof. repeat split; auto. lia. Qed.

Lemma fileKept_trans a b c : fileKept a b -> fileKept b c -> fileKept a c.
Proof. intros (H1 & H2 & H3) (H4 & H5 & H6). repeat split; auto. lia. Qed.

Lemma fileKept_same s s' : pageFile s' = pageFile s -> fileKept s s'.
Proof. intros E. unfold fileKept. rewrite E. repeat split; auto. lia. Qed.

Lemma nextFault_keeps f b f' :
  AsyncFile.nextFault f = (Ok b, f') ->
  AsyncFile.exists_ f' = AsyncFile.exists_ f /\ AsyncFile.size f' = AsyncFile.size f /\
  AsyncFile.writeError f' = AsyncFile.writeError f.
Proof.
  unfold AsyncFile.nextFault. destruct (AsyncFile.faults f); intros E; inversion E; auto.
Qed.

Lemma file_read_keeps id hdr f r f' :
  AsyncFile.read id hdr f = (r, f') ->
  AsyncFile.exists_ f' = AsyncFile.exists_ f /\ AsyncFile.size f' = AsyncFile.size f /\
  AsyncFile.writeError f' = AsyncFile.writeError f /\
  AsyncFile.blocks f' = AsyncFile.blocks f /\
  (forall p, r = Ok p -> p = default Page.unread (AsyncFile.blocks f !! id)).
Proof.
  unfold AsyncFile.read. rewrite bind_modify.
  destruct (nextFault_ok (AsyncFile.record (EvRead id hdr) f)) as (b & f1 & Hf).
  erewrite bind_ok by exact Hf. pose proof (nextFault_log _ _ _ Hf) as [_ Hb].
  apply nextFault_keeps in Hf as (He & Hs & Hw).
  destruct b; intros E; inversion E; subst; rewrite ?He, ?Hs, ?Hw, ?Hb; cbn.
  - repeat split; auto. discriminate.
  - repeat split; auto. intros p [= <-]. reflexivity.
Qed.

Lemma file_write_keeps id hdr bs p f r f' :
  AsyncFile.write id hdr bs p f = (r, f') ->
  (AsyncFile.writeError f = true -> AsyncFile.writeError f' = true) /\
  (AsyncFile.exists_ f = true -> AsyncFile.exists_ f' = true) /\
  AsyncFile.size f <= AsyncFile.size f' /\
  (r = Ok true /\ AsyncFile.exists_ f' = true /\ (id + 1) * bs <= AsyncFile.size f'
   \/ r = Ok false /\ AsyncFile.writeError f' = true).
Proof.
  unfold AsyncFile.write. rewrite bind_modify.
  destruct (nextFault_ok (AsyncFile.record (EvWrite id hdr) f)) as (b & f1 & Hf).
  erewrite bind_ok by exact Hf. apply nextFault_keeps in Hf as (He & Hs & Hw).
  destruct b; rewrite bind_modify; intros E; inversion E; subst; cbn;
    rewrite ?He, ?Hs, ?Hw; cbn.
  - split; [auto|]. split; [auto|]. split; [lia|]. right. split; reflexivity.
  - split; [auto|]. split; [auto|]. split; [lia|]. left.
    split; [reflexivity|]. split; [reflexivity|]. lia.
Qed.

Lemma writePhysicalPage_keeps id page hdr s r s' :
  writePhysicalPage id page hdr s = (r, s') ->
  fileKept s s' /\
  (r = Ok true /\ AsyncFile.exists_ (pageFile s') = true /\
   (id + 1) * (if hdr then smallestPhysicalBlock else physicalPageSize s)
   <= AsyncFile.size (pageFile s')
   \/ r = Ok false /\ AsyncFile.writeError (pageFile s') = true).
Proof.
  unfold writePhysicalPage. rewrite bind_gets. intros E.
  apply liftL_pageFile_inv in E as (f & Hw & ->).
  apply file_write_keeps in Hw as (H1 & H2 & H3 & H4). cbn. repeat split; auto.
Qed.

Lemma readPhysicalPage_fileKept id hdr : preserves fileKept (readPhysicalPage id hdr).
Proof.
  assert (Hrd : preserves fileKept (liftL pageFileL (AsyncFile.read id hdr))).
  { intros s r s' E. apply liftL_pageFile_inv in E as (f & Hr & ->).
    apply file_read_keeps in Hr as (He & Hs & Hw & _). unfold fileKept. cbn.
    rewrite He, Hs, Hw. repeat split; auto. lia. }
  pose proof fileKept_refl. pose proof fileKept_trans.
  unfold readPhysicalPage. preserves_steps.
Qed.

Lemma writePhysicalPage_fileKept id d hdr : preserves fileKept (writePhysicalPage id d hdr).
Proof. intros s r s' E. apply writePhysicalPage_keeps in E as [H _]. exact H. Qed.

Lemma flushQueues_fileKept fuel : preserves fileKept (flushQueues fuel).
Proof.
  apply DWALPagerFrame.flushQueues_preserves;
    first [ exact fileKept_refl | exact fileKept_trans
          | intros id; exact (readPhysicalPage_fileKept id false)
          | intros id d; exact (writePhysicalPage_fileKept id d false)
          | intros x s; apply fileKept_same; reflexivity ].
Qed.

Lemma file_sync_keeps f u f' :
  AsyncFile.sync f = (Ok u, f') ->
  AsyncFile.exists_ f' = AsyncFile.exists_ f /\ AsyncFile.size f' = AsyncFile.size f /\
  AsyncFile.writeError f' = AsyncFile.writeError f.
Proof.
  unfold AsyncFile.sync.
  destruct (nextFault_ok f) as (b & f1 & Hf).
  erewrite bind_ok by exact Hf. apply nextFault_keeps in Hf as (He & Hs & Hw).
  destruct b; intros E; inversion E; subst; cbn; auto.
Qed.

Lemma file_signalAndCollapse_keeps f u f' :
  AsyncFile.signalAndCollapse f = (Ok u, f') ->
  AsyncFile.exists_ f' = AsyncFile.exists_ f /\ AsyncFile.size f' = AsyncFile.size f /\
  AsyncFile.writeError f = false.
Proof.
  unfold AsyncFile.signalAndCollapse. rewrite bind_gets.
  destruct (AsyncFile.writeError f); intros E; inversion E; subst; cbn; auto.
Qed.

Lemma file_awaitWrite_keeps id c f u f' :
  AsyncFile.awaitWrite id c f = (Ok u, f') ->
  AsyncFile.exists_ f' = AsyncFile.exists_ f /\ AsyncFile.size f' = AsyncFile.size f.
Proof.
  unfold AsyncFile.awaitWrite.
  destruct c; intros E; inversion E; subst; cbn; auto.
Qed.

Lemma commit_file fuel s s' :
  commit fuel s = (Ok tt, s') ->
  AsyncFile.exists_ (pageFile s') = true /\
  smallestPhysicalBlock * 2 <= AsyncFile.size (pageFile s') /\
  AsyncFile.blocks (pageFile s') !! 0
  = Some (Page.updateChecksum 0 (Page.fresh (PageHeader (pLastCommittedHeader s')))).
Proof.
  intros E. pose proof (commit_inv _ _ _ E) as (h & W & _ & Hh & _ & _ & _ & Hb).
  rewrite Hh. split; [|split; [|exact Hb]]; clear Hb Hh.
  all: unfold commit, commit_impl in E; run_inv E.
  all: apply writePhysicalPage_keeps in H as (_ & Hw1).
  all: apply flushQueues_fileKept in H0 as (Hk1 & Hk2 & Hk3).
  all: apply modifyHeader_inv in H1 as (h1 & Hh1 & ->).
  all: apply liftL_pageFile_inv in H2 as (f2 & H2 & ->).
  all: apply file_signalAndCollapse_keeps in H2 as (He2 & Hs2 & Hw2).
  all: apply liftL_pageFile_inv in H3 as (f3 & H3 & ->).
  all: apply file_sync_keeps in H3 as (He3 & Hs3 & _).
  all: apply header_inv in H4 as [-> Hh4].
  all: apply writePhysicalPage_keeps in H5 as ((_ & Hk5 & Hk6) & _).
  all: apply liftL_pageFile_inv in H6 as (f6 & H6 & ->).
  all: apply file_awaitWrite_keeps in H6 as (He6 & Hs6).
  all: apply liftL_pageFile_inv in H7 as (f7 & H7 & ->).
  all: apply file_sync_keeps in H7 as (He7 & Hs7 & _).
  all: apply updateCommittedHeader_inv in H8 as (h8 & Hh8 & ->).
  all: apply header_inv in H9 as [-> Hh9].
  all: cbn in *.
  all: destruct Hw1 as [(_ & Hex & Hsz)|(_ & Hwe)];
    [|rewrite (Hk1 Hwe) in Hw2; discriminate].
  - rewrite He7, He6. apply Hk5. rewrite He3, He2. apply Hk2. exact Hex.
  - rewrite Hs7, Hs6. cbn in Hsz. unfold smallestPhysicalBlock in *. lia.
Qed.

Lemma readHeaderPage_inv id s p s' :
  readHeaderPage id s = (Ok p, s') ->
  p = default Page.unread (AsyncFile.blocks (pageFile s) !! id) /\
  exists f, s' = set_pageFile f s.
Proof.
  unfold readHeaderPage, readPhysicalPage. intros E. run_inv E.
  apply liftL_pageFile_inv in H as (f & Hr & ->).
  apply file_read_keeps in Hr as (_ & _ & _ & _ & Hp).
  cbn [negb andb] in E. apply ret_inv in E as [[= <-] ->].
  split; [apply Hp; reflexivity | eauto].
Qed.

Lemma recover_page0 desired file sim fuel s' :
  AsyncFile.exists_ file = true ->
  smallestPhysicalBlock * 2 <= AsyncFile.size file ->
  Page.verifyChecksum 0 (default Page.unread (AsyncFile.blocks file !! 0)) = true ->
  recover fuel (construct desired file sim) = (Ok tt, s') ->
  recoveredFrom (default Page.unread (AsyncFile.blocks file !! 0)) s'.
Proof.
  intros Hex Hsz Hv E.
  unfold recover in E. rewrite bind_gets in E.
  cbn [construct pageFile] in E. rewrite Hex in E.
  apply Z.leb_le in Hsz. rewrite Hsz in E. cbn [andb] in E.
  erewrite bind_ok in E by apply setPageSize_run.
  apply bind_inv_ok in E as (page0 & s2 & Hread & E).
  apply readHeaderPage_inv in Hread as (-> & f2 & ->).
  cbn [pageFile set_pHeader set_pageSizes construct] in E, Hv.
  rewrite Hv in E. cbn [negb] in E. rewrite bind_ret in E.
  cbv beta iota in E.
  set (page0 := default Page.unread (AsyncFile.blocks file !! 0)) in *.
  run_inv E.
  match goal with
  | H : (if negb ?c then _ else _) _ = _ |- _ =>
      destruct c eqn:Hfmt; cbn [negb] in H; [|discriminate H];
      apply ret_inv in H as [_ ->]
  end.
  apply Z.eqb_eq in Hfmt.
  match goal with
  | H : FIFOQueue.peekAll_impl _ _ _ _ _ = _ |- _ =>
      pose proof (peekAll_sameHeaders (T := RemappedPage.t) remapQueueL fuel
                    (or_intror (or_intror eq_refl)) _ _ _ H) as (Hp1 & Hp2 & Hp3)
  end.
  cbn in Hp1, Hp2, Hp3.
  match goal with
  | H : updateCommittedHeader _ = _ |- _ =>
      apply updateCommittedHeader_inv in H as (h8 & Hh8 & ->)
  end.
  unfold addLatestSnapshot in E. apply modify_inv in E as [_ ->].
  rewrite set_pageSize_same in Hp1.
  cbn in *. rewrite Hp1 in Hh8. injection Hh8 as <-.
  split; [exact Hfmt|]. split; [exact Hp1|]. split; [reflexivity|].
  rewrite Hp3. reflexivity.
Qed.

Lemma verifyChecksum_updateChecksum id p :
  Page.verifyChecksum id (Page.updateChecksum id p) = true.
Proof. unfold Page.verifyChecksum, Page.updateChecksum. apply bool_decide_eq_true_2. reflexivity. Qed.

(** Durability of a commit: when a commit has returned, a pager that is
    opened on the file as the commit left it, and whose recovery returns,
    has the header of that commit as its header and as its last committed
    header, and one snapshot, of the committed version and meta key.  The
    header is taken from page 0; the backup on page 1 is not needed. *)
Theorem commit_then_recover (fuel fuel' : nat) (s s1 s2 : t) (desired : Z) (sim : bool) :
  commit fuel s = (Ok tt, s1) ->
  recover fuel' (construct desired (pageFile s1) sim) = (Ok tt, s2) ->
  pHeader s1 = Some (pLastCommittedHeader s1) /\
  pHeader s2 = Some (pLastCommittedHeader s1) /\
  pLastCommittedHeader s2 = pLastCommittedHeader s1 /\
  snapshots s2 = [SnapshotEntry.mk (Header.committedVersion (pLastCommittedHeader s1))
                    (Header.metaKey (pLastCommittedHeader s1)) 1] /\
  Header.formatVersion (pLastCommittedHeader s1) = Header.FORMAT_VERSION.
Proof.
  intros Hcommit Hrecover.
  pose proof (commit_inv _ _ _ Hcommit) as (h & _ & Hh & Hlast & _).
  destruct (commit_file _ _ _ Hcommit) as (Hex & Hsz & Hb0).
  assert (Hpage : default Page.unread (AsyncFile.blocks (pageFile s1) !! 0)
                  = Page.updateChecksum 0 (Page.fresh (PageHeader (pLastCommittedHeader s1)))).
  { rewrite Hb0. reflexivity. }
  pose proof (recover_page0 desired (pageFile s1) sim fuel' s2 Hex Hsz) as Hrec.
  rewrite Hpage in Hrec.
  destruct (Hrec (verifyChecksum_updateChecksum _ _) Hrecover) as (Hfmt & Hp & Hl & Hsn).
  cbn [Page.updateChecksum Page.content Page.fresh asHeader] in Hfmt, Hp, Hl, Hsn.
  split; [rewrite Hh, Hlast; reflexivity|]. split; [exact Hp|]. split; [exact Hl|].
  split; [exact Hsn | exact Hfmt].
Qed.

(** The theorem at work on the first commit of a new pager and the pager
    opened on its file afterwards. *)
Lemma commit_then_recover_witness :
  pHeader Examples.committed = Some (pLastCommittedHeader Examples.committed) /\
  pHeader Examples.reopened = Some (pLastCommittedHeader Examples.committed) /\
  pLastCommittedHeader Examples.reopened = pLastCommittedHeader Examples.committed /\
  snapshots Examples.reopened
  = [SnapshotEntry.mk (Header.committedVersion (pLastCommittedHeader Examples.committed))
       (Header.metaKey (pLastCommittedHeader Examples.committed)) 1] /\
  Header.formatVersion (pLastCommittedHeader Examples.committed) = Header.FORMAT_VERSION.
Proof.
  exact (commit_then_recover 10 10 Examples.opened Examples.committed Examples.reopened
           4096 false ltac:(vm_compute; reflexivity) ltac:(vm_compute; reflexivity)).
Defined.
End DWALPagerDurability.

(** ** The order of a FIFO queue *)
Module FIFOQueueOrder.
Import FIFOQueue FIFOQueueContent.

(** the fields of a queue or cursor record that is written out *)
Ltac fields :=
  cbv [set_numPages set_numEntries set_headReader set_tailWriter set_headWriter
       set_newTailPage numPages numEntries dataBytesPerPage headReader tailWriter
       headWriter newTailPage
       Cursor.set_pageID Cursor.set_firstPageIDWritten Cursor.set_offset
       Cursor.set_endPageID Cursor.set_page Cursor.set_operation
       Cursor.mode Cursor.pageID Cursor.firstPageIDWritten Cursor.offset
       Cursor.endPageID Cursor.page Cursor.operation].
Ltac fields_in H :=
  cbv [set_numPages set_numEntries set_headReader set_tailWriter set_headWriter
       set_newTailPage numPages numEntries dataBytesPerPage headReader tailWriter
       headWriter newTailPage
       Cursor.set_pageID Cursor.set_firstPageIDWritten Cursor.set_offset
       Cursor.set_endPageID Cursor.set_page Cursor.set_operation
       Cursor.mode Cursor.pageID Cursor.firstPageIDWritten Cursor.offset
       Cursor.endPageID Cursor.page Cursor.operation] in H.

(** *** Reading *)
Section ReadSide.
Context {S T R : Type} `{FIFOQueueCodec T}.
Variable qL : Lens S FIFOQueue.t.
Variable cL : Lens S Cursor.t.
Variable readPage : LogicalPageID -> bool -> M S IPage.
Variable freePage : LogicalPageID -> Version -> M S unit.
Variable pages : S -> gmap LogicalPageID IPage.
Variable alloc : S -> gset LogicalPageID.
(** what a read leaves as it is *)
Variable rest : S -> R.
Hypothesis view_over_cL : forall f s, view cL (over cL f s) = f (view cL s).
Hypothesis pages_over_cL : forall f s, pages (over cL f s) = pages s.
Hypothesis pages_over_qL : forall f s, pages (over qL f s) = pages s.
Hypothesis alloc_over_cL : forall f s, alloc (over cL f s) = alloc s.
Hypothesis alloc_over_qL : forall f s, alloc (over qL f s) = alloc s.
Hypothesis rest_over_cL : forall f s, rest (over cL f s) = rest s.
Hypothesis rest_numEntries :
  forall s, rest (over qL (fun q => set_numEntries (numEntries q - 1) q) s) = rest s.
Hypothesis rest_numPages :
  forall s, rest (over qL (fun q => set_numPages (numPages q - 1) q) s) = rest s.
Hypothesis view_cL_over_qL :
  forall g s, (forall q, headReader (g q) = headReader q) -> view cL (over qL g s) = view cL s.
Hypothesis readPage_spec :
  forall id c s p, pages s !! id = Some p ->
    exists s', readPage id c s = (Ok p, s') /\ view cL s' = view cL s /\
               pages s' = pages s /\ alloc s' = alloc s /\ rest s' = rest s.
Hypothesis freePage_spec :
  forall id v s,
    exists s', freePage id v s = (Ok tt, s') /\ view cL s' = view cL s /\
               pages s' = pages s /\ alloc s ∖ {[id]} ⊆ alloc s' /\ rest s' = rest s.
Hypothesis codec_roundtrip : forall x : T, readFromBytes (writeToBytes x) = x.
Hypothesis codec_size : forall x : T, 0 < bytesNeeded x.

Lemma layout_end (p : RawPage.t) off (l : list T) :
  layout p off l -> RawPage.endOffset p = off + bytesOfItems l.
Proof using Type.
  revert off. induction l as [|x l IH]; intros off; cbn [layout bytesOfItems foldr].
  - intros ->. lia.
  - intros [_ Hl]. rewrite (IH _ Hl). unfold bytesOfItems. lia.
Qed.

Lemma bytesOfItems_nonneg (l : list T) : 0 <= bytesOfItems l.
Proof using codec_size.
  induction l as [|x l IH]; cbn [bytesOfItems foldr]; [lia|].
  pose proof (codec_size x). unfold bytesOfItems in IH. lia.
Qed.

Lemma readNext_nil A endOff upperBound s :
  Cursor.mode (view cL s) = POP \/ Cursor.mode (view cL s) = READONLY ->
  holds (T := T) A (pages s) (view cL s) endOff [] ->
  readNext (T := T) qL cL readPage freePage upperBound s = (Ok None, s).
Proof using Type.
  intros Hm [[Hh _] _]. unfold readNext. rewrite bind_gets.
  rewrite bool_decide_eq_false_2 by (destruct Hm as [-> | ->]; discriminate).
  unfold readNext_impl. rewrite bind_gets.
  rewrite bind_ASSERT
    by (destruct Hm as [-> | ->]; reflexivity).
  rewrite Hh, Z.eqb_refl, orb_true_r. reflexivity.
Qed.

Lemma readNext_cons A endOff upperBound s (x : T) (g : list T) (gs : list (list T)) :
  Cursor.mode (view cL s) = POP \/ Cursor.mode (view cL s) = READONLY ->
  holds A (pages s) (view cL s) endOff ((x :: g) :: gs) ->
  exists s',
    readNext qL cL readPage freePage upperBound s
      = (Ok (if exceeds upperBound x then None else Some x), s') /\
    pages s' = pages s /\
    rest s' = rest s /\
    Cursor.mode (view cL s') = Cursor.mode (view cL s) /\
    Cursor.endPageID (view cL s') = Cursor.endPageID (view cL s) /\
    if exceeds upperBound x
    then holds A (pages s') (view cL s') endOff ((x :: g) :: gs) /\ alloc s' = alloc s
    else
      match g with
      | [] => holds (A ∖ {[Cursor.pageID (view cL s)]}) (pages s') (view cL s') endOff gs /\
              alloc s ∖ {[Cursor.pageID (view cL s)]} ⊆ alloc s'
      | _ :: _ => holds A (pages s') (view cL s') endOff (g :: gs) /\ alloc s' = alloc s
      end.
Proof using All.
  intros Hm [(_ & Hvalid & Hne & HinA & p & Hpg & Hlay & Hchain) Hbuf].
  pose proof (layout_end _ _ _ Hlay) as Hend.
  destruct Hlay as [Hdata Hrest].
  pose proof (bytesOfItems_nonneg g) as Hl0.
  pose proof (codec_size x) as Hx0.
  cbn [bytesOfItems foldr] in Hend. fold (bytesOfItems g) in Hend.
  unfold readNext. rewrite bind_gets.
  rewrite bool_decide_eq_false_2 by (destruct Hm as [-> | ->]; discriminate).
  unfold readNext_impl. rewrite bind_gets.
  rewrite bind_ASSERT by (destruct Hm as [-> | ->]; reflexivity).
  replace (Cursor.pageID (view cL s) =? invalidLogicalPageID) with false
    by (symmetry; apply Z.eqb_neq; exact Hvalid).
  replace (Cursor.pageID (view cL s) =? Cursor.endPageID (view cL s)) with false
    by (symmetry; apply Z.eqb_neq; exact Hne).
  cbn [orb].
  (* the page is in the cursor, loaded now or before *)
  assert (exists s1,
    (match Cursor.page (view cL s) with None => loadPage cL readPage | Some _ => ret tt end) s
      = (Ok tt, s1) /\
    view cL s1 = Cursor.set_page (Some p) (view cL s) /\ pages s1 = pages s /\
    alloc s1 = alloc s /\ rest s1 = rest s)
    as (s1 & Hload & Hc1 & Hp1 & Ha1 & Hr1).
  { destruct (Cursor.page (view cL s)) as [p0|] eqn:Hpage.
    - exists s. split; [reflexivity|]. split; [|auto].
      destruct (Hbuf p0 eq_refl) as [_ Hp0]. rewrite Hpg in Hp0. injection Hp0 as <-.
      destruct (view cL s); cbn in *. now rewrite Hpage.
    - unfold loadPage. rewrite bind_gets.
      destruct (readPage_spec (Cursor.pageID (view cL s)) true s _ Hpg)
        as (s0 & Hrd & Hc0 & Hp0 & Ha0 & Hr0).
      rewrite (bind_ok _ _ _ _ _ Hrd). cbn [asRawPage].
      eexists. split; [reflexivity|].
      rewrite view_over_cL, pages_over_cL, alloc_over_cL, rest_over_cL, Hc0, Hp0.
      auto. }
  rewrite (bind_ok _ _ _ _ _ Hload). rewrite bind_gets, Hc1.
  cbn [Cursor.page Cursor.set_page Cursor.offset Cursor.mode Cursor.pageID default from_option id].
  rewrite bind_ASSERT by (apply Z.ltb_lt; lia).
  rewrite Hdata. cbn [default from_option id]. rewrite codec_roundtrip.
  destruct (exceeds upperBound x).
  { (* the item is past the upper bound: nothing is read *)
    exists s1. split; [reflexivity|].
    rewrite Hc1, Hp1. cbn [Cursor.mode Cursor.endPageID Cursor.set_page].
    split; [reflexivity|]. split; [exact Hr1|]. split; [reflexivity|].
    split; [reflexivity|]. split; [|exact Ha1].
    split.
    - cbn [Cursor.pageID Cursor.offset Cursor.endPageID Cursor.set_page chain].
      split; [discriminate|]. split; [exact Hvalid|]. split; [exact Hne|].
      split; [exact HinA|]. exists p. cbn [layout]. auto.
    - cbn [Cursor.page Cursor.pageID Cursor.set_page]. intros p0 Hp0. injection Hp0 as <-.
      split; [discriminate | exact Hpg]. }
  rewrite bind_modify.
  set (off' := Cursor.offset (view cL s) + bytesNeeded x).
  set (s2 := over cL (Cursor.set_offset off') s1).
  assert (Hc2 : view cL s2 = Cursor.set_offset off' (Cursor.set_page (Some p) (view cL s)))
    by (unfold s2; rewrite view_over_cL, Hc1; reflexivity).
  assert (Hp2 : pages s2 = pages s) by (unfold s2; rewrite pages_over_cL; exact Hp1).
  assert (Ha2 : alloc s2 = alloc s) by (unfold s2; rewrite alloc_over_cL; exact Ha1).
  assert (Hr2 : rest s2 = rest s) by (unfold s2; rewrite rest_over_cL; exact Hr1).
  clearbody s2. clear Hload Hc1 Hp1 Ha1 Hr1 s1.
  (* the entry count of a pop *)
  assert (exists s3,
    (if bool_decide (Cursor.mode (view cL s) = POP)
     then modify (over qL (fun q => set_numEntries (numEntries q - 1) q))
     else ret tt) s2 = (Ok tt, s3) /\
    view cL s3 = view cL s2 /\ pages s3 = pages s2 /\ alloc s3 = alloc s2 /\
    rest s3 = rest s2) as (s3 & Hcnt & Hc3 & Hp3 & Ha3 & Hr3).
  { destruct (bool_decide _).
    - eexists. split; [reflexivity|]. rewrite pages_over_qL, alloc_over_qL, rest_numEntries.
      split; [|auto]. apply view_cL_over_qL. reflexivity.
    - exists s2. auto. }
  rewrite (bind_ok _ _ _ _ _ Hcnt).
  rewrite Hc2 in Hc3. rewrite Hp2 in Hp3. rewrite Ha2 in Ha3. rewrite Hr2 in Hr3.
  clear Hcnt Hc2 Hp2 Ha2 Hr2 s2.
  rewrite bind_ASSERT by (apply Z.leb_le; lia).
  destruct g as [|y g].
  - (* the last item of the page: on to the next page *)
    cbn [layout] in Hrest. fold off' in Hrest.
    rewrite <- Hrest, Z.eqb_refl.
    rewrite bind_assoc, bind_modify.
    set (s4 := over cL _ s3).
    assert (Hc4 : view cL s4 =
              Cursor.set_page None
                (Cursor.set_offset (RawPage.nextOffset p)
                   (Cursor.set_pageID (RawPage.nextPageID p)
                      (Cursor.set_offset off' (Cursor.set_page (Some p) (view cL s))))))
      by (unfold s4; rewrite view_over_cL, Hc3; reflexivity).
    assert (Hp4 : pages s4 = pages s) by (unfold s4; rewrite pages_over_cL; exact Hp3).
    assert (Ha4 : alloc s4 = alloc s) by (unfold s4; rewrite alloc_over_cL; exact Ha3).
    assert (Hr4 : rest s4 = rest s) by (unfold s4; rewrite rest_over_cL; exact Hr3).
    clearbody s4.
    assert (exists s5,
      (if bool_decide (Cursor.mode (view cL s) = POP)
       then modify (over qL (fun q => set_numPages (numPages q - 1) q));;;
            freePage (Cursor.pageID (view cL s)) 0
       else ret tt) s4 = (Ok tt, s5) /\
      view cL s5 = view cL s4 /\ pages s5 = pages s4 /\
      alloc s4 ∖ {[Cursor.pageID (view cL s)]} ⊆ alloc s5 /\ rest s5 = rest s4)
      as (s5 & Hfree & Hc5 & Hp5 & Ha5 & Hr5).
    { destruct (bool_decide _).
      - rewrite bind_modify.
        destruct (freePage_spec (Cursor.pageID (view cL s)) 0
                    (over qL (fun q => set_numPages (numPages q - 1) q) s4))
          as (s5 & Hfree & Hc5 & Hp5 & Ha5 & Hr5).
        exists s5. split; [exact Hfree|].
        rewrite Hc5, Hp5, Hr5, pages_over_qL, rest_numPages,
          (view_cL_over_qL (fun q => set_numPages (numPages q - 1) q) s4 (fun _ => eq_refl)).
        rewrite alloc_over_qL in Ha5. auto.
      - exists s4. split; [reflexivity|]. split; [reflexivity|]. split; [reflexivity|].
        split; [|reflexivity]. apply subseteq_difference_l. reflexivity. }
    rewrite (bind_ok _ _ _ _ _ Hfree).
    exists s5. split; [reflexivity|].
    rewrite Hc5, Hp5, Hr5, Hc4, Hp4, Hr4. rewrite Ha4 in Ha5. cbn.
    split; [reflexivity|]. split; [reflexivity|]. split; [reflexivity|].
    split; [reflexivity|]. split; [|exact Ha5].
    split; [exact Hchain|]. discriminate.
  - (* more items on the page *)
    pose proof (layout_end _ _ _ Hrest) as Hend'.
    pose proof (codec_size y) as Hy0.
    pose proof (bytesOfItems_nonneg g) as Hl0'.
    cbn [bytesOfItems foldr] in Hend'. fold (bytesOfItems g) in Hend'.
    fold off' in Hrest, Hend'.
    replace (off' =? RawPage.endOffset p) with false
      by (symmetry; apply Z.eqb_neq; lia).
    rewrite bind_ret. exists s3. split; [reflexivity|].
    rewrite Hc3, Hp3. cbn [Cursor.mode Cursor.endPageID Cursor.set_offset Cursor.set_page].
    split; [reflexivity|]. split; [exact Hr3|]. split; [reflexivity|].
    split; [reflexivity|]. split; [|exact Ha3].
    split.
    + cbn [Cursor.pageID Cursor.offset Cursor.endPageID chain].
      split; [discriminate|]. split; [exact Hvalid|]. split; [exact Hne|].
      split; [exact HinA|]. exists p. auto.
    + cbn [Cursor.page Cursor.pageID]. intros p0 Hp0. injection Hp0 as <-.
      split; [discriminate | exact Hpg].
Qed.
End ReadSide.

(** *** Chains of pages *)
Section Chains.
Context {T : Type} `{FIFOQueueCodec T}.
Hypothesis codec_size : forall x : T, 0 < bytesNeeded x.

Lemma bytesOfItems_app (l k : list T) : bytesOfItems (l ++ k) = bytesOfItems l + bytesOfItems k.
Proof using Type.
  unfold bytesOfItems. induction l as [|x l IH]; cbn [app foldr]; [reflexivity|].
  rewrite IH. lia.
Qed.

Lemma bytesOfItems_pos (l : list T) : l <> [] -> 0 < bytesOfItems l.
Proof using codec_size.
  destruct l as [|x l]; [congruence|]. intros _.
  pose proof (codec_size x). pose proof (bytesOfItems_nonneg codec_size l).
  cbn [bytesOfItems foldr]. fold (bytesOfItems l). lia.
Qed.

Lemma layout_frame (p p' : RawPage.t) off (l : list T) :
  RawPage.data p' = RawPage.data p -> RawPage.endOffset p' = RawPage.endOffset p ->
  layout p off l -> layout p' off l.
Proof using Type.
  intros Hd He. revert off. induction l as [|x l IH]; intros off; cbn [layout].
  - now rewrite He.
  - rewrite Hd. intros [? ?]. split; [assumption|]. now apply IH.
Qed.

(** an item written behind the items of a page *)
Lemma layout_snoc (p : RawPage.t) (x : T) (g : list T) :
  forall off,
    layout p off g ->
    layout (RawPage.writeAt (off + bytesOfItems g) (writeToBytes x)
              (off + bytesOfItems g + bytesNeeded x) p) off (g ++ [x]).
Proof using codec_size.
  induction g as [|y g IH]; intros off; cbn [layout app bytesOfItems foldr].
  - intros _. rewrite Z.add_0_r. cbn. split; [apply lookup_insert_eq | reflexivity].
  - fold (bytesOfItems g). intros [Hy Hg].
    pose proof (codec_size y). pose proof (bytesOfItems_nonneg codec_size g).
    split.
    + cbn. rewrite lookup_insert_ne by lia. exact Hy.
    + specialize (IH _ Hg).
      replace (off + (bytesNeeded y + bytesOfItems g))
        with (off + bytesNeeded y + bytesOfItems g) by lia.
      exact IH.
Qed.

Lemma chain_weaken pg endPage endOff (gs : list (list T)) :
  forall A A' pid off,
    A ⊆ A' -> chain A pg pid off endPage endOff gs -> chain A' pg pid off endPage endOff gs.
Proof using Type.
  clear codec_size.
  induction gs as [|g gs IH]; intros A A' pid off HA; cbn [chain]; [auto|].
  intros (Hg & Hv & Hne & Hpid & p & Hpg & Hlay & Hrest).
  split; [exact Hg|]. split; [exact Hv|]. split; [exact Hne|]. split; [set_solver|].
  exists p. split; [exact Hpg|]. split; [exact Hlay|].
  apply (IH (A ∖ {[pid]})); [set_solver | exact Hrest].
Qed.

(** pages of a chain that are the same in other pages *)
Lemma chain_agree pg pg' endPage endOff (gs : list (list T)) :
  forall A pid off,
    (forall k, k ∈ A -> pg' !! k = pg !! k) ->
    chain A pg pid off endPage endOff gs -> chain A pg' pid off endPage endOff gs.
Proof using Type.
  clear codec_size.
  induction gs as [|g gs IH]; intros A pid off Hsame; cbn [chain]; [auto|].
  intros (Hg & Hv & Hne & Hpid & p & Hpg & Hlay & Hrest).
  split; [exact Hg|]. split; [exact Hv|]. split; [exact Hne|]. split; [exact Hpid|].
  exists p. rewrite (Hsame _ Hpid). split; [exact Hpg|]. split; [exact Hlay|].
  apply IH; [|exact Hrest]. intros k Hk. apply Hsame. set_solver.
Qed.

(** the page the writer stands on is written, linked to where the queue goes
    on *)
Lemma chain_snoc pg cur new newOff (p : RawPage.t) (g : list T) (gs : list (list T)) :
  cur <> invalidLogicalPageID -> cur <> new -> g <> [] -> layout p 0 g ->
  forall A pid off,
    new ∉ A ->
    chain A pg pid off cur 0 gs ->
    chain (A ∪ {[cur]}) (<[cur := PageQueue (RawPage.setNext new newOff p)]> pg)
      pid off new newOff (gs ++ [g]).
Proof using Type.
  clear codec_size.
  intros Hvalid Hne Hg Hlay.
  induction gs as [|g0 gs IH]; intros A pid off Hnew; cbn [chain app].
  - intros [-> ->]. split; [exact Hg|]. split; [exact Hvalid|]. split; [exact Hne|].
    split; [set_solver|]. exists (RawPage.setNext new newOff p).
    split; [apply lookup_insert_eq|].
    split; [exact (layout_frame p (RawPage.setNext new newOff p) 0 g eq_refl eq_refl Hlay)|].
    split; reflexivity.
  - intros (Hg0 & Hv & Hnc & Hpid & p0 & Hpg & Hlay0 & Hrest).
    split; [exact Hg0|]. split; [exact Hv|].
    split; [intros ->; exact (Hnew Hpid)|]. split; [set_solver|].
    exists p0. rewrite lookup_insert_ne by congruence.
    split; [exact Hpg|]. split; [exact Hlay0|].
    apply (chain_weaken _ _ _ _ ((A ∖ {[pid]}) ∪ {[cur]})); [set_solver|].
    apply IH; [set_solver | exact Hrest].
Qed.

(** a chain that goes on where another ends *)
Lemma chain_app pg b ob c oc (gs1 gs2 : list (list T)) A2 :
  chain A2 pg b ob c oc gs2 ->
  forall A1 a oa,
    A1 ## A2 -> c ∉ A1 ->
    chain A1 pg a oa b ob gs1 ->
    chain (A1 ∪ A2) pg a oa c oc (gs1 ++ gs2).
Proof using Type.
  clear codec_size.
  intros H2. induction gs1 as [|g gs1 IH]; intros A1 a oa Hdisj Hc; cbn [chain app].
  - intros [-> ->]. apply (chain_weaken _ _ _ _ A2); [set_solver | exact H2].
  - intros (Hg & Hv & Hne & Hpid & p & Hpg & Hlay & Hrest).
    split; [exact Hg|]. split; [exact Hv|].
    split; [intros ->; exact (Hc Hpid)|]. split; [set_solver|].
    exists p. split; [exact Hpg|]. split; [exact Hlay|].
    apply (chain_weaken _ _ _ _ ((A1 ∖ {[a]}) ∪ A2)); [set_solver|].
    apply IH; [set_solver | set_solver | exact Hrest].
Qed.

(** the groups of a chain are not empty *)
Lemma chain_cons A pg pid off endPage endOff (gs : list (list T)) x l :
  chain A pg pid off endPage endOff gs -> concat gs = x :: l ->
  exists g gs', gs = (x :: g) :: gs' /\ l = g ++ concat gs'.
Proof using Type.
  destruct gs as [|g gs]; [discriminate|]. cbn [chain concat].
  intros (Hg & _) Heq. destruct g as [|y g]; [congruence|].
  injection Heq as -> <-. eauto.
Qed.

Lemma chain_nil A pg pid off endPage endOff (gs : list (list T)) :
  chain A pg pid off endPage endOff gs -> concat gs = [] -> gs = [].
Proof using Type.
  destruct gs as [|g gs]; [reflexivity|]. cbn [chain concat].
  intros (Hg & _) Heq. destruct g; [congruence | discriminate].
Qed.
End Chains.

(** *** Writing *)
Section Order.
Context {S T : Type} `{FIFOQueueCodec T}.
Variable qL : Lens S FIFOQueue.t.
Variable readPage : LogicalPageID -> bool -> M S IPage.
Variable freePage : LogicalPageID -> Version -> M S unit.
Variable newPageID : M S LogicalPageID.
Variable updatePage : LogicalPageID -> IPage -> M S unit.
Variable pages : S -> gmap LogicalPageID IPage.
Variable allocated : S -> gset LogicalPageID.
Hypothesis view_over : forall f s, view qL (over qL f s) = f (view qL s).
Hypothesis pages_over : forall f s, pages (over qL f s) = pages s.
Hypothesis allocated_over : forall f s, allocated (over qL f s) = allocated s.
Hypothesis readPage_spec :
  forall id c s p, pages s !! id = Some p ->
    exists s', readPage id c s = (Ok p, s') /\ view qL s' = view qL s /\
               pages s' = pages s /\ allocated s' = allocated s.
Hypothesis freePage_spec :
  forall id v s,
    exists s', freePage id v s = (Ok tt, s') /\ view qL s' = view qL s /\
               pages s' = pages s /\ allocated s ∖ {[id]} ⊆ allocated s'.
Hypothesis updatePage_spec :
  forall id p s,
    exists s', updatePage id p s = (Ok tt, s') /\ view qL s' = view qL s /\
               pages s' = <[id := p]> (pages s) /\ allocated s' = allocated s.
Hypothesis newPageID_spec :
  forall s,
    exists id s', newPageID s = (Ok id, s') /\ view qL s' = view qL s /\ pages s' = pages s /\
                  id <> invalidLogicalPageID /\ (id ∉ allocated s) /\
                  allocated s' = {[id]} ∪ allocated s.
Hypothesis codec_roundtrip : forall x : T, readFromBytes (writeToBytes x) = x.
Hypothesis codec_size : forall x : T, 0 < bytesNeeded x.


(** **** A write cursor of the queue, the tail writer or the head writer *)
Section Writer.
Variable wL : Lens FIFOQueue.t Cursor.t.
Hypothesis wL_writer : wL = tailWriterL \/ wL = headWriterL.

Lemma wL_view_over f q : view wL (over wL f q) = f (view wL q).
Proof using wL_writer. destruct wL_writer as [-> | ->]; reflexivity. Qed.

Lemma wL_view_counts n m q :
  view wL (set_numPages n (set_numEntries m q)) = view wL q.
Proof using wL_writer. destruct wL_writer as [-> | ->]; reflexivity. Qed.

Lemma wL_dataBytesPerPage n m f q :
  dataBytesPerPage (set_numPages n (set_numEntries m (over wL f q))) = dataBytesPerPage q.
Proof using wL_writer. destruct wL_writer as [-> | ->]; reflexivity. Qed.

Lemma wL_numEntries n m f q :
  numEntries (set_numPages n (set_numEntries m (over wL f q))) = m.
Proof using wL_writer. destruct wL_writer as [-> | ->]; reflexivity. Qed.

(** a queue whose counts and write cursor have been set, set once more *)
Lemma wL_set_set n m c n' m' c' q :
  set_numPages n' (set_numEntries m'
    (over wL (fun _ => c') (set_numPages n (set_numEntries m (over wL (fun _ => c) q)))))
  = set_numPages n' (set_numEntries m' (over wL (fun _ => c') q)).
Proof using wL_writer. destruct wL_writer as [-> | ->]; destruct q; reflexivity. Qed.

Lemma wL_set_same q :
  set_numPages (numPages q) (set_numEntries (numEntries q) (over wL (fun _ => view wL q) q))
  = q.
Proof using wL_writer.
  destruct wL_writer as [-> | ->]; destruct q as [? ? ? ? [] [] ?]; reflexivity.
Qed.

Lemma writePage_w s c p :
  view wL (view qL s) = c ->
  Cursor.mode c = WRITE ->
  Cursor.page c = Some p ->
  exists s',
    writePage qL updatePage wL s = (Ok tt, s') /\
    pages s' = <[Cursor.pageID c := PageQueue p]> (pages s) /\
    allocated s' = allocated s /\
    view qL s' =
      over wL (fun _ =>
        Cursor.set_firstPageIDWritten
          (if Cursor.firstPageIDWritten c =? invalidLogicalPageID
           then Cursor.pageID c else Cursor.firstPageIDWritten c) c) (view qL s).
Proof using view_over pages_over allocated_over updatePage_spec wL_writer.
  intros Hc Hmode Hpage.
  unfold writePage. cbn zeta. cbn [lens_comp view over].
  rewrite bind_gets, Hc.
  rewrite bind_ASSERT by (rewrite Hmode; reflexivity).
  rewrite Hpage. cbn [default from_option id].
  destruct (updatePage_spec (Cursor.pageID c) (PageQueue p) s)
    as (s1 & Hupd & Hq1 & Hp1 & Ha1).
  rewrite (bind_ok _ _ _ _ _ Hupd).
  destruct (Cursor.firstPageIDWritten c =? invalidLogicalPageID).
  - eexists. split; [reflexivity|].
    rewrite pages_over, allocated_over, view_over, Hq1.
    split; [exact Hp1|]. split; [exact Ha1|]. subst c.
    destruct wL_writer as [-> | ->]; reflexivity.
  - exists s1. split; [reflexivity|].
    split; [exact Hp1|]. split; [exact Ha1|]. rewrite Hq1. subst c.
    destruct wL_writer as [-> | ->]; destruct (view qL s) as [? ? ? ? [] [] ?]; reflexivity.
Qed.

Lemma addNewPage_w s c newPage newOffset (initializeNewPage : bool) :
  view wL (view qL s) = c ->
  Cursor.mode c = WRITE ->
  newPage <> invalidLogicalPageID ->
  (initializeNewPage = true -> newOffset = 0) ->
  exists s',
    addNewPage qL updatePage wL newPage newOffset initializeNewPage s = (Ok tt, s') /\
    pages s' =
      match Cursor.page c with
      | Some p =>
          <[Cursor.pageID c := PageQueue (RawPage.setNext newPage newOffset p)]> (pages s)
      | None => pages s
      end /\
    allocated s' = allocated s /\
    view qL s' =
      over wL (fun _ =>
        Cursor.mk WRITE newPage
          (match Cursor.page c with
           | Some _ =>
               if Cursor.firstPageIDWritten c =? invalidLogicalPageID
               then Cursor.pageID c else Cursor.firstPageIDWritten c
           | None => Cursor.firstPageIDWritten c
           end)
          newOffset (Cursor.endPageID c)
          (if initializeNewPage then Some RawPage.empty else None)
          (Cursor.operation c)) (view qL s).
Proof using view_over pages_over allocated_over updatePage_spec wL_writer.
  intros Hc Hmode Hnew Hinit.
  unfold addNewPage. cbn zeta. cbn [lens_comp view over].
  rewrite bind_gets, Hc.
  rewrite bind_ASSERT by (rewrite Hmode; reflexivity).
  rewrite bind_ASSERT by (apply negb_true_iff, Z.eqb_neq; exact Hnew).
  (* the page of the cursor, if it has one, is linked and written *)
  assert (exists s2,
    (match Cursor.page c with
     | Some p =>
         modify (over qL (over wL
           (Cursor.set_page (Some (RawPage.setNext newPage newOffset p)))));;;
         writePage qL updatePage wL
     | None => ret tt
     end) s = (Ok tt, s2) /\
    pages s2 =
      match Cursor.page c with
      | Some p =>
          <[Cursor.pageID c := PageQueue (RawPage.setNext newPage newOffset p)]> (pages s)
      | None => pages s
      end /\
    allocated s2 = allocated s /\
    view qL s2 =
      over wL (fun _ =>
        match Cursor.page c with
        | Some p =>
            Cursor.set_firstPageIDWritten
              (if Cursor.firstPageIDWritten c =? invalidLogicalPageID
               then Cursor.pageID c else Cursor.firstPageIDWritten c)
              (Cursor.set_page (Some (RawPage.setNext newPage newOffset p)) c)
        | None => c
        end) (view qL s)) as (s2 & Hrun2 & Hp2 & Ha2 & Hq2).
  { destruct (Cursor.page c) as [p|] eqn:Hpage.
    - rewrite bind_modify.
      match goal with |- context [over qL ?f s] => set (s1 := over qL f s) end.
      assert (Hq1 : view qL s1 =
                over wL (Cursor.set_page (Some (RawPage.setNext newPage newOffset p)))
                  (view qL s))
        by (unfold s1; rewrite view_over; reflexivity).
      assert (Hp1 : pages s1 = pages s) by (unfold s1; now rewrite pages_over).
      assert (Ha1 : allocated s1 = allocated s) by (unfold s1; now rewrite allocated_over).
      clearbody s1.
      destruct (writePage_w s1
                  (Cursor.set_page (Some (RawPage.setNext newPage newOffset p)) c)
                  (RawPage.setNext newPage newOffset p))
        as (s2 & Hwr & Hp2 & Ha2 & Hq2);
        [rewrite Hq1, wL_view_over, Hc; reflexivity | exact Hmode | reflexivity |].
      exists s2. split; [exact Hwr|]. rewrite Hp2, Hp1, Ha2, Ha1, Hq2, Hq1.
      split; [reflexivity|]. split; [reflexivity|].
      destruct wL_writer as [-> | ->]; reflexivity.
    - exists s. split; [reflexivity|]. split; [reflexivity|]. split; [reflexivity|].
      subst c. destruct wL_writer as [-> | ->];
        destruct (view qL s) as [? ? ? ? [] [] ?]; reflexivity. }
  rewrite (bind_ok _ _ _ _ _ Hrun2), bind_modify.
  exists (if initializeNewPage
          then over qL (over wL (Cursor.set_page (Some RawPage.empty)))
                 (over qL (over wL (fun c0 =>
                    Cursor.set_offset newOffset (Cursor.set_pageID newPage c0))) s2)
          else over qL (over wL (Cursor.set_page None))
                 (over qL (over wL (fun c0 =>
                    Cursor.set_offset newOffset (Cursor.set_pageID newPage c0))) s2)).
  destruct initializeNewPage.
  - specialize (Hinit eq_refl). subst newOffset.
    rewrite bind_modify. split; [reflexivity|].
    rewrite !pages_over, !allocated_over, !view_over, Hq2.
    split; [exact Hp2|]. split; [exact Ha2|].
    clear Hrun2 Hp2 Ha2 Hq2. subst c.
    destruct wL_writer as [-> | ->];
      destruct (view qL s) as [? ? ? ? [? ? ? ? ? pg1 ?] [? ? ? ? ? pg2 ?] ?];
      cbn in *; subst; [destruct pg1 | destruct pg2]; reflexivity.
  - split; [reflexivity|].
    rewrite !pages_over, !allocated_over, !view_over, Hq2.
    split; [exact Hp2|]. split; [exact Ha2|].
    clear Hrun2 Hp2 Ha2 Hq2. subst c.
    destruct wL_writer as [-> | ->];
      destruct (view qL s) as [? ? ? ? [? ? ? ? ? pg1 ?] [? ? ? ? ? pg2 ?] ?];
      cbn in *; subst; [destruct pg1 | destruct pg2]; reflexivity.
Qed.

(** one item written: behind the items of the writer's page, or, when the
    page has no room for it, on a new page, the page written and linked *)
Lemma write_impl_keeps (x : T) s A start (gs : list (list T)) (g : list T) :
  writing A (pages s) (view wL (view qL s)) start gs g ->
  {[Cursor.pageID (view wL (view qL s))]} ∪ A ⊆ allocated s ->
  bytesNeeded x <= dataBytesPerPage (view qL s) ->
  exists s' A' gs' g' c' np',
    write_impl qL newPageID updatePage wL (bytesNeeded x, writeToBytes x) s
      = (Ok tt, s') /\
    view qL s' =
      set_numPages np' (set_numEntries (numEntries (view qL s) + 1)
        (over wL (fun _ => c') (view qL s))) /\
    Cursor.operation c' = Cursor.operation (view wL (view qL s)) /\
    writing A' (pages s') c' start gs' g' /\
    concat gs' ++ g' = concat gs ++ g ++ [x] /\
    g' <> [] /\
    {[Cursor.pageID c']} ∪ A' ⊆ allocated s' /\
    allocated s ⊆ allocated s' /\
    (forall k, k ∈ {[Cursor.pageID c']} ∪ A' ->
       k ∈ {[Cursor.pageID (view wL (view qL s))]} ∪ A \/ k ∉ allocated s) /\
    (forall k, k ∈ allocated s -> k ∉ {[Cursor.pageID (view wL (view qL s))]} ∪ A ->
       pages s' !! k = pages s !! k).
Proof using view_over pages_over allocated_over updatePage_spec newPageID_spec codec_size
  wL_writer.
  intros (Hmode & Hvalid & HnotA & Hoff & Hfirst & (p & Hpage & Hlay) & Hchain) Howned Hfit.
  set (c := view wL (view qL s)) in *.
  pose proof (codec_size x) as Hx0.
  unfold write_impl. cbn zeta. cbn [lens_comp view over fst snd].
  rewrite bind_gets. fold c.
  rewrite bind_ASSERT by (rewrite Hmode; reflexivity).
  rewrite bind_gets.
  replace (Cursor.pageID c =? invalidLogicalPageID) with false
    by (symmetry; apply Z.eqb_neq; exact Hvalid).
  cbn [orb].
  destruct (Z.ltb_spec (dataBytesPerPage (view qL s)) (Cursor.offset c + bytesNeeded x))
    as [Hfull | Hroom].
  - (* no room: a new page *)
    assert (Hg : g <> []).
    { intros ->. cbn in Hoff. lia. }
    destruct (newPageID_spec s) as (newPage & s1 & Hnew & Hq1 & Hp1 & Hid0 & Hfresh & Ha1).
    rewrite !bind_assoc, (bind_ok _ _ _ _ _ Hnew). rewrite !bind_assoc.
    destruct (addNewPage_w s1 c newPage 0 true) as (s2 & Hadd & Hp2 & Ha2 & Hq2);
      [rewrite Hq1; reflexivity | exact Hmode | exact Hid0 | reflexivity |].
    rewrite Hpage in Hp2, Hq2.
    rewrite (bind_ok _ _ _ _ _ Hadd), bind_modify, bind_gets.
    set (first := if Cursor.firstPageIDWritten c =? invalidLogicalPageID
                  then Cursor.pageID c else Cursor.firstPageIDWritten c) in *.
    set (cN := Cursor.mk WRITE newPage first 0 (Cursor.endPageID c) (Some RawPage.empty)
                 (Cursor.operation c)) in *.
    match goal with |- context [over qL ?f s2] => set (s3 := over qL f s2) end.
    assert (Hc3 : view wL (view qL s3) = cN).
    { unfold s3. rewrite view_over, Hq2, Hq1.
      destruct wL_writer as [-> | ->]; reflexivity. }
    rewrite Hc3. cbn [cN Cursor.page default from_option id Cursor.offset].
    rewrite bind_modify.
    eexists _, (A ∪ {[Cursor.pageID c]}), (gs ++ [g]), [x],
      (Cursor.mk WRITE newPage first (0 + bytesNeeded x) (Cursor.endPageID c)
         (Some (RawPage.writeAt 0 (writeToBytes x) (0 + bytesNeeded x) RawPage.empty))
         (Cursor.operation c)),
      (numPages (view qL s) + 1).
    split; [reflexivity|].
    rewrite !view_over, !pages_over, !allocated_over. unfold s3.
    rewrite !view_over, !pages_over, !allocated_over, Hq2, Hq1, Hp2, Hp1, Ha2, Ha1.
    split; [unfold cN; clear -wL_writer;
            destruct wL_writer as [-> | ->]; destruct (view qL s); reflexivity|].
    split; [reflexivity|].
    assert (Hcur : Cursor.pageID c ∈ allocated s) by (clear -Howned; set_solver).
    assert (HA : A ⊆ allocated s) by (clear -Howned; set_solver).
    assert (Hne : Cursor.pageID c <> newPage) by (intros Heq; apply Hfresh; now rewrite <- Heq).
    assert (HnewA : newPage ∉ A) by (clear -HA Hfresh; set_solver).
    split; [|split; [|split; [discriminate|split; [|split; [|split]]]]].
    + split; [reflexivity|]. split; [exact Hid0|].
      split; [clear -HnewA Hne; set_solver|].
      split; [cbn; lia|].
      split.
      { cbn [Cursor.firstPageIDWritten]. unfold first.
        destruct gs as [|g0 gs]; cbn [app].
        - rewrite Hfirst. cbn. symmetry. exact (proj1 Hchain).
        - rewrite Hfirst. destruct Hchain as (_ & Hstart & _).
          apply Z.eqb_neq in Hstart. now rewrite Hstart. }
      split.
      * eexists. split; [reflexivity|]. cbn. split; [apply lookup_insert_eq | reflexivity].
      * cbn [Cursor.pageID].
        apply (chain_snoc (pages s) (Cursor.pageID c) newPage 0 p g gs
                 Hvalid Hne Hg Hlay A start 0 HnewA Hchain).
    + rewrite concat_app. cbn [concat]. rewrite app_nil_r, <- app_assoc. reflexivity.
    + cbn [Cursor.pageID]. clear -Howned. set_solver.
    + clear. set_solver.
    + cbn [Cursor.pageID]. intros k Hk. clear -Hk Hfresh Howned.
      destruct (decide (k = newPage)) as [-> | Hkn]; [right; exact Hfresh|].
      left. set_solver.
    + intros k _ Hk. apply lookup_insert_ne. clear -Hk. set_solver.
  - (* room on the page *)
    rewrite bind_ret, bind_gets. fold c. rewrite Hpage.
    cbn [default from_option id]. rewrite bind_modify.
    eexists _, A, gs, (g ++ [x]),
      (Cursor.set_offset (Cursor.offset c + bytesNeeded x)
         (Cursor.set_page
            (Some (RawPage.writeAt (Cursor.offset c) (writeToBytes x)
                     (Cursor.offset c + bytesNeeded x) p)) c)),
      (numPages (view qL s)).
    split; [reflexivity|].
    rewrite !view_over, !pages_over, !allocated_over.
    split; [unfold c; clear -wL_writer;
            destruct wL_writer as [-> | ->]; destruct (view qL s); reflexivity|].
    split; [reflexivity|].
    split; [|split; [now rewrite app_assoc
            |split; [now destruct g |split; [exact Howned|split; [reflexivity|split]]]]].
    + split; [exact Hmode|]. split; [exact Hvalid|]. split; [exact HnotA|].
      split; [cbn; rewrite bytesOfItems_app, Hoff; cbn; lia|].
      split; [exact Hfirst|].
      split; [|exact Hchain].
      eexists. split; [reflexivity|].
      pose proof (layout_snoc codec_size p x g 0 Hlay) as Hsnoc.
      rewrite Z.add_0_l, <- Hoff in Hsnoc. exact Hsnoc.
    + intros k Hk. left. exact Hk.
    + reflexivity.
Qed.

Lemma runOperations_keeps (l : list T) :
  forall s A start (gs : list (list T)) (g : list T),
    writing A (pages s) (view wL (view qL s)) start gs g ->
    {[Cursor.pageID (view wL (view qL s))]} ∪ A ⊆ allocated s ->
    Forall (fun x => bytesNeeded x <= dataBytesPerPage (view qL s)) l ->
    exists s' A' gs' g' c' np',
      runOperations qL newPageID updatePage wL (encoded l) s = (Ok tt, s') /\
      view qL s' =
        set_numPages np' (set_numEntries (numEntries (view qL s) + Z.of_nat (length l))
          (over wL (fun _ => c') (view qL s))) /\
      Cursor.operation c' = Cursor.operation (view wL (view qL s)) /\
      writing A' (pages s') c' start gs' g' /\
      concat gs' ++ g' = concat gs ++ g ++ l /\
      (g <> [] \/ l <> [] -> g' <> []) /\
      {[Cursor.pageID c']} ∪ A' ⊆ allocated s' /\
      allocated s ⊆ allocated s' /\
      (forall k, k ∈ {[Cursor.pageID c']} ∪ A' ->
         k ∈ {[Cursor.pageID (view wL (view qL s))]} ∪ A \/ k ∉ allocated s) /\
      (forall k, k ∈ allocated s -> k ∉ {[Cursor.pageID (view wL (view qL s))]} ∪ A ->
         pages s' !! k = pages s !! k).
Proof using view_over pages_over allocated_over updatePage_spec newPageID_spec codec_size
  wL_writer.
  induction l as [|x l IH]; intros s A start gs g Hw Howned Hfit.
  - exists s, A, gs, g, (view wL (view qL s)), (numPages (view qL s)).
    cbn [encoded map runOperations length]. split; [reflexivity|].
    split; [rewrite Z.add_0_r; symmetry; apply wL_set_same|].
    split; [reflexivity|]. split; [exact Hw|].
    split; [now rewrite app_nil_r|].
    split; [intros [Hg | Hl]; congruence|].
    split; [exact Howned|]. split; [reflexivity|]. split; [auto | reflexivity].
  - cbn [encoded map runOperations].
    destruct (write_impl_keeps x s A start gs g Hw Howned (Forall_inv Hfit))
      as (s1 & A1 & gs1 & g1 & c1 & np1 & Hrun1 & Hq1 & Hops1 & Hw1 & Hcat1 & Hg1
          & Howned1 & Hmono1 & Hfresh1 & Hsame1).
    rewrite (bind_ok _ _ _ _ _ Hrun1).
    assert (Hc1 : view wL (view qL s1) = c1)
      by (rewrite Hq1, wL_view_counts, wL_view_over; reflexivity).
    destruct (IH s1 A1 start gs1 g1)
      as (s2 & A2 & gs2 & g2 & c2 & np2 & Hrun2 & Hq2 & Hops2 & Hw2 & Hcat2 & Hg2
          & Howned2 & Hmono2 & Hfresh2 & Hsame2).
    + rewrite Hc1. exact Hw1.
    + rewrite Hc1. exact Howned1.
    + rewrite Hq1, wL_dataBytesPerPage. exact (Forall_inv_tail Hfit).
    + rewrite Hc1 in *.
      exists s2, A2, gs2, g2, c2, np2. split; [exact Hrun2|].
      split; [|split; [|split; [exact Hw2 | split; [|split; [|split; [|split; [|split]]]]]]].
      * rewrite Hq2, Hq1, wL_numEntries, wL_set_set. cbn [length].
        rewrite Nat2Z.inj_succ. do 2 f_equal. lia.
      * rewrite Hops2. exact Hops1.
      * rewrite Hcat2, app_assoc, Hcat1, <- !app_assoc. reflexivity.
      * intros _. apply Hg2. left. exact Hg1.
      * exact Howned2.
      * etransitivity; eassumption.
      * intros k Hk. destruct (Hfresh2 k Hk) as [Hk1 | Hk1].
        -- exact (Hfresh1 k Hk1).
        -- right. intros Hks. apply Hk1. apply Hmono1. exact Hks.
      * intros k Hk Hnot. rewrite Hsame2.
        -- apply Hsame1; assumption.
        -- apply Hmono1. exact Hk.
        -- intros Hk1. destruct (Hfresh1 k Hk1) as [? | ?]; contradiction.
Qed.

(** the first item of a writer that has no page yet *)
Lemma write_first (x : T) s :
  Cursor.mode (view wL (view qL s)) = WRITE ->
  Cursor.pageID (view wL (view qL s)) = invalidLogicalPageID ->
  Cursor.page (view wL (view qL s)) = None ->
  Cursor.firstPageIDWritten (view wL (view qL s)) = invalidLogicalPageID ->
  exists s' c' newPage,
    write_impl qL newPageID updatePage wL (bytesNeeded x, writeToBytes x) s
      = (Ok tt, s') /\
    view qL s' =
      set_numPages (numPages (view qL s) + 1) (set_numEntries (numEntries (view qL s) + 1)
        (over wL (fun _ => c') (view qL s))) /\
    Cursor.operation c' = Cursor.operation (view wL (view qL s)) /\
    writing ∅ (pages s') c' newPage [] [x] /\
    Cursor.pageID c' = newPage /\
    (newPage ∉ allocated s) /\
    allocated s' = {[newPage]} ∪ allocated s /\
    pages s' = pages s.
Proof using view_over pages_over allocated_over updatePage_spec newPageID_spec codec_size
  wL_writer.
  intros Hmode Hinvalid Hpage Hfirst.
  set (c := view wL (view qL s)) in *.
  unfold write_impl. cbn zeta. cbn [lens_comp view over fst snd].
  rewrite bind_gets. fold c.
  rewrite bind_ASSERT by (rewrite Hmode; reflexivity).
  rewrite bind_gets, Hinvalid.
  change (invalidLogicalPageID =? invalidLogicalPageID) with true. cbn [orb].
  destruct (newPageID_spec s) as (newPage & s1 & Hnew & Hq1 & Hp1 & Hid0 & Hfresh & Ha1).
  rewrite !bind_assoc, (bind_ok _ _ _ _ _ Hnew). rewrite !bind_assoc.
  destruct (addNewPage_w s1 c newPage 0 true) as (s2 & Hadd & Hp2 & Ha2 & Hq2);
    [rewrite Hq1; reflexivity | exact Hmode | exact Hid0 | reflexivity |].
  rewrite Hpage in Hp2, Hq2. rewrite Hfirst in Hq2.
  rewrite (bind_ok _ _ _ _ _ Hadd), bind_modify, bind_gets.
  set (cN := Cursor.mk WRITE newPage invalidLogicalPageID 0 (Cursor.endPageID c)
               (Some RawPage.empty) (Cursor.operation c)) in *.
  match goal with |- context [over qL ?f s2] => set (s3 := over qL f s2) end.
  assert (Hc3 : view wL (view qL s3) = cN).
  { unfold s3. rewrite view_over, Hq2, Hq1.
    destruct wL_writer as [-> | ->]; reflexivity. }
  rewrite Hc3. cbn [cN Cursor.page default from_option id Cursor.offset].
  rewrite bind_modify.
  eexists _,
    (Cursor.mk WRITE newPage invalidLogicalPageID (0 + bytesNeeded x) (Cursor.endPageID c)
       (Some (RawPage.writeAt 0 (writeToBytes x) (0 + bytesNeeded x) RawPage.empty))
       (Cursor.operation c)), newPage.
  split; [reflexivity|].
  rewrite !view_over, !pages_over, !allocated_over. unfold s3.
  rewrite !view_over, !pages_over, !allocated_over, Hq2, Hq1, Hp2, Hp1, Ha2, Ha1.
  split; [unfold cN; clear -wL_writer;
          destruct wL_writer as [-> | ->]; destruct (view qL s); reflexivity|].
  split; [reflexivity|].
  split; [|auto].
  split; [reflexivity|]. split; [exact Hid0|]. split; [clear; set_solver|].
  split; [cbn; lia|]. split; [reflexivity|].
  split; [|split; reflexivity].
  eexists. split; [reflexivity|]. cbn. split; [apply lookup_insert_eq | reflexivity].
Qed.

Lemma writing_set_operation A pg c start (gs : list (list T)) g ops :
  writing A pg c start gs g -> writing A pg (Cursor.set_operation ops c) start gs g.
Proof using Type. intros Hw. exact Hw. Qed.

(** [notBusy] on a writer that has a page: its pushes are written *)
Lemma notBusyCursor_keeps (l : list T) s A start (gs : list (list T)) (g : list T) :
  Cursor.operation (view wL (view qL s)) = encoded l ->
  writing A (pages s) (view wL (view qL s)) start gs g ->
  {[Cursor.pageID (view wL (view qL s))]} ∪ A ⊆ allocated s ->
  Forall (fun x => bytesNeeded x <= dataBytesPerPage (view qL s)) l ->
  exists s' A' gs' g' c' np',
    notBusyCursor qL newPageID updatePage wL s = (Ok tt, s') /\
    view qL s' =
      set_numPages np' (set_numEntries (numEntries (view qL s) + Z.of_nat (length l))
        (over wL (fun _ => c') (view qL s))) /\
    Cursor.operation c' = [] /\
    writing A' (pages s') c' start gs' g' /\
    concat gs' ++ g' = concat gs ++ g ++ l /\
    (g <> [] \/ l <> [] -> g' <> []) /\
    {[Cursor.pageID c']} ∪ A' ⊆ allocated s' /\
    allocated s ⊆ allocated s' /\
    (forall k, k ∈ {[Cursor.pageID c']} ∪ A' ->
       k ∈ {[Cursor.pageID (view wL (view qL s))]} ∪ A \/ k ∉ allocated s) /\
    (forall k, k ∈ allocated s -> k ∉ {[Cursor.pageID (view wL (view qL s))]} ∪ A ->
       pages s' !! k = pages s !! k).
Proof using view_over pages_over allocated_over updatePage_spec newPageID_spec codec_size
  wL_writer.
  intros Hops Hw Howned Hfit.
  unfold notBusyCursor. cbn zeta. cbn [lens_comp view over].
  rewrite bind_gets, bind_modify, Hops.
  match goal with |- context [over qL ?f s] => set (s0 := over qL f s) end.
  assert (Hq0 : view qL s0 = over wL (Cursor.set_operation []) (view qL s))
    by (unfold s0; rewrite view_over; reflexivity).
  assert (Hc0 : view wL (view qL s0) = Cursor.set_operation [] (view wL (view qL s)))
    by (rewrite Hq0, wL_view_over; reflexivity).
  assert (Hp0 : pages s0 = pages s) by (unfold s0; now rewrite pages_over).
  assert (Ha0 : allocated s0 = allocated s) by (unfold s0; now rewrite allocated_over).
  clearbody s0.
  destruct (runOperations_keeps l s0 A start gs g)
    as (s2 & A2 & gs2 & g2 & c2 & np2 & Hrun2 & Hq2 & Hops2 & Hw2 & Hcat2 & Hg2
        & Howned2 & Hmono2 & Hfresh2 & Hsame2).
  - rewrite Hc0, Hp0. exact Hw.
  - rewrite Hc0, Ha0. exact Howned.
  - rewrite Hq0. clear -Hfit wL_writer.
    destruct wL_writer as [-> | ->]; exact Hfit.
  - rewrite Hc0, Ha0, Hp0 in *. cbn [Cursor.pageID Cursor.set_operation] in *.
    exists s2, A2, gs2, g2, c2, np2. split; [exact Hrun2|].
    split; [|split; [exact Hops2|auto 10]].
    rewrite Hq2, Hq0. clear -wL_writer.
    destruct wL_writer as [-> | ->]; destruct (view qL s); reflexivity.
Qed.

(** [notBusy] on a writer that has no page yet: a page is allocated for its
    first push *)
Lemma notBusyCursor_start (x : T) (l : list T) s :
  Cursor.mode (view wL (view qL s)) = WRITE ->
  Cursor.pageID (view wL (view qL s)) = invalidLogicalPageID ->
  Cursor.page (view wL (view qL s)) = None ->
  Cursor.firstPageIDWritten (view wL (view qL s)) = invalidLogicalPageID ->
  Cursor.operation (view wL (view qL s)) = encoded (x :: l) ->
  Forall (fun x => bytesNeeded x <= dataBytesPerPage (view qL s)) (x :: l) ->
  exists s' A' start gs' g' c' np',
    notBusyCursor qL newPageID updatePage wL s = (Ok tt, s') /\
    view qL s' =
      set_numPages np' (set_numEntries (numEntries (view qL s) + Z.of_nat (length (x :: l)))
        (over wL (fun _ => c') (view qL s))) /\
    Cursor.operation c' = [] /\
    writing A' (pages s') c' start gs' g' /\
    concat gs' ++ g' = x :: l /\
    g' <> [] /\
    {[Cursor.pageID c']} ∪ A' ⊆ allocated s' /\
    allocated s ⊆ allocated s' /\
    (forall k, k ∈ {[Cursor.pageID c']} ∪ A' -> k ∉ allocated s) /\
    (forall k, k ∈ allocated s -> pages s' !! k = pages s !! k).
Proof using view_over pages_over allocated_over updatePage_spec newPageID_spec codec_size
  wL_writer.
  intros Hmode Hinvalid Hpage Hfirst Hops Hfit.
  unfold notBusyCursor. cbn zeta. cbn [lens_comp view over].
  rewrite bind_gets, bind_modify, Hops.
  match goal with |- context [over qL ?f s] => set (s0 := over qL f s) end.
  assert (Hq0 : view qL s0 = over wL (Cursor.set_operation []) (view qL s))
    by (unfold s0; rewrite view_over; reflexivity).
  assert (Hc0 : view wL (view qL s0) = Cursor.set_operation [] (view wL (view qL s)))
    by (rewrite Hq0, wL_view_over; reflexivity).
  assert (Hp0 : pages s0 = pages s) by (unfold s0; now rewrite pages_over).
  assert (Ha0 : allocated s0 = allocated s) by (unfold s0; now rewrite allocated_over).
  assert (Hd0 : dataBytesPerPage (view qL s0) = dataBytesPerPage (view qL s)).
  { rewrite Hq0. clear -wL_writer. destruct wL_writer as [-> | ->]; reflexivity. }
  clearbody s0.
  cbn [encoded map runOperations].
  destruct (write_first x s0) as (s1 & c1 & start & Hrun1 & Hq1 & Hops1 & Hw1 & Hid1
                                    & Hfresh1 & Ha1 & Hp1);
    [rewrite Hc0; exact Hmode | rewrite Hc0; exact Hinvalid | rewrite Hc0; exact Hpage
    | rewrite Hc0; exact Hfirst |].
  rewrite (bind_ok _ _ _ _ _ Hrun1).
  assert (Hc1 : view wL (view qL s1) = c1)
    by (rewrite Hq1, wL_view_counts, wL_view_over; reflexivity).
  destruct (runOperations_keeps l s1 ∅ start [] [x])
    as (s2 & A2 & gs2 & g2 & c2 & np2 & Hrun2 & Hq2 & Hops2 & Hw2 & Hcat2 & Hg2
        & Howned2 & Hmono2 & Hfresh2 & Hsame2).
  - rewrite Hc1. exact Hw1.
  - rewrite Hc1, Hid1, Ha1. clear. set_solver.
  - rewrite Hq1, wL_dataBytesPerPage, Hd0. exact (Forall_inv_tail Hfit).
  - rewrite Hc1, Hid1, Ha1, Hp1, Hp0, Ha0 in *.
    exists s2, A2, start, gs2, g2, c2, np2. split; [exact Hrun2|].
    split; [|split; [|split; [exact Hw2|split; [exact Hcat2|split; [|split; [exact Howned2|split; [|split]]]]]]].
    + rewrite Hq2, Hq1, wL_numEntries, wL_set_set, Hq0. cbn [length].
      rewrite Nat2Z.inj_succ. clear -wL_writer.
      destruct wL_writer as [-> | ->]; destruct (view qL s); cbn; do 2 f_equal; lia.
    + rewrite Hops2, Hops1, Hc0. reflexivity.
    + apply Hg2. left. discriminate.
    + clear -Hmono2. set_solver.
    + intros k Hk Hks. destruct (Hfresh2 k Hk) as [Hk1 | Hk1].
      * assert (k = start) by (clear -Hk1; set_solver). subst k. exact (Hfresh1 Hks).
      * apply Hk1. clear -Hks. set_solver.
    + intros k Hk. apply Hsame2; [clear -Hk; set_solver|].
      intros Hk1. assert (k = start) by (clear -Hk1; set_solver). subst k.
      exact (Hfresh1 Hk).
Qed.

(** [notBusy] on a writer without pushes *)
Lemma notBusyCursor_idle s :
  Cursor.operation (view wL (view qL s)) = [] ->
  exists s',
    notBusyCursor qL newPageID updatePage wL s = (Ok tt, s') /\
    view qL s' = view qL s /\ pages s' = pages s /\ allocated s' = allocated s.
Proof using view_over pages_over allocated_over wL_writer.
  intros Hops. unfold notBusyCursor. cbn zeta. cbn [lens_comp view over].
  rewrite bind_gets, bind_modify, Hops. cbn [runOperations].
  eexists. split; [reflexivity|]. rewrite view_over, pages_over, allocated_over.
  split; [|split; reflexivity].
  destruct wL_writer as [-> | ->]; destruct (view qL s) as [? ? ? ? [] [] ?];
    cbn in *; now subst.
Qed.
End Writer.

(** **** Flush *)

(** the first part of [notBusy]: the pushes to the front are written to new
    pages *)
Lemma head_notBusy (l : list T) s np ne dbpp hr tw :
  view qL s = FIFOQueue.mk np ne dbpp hr tw
                (Cursor.mk WRITE invalidLogicalPageID invalidLogicalPageID 0
                   invalidLogicalPageID None (encoded l))
                invalidLogicalPageID ->
  Forall (fun x => bytesNeeded x <= dbpp) l ->
  exists s1 cH np1,
    notBusyCursor qL newPageID updatePage headWriterL s = (Ok tt, s1) /\
    view qL s1 = FIFOQueue.mk np1 (ne + Z.of_nat (length l)) dbpp hr tw cH
                   invalidLogicalPageID /\
    Cursor.operation cH = [] /\
    Cursor.mode cH = WRITE /\
    allocated s ⊆ allocated s1 /\
    (forall k, k ∈ allocated s -> pages s1 !! k = pages s !! k) /\
    match l with
    | [] => Cursor.offset cH = 0 /\ allocated s1 = allocated s
    | _ :: _ =>
        exists AH start gsH gH,
          writing AH (pages s1) cH start gsH gH /\
          concat gsH ++ gH = l /\
          gH <> [] /\
          {[Cursor.pageID cH]} ∪ AH ⊆ allocated s1 /\
          (forall k, k ∈ {[Cursor.pageID cH]} ∪ AH -> k ∉ allocated s)
    end.
Proof using view_over pages_over allocated_over updatePage_spec newPageID_spec codec_size.
  intros Hq Hfit. destruct l as [|x l].
  - destruct (notBusyCursor_idle headWriterL (or_intror eq_refl) s)
      as (s1 & Hrun & Hq1 & Hp1 & Ha1); [rewrite Hq; reflexivity|].
    exists s1, (Cursor.mk WRITE invalidLogicalPageID invalidLogicalPageID 0
                  invalidLogicalPageID None []), np.
    split; [exact Hrun|]. rewrite Hq1, Hq, Hp1, Ha1, Z.add_0_r.
    split; [reflexivity|]. split; [reflexivity|]. split; [reflexivity|].
    split; [reflexivity|]. split; [reflexivity|]. split; reflexivity.
  - destruct (notBusyCursor_start headWriterL (or_intror eq_refl) x l s)
      as (s1 & AH & start & gsH & gH & cH & np1 & Hrun & Hq1 & Hops & Hw & Hcat & Hg
          & Howned & Hmono & Hfresh & Hsame);
      try (rewrite Hq; reflexivity); [rewrite Hq; exact Hfit|].
    exists s1, cH, np1. split; [exact Hrun|].
    rewrite Hq1, Hq. split; [reflexivity|]. split; [exact Hops|].
    split; [exact (proj1 Hw)|]. split; [exact Hmono|]. split; [exact Hsame|].
    exists AH, start, gsH, gH. auto.
Qed.

(** the second part of [notBusy]: the pushes to the back are written to the
    tail page and to new pages *)
Lemma tail_notBusy (l : list T) s np ne dbpp hr hw tail :
  view qL s = FIFOQueue.mk np ne dbpp hr
                (Cursor.mk WRITE tail invalidLogicalPageID 0 invalidLogicalPageID
                   (Some RawPage.empty) (encoded l))
                hw invalidLogicalPageID ->
  tail <> invalidLogicalPageID ->
  tail ∈ allocated s ->
  Forall (fun x => bytesNeeded x <= dbpp) l ->
  exists s1 cT np1 AT gsT gT,
    notBusyCursor qL newPageID updatePage tailWriterL s = (Ok tt, s1) /\
    view qL s1 = FIFOQueue.mk np1 (ne + Z.of_nat (length l)) dbpp hr cT hw
                   invalidLogicalPageID /\
    Cursor.operation cT = [] /\
    writing AT (pages s1) cT tail gsT gT /\
    concat gsT ++ gT = l /\
    (l <> [] -> gT <> []) /\
    {[Cursor.pageID cT]} ∪ AT ⊆ allocated s1 /\
    allocated s ⊆ allocated s1 /\
    (forall k, k ∈ {[Cursor.pageID cT]} ∪ AT -> k = tail \/ k ∉ allocated s) /\
    (forall k, k ∈ allocated s -> k <> tail -> pages s1 !! k = pages s !! k).
Proof using view_over pages_over allocated_over updatePage_spec newPageID_spec codec_size.
  intros Hq Htail Halloc Hfit.
  destruct (notBusyCursor_keeps tailWriterL (or_introl eq_refl) l s ∅ tail [] [])
    as (s1 & AT & gsT & gT & cT & np1 & Hrun & Hq1 & Hops & Hw & Hcat & Hg
        & Howned & Hmono & Hfresh & Hsame).
  - rewrite Hq. reflexivity.
  - rewrite Hq. cbn [view tailWriterL tailWriter].
    split; [reflexivity|]. split; [exact Htail|]. split; [clear; set_solver|].
    split; [reflexivity|]. split; [reflexivity|].
    split; [exists RawPage.empty; split; reflexivity|]. split; reflexivity.
  - rewrite Hq. cbn [view tailWriterL tailWriter Cursor.pageID]. clear -Halloc. set_solver.
  - rewrite Hq. exact Hfit.
  - rewrite Hq in Hq1, Hfresh, Hsame. cbn [view tailWriterL tailWriter Cursor.pageID] in *.
    exists s1, cT, np1, AT, gsT, gT. split; [exact Hrun|].
    split; [exact Hq1|]. split; [exact Hops|]. split; [exact Hw|].
    split; [exact Hcat|]. split; [intros Hl; apply Hg; right; exact Hl|].
    split; [exact Howned|]. split; [exact Hmono|]. split.
    + intros k Hk. destruct (Hfresh k Hk) as [Hk1 | Hk1]; [left | right; exact Hk1].
      clear -Hk1. set_solver.
    + intros k Hk Hne. apply Hsame; [exact Hk|]. clear -Hne. set_solver.
Qed.

Lemma writing_agree A pg pg' c start (gs : list (list T)) g :
  (forall k, k ∈ A -> pg' !! k = pg !! k) ->
  writing A pg c start gs g -> writing A pg' c start gs g.
Proof using Type.
  intros Hsame (Hmode & Hvalid & HnotA & Hoff & Hfirst & Hpage & Hchain).
  split; [exact Hmode|]. split; [exact Hvalid|]. split; [exact HnotA|].
  split; [exact Hoff|]. split; [exact Hfirst|]. split; [exact Hpage|].
  exact (chain_agree pg pg' _ _ gs A start 0 Hsame Hchain).
Qed.

(** the rounds of [preFlush]: the pushes are written, and a new tail page is
    allocated when there were pushes to the back *)
Lemma flush_rounds (fs bs : list T) s np ne dbpp hr tail :
  view qL s = FIFOQueue.mk np ne dbpp hr
                (Cursor.mk WRITE tail invalidLogicalPageID 0 invalidLogicalPageID
                   (Some RawPage.empty) (encoded bs))
                (Cursor.mk WRITE invalidLogicalPageID invalidLogicalPageID 0
                   invalidLogicalPageID None (encoded fs))
                invalidLogicalPageID ->
  tail <> invalidLogicalPageID ->
  tail ∈ allocated s ->
  Forall (fun x => bytesNeeded x <= dbpp) (fs ++ bs) ->
  exists sF cT cH npF ntp AT gsT gT,
    flush_impl qL newPageID updatePage 3 s = finishFlush qL updatePage sF /\
    view qL sF
      = FIFOQueue.mk npF (ne + Z.of_nat (length fs) + Z.of_nat (length bs)) dbpp hr cT cH ntp /\
    Cursor.operation cT = [] /\ Cursor.operation cH = [] /\ Cursor.mode cH = WRITE /\
    writing AT (pages sF) cT tail gsT gT /\
    concat gsT ++ gT = bs /\
    ((ntp = invalidLogicalPageID /\ gT = []) \/
     (ntp <> invalidLogicalPageID /\ gT <> [] /\ (ntp ∈ allocated sF) /\
      (ntp ∉ {[Cursor.pageID cT]} ∪ AT) /\ (ntp ∉ allocated s))) /\
    {[Cursor.pageID cT]} ∪ AT ⊆ allocated sF /\
    (forall k, k ∈ {[Cursor.pageID cT]} ∪ AT -> k = tail \/ k ∉ allocated s) /\
    allocated s ⊆ allocated sF /\
    (forall k, k ∈ allocated s -> k <> tail -> pages sF !! k = pages s !! k) /\
    match fs with
    | [] => Cursor.offset cH = 0
    | _ :: _ =>
        exists AH start gsH gH,
          writing AH (pages sF) cH start gsH gH /\
          concat gsH ++ gH = fs /\
          gH <> [] /\
          {[Cursor.pageID cH]} ∪ AH ⊆ allocated sF /\
          (forall k, k ∈ {[Cursor.pageID cH]} ∪ AH -> k ∉ allocated s) /\
          ({[Cursor.pageID cH]} ∪ AH) ## ({[Cursor.pageID cT]} ∪ AT) /\
          (ntp <> invalidLogicalPageID -> ntp ∉ {[Cursor.pageID cH]} ∪ AH)
    end.
Proof using view_over pages_over allocated_over updatePage_spec newPageID_spec codec_size.
  intros Hq Htail Halloc Hfit.
  apply Forall_app in Hfit. destruct Hfit as [HfitF HfitB].
  destruct (head_notBusy fs s np ne dbpp hr _ Hq HfitF)
    as (s1 & cH & np1 & HrunH & Hq1 & HopsH & HmodeH & Hmono1 & Hsame1 & Hhead).
  destruct (tail_notBusy bs s1 np1 (ne + Z.of_nat (length fs)) dbpp hr cH tail Hq1 Htail
              (Hmono1 _ Halloc) HfitB)
    as (s2 & cT & np2 & AT & gsT & gT & HrunT & Hq2 & HopsT & HwT & HcatT & HgT
        & HownedT & Hmono2 & HfreshT & Hsame2).
  assert (Hbusy : forall n e ntp,
            busy (FIFOQueue.mk n e dbpp hr cT cH ntp) = false).
  { intros. unfold busy. cbn [headWriter tailWriter]. rewrite HopsH, HopsT. reflexivity. }
  (* what the head writer has written is as it was after the tail writer *)
  assert (Hhead2 :
    match fs with
    | [] => Cursor.offset cH = 0
    | _ :: _ =>
        exists AH start gsH gH,
          writing AH (pages s2) cH start gsH gH /\
          concat gsH ++ gH = fs /\
          gH <> [] /\
          {[Cursor.pageID cH]} ∪ AH ⊆ allocated s2 /\
          (forall k, k ∈ {[Cursor.pageID cH]} ∪ AH -> k ∉ allocated s) /\
          ({[Cursor.pageID cH]} ∪ AH) ## ({[Cursor.pageID cT]} ∪ AT)
    end).
  { destruct fs as [|x fs]; [exact (proj1 Hhead)|].
    destruct Hhead as (AH & start & gsH & gH & HwH & HcatH & HgH & HownedH & HfreshH).
    exists AH, start, gsH, gH.
    assert (HtailH : tail ∉ {[Cursor.pageID cH]} ∪ AH)
      by (intros Hin; exact (HfreshH _ Hin Halloc)).
    split; [|split; [exact HcatH|split; [exact HgH|split; [|split; [exact HfreshH|]]]]].
    - apply (writing_agree AH (pages s1)); [|exact HwH].
      intros k Hk. apply Hsame2.
      + apply HownedH. clear -Hk. set_solver.
      + intros ->. apply HtailH. clear -Hk. set_solver.
    - etransitivity; [exact HownedH | exact Hmono2].
    - intros k HkH HkT. destruct (HfreshT k HkT) as [-> | Hk1].
      + exact (HtailH HkH).
      + apply Hk1. apply HownedH. exact HkH. }
  assert (Hsame : forall k, k ∈ allocated s -> k <> tail -> pages s2 !! k = pages s !! k).
  { intros k Hk Hne. rewrite Hsame2; [apply Hsame1; exact Hk | apply Hmono1; exact Hk | exact Hne]. }
  assert (HfreshT' : forall k, k ∈ {[Cursor.pageID cT]} ∪ AT -> k = tail \/ k ∉ allocated s).
  { intros k Hk. destruct (HfreshT k Hk) as [? | Hk1]; [left; assumption|].
    right. intros Hks. apply Hk1. apply Hmono1. exact Hks. }
  cbn [flush_impl]. unfold preFlush_impl at 1. unfold notBusy at 1.
  rewrite !bind_assoc, (bind_ok _ _ _ _ _ HrunH).
  rewrite (bind_ok _ _ _ _ _ HrunT), bind_assoc, bind_gets, Hq2, Hbusy.
  cbv iota. cbn [newTailPage tailWriter].
  change (invalidLogicalPageID =? invalidLogicalPageID) with true. cbn [andb].
  unfold Cursor.pendingWrites at 1.
  destruct HwT as (HmodeT & HwT').
  rewrite HmodeT, bool_decide_eq_true_2 by reflexivity. cbn [andb].
  destruct HwT' as (HvalidT & HnotAT & HoffT & HwT'').
  rewrite HoffT.
  destruct gT as [|y gT].
  - (* nothing is pending on the tail page *)
    cbn [bytesOfItems foldr]. change (negb (0 =? 0)) with false. cbv iota.
    rewrite bind_ret. cbv iota.
    exists s2, cT, cH, np2, invalidLogicalPageID, AT, gsT, [].
    split; [reflexivity|]. split; [exact Hq2|]. split; [exact HopsT|].
    split; [exact HopsH|]. split; [exact HmodeH|].
    split; [split; [exact HmodeT|split; [exact HvalidT|split; [exact HnotAT|
            split; [exact HoffT|exact HwT'']]]]|].
    split; [exact HcatT|]. split; [left; split; reflexivity|].
    split; [exact HownedT|]. split; [exact HfreshT'|].
    split; [etransitivity; eassumption|]. split; [exact Hsame|].
    destruct fs as [|x fs]; [exact Hhead2|].
    destruct Hhead2 as (AH & start & gsH & gH & HwH & HcatH & HgH & HownedH & HfreshH & Hdisj).
    exists AH, start, gsH, gH. split; [exact HwH|]. split; [exact HcatH|].
    split; [exact HgH|]. split; [exact HownedH|]. split; [exact HfreshH|].
    split; [exact Hdisj | congruence].
  - (* a new tail page, and one more round *)
    assert (Hpos : bytesOfItems (y :: gT) <> 0).
    { pose proof (bytesOfItems_pos codec_size (y :: gT) ltac:(discriminate)). lia. }
    apply Z.eqb_neq in Hpos. rewrite Hpos. cbn [negb]. cbv iota.
    destruct (newPageID_spec s2) as (ntp & s3 & Hnew & Hq3 & Hp3 & Hntp0 & Hfresh3 & Ha3).
    rewrite bind_assoc, (bind_ok _ _ _ _ _ Hnew), bind_assoc, bind_modify, bind_ret.
    cbv iota.
    match goal with |- context [over qL ?f s3] => set (s4 := over qL f s3) end.
    assert (Hq4 : view qL s4 =
              FIFOQueue.mk np2 (ne + Z.of_nat (length fs) + Z.of_nat (length bs)) dbpp hr
                cT cH ntp)
      by (unfold s4; rewrite view_over, Hq3, Hq2; reflexivity).
    assert (Hp4 : pages s4 = pages s2) by (unfold s4; rewrite pages_over; exact Hp3).
    assert (Ha4 : allocated s4 = {[ntp]} ∪ allocated s2)
      by (unfold s4; rewrite allocated_over; exact Ha3).
    clearbody s4.
    unfold preFlush_impl at 1. unfold notBusy at 1.
    destruct (notBusyCursor_idle headWriterL (or_intror eq_refl) s4)
      as (s5 & Hrun5 & Hq5 & Hp5 & Ha5); [rewrite Hq4; exact HopsH|].
    destruct (notBusyCursor_idle tailWriterL (or_introl eq_refl) s5)
      as (s6 & Hrun6 & Hq6 & Hp6 & Ha6); [rewrite Hq5, Hq4; exact HopsT|].
    rewrite !bind_assoc, (bind_ok _ _ _ _ _ Hrun5).
    rewrite (bind_ok _ _ _ _ _ Hrun6), bind_assoc, bind_gets, Hq6, Hq5, Hq4, Hbusy.
    cbv iota. cbn [newTailPage].
    pose proof Hntp0 as Hntp0'. apply Z.eqb_neq in Hntp0'. rewrite Hntp0'.
    cbn [andb]. cbv iota. rewrite bind_ret. cbv iota.
    exists s6, cT, cH, np2, ntp, AT, gsT, (y :: gT).
    rewrite Hp6, Hp5, Hp4, Ha6, Ha5, Ha4, Hq6, Hq5.
    split; [reflexivity|]. split; [exact Hq4|]. split; [exact HopsT|].
    split; [exact HopsH|]. split; [exact HmodeH|].
    split; [split; [exact HmodeT|split; [exact HvalidT|split; [exact HnotAT|
            split; [exact HoffT|exact HwT'']]]]|].
    split; [exact HcatT|].
    split.
    { right. split; [exact Hntp0|]. split; [discriminate|].
      split; [clear; set_solver|].
      split; [intros Hin; exact (Hfresh3 (HownedT _ Hin))|].
      intros Hin; apply Hfresh3, Hmono2, Hmono1; exact Hin. }
    split; [clear -HownedT; set_solver|]. split; [exact HfreshT'|].
    split; [clear -Hmono1 Hmono2; set_solver|]. split; [exact Hsame|].
    destruct fs as [|x fs]; [exact Hhead2|].
    destruct Hhead2 as (AH & start & gsH & gH & HwH & HcatH & HgH & HownedH & HfreshH & Hdisj).
    exists AH, start, gsH, gH.
    split; [exact HwH|]. split; [exact HcatH|]. split; [exact HgH|].
    split; [clear -HownedH; set_solver|]. split; [exact HfreshH|].
    split; [exact Hdisj|]. intros _ Hin. exact (Hfresh3 (HownedH _ Hin)).
Qed.

(** [finishFlush], first part: the last page of the tail writer is linked to
    the new tail page and written *)
Lemma finishFlush_tail s np ne dbpp hr cT cH ntp AT tail (gsT : list (list T)) gT :
  view qL s = FIFOQueue.mk np ne dbpp hr cT cH ntp ->
  writing AT (pages s) cT tail gsT gT ->
  (ntp = invalidLogicalPageID /\ gT = []) \/
  (ntp <> invalidLogicalPageID /\ gT <> [] /\ (ntp ∉ {[Cursor.pageID cT]} ∪ AT)) ->
  exists s' cT' np' ATs gsTs,
    (if negb (newTailPage (view qL s) =? invalidLogicalPageID)
     then
       addNewPage qL updatePage tailWriterL (newTailPage (view qL s)) 0 false;;;
       modify (over qL (fun q => set_newTailPage invalidLogicalPageID
                                   (set_numPages (numPages q + 1) q)))
     else ret tt) s = (Ok tt, s') /\
    view qL s' = FIFOQueue.mk np' ne dbpp hr cT' cH invalidLogicalPageID /\
    Cursor.pageID cT' <> invalidLogicalPageID /\
    (Cursor.pageID cT' = ntp \/ Cursor.pageID cT' = Cursor.pageID cT) /\
    chain ATs (pages s') tail 0 (Cursor.pageID cT') 0 gsTs /\
    concat gsTs = concat gsT ++ gT /\
    ATs ⊆ {[Cursor.pageID cT]} ∪ AT /\
    (Cursor.pageID cT' ∉ ATs) /\
    allocated s' = allocated s /\
    (forall k, k <> Cursor.pageID cT -> pages s' !! k = pages s !! k).
Proof using view_over pages_over allocated_over updatePage_spec.
  intros Hq (Hmode & Hvalid & HnotA & Hoff & Hfirst & (p & Hpage & Hlay) & Hchain) Hntp.
  rewrite Hq. cbn [newTailPage].
  destruct Hntp as [[-> ->] | (Hntp0 & HgT & Hfresh)].
  - change (negb (invalidLogicalPageID =? invalidLogicalPageID)) with false. cbv iota.
    exists s, cT, np, AT, gsT. split; [reflexivity|]. split; [exact Hq|].
    split; [exact Hvalid|]. split; [right; reflexivity|]. split; [exact Hchain|].
    split; [now rewrite app_nil_r|]. split; [clear; set_solver|].
    split; [exact HnotA|]. split; reflexivity.
  - pose proof Hntp0 as Hntp0'. apply Z.eqb_neq in Hntp0'. rewrite Hntp0'.
    cbn [negb]. cbv iota.
    destruct (addNewPage_w tailWriterL (or_introl eq_refl) s cT ntp 0 false)
      as (s1 & Hadd & Hp1 & Ha1 & Hq1);
      [rewrite Hq; reflexivity | exact Hmode | exact Hntp0 | discriminate |].
    rewrite Hpage in Hp1, Hq1.
    rewrite (bind_ok _ _ _ _ _ Hadd).
    eexists _, _, (np + 1), (AT ∪ {[Cursor.pageID cT]}), (gsT ++ [gT]).
    split; [reflexivity|].
    rewrite view_over, pages_over, allocated_over, Hq1, Hq, Hp1, Ha1.
    split; [reflexivity|]. cbn [Cursor.pageID].
    split; [exact Hntp0|]. split; [left; reflexivity|].
    split.
    { apply (chain_snoc (pages s) (Cursor.pageID cT) ntp 0 p gT gsT Hvalid);
        [intros Heq; apply Hfresh; rewrite <- Heq; clear; set_solver
        | exact HgT | exact Hlay | clear -Hfresh; set_solver | exact Hchain]. }
    split; [rewrite concat_app; cbn [concat]; now rewrite app_nil_r|].
    split; [clear; set_solver|]. split; [clear -Hfresh; set_solver|].
    split; [reflexivity|].
    intros k Hk. apply lookup_insert_ne. congruence.
Qed.

(** [finishFlush], second part: the last page of the head writer is linked
    to where the head reader stands and written, and the head reader is put
    on the first page of the head writer *)
Lemma finishFlush_head s np ne dbpp hr cT cH (fs : list T) (OH : gset LogicalPageID) :
  view qL s = FIFOQueue.mk np ne dbpp hr cT cH invalidLogicalPageID ->
  Cursor.mode cH = WRITE ->
  Cursor.pageID hr <> invalidLogicalPageID ->
  (Cursor.pageID hr ∉ OH) ->
  match fs with
  | [] => Cursor.offset cH = 0
  | _ :: _ =>
      exists AH start gsH gH,
        writing AH (pages s) cH start gsH gH /\
        concat gsH ++ gH = fs /\ gH <> [] /\
        {[Cursor.pageID cH]} ∪ AH ⊆ OH
  end ->
  exists s' hr' cH' np' AHs gsHs,
    (if Cursor.pendingWrites (headWriter (view qL s))
     then
       addNewPage qL updatePage headWriterL
         (Cursor.pageID (headReader (view qL s)))
         (Cursor.offset (headReader (view qL s))) false;;;
       modify (over qL (fun q =>
         set_headReader
           (Cursor.set_page None
              (Cursor.set_offset 0
                 (Cursor.set_pageID (Cursor.firstPageIDWritten (headWriter q))
                    (headReader q)))) q))
     else ret tt) s = (Ok tt, s') /\
    view qL s' = FIFOQueue.mk np' ne dbpp hr' cT cH' invalidLogicalPageID /\
    Cursor.mode hr' = Cursor.mode hr /\
    chain AHs (pages s') (Cursor.pageID hr') (Cursor.offset hr')
      (Cursor.pageID hr) (Cursor.offset hr) gsHs /\
    concat gsHs = fs /\
    AHs ⊆ OH /\
    (Cursor.page hr' = None \/ (hr' = hr /\ gsHs = [])) /\
    allocated s' = allocated s /\
    (forall k, k ∉ OH -> pages s' !! k = pages s !! k).
Proof using view_over pages_over allocated_over updatePage_spec codec_size.
  intros Hq HmodeH Hhr HhrOH Hhead.
  rewrite Hq. cbn [headWriter headReader]. unfold Cursor.pendingWrites.
  rewrite HmodeH, bool_decide_eq_true_2 by reflexivity. cbn [andb].
  destruct fs as [|x fs].
  - rewrite Hhead. change (negb (0 =? 0)) with false. cbv iota.
    exists s, hr, cH, np, ∅, []. split; [reflexivity|]. split; [exact Hq|].
    split; [reflexivity|]. split; [split; reflexivity|]. split; [reflexivity|].
    split; [clear; set_solver|]. split; [right; split; reflexivity|].
    split; reflexivity.
  - destruct Hhead as (AH & start & gsH & gH & HwH & Hcat & HgH & HownedH).
    destruct HwH as (_ & Hvalid & HnotA & Hoff & Hfirst & (p & Hpage & Hlay) & Hchain).
    assert (Hpos : Cursor.offset cH <> 0).
    { rewrite Hoff. pose proof (bytesOfItems_pos codec_size gH HgH). lia. }
    apply Z.eqb_neq in Hpos. rewrite Hpos. cbn [negb]. cbv iota.
    destruct (addNewPage_w headWriterL (or_intror eq_refl) s cH (Cursor.pageID hr)
                (Cursor.offset hr) false)
      as (s1 & Hadd & Hp1 & Ha1 & Hq1);
      [rewrite Hq; reflexivity | exact HmodeH | exact Hhr | discriminate |].
    rewrite Hpage in Hp1, Hq1.
    rewrite (bind_ok _ _ _ _ _ Hadd).
    assert (Hstart : (if Cursor.firstPageIDWritten cH =? invalidLogicalPageID
                      then Cursor.pageID cH else Cursor.firstPageIDWritten cH) = start).
    { rewrite Hfirst. destruct gsH as [|g0 gsH].
      - cbn. symmetry. exact (proj1 Hchain).
      - destruct Hchain as (_ & Hs0 & _). apply Z.eqb_neq in Hs0. now rewrite Hs0. }
    rewrite Hstart in Hq1.
    eexists _, _, _, np, (AH ∪ {[Cursor.pageID cH]}), (gsH ++ [gH]).
    split; [reflexivity|].
    rewrite view_over, pages_over, allocated_over, Hq1, Hq, Hp1, Ha1.
    cbn [over headWriterL headWriter headReader set_headWriter set_headReader
         Cursor.firstPageIDWritten].
    split; [reflexivity|]. split; [reflexivity|].
    cbn [Cursor.pageID Cursor.offset Cursor.set_page Cursor.set_offset Cursor.set_pageID
         Cursor.page].
    split.
    { apply (chain_snoc (pages s) (Cursor.pageID cH) (Cursor.pageID hr) (Cursor.offset hr)
               p gH gsH Hvalid);
        [intros Heq; apply HhrOH, HownedH; rewrite <- Heq; clear; set_solver
        | exact HgH | exact Hlay
        | intros Hin; apply HhrOH, HownedH; clear -Hin; set_solver
        | exact Hchain]. }
    split; [rewrite concat_app; cbn [concat]; rewrite app_nil_r; exact Hcat|].
    split; [clear -HownedH; set_solver|]. split; [left; reflexivity|].
    split; [reflexivity|].
    intros k Hk. apply lookup_insert_ne. intros <-. apply Hk, HownedH. clear. set_solver.
Qed.

Lemma init_WRITE tid :
  tid <> invalidLogicalPageID ->
  Cursor.init WRITE tid 0 invalidLogicalPageID
  = Cursor.mk WRITE tid invalidLogicalPageID 0 invalidLogicalPageID (Some RawPage.empty) [].
Proof using Type.
  intros Htid. unfold Cursor.init. apply Z.eqb_neq in Htid. now rewrite Htid.
Qed.

(** a flush puts the pushes to the front before the flushed items and the
    pushes to the back behind them *)
Lemma flush_represents s dbpp (a : Abstract) :
  represents (allocated s) (pages s) (view qL s) dbpp a ->
  exists s',
    flush_impl qL newPageID updatePage 3 s = (Ok tt, s') /\
    represents (allocated s') (pages s') (view qL s') dbpp
      (mkAbstract (fronts a ++ flushed a ++ backs a) [] []) /\
    numEntries (view qL s')
      = numEntries (view qL s) + Z.of_nat (length (fronts a)) + Z.of_nat (length (backs a)).
Proof using view_over pages_over allocated_over updatePage_spec newPageID_spec codec_size.
  intros (A & tail & gs & Hcat & [Hchain Hbuf] & Hmode & Hend & Htw & Hhw & Hntp & Hdb
          & Htail0 & HtailAlloc & HtailA & HA & Hfit).
  destruct a as [fl fs bs]. cbn [flushed fronts backs] in *.
  destruct (view qL s) as [np ne dbpp0 hr tw hw ntp0] eqn:Hq.
  cbn [headReader tailWriter headWriter newTailPage dataBytesPerPage numEntries] in *.
  subst tw hw ntp0 dbpp0.
  assert (Hhr0 : Cursor.pageID hr <> invalidLogicalPageID /\ Cursor.pageID hr ∈ allocated s).
  { destruct gs as [|g gs].
    - destruct Hchain as [Hh _]. rewrite Hh, Hend. auto.
    - destruct Hchain as (_ & Hv & _ & Hin & _). auto. }
  destruct Hhr0 as [Hhr0 HhrAlloc].
  destruct (flush_rounds fs bs s np ne dbpp hr tail Hq Htail0 HtailAlloc Hfit)
    as (sF & cT & cH & npF & ntp & AT & gsT & gT & Hflush & HqF & HopsT & HopsH & HmodeH
        & HwT & HcatT & HntpF & HownedT & HfreshT & HmonoF & HsameF & Hhead).
  rewrite Hflush. unfold finishFlush. rewrite bind_gets.
  rewrite bind_ASSERT
    by (rewrite HqF; unfold busy; cbn [headWriter tailWriter]; rewrite HopsH, HopsT; reflexivity).
  (* the tail writer *)
  destruct (finishFlush_tail sF npF _ dbpp hr cT cH ntp AT tail gsT gT HqF HwT)
    as (s6 & cT' & np6 & ATs & gsTs & HrunA & Hq6 & HtailV & Htail' & HchainT & HcatTs
        & HATs & HtailATs & Ha6 & Hsame6).
  { destruct HntpF as [? | (? & ? & _ & ? & _)]; [left; assumption | right; auto]. }
  rewrite (bind_ok _ _ _ _ _ HrunA), bind_gets.
  (* the head writer *)
  set (OH := allocated sF ∖ (allocated s ∪ ({[Cursor.pageID cT]} ∪ AT) ∪ {[Cursor.pageID cT']})).
  assert (HtailNew : Cursor.pageID cT' ∉ allocated s \/ Cursor.pageID cT' = tail).
  { destruct Htail' as [Hn | Hn]; rewrite Hn.
    - destruct HntpF as [[Hz _] | (_ & _ & _ & _ & Hfr)]; [|left; exact Hfr].
      rewrite Hn, Hz in HtailV. congruence.
    - destruct (HfreshT (Cursor.pageID cT)) as [? | ?]; [clear; set_solver | right | left];
        assumption. }
  destruct (finishFlush_head s6 np6 _ dbpp hr cT' cH fs OH Hq6 HmodeH Hhr0)
    as (s7 & hr' & cH' & np7 & AHs & gsHs & HrunB & Hq7 & Hmode' & HchainH & HcatHs
        & HAHs & Hpage' & Ha7 & Hsame7).
  { unfold OH. clear -HhrAlloc. set_solver. }
  { destruct fs as [|x fs]; [exact Hhead|].
    destruct Hhead as (AH & start & gsH & gH & HwH & HcatH & HgH & HownedH & HfreshH
                       & Hdisj & HntpH).
    exists AH, start, gsH, gH.
    split; [|split; [exact HcatH|split; [exact HgH|]]].
    - apply (writing_agree AH (pages sF)); [|exact HwH].
      intros k Hk. apply Hsame6. intros ->.
      apply (Hdisj (Cursor.pageID cT)); clear -Hk; set_solver.
    - intros k Hk. unfold OH.
      apply elem_of_difference. split; [exact (HownedH _ Hk)|].
      intros Hin. apply elem_of_union in Hin. destruct Hin as [Hin | Hin].
      + apply elem_of_union in Hin. destruct Hin as [Hin | Hin].
        * exact (HfreshH _ Hk Hin).
        * exact (Hdisj _ Hk Hin).
      + apply elem_of_singleton in Hin. subst k.
        destruct Htail' as [Hn | Hn].
        * rewrite Hn in Hk, HtailV. exact (HntpH HtailV Hk).
        * rewrite Hn in Hk. apply (Hdisj _ Hk). clear. set_solver. }
  rewrite (bind_ok _ _ _ _ _ HrunB).
  eexists. split; [reflexivity|].
  rewrite view_over, pages_over, allocated_over, Hq7, Ha7, Ha6.
  cbn [tailWriter headReader set_headWriter set_tailWriter set_headReader numEntries].
  rewrite (init_WRITE _ HtailV).
  change (Cursor.init WRITE invalidLogicalPageID 0 invalidLogicalPageID)
    with (Cursor.mk WRITE invalidLogicalPageID invalidLogicalPageID 0 invalidLogicalPageID
            None []).
  split; [|reflexivity].
  unfold represents.
  cbn [tailWriter headReader headWriter newTailPage dataBytesPerPage set_headWriter
       set_tailWriter set_headReader].
  (* the pages of the queue before the flush are as they were *)
  assert (Hold : forall k, k ∈ A -> pages s7 !! k = pages s !! k).
  { intros k Hk.
    assert (Hks : k ∈ allocated s) by (apply HA; exact Hk).
    assert (Hkt : k <> tail) by (intros ->; exact (HtailA Hk)).
    rewrite Hsame7 by (unfold OH; clear -Hks; set_solver).
    rewrite Hsame6.
    - apply HsameF; assumption.
    - intros ->. destruct (HfreshT (Cursor.pageID cT)) as [? | ?];
        [clear; set_solver | congruence | contradiction]. }
  assert (HtailA' : Cursor.pageID cT' ∉ A).
  { intros Hin. destruct HtailNew as [Hn | Hn]; [exact (Hn (HA _ Hin))|].
    rewrite Hn in Hin. exact (HtailA Hin). }
  assert (HdisjAT : A ## ATs).
  { intros k HkA HkT. destruct (HfreshT k (HATs _ HkT)) as [-> | Hn];
      [exact (HtailA HkA) | exact (Hn (HA _ HkA))]. }
  assert (HchainOld :
    chain (A ∪ ATs) (pages s7) (Cursor.pageID hr) (Cursor.offset hr)
      (Cursor.pageID cT') 0 (gs ++ gsTs)).
  { apply (chain_app (pages s7) tail 0 (Cursor.pageID cT') 0 gs gsTs ATs).
    - apply (chain_agree (pages s6)); [|exact HchainT].
      intros k Hk. apply Hsame7. unfold OH. specialize (HATs _ Hk).
      clear -HATs. set_solver.
    - exact HdisjAT.
    - exact HtailA'.
    - rewrite <- Hend. apply (chain_agree (pages s)); [exact Hold | exact Hchain]. }
  assert (HtailH : Cursor.pageID cT' ∉ AHs).
  { intros Hin. specialize (HAHs _ Hin). unfold OH in HAHs. clear -HAHs. set_solver. }
  exists (AHs ∪ (A ∪ ATs)), (Cursor.pageID cT'), (gsHs ++ (gs ++ gsTs)).
  cbn [flushed fronts backs encoded map app].
  split; [rewrite !concat_app, HcatHs, Hcat, HcatTs, HcatT; reflexivity|].
  split.
  { split.
    - cbn [Cursor.pageID Cursor.offset Cursor.endPageID Cursor.set_endPageID].
      apply (chain_app (pages s7) (Cursor.pageID hr) (Cursor.offset hr)
               (Cursor.pageID cT') 0 gsHs (gs ++ gsTs) (A ∪ ATs) HchainOld).
      + intros k HkH HkA. specialize (HAHs _ HkH). unfold OH in HAHs.
        apply elem_of_union in HkA. destruct HkA as [HkA | HkT].
        * specialize (HA _ HkA). clear -HAHs HA. set_solver.
        * specialize (HATs _ HkT). clear -HAHs HATs. set_solver.
      + exact HtailH.
      + exact HchainH.
    - cbn [Cursor.page Cursor.pageID Cursor.set_endPageID]. intros p Hp.
      destruct Hpage' as [Hnone | [-> ->]]; [congruence|].
      destruct (Hbuf p Hp) as [Hgs Hpg].
      split; [destruct gs; [congruence | discriminate]|].
      rewrite Hold; [exact Hpg|].
      destruct gs as [|g gs]; [congruence|]. exact (proj1 (proj2 (proj2 (proj2 Hchain)))). }
  split; [cbn [Cursor.mode Cursor.set_endPageID]; congruence|].
  split; [reflexivity|]. split; [reflexivity|]. split; [reflexivity|].
  split; [reflexivity|]. split; [reflexivity|]. split; [exact HtailV|].
  split.
  { destruct Htail' as [Hn | Hn]; rewrite Hn.
    - destruct HntpF as [[Hz _] | (_ & _ & Hin & _)]; [|exact Hin].
      rewrite Hn, Hz in HtailV. congruence.
    - apply HownedT. clear. set_solver. }
  split.
  { intros Hin. apply elem_of_union in Hin. destruct Hin as [Hin | Hin]; [exact (HtailH Hin)|].
    apply elem_of_union in Hin. destruct Hin as [Hin | Hin];
      [exact (HtailA' Hin) | exact (HtailATs Hin)]. }
  split.
  { intros k Hk. apply elem_of_union in Hk. destruct Hk as [Hk | Hk].
    - specialize (HAHs _ Hk). unfold OH in HAHs. clear -HAHs. set_solver.
    - apply elem_of_union in Hk. destruct Hk as [Hk | Hk].
      + apply HmonoF, HA, Hk.
      + apply HownedT, HATs, Hk. }
  constructor.
Qed.

(** **** The operations of the queue *)

Lemma encoded_app (l k : list T) : encoded (l ++ k) = encoded l ++ encoded k.
Proof using Type. unfold encoded. apply map_app. Qed.

Lemma recover_represents s ups tid np ne :
  view qL s = recover ups (QueueState.mk tid tid 0 np ne) ->
  tid <> invalidLogicalPageID ->
  tid ∈ allocated s ->
  represents (T := T) (allocated s) (pages s) (view qL s) (ups - sizeofRawPage)
    (mkAbstract [] [] []).
Proof using Type.
  intros Hq Htid Halloc. rewrite Hq. unfold recover.
  cbn [QueueState.headPageID QueueState.tailPageID QueueState.headOffset
       QueueState.numPages QueueState.numEntries].
  rewrite (init_WRITE _ Htid).
  exists ∅, tid, []. cbn.
  split; [reflexivity|]. split; [split; [split; reflexivity | discriminate]|].
  split; [reflexivity|]. split; [reflexivity|]. split; [reflexivity|].
  split; [reflexivity|]. split; [reflexivity|]. split; [reflexivity|].
  split; [exact Htid|]. split; [exact Halloc|]. split; [clear; set_solver|].
  split; [clear; set_solver | constructor].
Qed.

Lemma pushBack_represents s dbpp (a : Abstract) (x : T) :
  represents (allocated s) (pages s) (view qL s) dbpp a ->
  bytesNeeded x <= dbpp ->
  represents (allocated (over qL (pushBack x) s)) (pages (over qL (pushBack x) s))
    (view qL (over qL (pushBack x) s)) dbpp
    (mkAbstract (flushed a) (fronts a) (backs a ++ [x])).
Proof using view_over pages_over allocated_over.
  intros (A & tail & gs & Hcat & Hholds & Hmode & Hend & Htw & Hhw & Hntp & Hdb
          & Htail0 & HtailAlloc & HtailA & HA & Hfit) Hx.
  rewrite view_over, pages_over, allocated_over.
  exists A, tail, gs. unfold pushBack, Cursor.write.
  cbn [flushed fronts backs headReader tailWriter headWriter newTailPage dataBytesPerPage
       set_tailWriter].
  rewrite Htw. cbn [Cursor.operation Cursor.set_operation Cursor.mode Cursor.pageID
    Cursor.firstPageIDWritten Cursor.offset Cursor.endPageID Cursor.page].
  rewrite encoded_app.
  split; [exact Hcat|]. split; [exact Hholds|]. split; [exact Hmode|].
  split; [exact Hend|]. split; [reflexivity|]. split; [exact Hhw|].
  split; [exact Hntp|]. split; [exact Hdb|]. split; [exact Htail0|].
  split; [exact HtailAlloc|]. split; [exact HtailA|]. split; [exact HA|].
  rewrite app_assoc. apply Forall_app. split; [exact Hfit|]. now constructor.
Qed.

Lemma pushFront_represents s dbpp (a : Abstract) (x : T) :
  represents (allocated s) (pages s) (view qL s) dbpp a ->
  bytesNeeded x <= dbpp ->
  represents (allocated (over qL (pushFront x) s)) (pages (over qL (pushFront x) s))
    (view qL (over qL (pushFront x) s)) dbpp
    (mkAbstract (flushed a) (fronts a ++ [x]) (backs a)).
Proof using view_over pages_over allocated_over.
  intros (A & tail & gs & Hcat & Hholds & Hmode & Hend & Htw & Hhw & Hntp & Hdb
          & Htail0 & HtailAlloc & HtailA & HA & Hfit) Hx.
  rewrite view_over, pages_over, allocated_over.
  exists A, tail, gs. unfold pushFront, Cursor.write.
  cbn [flushed fronts backs headReader tailWriter headWriter newTailPage dataBytesPerPage
       set_headWriter].
  rewrite Hhw. cbn [Cursor.operation Cursor.set_operation Cursor.mode Cursor.pageID
    Cursor.firstPageIDWritten Cursor.offset Cursor.endPageID Cursor.page].
  rewrite encoded_app.
  split; [exact Hcat|]. split; [exact Hholds|]. split; [exact Hmode|].
  split; [exact Hend|]. split; [exact Htw|]. split; [reflexivity|].
  split; [exact Hntp|]. split; [exact Hdb|]. split; [exact Htail0|].
  split; [exact HtailAlloc|]. split; [exact HtailA|]. split; [exact HA|].
  apply Forall_app in Hfit. destruct Hfit as [Hf Hb].
  apply Forall_app. split; [|exact Hb]. apply Forall_app. split; [exact Hf|].
  now constructor.
Qed.

(** a pop takes the first of the flushed items *)
Lemma pop_represents s dbpp (a : Abstract) upperBound :
  represents (allocated s) (pages s) (view qL s) dbpp a ->
  exists s',
    readNext qL (lens_comp qL headReaderL) readPage freePage upperBound s
      = (Ok (fst (step (Pop upperBound) a)), s') /\
    represents (allocated s') (pages s') (view qL s') dbpp (snd (step (Pop upperBound) a)).
Proof using view_over pages_over allocated_over readPage_spec freePage_spec
  codec_roundtrip codec_size.
  intros (A & tail & gs & Hcat & Hholds & Hmode & Hend & Htw & Hhw & Hntp & Hdb
          & Htail0 & HtailAlloc & HtailA & HA & Hfit).
  pose (rest := fun s0 : S =>
    (tailWriter (view qL s0), headWriter (view qL s0), newTailPage (view qL s0),
     dataBytesPerPage (view qL s0))).
  assert (Hrest : forall s', rest s' = rest s ->
            tailWriter (view qL s') = tailWriter (view qL s) /\
            headWriter (view qL s') = headWriter (view qL s) /\
            newTailPage (view qL s') = newTailPage (view qL s) /\
            dataBytesPerPage (view qL s') = dataBytesPerPage (view qL s)).
  { intros s' Heq. unfold rest in Heq. injection Heq as ? ? ? ?. auto. }
  cbn [step]. destruct (flushed a) as [|x l] eqn:Hfl.
  - apply (chain_nil _ _ _ _ _ _ _ (proj1 Hholds)) in Hcat. subst gs.
    exists s. split.
    + apply (readNext_nil qL (lens_comp qL headReaderL) readPage freePage pages A 0
               upperBound s (or_introl Hmode) Hholds).
    + cbn [snd]. exists A, tail, []. rewrite Hfl. auto 15.
  - destruct (chain_cons _ _ _ _ _ _ _ _ _ (proj1 Hholds) Hcat) as (g & gs' & -> & ->).
    destruct (readNext_cons qL (lens_comp qL headReaderL) readPage freePage pages
                allocated rest)
      with (A := A) (endOff := 0) (upperBound := upperBound) (s := s) (x := x) (g := g)
           (gs := gs')
      as (s' & Hrun & Hp & Hr & Hm & He & Hcase).
    + intros f s0. cbn [lens_comp view over headReaderL]. now rewrite view_over.
    + intros f s0. cbn [lens_comp over]. apply pages_over.
    + exact pages_over.
    + intros f s0. cbn [lens_comp over]. apply allocated_over.
    + exact allocated_over.
    + intros f s0. unfold rest. cbn [lens_comp over]. rewrite view_over.
      destruct (view qL s0). reflexivity.
    + intros s0. unfold rest. rewrite view_over. destruct (view qL s0). reflexivity.
    + intros s0. unfold rest. rewrite view_over. destruct (view qL s0). reflexivity.
    + intros k s0 Hk. cbn [lens_comp view headReaderL]. rewrite view_over. apply Hk.
    + intros pid c s0 p Hpg.
      destruct (readPage_spec pid c s0 p Hpg) as (s1 & Hrd & Hq1 & Hp1 & Ha1).
      exists s1. unfold rest. cbn [lens_comp view headReaderL]. rewrite Hq1. auto.
    + intros pid v s0.
      destruct (freePage_spec pid v s0) as (s1 & Hfr & Hq1 & Hp1 & Ha1).
      exists s1. unfold rest. cbn [lens_comp view headReaderL]. rewrite Hq1. auto.
    + exact codec_roundtrip.
    + exact codec_size.
    + left. exact Hmode.
    + exact Hholds.
    + exists s'. cbn [lens_comp view headReaderL] in *.
      destruct (Hrest s' Hr) as (Htw' & Hhw' & Hntp' & Hdb').
      rewrite <- Htw' in Htw. rewrite <- Hhw' in Hhw. rewrite <- Hntp' in Hntp.
      rewrite <- Hdb' in Hdb.
      destruct (exceeds upperBound x).
      * split; [exact Hrun|]. cbn [snd fst]. destruct Hcase as [Hh Ha].
        exists A, tail, ((x :: g) :: gs'). rewrite Hp, Ha, Hfl.
        split; [reflexivity|]. split; [rewrite <- Hp; exact Hh|].
        split; [congruence|]. split; [congruence|]. auto 10.
      * split; [exact Hrun|]. cbn [snd fst flushed fronts backs].
        rewrite Hp.
        destruct g as [|y g].
        -- destruct Hcase as [Hh Ha].
           assert (Hpid : Cursor.pageID (headReader (view qL s)) <> tail).
           { destruct Hholds as [(_ & _ & Hne & _) _]. congruence. }
           exists (A ∖ {[Cursor.pageID (headReader (view qL s))]}), tail, gs'.
           split; [reflexivity|]. split; [rewrite <- Hp; exact Hh|].
           split; [congruence|]. split; [congruence|].
           split; [exact Htw|]. split; [exact Hhw|]. split; [exact Hntp|].
           split; [exact Hdb|]. split; [exact Htail0|].
           split; [apply Ha; clear -HtailAlloc Hpid; set_solver|].
           split; [clear -HtailA; set_solver|].
           split; [|exact Hfit].
           etransitivity; [|exact Ha]. clear -HA. set_solver.
        -- destruct Hcase as [Hh Ha].
           exists A, tail, ((y :: g) :: gs'). rewrite Ha.
           split; [reflexivity|]. split; [rewrite <- Hp; exact Hh|].
           split; [congruence|]. split; [congruence|]. auto 10.
Qed.

Lemma holds_initReadOnly A pg c endOff (gs : list (list T)) :
  holds A pg c endOff gs -> holds A pg (Cursor.initReadOnly c) endOff gs.
Proof using Type.
  intros [Hchain _]. split; [exact Hchain | discriminate].
Qed.

Lemma peekAll_loop_holds (l : list T) :
  forall A (gs : list (list T)) fuel acc s c,
    concat gs = l ->
    (length l < fuel)%nat ->
    Cursor.mode c = READONLY ->
    holds A (pages s) c 0 gs ->
    exists st,
      peekAll_loop qL readPage freePage fuel acc (s, c) = (Ok (acc ++ l), st).
Proof using view_over pages_over readPage_spec freePage_spec codec_roundtrip codec_size.
  assert (Hread : forall pid c (st : S * Cursor.t) p,
            pages (fst st) !! pid = Some p ->
            exists st', liftL fstL (readPage pid c) st = (Ok p, st') /\
                        view sndL st' = view sndL st /\ pages (fst st') = pages (fst st) /\
                        (∅ : gset LogicalPageID) = ∅ /\ tt = tt).
  { intros pid c [s0 c0] p Hpg. cbn [fst] in Hpg.
    destruct (readPage_spec pid c s0 p Hpg) as (s1 & Hrd & _ & Hp1 & _).
    exists (s1, c0). unfold liftL. cbn [view over fstL fst snd]. rewrite Hrd. auto. }
  assert (Hfree : forall pid v (st : S * Cursor.t),
            exists st', liftL fstL (freePage pid v) st = (Ok tt, st') /\
                        view sndL st' = view sndL st /\ pages (fst st') = pages (fst st) /\
                        (∅ : gset LogicalPageID) ∖ {[pid]} ⊆ ∅ /\ tt = tt).
  { intros pid v [s0 c0].
    destruct (freePage_spec pid v s0) as (s1 & Hfr & _ & Hp1 & _).
    exists (s1, c0). unfold liftL. cbn [view over fstL fst snd]. rewrite Hfr.
    split; [reflexivity|]. split; [reflexivity|]. split; [exact Hp1|].
    split; [clear; set_solver | reflexivity]. }
  induction l as [|x l IH]; intros A gs fuel acc s c Hcat Hfuel Hmode Hholds;
    (destruct fuel as [|fuel]; [cbn in Hfuel; lia|]); cbn [peekAll_loop].
  - apply (chain_nil _ _ _ _ _ _ _ (proj1 Hholds)) in Hcat. subst gs.
    rewrite (bind_ok _ _ _ _ _
      (readNext_nil (T := T) (lens_comp fstL qL) sndL
         (fun pid c => liftL fstL (readPage pid c))
         (fun pid v => liftL fstL (freePage pid v))
         (fun st => pages (fst st)) A 0 None (s, c) (or_intror Hmode) Hholds)).
    exists (s, c). now rewrite app_nil_r.
  - destruct (chain_cons _ _ _ _ _ _ _ _ _ (proj1 Hholds) Hcat) as (g & gs' & -> & ->).
    destruct (readNext_cons (lens_comp fstL qL) sndL
                (fun pid c => liftL fstL (readPage pid c))
                (fun pid v => liftL fstL (freePage pid v))
                (fun st => pages (fst st)) (fun _ => (∅ : gset LogicalPageID))
                (fun _ => tt))
      with (A := A) (endOff := 0) (upperBound := @None T) (s := (s, c)) (x := x) (g := g)
           (gs := gs')
      as ([s' c'] & Hrun & Hp & _ & Hm & _ & Hcase).
    + intros f st. reflexivity.
    + intros f st. reflexivity.
    + intros f st. cbn [lens_comp over fstL fst]. apply pages_over.
    + intros f st. reflexivity.
    + intros f st. reflexivity.
    + intros f st. reflexivity.
    + intros st. reflexivity.
    + intros st. reflexivity.
    + intros k st _. reflexivity.
    + exact Hread.
    + exact Hfree.
    + exact codec_roundtrip.
    + exact codec_size.
    + right. exact Hmode.
    + exact Hholds.
    + cbn [exceeds] in Hrun, Hcase. rewrite (bind_ok _ _ _ _ _ Hrun).
      cbn [view sndL fst snd] in Hcase, Hm.
      destruct g as [|y g].
      * destruct (IH (A ∖ {[Cursor.pageID c]}) gs' fuel (acc ++ [x]) s' c') as (st & Hloop);
          [reflexivity | cbn [length app] in Hfuel |- *; lia | congruence | exact (proj1 Hcase) |].
        exists st. rewrite Hloop, <- app_assoc. reflexivity.
      * destruct (IH A ((y :: g) :: gs') fuel (acc ++ [x]) s' c') as (st & Hloop);
          [reflexivity | cbn [length app] in Hfuel |- *; lia | congruence | exact (proj1 Hcase) |].
        exists st. rewrite Hloop, <- app_assoc. reflexivity.
Qed.

(** [peekAll] returns the flushed items *)
Lemma peekAll_represents s dbpp (a : Abstract) fuel :
  represents (allocated s) (pages s) (view qL s) dbpp a ->
  (length (flushed a) < fuel)%nat ->
  exists s', peekAll_impl qL readPage freePage fuel s = (Ok (flushed a), s').
Proof using view_over pages_over readPage_spec freePage_spec codec_roundtrip codec_size.
  intros (A & tail & gs & Hcat & Hholds & _) Hfuel. unfold peekAll_impl.
  destruct (peekAll_loop_holds (flushed a) A gs fuel [] s
              (Cursor.initReadOnly (headReader (view qL s))))
    as ([s' c'] & Hloop);
    [exact Hcat | exact Hfuel | reflexivity | now apply holds_initReadOnly |].
  exists s'. cbv zeta. rewrite Hloop. reflexivity.
Qed.

Lemma pushBack_all_represents (l : list T) :
  forall s dbpp (a : Abstract),
    represents (allocated s) (pages s) (view qL s) dbpp a ->
    Forall (fun x => bytesNeeded x <= dbpp) l ->
    represents (allocated (foldl (fun s x => over qL (pushBack x) s) s l))
      (pages (foldl (fun s x => over qL (pushBack x) s) s l))
      (view qL (foldl (fun s x => over qL (pushBack x) s) s l)) dbpp
      (mkAbstract (flushed a) (fronts a) (backs a ++ l)) /\
    numEntries (view qL (foldl (fun s x => over qL (pushBack x) s) s l))
      = numEntries (view qL s).
Proof using view_over pages_over allocated_over.
  induction l as [|x l IH]; intros s dbpp a Hrep Hfit; cbn [foldl].
  - rewrite app_nil_r. destruct a. split; [exact Hrep | reflexivity].
  - destruct (IH (over qL (pushBack x) s) dbpp
                (mkAbstract (flushed a) (fronts a) (backs a ++ [x]))
                (pushBack_represents s dbpp a x Hrep (Forall_inv Hfit))
                (Forall_inv_tail Hfit)) as [Hrep' Hn].
    cbn [flushed fronts backs] in Hrep'. rewrite <- app_assoc in Hrep'.
    split; [exact Hrep'|]. rewrite Hn, view_over. destruct (view qL s). reflexivity.
Qed.

Lemma pushFront_all_represents (l : list T) :
  forall s dbpp (a : Abstract),
    represents (allocated s) (pages s) (view qL s) dbpp a ->
    Forall (fun x => bytesNeeded x <= dbpp) l ->
    represents (allocated (foldl (fun s x => over qL (pushFront x) s) s l))
      (pages (foldl (fun s x => over qL (pushFront x) s) s l))
      (view qL (foldl (fun s x => over qL (pushFront x) s) s l)) dbpp
      (mkAbstract (flushed a) (fronts a ++ l) (backs a)).
Proof using view_over pages_over allocated_over.
  induction l as [|x l IH]; intros s dbpp a Hrep Hfit; cbn [foldl].
  - rewrite app_nil_r. destruct a. exact Hrep.
  - pose proof (IH (over qL (pushFront x) s) dbpp
                  (mkAbstract (flushed a) (fronts a ++ [x]) (backs a))
                  (pushFront_represents s dbpp a x Hrep (Forall_inv Hfit))
                  (Forall_inv_tail Hfit)) as Hrep'.
    cbn [flushed fronts backs] in Hrep'. rewrite <- app_assoc in Hrep'. exact Hrep'.
Qed.

(** the operations of the queue, one after the other, are those of the queue
    that the comment describes *)
Lemma runOps_represents (ops : list Op) :
  forall s dbpp (a : Abstract),
    represents (allocated s) (pages s) (view qL s) dbpp a ->
    Forall (fun op => match op with
                      | PushBack x | PushFront x => bytesNeeded x <= dbpp
                      | _ => True
                      end) ops ->
    exists s',
      runOps qL readPage freePage newPageID updatePage ops s
        = (Ok (fst (steps ops a)), s') /\
      represents (allocated s') (pages s') (view qL s') dbpp (snd (steps ops a)).
Proof using All.
  induction ops as [|op ops IH]; intros s dbpp a Hrep Hfit.
  - exists s. split; [reflexivity | exact Hrep].
  - cbn [runOps steps].
    assert (exists s1,
              runOp qL readPage freePage newPageID updatePage op s
                = (Ok (fst (step op a)), s1) /\
              represents (allocated s1) (pages s1) (view qL s1) dbpp (snd (step op a)))
      as (s1 & Hrun1 & Hrep1).
    { destruct op as [x | x | | upperBound]; cbn [runOp].
      - rewrite bind_modify. eexists. split; [reflexivity|].
        exact (pushBack_represents s dbpp a x Hrep (Forall_inv Hfit)).
      - rewrite bind_modify. eexists. split; [reflexivity|].
        exact (pushFront_represents s dbpp a x Hrep (Forall_inv Hfit)).
      - destruct (flush_represents s dbpp a Hrep) as (s1 & Hrun & Hrep1 & _).
        rewrite (bind_ok _ _ _ _ _ Hrun). exists s1. split; [reflexivity | exact Hrep1].
      - exact (pop_represents s dbpp a upperBound Hrep). }
    rewrite (bind_ok _ _ _ _ _ Hrun1).
    destruct (step op a) as [r a1]. cbn [fst snd] in *.
    destruct (IH s1 dbpp a1 Hrep1 (Forall_inv_tail Hfit)) as (s2 & Hrun2 & Hrep2).
    rewrite (bind_ok _ _ _ _ _ Hrun2).
    destruct (steps ops a1) as [rs a2]. cbn [fst snd] in *.
    exists s2. split; [reflexivity | exact Hrep2].
Qed.

(** a queue recovered from the state of a queue without pending pushes is
    the same queue *)
Lemma recover_getState_represents s ups (a : Abstract) :
  represents (allocated s) (pages s) (view qL s) (ups - sizeofRawPage) a ->
  fronts a = [] ->
  backs a = [] ->
  represents (allocated (over qL (fun q => recover ups (getState q)) s))
    (pages (over qL (fun q => recover ups (getState q)) s))
    (view qL (over qL (fun q => recover ups (getState q)) s)) (ups - sizeofRawPage) a /\
  numEntries (view qL (over qL (fun q => recover ups (getState q)) s))
    = numEntries (view qL s) /\
  numPages (view qL (over qL (fun q => recover ups (getState q)) s))
    = numPages (view qL s).
Proof using view_over pages_over allocated_over.
  intros (A & tail & gs & Hcat & [Hchain _] & Hmode & Hend & Htw & Hhw & Hntp & Hdb
          & Htail0 & HtailAlloc & HtailA & HA & Hfit) Hf Hb.
  rewrite view_over, pages_over, allocated_over.
  split; [|split; reflexivity].
  unfold recover, getState.
  cbn [QueueState.headPageID QueueState.tailPageID QueueState.headOffset
       QueueState.numPages QueueState.numEntries].
  rewrite Htw. cbn [Cursor.pageID]. rewrite (init_WRITE _ Htail0).
  exists A, tail, gs. rewrite Hf, Hb.
  cbn [headReader tailWriter headWriter newTailPage dataBytesPerPage Cursor.init
       Cursor.mode Cursor.endPageID encoded map].
  split; [exact Hcat|].
  split; [split; [rewrite <- Hend; exact Hchain | discriminate]|].
  split; [reflexivity|]. split; [reflexivity|]. split; [reflexivity|].
  split; [reflexivity|]. split; [reflexivity|]. split; [reflexivity|].
  split; [exact Htail0|]. split; [exact HtailAlloc|]. split; [exact HtailA|].
  split; [exact HA | constructor].
Qed.

(** FIFO order through a flush.  Over a pager that returns on a read the
    page last written and that hands out valid page identifiers that are not
    allocated, and for items that the codec reads as they were written:
    items pushed to the back of an empty queue, each of which fits a page,
    are, after [flush], what [peekAll] returns, in the order of the pushes,
    whatever the number of pages they take.  Offsets in a page are 16 bits
    wide, so a page holds no more than they address. *)
Theorem flush_then_peekAll (items : list T) (s : S) (ups : Z)
    (tid : LogicalPageID) (np ne : Z) (fuel : nat) :
  view qL s = recover ups (QueueState.mk tid tid 0 np ne) ->
  tid <> invalidLogicalPageID ->
  tid ∈ allocated s ->
  ups - sizeofRawPage < 2 ^ 16 ->
  Forall (fun x => bytesNeeded x <= ups - sizeofRawPage) items ->
  (length items < fuel)%nat ->
  exists s1 s2,
    flush_impl qL newPageID updatePage 3
      (foldl (fun s x => over qL (pushBack x) s) s items) = (Ok tt, s1) /\
    numEntries (view qL s1) = ne + Z.of_nat (length items) /\
    peekAll_impl qL readPage freePage fuel s1 = (Ok items, s2).
Proof using All.
  intros Hq Hvalid Halloc _ Hfit Hfuel.
  pose proof (recover_represents s ups tid np ne Hq Hvalid Halloc) as Hrep0.
  destruct (pushBack_all_represents items s _ _ Hrep0 Hfit) as [Hrep1 Hn1].
  destruct (flush_represents _ _ _ Hrep1) as (s1 & Hflush & Hrep2 & Hn2).
  cbn [flushed fronts backs app length] in Hrep2, Hn2.
  destruct (peekAll_represents s1 _ _ fuel Hrep2 Hfuel) as (s2 & Hpeek).
  exists s1, s2. split; [exact Hflush|]. split; [|exact Hpeek].
  rewrite Hn2, Hn1, Hq. cbn. lia.
Qed.

(** Pop after a flush.  Over such a pager, after items have been pushed to
    the back of an empty queue and flushed, [pop] returns the item pushed
    first, and the items pushed after it are what is left in the queue, in
    their order. *)
Theorem flush_then_pop (x : T) (items : list T) (s : S) (ups : Z)
    (tid : LogicalPageID) (np ne : Z) (fuel : nat) :
  view qL s = recover ups (QueueState.mk tid tid 0 np ne) ->
  tid <> invalidLogicalPageID ->
  tid ∈ allocated s ->
  ups - sizeofRawPage < 2 ^ 16 ->
  Forall (fun x => bytesNeeded x <= ups - sizeofRawPage) (x :: items) ->
  (length items < fuel)%nat ->
  exists s1 s2 s3,
    flush_impl qL newPageID updatePage 3
      (foldl (fun s x => over qL (pushBack x) s) s (x :: items)) = (Ok tt, s1) /\
    readNext qL (lens_comp qL headReaderL) readPage freePage None s1 = (Ok (Some x), s2) /\
    peekAll_impl qL readPage freePage fuel s2 = (Ok items, s3).
Proof using All.
  intros Hq Hvalid Halloc _ Hfit Hfuel.
  pose proof (recover_represents s ups tid np ne Hq Hvalid Halloc) as Hrep0.
  destruct (pushBack_all_represents (x :: items) s _ _ Hrep0 Hfit) as [Hrep1 _].
  destruct (flush_represents _ _ _ Hrep1) as (s1 & Hflush & Hrep2 & _).
  cbn [flushed fronts backs app] in Hrep2.
  destruct (pop_represents s1 _ _ None Hrep2) as (s2 & Hpop & Hrep3).
  cbn [step flushed fronts backs exceeds fst snd] in Hpop, Hrep3.
  destruct (peekAll_represents s2 _ _ fuel Hrep3 Hfuel) as (s3 & Hpeek).
  exists s1, s2, s3. auto.
Qed.

(** Pushes to the front.  Over such a pager, when items have been pushed to
    the back of an empty queue and flushed, and after that items are pushed
    to the front and flushed, the queue has the items pushed to the front,
    in the order of their pushes, before the items pushed to the back. *)
Theorem pushFront_then_peekAll (bs fs : list T) (s : S) (ups : Z)
    (tid : LogicalPageID) (np ne : Z) (fuel : nat) :
  view qL s = recover ups (QueueState.mk tid tid 0 np ne) ->
  tid <> invalidLogicalPageID ->
  tid ∈ allocated s ->
  ups - sizeofRawPage < 2 ^ 16 ->
  Forall (fun x => bytesNeeded x <= ups - sizeofRawPage) (bs ++ fs) ->
  (length (fs ++ bs) < fuel)%nat ->
  exists s1 s2 s3,
    flush_impl qL newPageID updatePage 3
      (foldl (fun s x => over qL (pushBack x) s) s bs) = (Ok tt, s1) /\
    flush_impl qL newPageID updatePage 3
      (foldl (fun s x => over qL (pushFront x) s) s1 fs) = (Ok tt, s2) /\
    peekAll_impl qL readPage freePage fuel s2 = (Ok (fs ++ bs), s3).
Proof using All.
  intros Hq Hvalid Halloc _ Hfit Hfuel.
  apply Forall_app in Hfit. destruct Hfit as [HfitB HfitF].
  pose proof (recover_represents s ups tid np ne Hq Hvalid Halloc) as Hrep0.
  destruct (pushBack_all_represents bs s _ _ Hrep0 HfitB) as [Hrep1 _].
  destruct (flush_represents _ _ _ Hrep1) as (s1 & Hflush1 & Hrep2 & _).
  cbn [flushed fronts backs app] in Hrep2.
  pose proof (pushFront_all_represents fs s1 _ _ Hrep2 HfitF) as Hrep3.
  destruct (flush_represents _ _ _ Hrep3) as (s2 & Hflush2 & Hrep4 & _).
  cbn [flushed fronts backs app] in Hrep4. rewrite app_nil_r in Hrep4.
  destruct (peekAll_represents s2 _ _ fuel Hrep4 Hfuel) as (s3 & Hpeek).
  exists s1, s2, s3. auto.
Qed.

(** The queue refines the queue of the comment at its head.  Over such a
    pager, pushes to the back and to the front, flushes and pops, in any
    order, on a queue that is empty at first: every pop returns what a pop
    of the described queue returns (the first flushed item, or nothing when
    no item is flushed or the item exceeds the upper bound), and at the end
    [peekAll] returns the flushed items of the described queue. *)
Theorem queue_refines (ops : list Op) (s : S) (ups : Z)
    (tid : LogicalPageID) (np ne : Z) (fuel : nat) :
  view qL s = recover ups (QueueState.mk tid tid 0 np ne) ->
  tid <> invalidLogicalPageID ->
  tid ∈ allocated s ->
  ups - sizeofRawPage < 2 ^ 16 ->
  Forall (fun op => match op with
                    | PushBack x | PushFront x => bytesNeeded x <= ups - sizeofRawPage
                    | _ => True
                    end) ops ->
  (length (flushed (snd (steps ops (mkAbstract [] [] [])))) < fuel)%nat ->
  exists s1 s2,
    runOps qL readPage freePage newPageID updatePage ops s
      = (Ok (fst (steps ops (mkAbstract [] [] []))), s1) /\
    peekAll_impl qL readPage freePage fuel s1
      = (Ok (flushed (snd (steps ops (mkAbstract [] [] [])))), s2).
Proof using All.
  intros Hq Hvalid Halloc _ Hfit Hfuel.
  pose proof (recover_represents s ups tid np ne Hq Hvalid Halloc) as Hrep0.
  destruct (runOps_represents ops s _ _ Hrep0 Hfit) as (s1 & Hrun & Hrep1).
  destruct (peekAll_represents s1 _ _ fuel Hrep1 Hfuel) as (s2 & Hpeek).
  exists s1, s2. auto.
Qed.

(** The state of a queue carries it over a restart.  Over such a pager,
    after any pushes, flushes and pops on a queue that is empty at first,
    and a flush: the queue that [recover] makes from what [getState]
    returns goes on as the same queue.  Whatever pushes, flushes and pops
    follow on it, every pop returns what the pop of the described queue
    returns, and [peekAll] at the end returns its flushed items. *)
Theorem getState_then_recover (ops ops' : list Op) (s : S) (ups : Z)
    (tid : LogicalPageID) (np ne : Z) (fuel : nat) :
  view qL s = recover ups (QueueState.mk tid tid 0 np ne) ->
  tid <> invalidLogicalPageID ->
  tid ∈ allocated s ->
  ups - sizeofRawPage < 2 ^ 16 ->
  Forall (fun op => match op with
                    | PushBack x | PushFront x => bytesNeeded x <= ups - sizeofRawPage
                    | _ => True
                    end) (ops ++ ops') ->
  (length (flushed (snd (steps ops'
     (snd (step Flush (snd (steps ops (mkAbstract [] [] []))))))))
   < fuel)%nat ->
  exists s0 s1 s2 s3,
    runOps qL readPage freePage newPageID updatePage ops s
      = (Ok (fst (steps ops (mkAbstract [] [] []))), s0) /\
    flush_impl qL newPageID updatePage 3 s0 = (Ok tt, s1) /\
    runOps qL readPage freePage newPageID updatePage ops'
      (over qL (fun q => recover ups (getState q)) s1)
      = (Ok (fst (steps ops'
               (snd (step Flush (snd (steps ops (mkAbstract [] [] []))))))), s2) /\
    peekAll_impl qL readPage freePage fuel s2
      = (Ok (flushed (snd (steps ops'
               (snd (step Flush (snd (steps ops (mkAbstract [] [] [])))))))), s3).
Proof using All.
  intros Hq Hvalid Halloc _ Hfit Hfuel.
  apply Forall_app in Hfit. destruct Hfit as [Hfit Hfit'].
  pose proof (recover_represents s ups tid np ne Hq Hvalid Halloc) as Hrep.
  destruct (runOps_represents ops s _ _ Hrep Hfit) as (s0 & Hrun & Hrep0).
  destruct (flush_represents _ _ _ Hrep0) as (s1 & Hflush & Hrep1 & _).
  destruct (recover_getState_represents s1 ups _ Hrep1 eq_refl eq_refl) as [Hrep1' _].
  destruct (runOps_represents ops' _ _ _ Hrep1' Hfit') as (s2 & Hrun' & Hrep2).
  destruct (peekAll_represents s2 _ _ fuel Hrep2 Hfuel) as (s3 & Hpeek).
  exists s0, s1, s2, s3. auto.
Qed.
End Order.

Lemma alone_readPage pid c (s : Examples.QueueAlone) p :
  Examples.alonePages s !! pid = Some p ->
  exists s', Examples.aloneReadPage pid c s = (Ok p, s') /\
             view fstL s' = view fstL s /\ Examples.alonePages s' = Examples.alonePages s /\
             Examples.aloneAllocated s' = Examples.aloneAllocated s.
Proof.
  intros Hp. exists s. unfold Examples.aloneReadPage. rewrite Hp. auto.
Qed.

Lemma alone_freePage pid v (s : Examples.QueueAlone) :
  exists s', Examples.aloneFreePage pid v s = (Ok tt, s') /\
             view fstL s' = view fstL s /\ Examples.alonePages s' = Examples.alonePages s /\
             Examples.aloneAllocated s ∖ {[pid]} ⊆ Examples.aloneAllocated s'.
Proof.
  exists s. split; [reflexivity|]. split; [reflexivity|]. split; [reflexivity|].
  apply subseteq_difference_l. reflexivity.
Qed.

Lemma alone_updatePage pid p (s : Examples.QueueAlone) :
  exists s', Examples.aloneUpdatePage pid p s = (Ok tt, s') /\
             view fstL s' = view fstL s /\
             Examples.alonePages s' = <[pid := p]> (Examples.alonePages s) /\
             Examples.aloneAllocated s' = Examples.aloneAllocated s.
Proof. eexists. split; [reflexivity|]. auto. Qed.

Lemma alone_newPageID (s : Examples.QueueAlone) :
  exists pid s', Examples.aloneNewPageID s = (Ok pid, s') /\
                 view fstL s' = view fstL s /\
                 Examples.alonePages s' = Examples.alonePages s /\
                 pid <> invalidLogicalPageID /\ (pid ∉ Examples.aloneAllocated s) /\
                 Examples.aloneAllocated s' = {[pid]} ∪ Examples.aloneAllocated s.
Proof.
  eexists _, _. split; [reflexivity|]. split; [reflexivity|]. split; [reflexivity|].
  pose proof (is_fresh ({[invalidLogicalPageID]} ∪ Examples.aloneAllocated s)) as Hfresh.
  split; [|split; [|reflexivity]].
  - intros Heq. apply Hfresh. rewrite Heq. apply elem_of_union. left.
    now apply elem_of_singleton.
  - intros Hin. apply Hfresh. apply elem_of_union. right. exact Hin.
Qed.

(** The theorem at work on three page identifiers pushed to a new queue whose
    pages have room for two. *)
Lemma flush_then_peekAll_witness :
  exists s1 s2,
    flush_impl fstL Examples.aloneNewPageID Examples.aloneUpdatePage 3
      (foldl (fun s x => over fstL (pushBack x) s) Examples.newQueue [5; 6; 7])
      = (Ok tt, s1) /\
    numEntries (view fstL s1) = 0 + Z.of_nat (length [5; 6; 7]) /\
    peekAll_impl fstL Examples.aloneReadPage Examples.aloneFreePage 4 s1
      = (Ok [5; 6; 7], s2).
Proof.
  apply (@flush_then_peekAll _ LogicalPageID LogicalPageID_codec fstL
           Examples.aloneReadPage Examples.aloneFreePage Examples.aloneNewPageID
           Examples.aloneUpdatePage Examples.alonePages Examples.aloneAllocated
           (fun _ _ => eq_refl) (fun _ _ => eq_refl) (fun _ _ => eq_refl)
           alone_readPage alone_freePage alone_updatePage alone_newPageID
           (fun _ => eq_refl) (fun _ => eq_refl)
           [5; 6; 7] Examples.newQueue 28 1 1 0 4);
    [reflexivity | discriminate | vm_compute; reflexivity | reflexivity
    | repeat constructor; vm_compute; discriminate | simpl; lia].
Defined.

(** The theorem at work on the same queue. *)
Lemma flush_then_pop_witness :
  exists s1 s2 s3,
    flush_impl fstL Examples.aloneNewPageID Examples.aloneUpdatePage 3
      (foldl (fun s x => over fstL (pushBack x) s) Examples.newQueue [5; 6; 7])
      = (Ok tt, s1) /\
    readNext fstL (lens_comp fstL headReaderL) Examples.aloneReadPage
      Examples.aloneFreePage None s1 = (Ok (Some 5), s2) /\
    peekAll_impl fstL Examples.aloneReadPage Examples.aloneFreePage 3 s2
      = (Ok [6; 7], s3).
Proof.
  apply (@flush_then_pop _ LogicalPageID LogicalPageID_codec fstL
           Examples.aloneReadPage Examples.aloneFreePage Examples.aloneNewPageID
           Examples.aloneUpdatePage Examples.alonePages Examples.aloneAllocated
           (fun _ _ => eq_refl) (fun _ _ => eq_refl) (fun _ _ => eq_refl)
           alone_readPage alone_freePage alone_updatePage alone_newPageID
           (fun _ => eq_refl) (fun _ => eq_refl)
           5 [6; 7] Examples.newQueue 28 1 1 0 3);
    [reflexivity | discriminate | vm_compute; reflexivity | reflexivity
    | repeat constructor; vm_compute; discriminate | simpl; lia].
Defined.

(** The theorem at work: three page identifiers pushed to the back of the
    new queue and flushed, two pushed to the front and flushed. *)
Lemma pushFront_then_peekAll_witness :
  exists s1 s2 s3,
    flush_impl fstL Examples.aloneNewPageID Examples.aloneUpdatePage 3
      (foldl (fun s x => over fstL (pushBack x) s) Examples.newQueue [5; 6; 7])
      = (Ok tt, s1) /\
    flush_impl fstL Examples.aloneNewPageID Examples.aloneUpdatePage 3
      (foldl (fun s x => over fstL (pushFront x) s) s1 [3; 4]) = (Ok tt, s2) /\
    peekAll_impl fstL Examples.aloneReadPage Examples.aloneFreePage 6 s2
      = (Ok [3; 4; 5; 6; 7], s3).
Proof.
  apply (@pushFront_then_peekAll _ LogicalPageID LogicalPageID_codec fstL
           Examples.aloneReadPage Examples.aloneFreePage Examples.aloneNewPageID
           Examples.aloneUpdatePage Examples.alonePages Examples.aloneAllocated
           (fun _ _ => eq_refl) (fun _ _ => eq_refl) (fun _ _ => eq_refl)
           alone_readPage alone_freePage alone_updatePage alone_newPageID
           (fun _ => eq_refl) (fun _ => eq_refl)
           [5; 6; 7] [3; 4] Examples.newQueue 28 1 1 0 6);
    [reflexivity | discriminate | vm_compute; reflexivity | reflexivity
    | repeat constructor; vm_compute; discriminate | simpl; lia].
Defined.

(** The theorem at work on the new queue: pushes that are not flushed are
    not popped, a pop takes the item pushed first, and a push to the front
    comes before what is left. *)
Lemma queue_refines_witness :
  exists s1 s2,
    runOps fstL Examples.aloneReadPage Examples.aloneFreePage Examples.aloneNewPageID
      Examples.aloneUpdatePage
      [PushBack 5; PushBack 6; Pop None; Flush; PushBack 7; PushFront 4; Pop None; Flush;
       Pop (Some 3); Pop None]
      Examples.newQueue
      = (Ok [None; None; None; None; None; None; Some 5; None; None; Some 4], s1) /\
    peekAll_impl fstL Examples.aloneReadPage Examples.aloneFreePage 3 s1
      = (Ok [6; 7], s2).
Proof.
  apply (@queue_refines _ LogicalPageID LogicalPageID_codec fstL
           Examples.aloneReadPage Examples.aloneFreePage Examples.aloneNewPageID
           Examples.aloneUpdatePage Examples.alonePages Examples.aloneAllocated
           (fun _ _ => eq_refl) (fun _ _ => eq_refl) (fun _ _ => eq_refl)
           alone_readPage alone_freePage alone_updatePage alone_newPageID
           (fun _ => eq_refl) (fun _ => eq_refl)
           [PushBack 5; PushBack 6; Pop None; Flush; PushBack 7; PushFront 4; Pop None; Flush;
            Pop (Some 3); Pop None]
           Examples.newQueue 28 1 1 0 3);
    [reflexivity | discriminate | vm_compute; reflexivity | reflexivity
    | repeat constructor; vm_compute; discriminate | simpl; lia].
Defined.

(** The theorem at work on the new queue: three page identifiers pushed and
    flushed, the queue recovered from its state, a pop, a push to the front
    and a flush. *)
Lemma getState_then_recover_witness :
  exists s0 s1 s2 s3,
    runOps fstL Examples.aloneReadPage Examples.aloneFreePage Examples.aloneNewPageID
      Examples.aloneUpdatePage [PushBack 5; PushBack 6; PushBack 7] Examples.newQueue
      = (Ok [None; None; None], s0) /\
    flush_impl fstL Examples.aloneNewPageID Examples.aloneUpdatePage 3 s0 = (Ok tt, s1) /\
    runOps fstL Examples.aloneReadPage Examples.aloneFreePage Examples.aloneNewPageID
      Examples.aloneUpdatePage [Pop None; PushFront 4; Flush]
      (over fstL (fun q => recover 28 (getState q)) s1)
      = (Ok [Some 5; None; None], s2) /\
    peekAll_impl fstL Examples.aloneReadPage Examples.aloneFreePage 4 s2
      = (Ok [4; 6; 7], s3).
Proof.
  apply (@getState_then_recover _ LogicalPageID LogicalPageID_codec fstL
           Examples.aloneReadPage Examples.aloneFreePage Examples.aloneNewPageID
           Examples.aloneUpdatePage Examples.alonePages Examples.aloneAllocated
           (fun _ _ => eq_refl) (fun _ _ => eq_refl) (fun _ _ => eq_refl)
           alone_readPage alone_freePage alone_updatePage alone_newPageID
           (fun _ => eq_refl) (fun _ => eq_refl)
           [PushBack 5; PushBack 6; PushBack 7] [Pop None; PushFront 4; Flush]
           Examples.newQueue 28 1 1 0 4);
    [reflexivity | discriminate | vm_compute; reflexivity | reflexivity
    | repeat constructor; vm_compute; discriminate | simpl; lia].
Defined.
End FIFOQueueOrder.

(** ** The bytes of a lazy delete queue entry *)
Module LazyDeleteQueueEntryFacts.
Import DeltaFacts.

Lemma int64_mod z : int64 (z mod 2 ^ 64) = int64 z.
Proof. unfold int64. rewrite Z.add_mod_idemp_l by lia. reflexivity. Qed.

Lemma length_pageBytes (ids : list Z) :
  length (mjoin (toBytes 8 <$> ids)) = (8 * length ids)%nat.
Proof.
  induction ids as [|a ids IH]; [reflexivity|].
  change (mjoin (toBytes 8 <$> a :: ids)) with (toBytes 8 a ++ mjoin (toBytes 8 <$> ids)).
  rewrite length_app, length_toBytes, IH. cbn [length]. lia.
Qed.

Lemma read_pageBytes (ids : list Z) rest :
  forall i p, ids !! i = Some p ->
    Delta.read (8 * i) 8 (mjoin (toBytes 8 <$> ids) ++ rest) = toBytes 8 p.
Proof.
  induction ids as [|a ids IH]; intros i p Hi; [discriminate|].
  change (mjoin (toBytes 8 <$> a :: ids)) with (toBytes 8 a ++ mjoin (toBytes 8 <$> ids)).
  rewrite <- app_assoc. destruct i as [|i]; cbn [lookup list_lookup] in Hi.
  - injection Hi as ->. unfold Delta.read. change (8 * 0)%nat with 0%nat.
    rewrite drop_0. apply take_app_length'. now rewrite length_toBytes.
  - unfold Delta.read. replace (8 * S i)%nat with (length (toBytes 8 a) + 8 * i)%nat
      by (rewrite length_toBytes; lia).
    rewrite drop_app_add. apply (IH i p Hi).
Qed.

Lemma pageIDs_read (ids : list Z) (c : nat) (d : list Z) :
  (c <= length ids)%nat ->
  Forall (fun p => 0 <= p < 2 ^ 64) ids ->
  (forall i p, ids !! i = Some p -> Delta.read (9 + 8 * i) 8 d = toBytes 8 p) ->
  (fun i => fromBytes (Delta.read (9 + 8 * i) 8 d)) <$> seq 0 c = take c ids.
Proof.
  intros Hc Hrange Hread. apply list_eq. intros i.
  rewrite list_lookup_fmap.
  destruct (decide (i < c)%nat) as [Hi | Hi].
  - rewrite lookup_seq_lt by exact Hi. change (0 + i)%nat with i.
    cbn [fmap option_fmap option_map].
    rewrite lookup_take_lt by exact Hi.
    destruct (lookup_lt_is_Some_2 ids i ltac:(lia)) as [p Hp].
    rewrite Hp, (Hread i p Hp), fromBytes_toBytes. f_equal.
    apply Z.mod_small. change (256 ^ Z.of_nat 8) with (2 ^ 64).
    exact (proj1 (Forall_lookup _ _) Hrange i p Hp).
  - rewrite lookup_seq_ge by lia. rewrite lookup_take_ge by lia. reflexivity.
Qed.

Lemma writeToBytes_run (x : LazyDeleteQueueEntry.t) (dst : list Z) :
  (9 + 8 * length (LazyDeleteQueueEntry.pageID x) <= length dst)%nat ->
  LazyDeleteQueueEntryCodec.writeToBytes dst x
  = Some (toBytes 8 (LazyDeleteQueueEntry.version x)
            ++ [Z.of_nat (length (LazyDeleteQueueEntry.pageID x)) mod 256]
            ++ mjoin (toBytes 8 <$> LazyDeleteQueueEntry.pageID x)
            ++ drop (9 + 8 * length (LazyDeleteQueueEntry.pageID x)) dst,
          LazyDeleteQueueEntryCodec.bytesNeeded x).
Proof.
  intros Hlen. destruct x as [v ids]. cbn [LazyDeleteQueueEntry.version
    LazyDeleteQueueEntry.pageID] in *.
  unfold LazyDeleteQueueEntryCodec.writeToBytes.
  cbn [LazyDeleteQueueEntry.version LazyDeleteQueueEntry.pageID].
  change (toBytes 1 (Z.of_nat (length ids))) with [Z.of_nat (length ids) mod 256].
  pose proof (store_end [] (toBytes 8 v) 0 dst eq_refl) as H0.
  rewrite length_toBytes, drop_0 in H0. cbn [app Nat.add] in H0.
  rewrite H0 by lia. cbn [mbind option_bind].
  pose proof (store_end (toBytes 8 v) [Z.of_nat (length ids) mod 256] 8 dst
                (length_toBytes 8 v)) as H1.
  cbn [length] in H1. rewrite H1 by lia. cbn [mbind option_bind].
  pose proof (store_end (toBytes 8 v ++ [Z.of_nat (length ids) mod 256])
                (mjoin (toBytes 8 <$> ids)) 9 dst) as H2.
  rewrite length_pageBytes in H2.
  change (8 + 1)%nat with 9%nat. rewrite H2.
  - cbn [mbind option_bind]. rewrite <- !app_assoc. reflexivity.
  - rewrite length_app, length_toBytes. reflexivity.
  - lia.
Qed.

Lemma readFromBytes_written (v : Z) (ids rest : list Z) :
  - 2 ^ 63 <= v < 2 ^ 63 ->
  Forall (fun p => 0 <= p < 2 ^ 64) ids ->
  LazyDeleteQueueEntryCodec.readFromBytes
    (toBytes 8 v ++ [Z.of_nat (length ids) mod 256] ++ mjoin (toBytes 8 <$> ids) ++ rest)
  = (LazyDeleteQueueEntry.mk v (take (length ids mod 256) ids),
     LazyDeleteQueueEntryCodec.bytesNeeded
       (LazyDeleteQueueEntry.mk v (take (length ids mod 256) ids))).
Proof.
  intros Hv Hids. unfold LazyDeleteQueueEntryCodec.readFromBytes. cbv zeta.
  set (d := toBytes 8 v ++ _).
  assert (Hversion : Delta.read 0 8 d = toBytes 8 v).
  { unfold d. apply (read_app [] (toBytes 8 v) _ 0 8 eq_refl), length_toBytes. }
  assert (Hcount : Delta.read 8 1 d = [Z.of_nat (length ids) mod 256]).
  { unfold d. apply (read_app (toBytes 8 v) [_] _ 8 1); [apply length_toBytes | reflexivity]. }
  assert (Hpage : forall i p, ids !! i = Some p -> Delta.read (9 + 8 * i) 8 d = toBytes 8 p).
  { intros i p Hp. unfold d, Delta.read.
    rewrite (app_assoc (toBytes 8 v) [_]).
    replace 9%nat with (length (toBytes 8 v ++ [Z.of_nat (length ids) mod 256]))
      by (rewrite length_app, length_toBytes; reflexivity).
    rewrite drop_app_add. apply (read_pageBytes ids rest i p Hp). }
  rewrite Hversion, Hcount, fromBytes_toBytes.
  change (256 ^ Z.of_nat 8) with (2 ^ 64). rewrite int64_mod, (int64_fits v Hv).
  cbn [fromBytes]. rewrite Z.mul_0_r, Z.add_0_r.
  replace (Z.to_nat (Z.of_nat (length ids) mod 256)) with (length ids mod 256)%nat
    by (change 256 with (Z.of_nat 256); rewrite <- Nat2Z.inj_mod, Nat2Z.id; reflexivity).
  rewrite (pageIDs_read ids (length ids mod 256) d); [reflexivity | | exact Hids | exact Hpage].
  apply Nat.Div0.mod_le.
Qed.

(** An entry of the lazy delete queue, written to the bytes of a page
    that has room for it and read back: the version is the one written, and
    the page identifiers are the first [n mod 256] of the [n] written, since
    their count is kept in one byte.  What is read is the entry written, and
    takes as many bytes, when the entry has fewer than 256 page identifiers,
    and only then. *)
Theorem writeToBytes_readFromBytes (x : LazyDeleteQueueEntry.t) (dst : list Z) :
  - 2 ^ 63 <= LazyDeleteQueueEntry.version x < 2 ^ 63 ->
  Forall (fun p => 0 <= p < 2 ^ 64) (LazyDeleteQueueEntry.pageID x) ->
  (9 + 8 * length (LazyDeleteQueueEntry.pageID x) <= length dst)%nat ->
  exists d,
    LazyDeleteQueueEntryCodec.writeToBytes dst x
      = Some (d, LazyDeleteQueueEntryCodec.bytesNeeded x) /\
    length d = length dst /\
    fst (LazyDeleteQueueEntryCodec.readFromBytes d)
      = LazyDeleteQueueEntry.mk (LazyDeleteQueueEntry.version x)
          (take (length (LazyDeleteQueueEntry.pageID x) mod 256)
             (LazyDeleteQueueEntry.pageID x)) /\
    (LazyDeleteQueueEntryCodec.readFromBytes d
       = (x, LazyDeleteQueueEntryCodec.bytesNeeded x)
     <-> (length (LazyDeleteQueueEntry.pageID x) < 256)%nat).
Proof.
  intros Hv Hids Hlen. eexists. split; [apply writeToBytes_run; exact Hlen|].
  destruct x as [v ids].
  cbn [LazyDeleteQueueEntry.version LazyDeleteQueueEntry.pageID] in *.
  split; [|rewrite (readFromBytes_written v ids _ Hv Hids); split].
  - rewrite !length_app, length_toBytes, length_pageBytes, length_drop.
    cbn [length]. lia.
  - reflexivity.
  - split.
    + intros Heq. injection Heq as Htake _.
      apply (f_equal length) in Htake. rewrite length_take in Htake.
      pose proof (Nat.mod_upper_bound (length ids) 256). lia.
    + intros Hsmall. rewrite Nat.mod_small by exact Hsmall.
      rewrite take_ge by lia. reflexivity.
Qed.

(** The theorem at work on an entry of two page identifiers. *)
Lemma writeToBytes_readFromBytes_witness :
  exists d,
    LazyDeleteQueueEntryCodec.writeToBytes (replicate 32 0) (LazyDeleteQueueEntry.mk 7 [5; 6])
      = Some (d, LazyDeleteQueueEntryCodec.bytesNeeded (LazyDeleteQueueEntry.mk 7 [5; 6])) /\
    length d = length (replicate 32 0) /\
    fst (LazyDeleteQueueEntryCodec.readFromBytes d)
      = LazyDeleteQueueEntry.mk 7 (take (2 mod 256) [5; 6]) /\
    (LazyDeleteQueueEntryCodec.readFromBytes d
       = (LazyDeleteQueueEntry.mk 7 [5; 6],
          LazyDeleteQueueEntryCodec.bytesNeeded (LazyDeleteQueueEntry.mk 7 [5; 6]))
     <-> (2 < 256)%nat).
Proof.
  apply (writeToBytes_readFromBytes (LazyDeleteQueueEntry.mk 7 [5; 6]) (replicate 32 0));
    [simpl; lia | repeat constructor; simpl; lia | simpl; lia].
Defined.
End LazyDeleteQueueEntryFacts.
